(** * Scalabel annotation session (app/js/sat.js): model and properties

    A shallow embedding of the session code of [sat.js]: the session object
    [Sat], its items ([SatItem] / [SatImage]), its labels ([SatLabel]) and
    the colour palette, followed by the properties of cascading deletion,
    chain deletion, navigation, hit testing, and encoding / decoding, and
    by those of loading and saving, the registry of label ids, visibility,
    roots and colours, the pointer press, and the event log.

    - Objects.  JavaScript objects are shared and mutated in place, so label
      objects live in a store.  Every label object this file constructs is
      pushed on [Sat.labels] in the same step ([Sat.newLabel],
      [Sat.decodeBaseJson]) and nothing is ever removed from that array: the
      store is [Sat.labels] itself and the identity of a label object is its
      position there.  Items are likewise identified by their position in
      [Sat.items].  A variable that holds a label is a [ref]: [null],
      [undefined] or an object.
    - Numbers.  Ids, indices, counts and coordinates are integers ([Z]);
      [%] is the truncating remainder [Z.rem].  Where the doubles of
      JavaScript part from the integers, their arithmetic is written out
      ([Number]): the quotient that [pickColorPalette] floors, the product
      that [blendColor] rounds, and the increment of [newLabelId], which
      is rounded beyond [2^53].
    - Effects.  A method is a function from the session to an outcome and
      the session it leaves.  A [TypeError] (property access on [null] or
      [undefined]) is the outcome [Throw]; a position outside the store
      has no counterpart in JavaScript and reading it is a [Throw] too.
    - Loops.  A loop over an array that its body does not write runs over
      the array as a list.  Computations whose termination depends on the
      data (the recursive [delete], the walks from item to item) take fuel,
      and [OutOfFuel] stands for a run that has not finished within it;
      [delete_more_fuel] and [spliceLoop_fuel_suffices] show that the fuel
      does not change what a finished run returns.
    - The page.  Canvas, DOM and network calls are left out; what they
      return to the code (the pixel under the pointer, the clock, the user
      agent) is a parameter of the method that asks for it.  The canvases
      themselves are fields that [setActive(true)] sets together with
      [state]: on an item that never was active they are [undefined], and
      the methods that paint or sample ([redraw], [_getSelected],
      [_isWithinFrame]) throw. *)

From stdpp Require Import base option list gmap strings.
From Stdlib Require Import ZArith Lia.
From Stdlib Require Floats.SpecFloat.

Local Open Scope Z_scope.

(** ** Values *)

(** Position of a label object in [Sat.labels]. *)
Abbreviation addr := nat.

(** A variable holding [null], [undefined] or a label object. *)
Inductive ref : Type :=
| RNull
| RUndef
| RObj (a : addr).

#[global] Instance ref_eq_dec : EqDecision ref.
Proof. solve_decision. Defined.

(** Truthiness of a reference: [if (r)]. *)
Definition truthy (r : ref) : bool :=
  match r with RObj _ => true | _ => false end.

(** [arr[k]] for a number [k]: [undefined] outside [0 .. length-1]. *)
Definition lookupZ {A : Type} (l : list A) (k : Z) : option A :=
  if k <? 0 then None else l !! Z.to_nat k.

(** States of the pointer interaction of a [SatImage]. *)
Inductive istate : Type := Free | Resize | Move.

#[global] Instance istate_eq_dec : EqDecision istate.
Proof. solve_decision. Defined.

(** ** Doubles *)

(** JavaScript numbers are IEEE 754 doubles: the binary64 format of the
    Standard Library's specification of floating-point arithmetic, which
    rounds to the nearest double, a tie going to the even mantissa. *)
Module Number.
Import SpecFloat.

Definition double : Type := spec_float.

Definition prec : Z := 53.
Definition emax : Z := 1024.

(** The double of an integer: the integer itself up to [2^53] in absolute
    value, the nearest double beyond. *)
Definition ofZ (z : Z) : double := binary_normalize prec emax z 0 false.

(** [x + y], [x * y] and [x / y]. *)
Definition add : double → double → double := SFadd prec emax.
Definition mul : double → double → double := SFmul prec emax.
Definition div : double → double → double := SFdiv prec emax.

(** What [Math.round] and [Math.floor] return: an integer, an infinity or
    [NaN]. *)
Inductive rounded : Type :=
| RInt (z : Z)
| RInf (negative : bool)
| RNaN.

(** [Math.round]: the nearest integer, a tie going up.  A finite double is
    [n * 2^e]; for [e < 0] its rounding is
    [floor ((2 n + 2^(-e)) / 2^(1 - e))]. *)
Definition round (f : double) : rounded :=
  match f with
  | S754_zero _ => RInt 0
  | S754_infinity sg => RInf sg
  | S754_nan => RNaN
  | S754_finite sg m e =>
    let n := if sg then Z.neg m else Z.pos m in
    RInt (if 0 <=? e then n * 2 ^ e
          else (2 * n + 2 ^ (- e)) / 2 ^ (1 - e))
  end.

(** [Math.floor]: for [e < 0] the floor of [n * 2^e] is [n / 2^(-e)]. *)
Definition floor (f : double) : rounded :=
  match f with
  | S754_zero _ => RInt 0
  | S754_infinity sg => RInf sg
  | S754_nan => RNaN
  | S754_finite sg m e =>
    let n := if sg then Z.neg m else Z.pos m in
    RInt (if 0 <=? e then n * 2 ^ e else n / 2 ^ (- e))
  end.

(** [x % d] for what [Math.floor] returned: the remainder of an integer
    is exact, that of an infinity or of [NaN] is [NaN] ([None]). *)
Definition rem (x : rounded) (d : Z) : option Z :=
  match x with
  | RInt z => Some (Z.rem z d)
  | _ => None
  end.

(** The ratios [pickColorPalette] passes to [blendColor]: the literals
    [0.4] and [0.2], that is [0x1.999999999999ap-2] and
    [0x1.999999999999ap-3]. *)
Definition tint : double := S754_finite false 7205759403792794 (-54).
Definition shade : double := S754_finite false 7205759403792794 (-55).

(** [n + 1] for an integer [n] that is a double.  Up to [2^53] in
    absolute value the sum is a double.  Beyond, doubles are at least two
    apart and the sum is rounded: where they are two apart it lies halfway
    between [n] and [n + 2] and goes to the one whose mantissa is even;
    where they are further apart it goes back to [n].  That this is the
    sum of doubles is [add_one_exact] up to [2^53] and
    [succ_is_the_sum_of_doubles] at the places beyond where the rounding
    changes. *)
Definition succ (n : Z) : Z :=
  if Z.abs (n + 1) <=? 2 ^ 53 then n + 1
  else if Z.abs (n + 1) <? 2 ^ 54
  then (if Z.even (n / 2) then n else n + 2)
  else n.
End Number.

(** ** Labels *)

Module Label.
(** [function SatLabel(sat, id, ignored)].  [x], [y], [w], [h] are the box
    of the concrete label type that [SatImage._mouseup] reads and writes. *)
Record t : Type := mk {
  id : Z;
  categoryPath : option string;
  parent : ref;
  children : list ref;
  numChildren : Z;
  valid : bool;
  previousLabelId : option Z;
  nextLabelId : option Z;
  keyframe : option bool;
  x : Z;
  y : Z;
  w : Z;
  h : Z
}.

(** The object after the constructor has run; no box yet. *)
Definition new (i : Z) : t :=
  mk i None RNull [] 0 true None None None 0 0 0 0.

Definition set_parent (p : ref) (l : t) : t :=
  mk (id l) (categoryPath l) p (children l) (numChildren l) (valid l)
     (previousLabelId l) (nextLabelId l) (keyframe l) (x l) (y l) (w l) (h l).

Definition set_children (c : list ref) (l : t) : t :=
  mk (id l) (categoryPath l) (parent l) c (numChildren l) (valid l)
     (previousLabelId l) (nextLabelId l) (keyframe l) (x l) (y l) (w l) (h l).

Definition set_numChildren (n : Z) (l : t) : t :=
  mk (id l) (categoryPath l) (parent l) (children l) n (valid l)
     (previousLabelId l) (nextLabelId l) (keyframe l) (x l) (y l) (w l) (h l).

Definition set_valid (v : bool) (l : t) : t :=
  mk (id l) (categoryPath l) (parent l) (children l) (numChildren l) v
     (previousLabelId l) (nextLabelId l) (keyframe l) (x l) (y l) (w l) (h l).

Definition set_box (x' y' w' h' : Z) (l : t) : t :=
  mk (id l) (categoryPath l) (parent l) (children l) (numChildren l) (valid l)
     (previousLabelId l) (nextLabelId l) (keyframe l) x' y' w' h'.
End Label.

(** ** Items *)

Module Item.
(** [function SatItem(sat, index, url)] extended by [SatImage]: the fields
    the pointer handlers and [setActive] write are part of the object.
    [state] is [undefined] until the item has been activated:
    [setActive(true)] gives it its first value in the step in which it
    creates the canvases of the item. *)
Record t : Type := mk {
  index : Z;
  url : string;
  labels : list ref;
  ready : bool;
  active : bool;
  state : option istate;
  lastLabelID : option Z;
  selectedLabel : ref;
  currHandle : option Z;
  resizeID : option Z;
  movePos : option (Z * Z);
  moveClickPos : option (Z * Z)
}.

Definition new (i : Z) (u : string) : t :=
  mk i u [] false false None None RUndef None None None None.

Definition set_index (i : Z) (it : t) : t :=
  mk i (url it) (labels it) (ready it) (active it) (state it)
     (lastLabelID it) (selectedLabel it) (currHandle it) (resizeID it)
     (movePos it) (moveClickPos it).

Definition set_url (u : string) (it : t) : t :=
  mk (index it) u (labels it) (ready it) (active it) (state it)
     (lastLabelID it) (selectedLabel it) (currHandle it) (resizeID it)
     (movePos it) (moveClickPos it).

Definition set_labels (ls : list ref) (it : t) : t :=
  mk (index it) (url it) ls (ready it) (active it) (state it)
     (lastLabelID it) (selectedLabel it) (currHandle it) (resizeID it)
     (movePos it) (moveClickPos it).

Definition set_ready (b : bool) (it : t) : t :=
  mk (index it) (url it) (labels it) b (active it) (state it)
     (lastLabelID it) (selectedLabel it) (currHandle it) (resizeID it)
     (movePos it) (moveClickPos it).

Definition set_active (b : bool) (it : t) : t :=
  mk (index it) (url it) (labels it) (ready it) b (state it)
     (lastLabelID it) (selectedLabel it) (currHandle it) (resizeID it)
     (movePos it) (moveClickPos it).

Definition set_state (st : option istate) (it : t) : t :=
  mk (index it) (url it) (labels it) (ready it) (active it) st
     (lastLabelID it) (selectedLabel it) (currHandle it) (resizeID it)
     (movePos it) (moveClickPos it).

Definition set_lastLabelID (n : option Z) (it : t) : t :=
  mk (index it) (url it) (labels it) (ready it) (active it) (state it)
     n (selectedLabel it) (currHandle it) (resizeID it)
     (movePos it) (moveClickPos it).

Definition set_selectedLabel (r : ref) (it : t) : t :=
  mk (index it) (url it) (labels it) (ready it) (active it) (state it)
     (lastLabelID it) r (currHandle it) (resizeID it)
     (movePos it) (moveClickPos it).

Definition set_currHandle (hd : option Z) (it : t) : t :=
  mk (index it) (url it) (labels it) (ready it) (active it) (state it)
     (lastLabelID it) (selectedLabel it) hd (resizeID it)
     (movePos it) (moveClickPos it).

Definition set_resizeID (n : option Z) (it : t) : t :=
  mk (index it) (url it) (labels it) (ready it) (active it) (state it)
     (lastLabelID it) (selectedLabel it) (currHandle it) n
     (movePos it) (moveClickPos it).

Definition set_movePos (p : option (Z * Z)) (it : t) : t :=
  mk (index it) (url it) (labels it) (ready it) (active it) (state it)
     (lastLabelID it) (selectedLabel it) (currHandle it) (resizeID it)
     p (moveClickPos it).

Definition set_moveClickPos (p : option (Z * Z)) (it : t) : t :=
  mk (index it) (url it) (labels it) (ready it) (active it) (state it)
     (lastLabelID it) (selectedLabel it) (currHandle it) (resizeID it)
     (movePos it) p.
End Item.

(** ** The session *)

(** An entry of [Sat.events]. *)
Record Event : Type := mkEvent {
  timestamp : Z;
  action : string;
  itemIndex : Z;
  labelId : Z;
  position : option (Z * Z)
}.

(** [function Sat(ItemType, LabelType)].  [currentItem] is [None] for
    [null] / [undefined], both of which make a method call on it throw. *)
Record Sat : Type := mkSat {
  items : list Item.t;
  labels : list Label.t;
  labelIdMap : gmap Z addr;
  lastLabelId : Z;
  currentItem : option nat;
  events : list Event;
  startTime : Z;
  projectName : option string;
  categories : option string;
  ipInfo : option string
}.

(** The session right after the constructor. *)
Definition Sat_new (start : Z) : Sat :=
  mkSat [] [] ∅ (-1) None [] start None None None.

Definition set_items (f : list Item.t → list Item.t) (s : Sat) : Sat :=
  mkSat (f (items s)) (labels s) (labelIdMap s) (lastLabelId s)
        (currentItem s) (events s) (startTime s) (projectName s)
        (categories s) (ipInfo s).

Definition set_labels (f : list Label.t → list Label.t) (s : Sat) : Sat :=
  mkSat (items s) (f (labels s)) (labelIdMap s) (lastLabelId s)
        (currentItem s) (events s) (startTime s) (projectName s)
        (categories s) (ipInfo s).

Definition set_labelIdMap (f : gmap Z addr → gmap Z addr) (s : Sat) : Sat :=
  mkSat (items s) (labels s) (f (labelIdMap s)) (lastLabelId s)
        (currentItem s) (events s) (startTime s) (projectName s)
        (categories s) (ipInfo s).

Definition set_lastLabelId (n : Z) (s : Sat) : Sat :=
  mkSat (items s) (labels s) (labelIdMap s) n
        (currentItem s) (events s) (startTime s) (projectName s)
        (categories s) (ipInfo s).

Definition set_currentItem (c : option nat) (s : Sat) : Sat :=
  mkSat (items s) (labels s) (labelIdMap s) (lastLabelId s)
        c (events s) (startTime s) (projectName s)
        (categories s) (ipInfo s).

Definition set_events (f : list Event → list Event) (s : Sat) : Sat :=
  mkSat (items s) (labels s) (labelIdMap s) (lastLabelId s)
        (currentItem s) (f (events s)) (startTime s) (projectName s)
        (categories s) (ipInfo s).

Definition set_categories (c : option string) (s : Sat) : Sat :=
  mkSat (items s) (labels s) (labelIdMap s) (lastLabelId s)
        (currentItem s) (events s) (startTime s) (projectName s)
        c (ipInfo s).

(** ** Computations on the session *)

Inductive outcome (A : Type) : Type :=
| Done (a : A)
| Throw
| OutOfFuel.

Arguments Done {A} a.
Arguments Throw {A}.
Arguments OutOfFuel {A}.

(** A method: it runs on the session, mutates it, and returns, throws or
    runs out of fuel.  The mutations made before a throw stay. *)
Definition M (A : Type) : Type := Sat → outcome A * Sat.

#[global] Instance M_ret : MRet M := λ A a s, (Done a, s).

#[global] Instance M_bind : MBind M := λ A B f m s,
  match m s with
  | (Done a, s') => f a s'
  | (Throw, s') => (Throw, s')
  | (OutOfFuel, s') => (OutOfFuel, s')
  end.

Definition throw {A : Type} : M A := λ s, (Throw, s).
Definition diverge {A : Type} : M A := λ s, (OutOfFuel, s).
Definition gets {A : Type} (f : Sat → A) : M A := λ s, (Done (f s), s).
Definition modify (f : Sat → Sat) : M unit := λ s, (Done tt, f s).

(** Unwrap a value that must be an object. *)
Definition defined {A : Type} (o : option A) : M A :=
  match o with Some a => mret a | None => throw end.

(** Read the label object behind a reference ([r.field]). *)
Definition deref (r : ref) : M Label.t :=
  match r with
  | RObj a => s ← gets labels; defined (s !! a)
  | _ => throw
  end.

(** Write a field of the label object at [a]. *)
Definition setLabel (a : addr) (f : Label.t → Label.t) : M unit :=
  modify (set_labels (alter f a)).

(** Read / write the item object at position [i] of [Sat.items]. *)
Definition getItem (i : nat) : M Item.t :=
  its ← gets items; defined (its !! i).

Definition setItem (i : nat) (f : Item.t → Item.t) : M unit :=
  modify (set_items (alter f i)).

(** [labelIdMap[k]]; the key of an [undefined] id is never present. *)
Definition lookupId (m : gmap Z addr) (k : option Z) : ref :=
  match k ≫= (m !!.) with
  | Some a => RObj a
  | None => RUndef
  end.

(** [for (x of l) f(x)] over an array that the body does not change. *)
Fixpoint forM_ {A : Type} (l : list A) (f : A → M unit) : M unit :=
  match l with
  | [] => mret tt
  | a :: l' => f a;; forM_ l' f
  end.

(** ** Wire documents *)

Module LabelJson.
Record t : Type := mk {
  id : Z;
  categoryPath : option string;
  parent : Z;
  children : option (list Z);
  previousLabelId : Z;
  nextLabelId : Z;
  keyframe : option bool
}.
End LabelJson.

Module ItemJson.
Record t : Type := mk {
  url : string;
  index : Z;
  labelIds : option (list Z)
}.
End ItemJson.

Module SatJson.
Record t : Type := mk {
  projectName : option string;
  startTime : Z;
  items : list ItemJson.t;
  labels : option (list LabelJson.t);
  categories : option string;
  events : list Event;
  userAgent : string;
  ipInfo : option string
}.
End SatJson.

(** ** SatLabel *)

(** The bottom-up step of [delete], where [self] is [this] as read and
    [rec] is the recursive call:
    [if (this.parent !== null) {
       this.parent.numChildren -= 1;
       if (this.parent.numChildren === 0) this.parent.delete(); }] *)
Definition deleteParent (rec : addr → M unit) (self : Label.t) : M unit :=
  match Label.parent self with
  | RNull => mret tt
  | RUndef => throw
  | RObj p =>
    pl ← deref (RObj p);
    setLabel p (Label.set_numChildren (Label.numChildren pl - 1));;
    pl' ← deref (RObj p);
    if Label.numChildren pl' =? 0 then rec p else mret tt
  end.

(** The top-down step of [delete] for one entry of [this.children]:
    [this.children[i].parent = null; this.children[i].delete();] *)
Definition deleteChild (rec : addr → M unit) (c : ref) : M unit :=
  match c with
  | RObj ca => setLabel ca (Label.set_parent RNull);; rec ca
  | _ => throw
  end.

(** [SatLabel.prototype.delete], called on the label object at [a].
    The [children] array is not written by [delete] (see
    [delete_only_deletes]), so the loop runs over the array as read. *)
Fixpoint delete (fuel : nat) (a : addr) : M unit :=
  match fuel with
  | O => diverge
  | S n =>
    setLabel a (Label.set_valid false);;
    self ← deref (RObj a);
    deleteParent (delete n) self;;
    self' ← deref (RObj a);
    forM_ (Label.children self') (deleteChild (delete n))
  end.

(** [SatLabel.prototype.addChild]. *)
Definition addChild (a : addr) (child : ref) : M unit :=
  self ← deref (RObj a);
  setLabel a (Label.set_numChildren (Label.numChildren self + 1));;
  self' ← deref (RObj a);
  setLabel a (Label.set_children (Label.children self' ++ [child])).

(** The loop shared by the two encoders:
    [if (arr[i].valid) out.push(arr[i].id)]. *)
Fixpoint validIds (rs : list ref) : M (list Z) :=
  match rs with
  | [] => mret []
  | r :: rs' =>
    l ← deref r;
    rest ← validIds rs';
    mret (if Label.valid l then Label.id l :: rest else rest)
  end.

(** [if (v) out = v] on a number: [undefined] and [0] are falsy. *)
Definition idOrMinus1 (v : option Z) : Z :=
  match v with
  | Some n => if n =? 0 then -1 else n
  | None => -1
  end.

(** [SatLabel.prototype.encodeBaseJson] (and [toJson]). *)
Definition SatLabel_encodeBaseJson (a : addr) : M LabelJson.t :=
  self ← deref (RObj a);
  p ← (if truthy (Label.parent self)
       then pl ← deref (Label.parent self); mret (Label.id pl)
       else mret (-1));
  ch ← (if (0 <? length (Label.children self))%nat
        then ids ← validIds (Label.children self); mret (Some ids)
        else mret None);
  mret (LabelJson.mk (Label.id self) (Label.categoryPath self) p ch
          (idOrMinus1 (Label.previousLabelId self))
          (idOrMinus1 (Label.nextLabelId self))
          (Label.keyframe self)).

Definition SatLabel_toJson (a : addr) : M LabelJson.t :=
  SatLabel_encodeBaseJson a.

(** [SatLabel.prototype.decodeBaseJsonVariables] on a label object. *)
Definition decodeBaseJsonVariables (json : LabelJson.t) (l : Label.t) : Label.t :=
  Label.mk (LabelJson.id json) (LabelJson.categoryPath json)
    (Label.parent l) (Label.children l) (Label.numChildren l) (Label.valid l)
    (if -1 <? LabelJson.previousLabelId json
     then Some (LabelJson.previousLabelId json) else Label.previousLabelId l)
    (if -1 <? LabelJson.nextLabelId json
     then Some (LabelJson.nextLabelId json) else Label.nextLabelId l)
    (LabelJson.keyframe json)
    (Label.x l) (Label.y l) (Label.w l) (Label.h l).

(** [SatLabel.prototype.decodeBaseJsonPointers] (and [fromJsonPointers]). *)
Definition decodeBaseJsonPointers (a : addr) (json : LabelJson.t) : M unit :=
  (if -1 <? LabelJson.parent json
   then m ← gets labelIdMap;
        setLabel a (Label.set_parent (lookupId m (Some (LabelJson.parent json))))
   else mret tt);;
  match LabelJson.children json with
  | Some childrenIds =>
    forM_ childrenIds (λ c,
      m ← gets labelIdMap; addChild a (lookupId m (Some c)))
  | None => mret tt
  end.

(** ** SatItem and SatImage *)

(** [sat.items[k]] as an item object: its position, if there is one. *)
Definition itemAt (its : list Item.t) (k : Z) : option nat :=
  if (0 <=? k) && (k <? Z.of_nat (length its)) then Some (Z.to_nat k) else None.

(** [SatItem.prototype.previousItem]; [None] is [null] or [undefined]. *)
Definition previousItem (self : nat) : M (option nat) :=
  it ← getItem self;
  if Item.index it =? 0 then mret None
  else its ← gets items; mret (itemAt its (Item.index it - 1)).

(** [SatItem.prototype.nextItem]. *)
Definition nextItem (self : nat) : M (option nat) :=
  it ← getItem self;
  its ← gets items;
  if Z.of_nat (length its) <=? Item.index it + 1 then mret None
  else mret (itemAt its (Item.index it + 1)).

(** [SatItem.prototype.toJson]. *)
Definition SatItem_toJson (self : nat) : M ItemJson.t :=
  it ← getItem self;
  labelIds ← validIds (Item.labels it);
  mret (ItemJson.mk (Item.url it) (Item.index it) (Some labelIds)).

(** [SatItem.prototype.fromJson]. *)
Definition SatItem_fromJson (self : nat) (selfJson : ItemJson.t) : M unit :=
  setItem self (Item.set_url (ItemJson.url selfJson));;
  setItem self (Item.set_index (ItemJson.index selfJson));;
  match ItemJson.labelIds selfJson with
  | Some ids =>
    forM_ ids (λ i,
      m ← gets labelIdMap;
      it ← getItem self;
      setItem self (Item.set_labels (Item.labels it ++ [lookupId m (Some i)])))
  | None => mret tt
  end.

(** The search of [deleteLabelById]: the first [i] with
    [self.labels[i].id === labelId].  Nothing is written before the match. *)
Fixpoint findLabel (labelId : Z) (rs : list ref) (i : nat) : M (option nat) :=
  match rs with
  | [] => mret None
  | r :: rs' =>
    l ← deref r;
    if Label.id l =? labelId then mret (Some i)
    else findLabel labelId rs' (S i)
  end.

(** [if (it.selectedLabel && it.selectedLabel.id === k)
       { it.selectedLabel = null; it.currHandle = null; }] *)
Definition unselect (cur : nat) (k : M Z) : M unit :=
  it ← getItem cur;
  if truthy (Item.selectedLabel it) then
    sl ← deref (Item.selectedLabel it);
    kid ← k;
    if Label.id sl =? kid then
      setItem cur (Item.set_selectedLabel RNull);;
      setItem cur (Item.set_currHandle None)
    else mret tt
  else mret tt.

(** The inner loop of [deleteLabelById] from index [j] on:
    [for (; j < currentItem.labels.length; j++)
       if (currentItem.labels[j].id === currentLabel.id) { splice; ... }].
    The array shrinks while the index advances; [n] bounds the number of
    iterations left and is at least the length of the array. *)
Fixpoint spliceLoop (n : nat) (cur : nat) (currentLabel : ref) (j : nat) : M unit :=
  it ← getItem cur;
  if (j <? length (Item.labels it))%nat then
    match n with
    | O => diverge
    | S n' =>
      lj ← deref (default RUndef (Item.labels it !! j));
      cl ← deref currentLabel;
      (if Label.id lj =? Label.id cl then
         setItem cur (Item.set_labels (base.delete j (Item.labels it)));;
         unselect cur (cl' ← deref currentLabel; mret (Label.id cl'))
       else mret tt);;
      spliceLoop n' cur currentLabel (S j)
    end
  else mret tt.

(** One of the two [while (currentItem)] loops of [deleteLabelById];
    [backward] chooses [previousItem] / [previousLabelId] over
    [nextItem] / [nextLabelId]. *)
Fixpoint chainWalk (fuel : nat) (backward : bool)
    (currentItem : option nat) (currentLabel : ref) : M unit :=
  match currentItem with
  | None => mret tt
  | Some cur =>
    match fuel with
    | O => diverge
    | S n =>
      it ← getItem cur;
      spliceLoop (length (Item.labels it)) cur currentLabel 0;;
      currentLabel' ←
        (if truthy currentLabel then
           cl ← deref currentLabel;
           m ← gets labelIdMap;
           mret (lookupId m (if backward then Label.previousLabelId cl
                             else Label.nextLabelId cl))
         else mret currentLabel);
      currentItem' ← (if backward then previousItem cur else nextItem cur);
      chainWalk n backward currentItem' currentLabel'
    end
  end.

(** [SatItem.prototype.deleteLabelById]. *)
Definition deleteLabelById (fuel : nat) (self : nat) (labelId : Z)
    (back : bool) : M unit :=
  it ← getItem self;
  found ← findLabel labelId (Item.labels it) 0;
  match found with
  | None => mret tt
  | Some i =>
    currentItem ← previousItem self;
    it1 ← getItem self;
    li ← deref (default RUndef (Item.labels it1 !! i));
    m ← gets labelIdMap;
    (if back
     then chainWalk fuel true currentItem (lookupId m (Label.previousLabelId li))
     else mret tt);;
    currentItem ← nextItem self;
    it2 ← getItem self;
    li2 ← deref (default RUndef (Item.labels it2 !! i));
    m2 ← gets labelIdMap;
    chainWalk fuel false currentItem (lookupId m2 (Label.nextLabelId li2));;
    it3 ← getItem self;
    setItem self (Item.set_labels (base.delete i (Item.labels it3)));;
    unselect self (mret labelId)
  end.

(** [SatImage.prototype.setActive]: the fields it writes.  The canvas
    lookups and the wiring of the buttons and pointer handlers act on the
    page only. *)
Definition setActive (self : nat) (active : bool) : M unit :=
  _ ← getItem self;
  setItem self (Item.set_active active);;
  if active then
    setItem self (Item.set_state (Some Free));;
    setItem self (Item.set_lastLabelID (Some (-1)))
  else mret tt.

(** The canvases of a [SatImage] ([imageCanvas], [hiddenCanvas]) and
    their contexts ([mainCtx], [hiddenCtx]).  Only [setActive(true)]
    creates them, together with the first [state]: an item without a
    [state] has none, and reading a property of one of them throws. *)
Definition canvas (it : Item.t) : M unit :=
  match Item.state it with
  | Some _ => mret tt
  | None => throw
  end.

(** [SatImage.prototype.redraw]: it measures and clears the canvases,
    paints, and calls [redraw] on every entry of [self.labels], which
    throws on an entry that is no object. *)
Definition redraw (self : nat) : M unit :=
  it ← getItem self;
  canvas it;;
  forM_ (Item.labels it) (λ r, _ ← deref r; mret tt).

(** The sampled pixel of the hidden canvas: [getImageData(..).data]. *)
Record Pixel : Type := mkPixel { px_r : Z; px_g : Z; px_b : Z; px_a : Z }.

(** [SatImage.prototype._getSelected], given the pixel under the pointer,
    which it samples from the hidden canvas. *)
Definition _getSelected (self : nat) (pixelData : Pixel) : M (ref * option Z) :=
  it ← getItem self;
  canvas it;;
  let selectedLabelIndex :=
    if px_a pixelData =? 0 then None
    else Some (px_r pixelData * 256 + px_g pixelData) in
  let currHandle :=
    if px_a pixelData =? 0 then None else Some (px_b pixelData - 1) in
  mret (default RUndef (selectedLabelIndex ≫= lookupZ (Item.labels it)),
        currHandle).

(** The two selection walks at the end of [_mouseup]:
    [while (currentItem) { currentItem.selectedLabel = currentLabel;
       currentItem.currHandle = currentItem.selectedLabel.INITIAL_HANDLE; .. }] *)
Fixpoint selectWalk (fuel : nat) (INITIAL_HANDLE : Z) (backward : bool)
    (currentItem : option nat) (currentLabel : ref) : M unit :=
  match currentItem with
  | None => mret tt
  | Some cur =>
    match fuel with
    | O => diverge
    | S n =>
      _ ← getItem cur;
      setItem cur (Item.set_selectedLabel currentLabel);;
      _ ← deref currentLabel;
      setItem cur (Item.set_currHandle (Some INITIAL_HANDLE));;
      cl ← deref currentLabel;
      m ← gets labelIdMap;
      currentItem' ← (if backward then previousItem cur else nextItem cur);
      selectWalk n INITIAL_HANDLE backward currentItem'
        (lookupId m (if backward then Label.previousLabelId cl
                     else Label.nextLabelId cl))
    end
  end.

(** [SatImage.prototype._mouseup].  [isSmall] and [INITIAL_HANDLE] belong to
    the concrete label type and are parameters.  The handler writes
    [state] before it redraws, on canvases it does not create: they are
    those of the item as it was when the handler was entered. *)
Definition _mouseup (fuel : nat) (isSmall : Label.t → bool)
    (INITIAL_HANDLE : Z) (self : nat) : M unit :=
  it ← getItem self;
  (if decide (Item.state it = Some Free) then mret tt
   else
     (if decide (Item.state it = Some Resize) then
        sl ← deref (Item.selectedLabel it);
        (match Item.selectedLabel it with
         | RObj a =>
           (if Label.w sl <? 0 then
              setLabel a (λ l, Label.set_box (Label.x l + Label.w l)
                                 (Label.y l) (Label.w l) (Label.h l) l);;
              setLabel a (λ l, Label.set_box (Label.x l) (Label.y l)
                                 (-1 * Label.w l) (Label.h l) l)
            else mret tt);;
           sl1 ← deref (RObj a);
           (if Label.h sl1 <? 0 then
              setLabel a (λ l, Label.set_box (Label.x l)
                                 (Label.y l + Label.h l) (Label.w l) (Label.h l) l);;
              setLabel a (λ l, Label.set_box (Label.x l) (Label.y l)
                                 (Label.w l) (-1 * Label.h l) l)
            else mret tt);;
           sl2 ← deref (RObj a);
           if isSmall sl2 then
             delete fuel a;;
             setItem self (Item.set_selectedLabel RNull)
           else mret tt
         | _ => throw
         end)
      else mret tt);;
     setItem self (Item.set_state (Some Free));;
     setItem self (Item.set_resizeID None);;
     setItem self (Item.set_movePos None);;
     setItem self (Item.set_moveClickPos None));;
  it' ← getItem self;
  (if truthy (Item.selectedLabel it') then
     sl ← deref (Item.selectedLabel it');
     if truthy (Label.parent sl) then
       m ← gets labelIdMap;
       currentItem ← previousItem self;
       selectWalk fuel INITIAL_HANDLE true currentItem
         (lookupId m (Label.previousLabelId sl));;
       currentItem ← nextItem self;
       it2 ← getItem self;
       sl2 ← deref (Item.selectedLabel it2);
       m2 ← gets labelIdMap;
       selectWalk fuel INITIAL_HANDLE false currentItem
         (lookupId m2 (Label.nextLabelId sl2))
     else mret tt
   else mret tt);;
  canvas it;;
  redraw self.

(** ** Sat *)

(** [Sat.prototype.newItem]: returns the new item object. *)
Definition newItem (u : string) : M nat :=
  its ← gets items;
  modify (set_items (λ l, l ++ [Item.new (Z.of_nat (length its)) u]));;
  mret (length its).

(** [Sat.prototype.newLabelId]; the sum is that of doubles. *)
Definition newLabelId : M Z :=
  n ← gets lastLabelId;
  let newId := Number.succ n in
  modify (set_lastLabelId newId);;
  mret newId.

(** [Sat.prototype.newLabel]; [LabelType] is the constructor of the label
    type applied to the optional attributes. *)
Definition newLabel (LabelType : Z → Label.t) : M addr :=
  i ← newLabelId;
  ls ← gets labels;
  let label := LabelType i in
  let a := length ls in
  modify (set_labelIdMap (<[Label.id label := a]>));;
  modify (set_labels (λ l, l ++ [label]));;
  cur ← gets currentItem;
  c ← defined cur;
  it ← getItem c;
  setItem c (Item.set_labels (Item.labels it ++ [RObj a]));;
  mret a.

(** [Sat.prototype.addEvent]; [now] is the reading of the clock. *)
Definition addEvent (now : Z) (act : string) (idx : Z) (lid : Z)
    (pos : option (Z * Z)) : M unit :=
  modify (set_events (λ l, l ++ [mkEvent now act idx lid pos])).

(** [Sat.prototype.gotoItem]. *)
Definition gotoItem (index : Z) : M unit :=
  its ← gets items;
  let index := Z.rem index (Z.of_nat (length its)) in
  cur ← gets currentItem;
  c ← defined cur;
  setActive c false;;
  its' ← gets items;
  modify (set_currentItem (itemAt its' index));;
  cur' ← gets currentItem;
  c' ← defined cur';
  setActive c' true;;
  redraw c'.

(** The label loop of [Sat.encodeBaseJson]:
    [if (self.labels[i].valid) labels.push(self.labels[i].toJson())]. *)
Fixpoint encodeValid (l : list addr) : M (list LabelJson.t) :=
  match l with
  | [] => mret []
  | a :: l' =>
    lab ← deref (RObj a);
    if Label.valid lab then
      j ← SatLabel_toJson a; rest ← encodeValid l'; mret (j :: rest)
    else encodeValid l'
  end.

(** [Sat.prototype.encodeBaseJson]; the user agent is read from the
    browser. *)
Definition encodeBaseJson (userAgent : string) : M SatJson.t :=
  its ← gets items;
  itemsJ ← mapM SatItem_toJson (seq 0 (length its));
  ls ← gets labels;
  labelsJ ← encodeValid (seq 0 (length ls));
  s ← gets (λ s, s);
  mret (SatJson.mk (projectName s) (startTime s) itemsJ (Some labelsJ)
          (categories s) (events s) userAgent (ipInfo s)).

(** [Sat.prototype.toJson]. *)
Definition toJson (userAgent : string) : M SatJson.t :=
  encodeBaseJson userAgent.

(** First loop body of [Sat.decodeBaseJson]: construct the label, set its
    scalar fields, register it. *)
Definition decodeLabel (j : LabelJson.t) : M unit :=
  last ← gets lastLabelId;
  modify (set_lastLabelId (Z.max last (LabelJson.id j)));;
  let newLabel := decodeBaseJsonVariables j (Label.new (LabelJson.id j)) in
  ls ← gets labels;
  modify (set_labelIdMap (<[Label.id newLabel := length ls]>));;
  modify (set_labels (λ l, l ++ [newLabel])).

(** Second loop body: create the item and restore it. *)
Definition decodeItem (j : ItemJson.t) : M unit :=
  newIt ← newItem (ItemJson.url j);
  SatItem_fromJson newIt j.

(** Third loop body:
    [self.labelIdMap[json.labels[i].id].fromJsonPointers(json.labels[i])]. *)
Definition decodePointers (j : LabelJson.t) : M unit :=
  m ← gets labelIdMap;
  match m !! LabelJson.id j with
  | Some a => decodeBaseJsonPointers a j
  | None => throw
  end.

(** [Sat.prototype.decodeBaseJson] (and [fromJson]); [now] is the reading of
    the clock when the first event is logged. *)
Definition decodeBaseJson (now : Z) (json : SatJson.t) : M unit :=
  forM_ (default [] (SatJson.labels json)) decodeLabel;;
  forM_ (SatJson.items json) decodeItem;;
  its ← gets items;
  modify (set_currentItem (itemAt its 0));;
  cur ← gets currentItem;
  c ← defined cur;
  setActive c true;;
  modify (set_categories (SatJson.categories json));;
  forM_ (default [] (SatJson.labels json)) decodePointers;;
  cur' ← gets currentItem;
  c' ← defined cur';
  it ← getItem c';
  addEvent now "start labeling" (Item.index it) (-1) None.

Definition fromJson (now : Z) (json : SatJson.t) : M unit :=
  decodeBaseJson now json.

(** ** Further methods *)

(** [SatItem.prototype.loaded]; [now] is the reading of the clock. *)
Definition loaded (now : Z) (self : nat) : M unit :=
  setItem self (Item.set_ready true);;
  it ← getItem self;
  addEvent now "loaded" (Item.index it) (-1) None.

(** The loop of [getVisibleLabels]:
    [if (this.labels[i].valid && this.labels[i].numChildren === 0)
       labels.push(this.labels[i])]. *)
Fixpoint visibleOf (rs : list ref) : M (list ref) :=
  match rs with
  | [] => mret []
  | r :: rs' =>
    l ← deref r;
    rest ← visibleOf rs';
    mret (if Label.valid l && (Label.numChildren l =? 0)
          then r :: rest else rest)
  end.

(** [SatItem.prototype.getVisibleLabels]. *)
Definition getVisibleLabels (self : nat) : M (list ref) :=
  it ← getItem self;
  visibleOf (Item.labels it).

(** The loop of [_getLabelByID]:
    [if (this.labels[i].id === labelID) return this.labels[i]];
    falling off the end returns [undefined]. *)
Fixpoint firstWithId (labelID : Z) (rs : list ref) : M ref :=
  match rs with
  | [] => mret RUndef
  | r :: rs' =>
    l ← deref r;
    if Label.id l =? labelID then mret r else firstWithId labelID rs'
  end.

(** [SatImage.prototype._getLabelByID]. *)
Definition _getLabelByID (self : nat) (labelID : Z) : M ref :=
  it ← getItem self;
  firstWithId labelID (Item.labels it).

(** [SatLabel.prototype.getRoot], called on the label object at [a]:
    [if (this.parent === null) return this;
     else return this.parent.getRoot();] *)
Fixpoint getRoot (fuel : nat) (a : addr) : M addr :=
  match fuel with
  | O => diverge
  | S n =>
    self ← deref (RObj a);
    match Label.parent self with
    | RNull => mret a
    | RObj p => getRoot n p
    | RUndef => throw
    end
  end.

(** [SatImage.prototype._isWithinFrame].  The test reads the bounding box
    of [this.imageCanvas], which [setActive(true)] sets together with
    [state]: on an item that never was active the canvas is [undefined]
    and the call throws.  The geometry is the page's, and its verdict
    [withinFrame] a parameter. *)
Definition _isWithinFrame (withinFrame : bool) (self : nat) : M bool :=
  it ← getItem self;
  match Item.state it with
  | None => throw
  | Some _ => mret withinFrame
  end.

(** [handle > 0] and [handle === 0] on a handle that may be [null]. *)
Definition isPositive (hd : option Z) : bool :=
  match hd with Some n => 0 <? n | None => false end.

Definition isZero (hd : option Z) : bool :=
  match hd with Some n => n =? 0 | None => false end.

(** [SatImage.prototype._mousedown].  The position of the pointer, the
    pixel under it and the verdict of the frame test come from the page;
    the constructor [LabelType], [INITIAL_HANDLE] and [getCurrentPosition]
    belong to the concrete label type.  The update of the category and
    attribute widgets acts on the page only. *)
Definition _mousedown (withinFrame : bool) (mousePos : Z * Z)
    (pixelData : Pixel) (LabelType : Z → Label.t) (INITIAL_HANDLE : Z)
    (getCurrentPosition : Label.t → option (Z * Z)) (self : nat) : M unit :=
  within ← _isWithinFrame withinFrame self;
  it ← getItem self;
  (if within && bool_decide (Item.state it = Some Free) then
     sel ← _getSelected self pixelData;
     setItem self (Item.set_selectedLabel (fst sel));;
     setItem self (Item.set_currHandle (snd sel));;
     it1 ← getItem self;
     if truthy (Item.selectedLabel it1) && isPositive (Item.currHandle it1)
     then
       setItem self (Item.set_state (Some Resize));;
       sl ← deref (Item.selectedLabel it1);
       setItem self (Item.set_resizeID (Some (Label.id sl)))
     else if isZero (Item.currHandle it1) && truthy (Item.selectedLabel it1)
     then
       sl ← deref (Item.selectedLabel it1);
       setItem self (Item.set_movePos (getCurrentPosition sl));;
       setItem self (Item.set_moveClickPos (Some mousePos));;
       setItem self (Item.set_state (Some Move))
     else if negb (truthy (Item.selectedLabel it1))
     then
       a ← newLabel LabelType;
       setItem self (Item.set_selectedLabel (RObj a));;
       setItem self (Item.set_state (Some Resize));;
       setItem self (Item.set_currHandle (Some INITIAL_HANDLE));;
       sl ← deref (RObj a);
       setItem self (Item.set_resizeID (Some (Label.id sl)))
     else mret tt
   else mret tt);;
  redraw self.

(** ** Colours *)

(** A channel of a colour: an integer, or [NaN]. *)
Inductive num : Type :=
| Int (z : Z)
| NaN.

#[global] Instance num_eq_dec : EqDecision num.
Proof. solve_decision. Defined.

(** A colour: the array [[r, g, b]]. *)
Definition Color : Type := num * num * num.

Definition COLOR_PALETTE : list (Z * Z * Z) :=
  [(31, 119, 180); (174, 199, 232); (255, 127, 14); (255, 187, 120);
   (44, 160, 44); (152, 223, 138); (214, 39, 40); (255, 152, 150);
   (148, 103, 189); (197, 176, 213); (140, 86, 75); (196, 156, 148);
   (227, 119, 194); (247, 182, 210); (127, 127, 127); (199, 199, 199);
   (188, 189, 34); (219, 219, 141); (23, 190, 207); (158, 218, 229)].

(** One channel of [blendColor]:
    [Math.max(0, Math.min(255, rgb[i] + Math.round((base[i] - rgb[i]) * ratio)))].
    The product with the ratio is a double, rounded before [Math.round]
    sees it. *)
Definition blendChannel (c b : Z) (ratio : Number.double) : num :=
  match Number.round (Number.mul (Number.ofZ (b - c)) ratio) with
  | Number.RInt z => Int (Z.max 0 (Z.min 255 (c + z)))
  | Number.RInf false => Int 255
  | Number.RInf true => Int 0
  | Number.RNaN => NaN
  end.

(** [blendColor], on arrays of three integers. *)
Definition blendColor (rgb base : Z * Z * Z) (ratio : Number.double) : Color :=
  let '(r, g, b) := rgb in
  let '(br, bg, bb) := base in
  (blendChannel r br ratio, blendChannel g bg ratio, blendChannel b bb ratio).

(** An entry of the palette as a colour. *)
Definition paletteColor (rgb : Z * Z * Z) : Color :=
  let '(r, g, b) := rgb in (Int r, Int g, Int b).

(** [pickColorPalette]; [None] is [undefined], and [blendColor] on an
    [undefined] colour throws.  The quotient [index / 20] is a double,
    rounded before [Math.floor] sees it. *)
Definition pickColorPalette (index : Z) : outcome (option Color) :=
  let n := Z.of_nat (length COLOR_PALETTE) in
  let colorIndex := Z.rem index n in
  let shadeIndex :=
    Number.rem (Number.floor (Number.div (Number.ofZ index) (Number.ofZ n))) 3 in
  let rgb := lookupZ COLOR_PALETTE colorIndex in
  if bool_decide (shadeIndex = Some 1) then
    match rgb with
    | Some c => Done (Some (blendColor c (255, 255, 255) Number.tint))
    | None => Throw
    end
  else if bool_decide (shadeIndex = Some 2) then
    match rgb with
    | Some c => Done (Some (blendColor c (0, 0, 0) Number.shade))
    | None => Throw
    end
  else Done (paletteColor <$> rgb).

(** A call of a function that does not touch the session. *)
Definition call {A : Type} (o : outcome A) : M A := λ s, (o, s).

(** [SatLabel.prototype.color]:
    [return pickColorPalette(this.getRoot().id)]. *)
Definition color (fuel : nat) (a : addr) : M (option Color) :=
  r ← getRoot fuel a;
  root ← deref (RObj r);
  call (pickColorPalette (Label.id root)).
(** ** Notions used in the statements *)

(** A computation that only reads the session. *)
Definition readonly {A : Type} (m : M A) : Prop := ∀ s, snd (m s) = s.

(** A computation that takes every session to one related to it by [R],
    however it ends. *)
Definition preserves (R : relation Sat) {A : Type} (m : M A) : Prop :=
  ∀ s, R s (snd (m s)).

(** The label objects behind a list of references, if every entry is one. *)
Definition objects (s : Sat) (rs : list ref) : option (list Label.t) :=
  mapM (λ r, match r with RObj a => labels s !! a | _ => None end) rs.

(** Modelled from the spec: the identity encoding [encodeId] of the hidden
    canvas, which the drawing code of the concrete label type (not part of
    sat.js) applies: the slot index goes to the first two channels as
    [slotIndex = r*256 + g], [handleIndex + 1] to the third, and alpha is
    fully opaque. *)
Definition encodeId (slotIndex handleIndex : Z) : Pixel :=
  mkPixel (slotIndex / 256) (slotIndex `mod` 256) (handleIndex + 1) 255.

(** A pixel as the canvas stores it: four bytes. *)
Definition isByte (v : Z) : Prop := 0 ≤ v ≤ 255.

(** C3 as stated: the encoding of an item lists the id of every label of the
    item's label list, valid or not. *)
Definition lists_every_label (s : Sat) (self : nat) : Prop :=
  ∀ it a l, items s !! self = Some it →
    RObj a ∈ Item.labels it → labels s !! a = Some l →
    ∃ j ids, SatItem_toJson self s = (Done j, s)
      ∧ ItemJson.labelIds j = Some ids ∧ Label.id l ∈ ids.

(** C4 as stated: restoring an item keeps, of [labelIds], only the ids that
    [labelIdMap] knows. *)
Definition drops_missing_ids (s : Sat) (self : nat) (j : ItemJson.t) : Prop :=
  ∀ it ids s', items s !! self = Some it →
    ItemJson.labelIds j = Some ids →
    SatItem_fromJson self j s = (Done tt, s') →
    Item.labels <$> (items s' !! self) =
      Some (Item.labels it ++ (RObj <$> omap (λ i, labelIdMap s !! i) ids)).

(** What [setActive] writes. *)
Definition activate (active : bool) (it : Item.t) : Item.t :=
  if active
  then Item.set_lastLabelID (Some (-1))
         (Item.set_state (Some Free) (Item.set_active true it))
  else Item.set_active false it.

(** Sample sessions. *)
Definition sampleItem (i : Z) (ls : list ref) : Item.t :=
  Item.set_labels ls (Item.new i "img").

Definition sampleLabel (i : Z) (v : bool) : Label.t :=
  Label.set_valid v (Label.new i).

(** One item holding a deleted label (id 10) and a live one (id 11). *)
Definition session_with_invalid : Sat :=
  mkSat [sampleItem 0 [RObj 0%nat; RObj 1%nat]]
        [sampleLabel 10 false; sampleLabel 11 true]
        (<[10 := 0%nat]> (<[11 := 1%nat]> ∅)) 11 (Some 0%nat) [] 0 None None None.

(** A fresh session with one empty item and no label. *)
Definition session_one_item : Sat :=
  mkSat [sampleItem 0 []] [] ∅ (-1) (Some 0%nat) [] 0 None None None.

(** A document with three items and no label, and the session decoded from
    it: the first item is the current, active one. *)
Definition doc_three_items : SatJson.t :=
  SatJson.mk None 0
    [ItemJson.mk "img0" 0 (Some []); ItemJson.mk "img1" 1 (Some []);
     ItemJson.mk "img2" 2 (Some [])]
    (Some []) None [] "agent" None.

Definition session_three_items : Sat :=
  snd (decodeBaseJson 0 doc_three_items (Sat_new 0)).

(** A label with the given chain links. *)
Definition chainLabel (i : Z) (prev next : option Z) : Label.t :=
  Label.mk i None RNull [] 0 true prev next None 0 0 0 0.

(** A document with two items and one label on each.  Both labels name 7
    as their previous label and 8 as their next one; no label has these
    ids.  The session is the one decoded from it. *)
Definition doc_orphan_chain : SatJson.t :=
  SatJson.mk None 0
    [ItemJson.mk "img0" 0 (Some [0]); ItemJson.mk "img1" 1 (Some [1])]
    (Some [LabelJson.mk 0 None (-1) None 7 8 None;
           LabelJson.mk 1 None (-1) None 7 8 None])
    None [] "agent" None.

Definition session_orphan_chain : Sat :=
  snd (decodeBaseJson 0 doc_orphan_chain (Sat_new 0)).

(** ** The label graph *)

(** [c] is an entry of the [children] array of the label at [a]. *)
Definition child_of (ls : list Label.t) (a c : addr) : Prop :=
  ∃ l, ls !! a = Some l ∧ RObj c ∈ Label.children l.

(** The subtree of a label: what its [children] arrays reach. *)
Definition reach (ls : list Label.t) : relation addr := rtc (child_of ls).

(** [l'] is [l] after deletions: only [valid], [parent] and [numChildren]
    may differ, a label that is not valid stays so, and [parent] is kept or
    cleared. *)
Definition deleted_from (l l' : Label.t) : Prop :=
  l' = Label.set_parent (Label.parent l')
         (Label.set_numChildren (Label.numChildren l')
            (Label.set_valid (Label.valid l') l))
  ∧ (Label.valid l' = true → Label.valid l = true)
  ∧ (Label.parent l' = Label.parent l ∨ Label.parent l' = RNull).

(** The same, with [numChildren] kept. *)
Definition detached_from (l l' : Label.t) : Prop :=
  deleted_from l l' ∧ Label.numChildren l' = Label.numChildren l.

(** [s'] is [s] after deletions: only the label objects are written. *)
Definition only_deletes (s s' : Sat) : Prop :=
  s' = set_labels (λ _, labels s') s
  ∧ Forall2 deleted_from (labels s) (labels s').

(** [s'] is [s] after top-down deletions that write only the labels in [D]. *)
Definition detaches_within (D : addr → Prop) (s s' : Sat) : Prop :=
  s' = set_labels (λ _, labels s') s
  ∧ Forall2 detached_from (labels s) (labels s')
  ∧ ∀ x, ¬ D x → labels s' !! x = labels s !! x.

(** The label graph is a forest, as a ranking witnesses: children rank
    below their parent, every entry of a [children] array is a label, and a
    [parent] is [null] or a label that ranks higher. *)
Definition forest (ls : list Label.t) (rank : addr → nat) : Prop :=
  ∀ a l, ls !! a = Some l →
    (∀ r, r ∈ Label.children l →
       ∃ c, r = RObj c ∧ (c < length ls)%nat ∧ (rank c < rank a)%nat)
    ∧ (Label.parent l = RNull
       ∨ ∃ p, Label.parent l = RObj p ∧ (p < length ls)%nat
              ∧ (rank a < rank p)%nat).

(** C5 in its own words: the labels that [delete] on the label at [a]
    is called on from below.  It is called on [a]; and when it is called
    on a label whose parent has a count of one, the count reaches zero
    and it is called on the parent. *)
Inductive cascade_calls (ls : list Label.t) (a : addr) : addr → Prop :=
| calls_self : cascade_calls ls a a
| calls_parent (d : addr) (ld : Label.t) (p : addr) (lp : Label.t) :
    cascade_calls ls a d →
    ls !! d = Some ld → Label.parent ld = RObj p →
    ls !! p = Some lp → Label.numChildren lp = 1 →
    cascade_calls ls a p.

(** The count of the parent of each of these labels is decremented, *)
Definition cascade_decrements (ls : list Label.t) (a p : addr) : Prop :=
  ∃ d ld, cascade_calls ls a d ∧ ls !! d = Some ld ∧ Label.parent ld = RObj p.

(** their subtrees are deleted, *)
Definition cascade_deletes (ls : list Label.t) (a x : addr) : Prop :=
  ∃ d, cascade_calls ls a d ∧ reach ls d x.

(** and what is below them is detached. *)
Definition cascade_detaches (ls : list Label.t) (a x : addr) : Prop :=
  ∃ d c, cascade_calls ls a d ∧ child_of ls d c ∧ reach ls c x.

(** The label [l] at [x] has become [l'] by the cascade from [a]: where
    the cascade deletes, detaches and decrements the label is not valid,
    has no parent and has its count one down; where it does not, the field
    is as it was. *)
Definition cascaded (ls : list Label.t) (a x : addr) (l l' : Label.t) : Prop :=
  (cascade_deletes ls a x → Label.valid l' = false)
  ∧ (¬ cascade_deletes ls a x → Label.valid l' = Label.valid l)
  ∧ (cascade_detaches ls a x → Label.parent l' = RNull)
  ∧ (¬ cascade_detaches ls a x → Label.parent l' = Label.parent l)
  ∧ (cascade_decrements ls a x →
       Label.numChildren l' = Label.numChildren l - 1)
  ∧ (¬ cascade_decrements ls a x →
       Label.numChildren l' = Label.numChildren l).

(** A field of the label at [a], if there is one. *)
Definition valid_at (s : Sat) (a : addr) : option bool :=
  Label.valid <$> labels s !! a.

Definition parent_at (s : Sat) (a : addr) : option ref :=
  Label.parent <$> labels s !! a.

Definition numChildren_at (s : Sat) (a : addr) : option Z :=
  Label.numChildren <$> labels s !! a.

(** A label with the given tree links. *)
Definition treeLabel (i : Z) (p : ref) (cs : list ref) : Label.t :=
  Label.mk i None p cs (Z.of_nat (length cs)) true None None None 0 0 0 0.

(** A parent (0) with two children (1, 2); child 1 has one child (3). *)
Definition session_tree : Sat :=
  mkSat [sampleItem 0 [RObj 0%nat; RObj 1%nat; RObj 2%nat; RObj 3%nat]]
        [treeLabel 0 RNull [RObj 1%nat; RObj 2%nat];
         treeLabel 1 (RObj 0%nat) [RObj 3%nat];
         treeLabel 2 (RObj 0%nat) [];
         treeLabel 3 (RObj 1%nat) []]
        (<[0 := 0%nat]> (<[1 := 1%nat]> (<[2 := 2%nat]> (<[3 := 3%nat]> ∅))))
        3 (Some 0%nat) [] 0 None None None.

(** ** Pointer release *)

(** The two reorderings of [_mouseup]: a box dragged to the left or upwards
    gets its origin moved and its extent made positive. *)
Definition flipW (l : Label.t) : Label.t :=
  if Label.w l <? 0
  then Label.set_box (Label.x l + Label.w l) (Label.y l) (-1 * Label.w l)
         (Label.h l) l
  else l.

Definition flipH (l : Label.t) : Label.t :=
  if Label.h l <? 0
  then Label.set_box (Label.x l) (Label.y l + Label.h l) (Label.w l)
         (-1 * Label.h l) l
  else l.

Definition normalizeBox (l : Label.t) : Label.t := flipH (flipW l).

(** What [_mouseup] writes on the item when it discards the label. *)
Definition released (it : Item.t) : Item.t :=
  Item.set_moveClickPos None
    (Item.set_movePos None
       (Item.set_resizeID None
          (Item.set_state (Some Free) (Item.set_selectedLabel RNull it)))).

(** Every entry of a label list is a label object of the session. *)
Definition all_objects (s : Sat) (rs : list ref) : Prop :=
  ∀ r, r ∈ rs → ∃ a, r = RObj a ∧ (a < length (labels s))%nat.

(** Modelled from the spec: [isSmall] of the box label type, which is not in
    sat.js: the box is below the minimum size when its width or its height
    is below the threshold. *)
Definition isSmallBelow (threshold : Z) (l : Label.t) : bool :=
  (Label.w l <? threshold) || (Label.h l <? threshold).

(** C7 as stated: after the pointer release the discarded label is absent
    from the labels, be it the session's array or the items' lists. *)
Definition absent_from_labels (s : Sat) (a : addr) : Prop :=
  labels s !! a = None ∨ ∀ it, it ∈ items s → RObj a ∉ Item.labels it.

(** One item in the middle of a resize of its only label, a box of 2 by -3
    that has just been created. *)
Definition session_resizing : Sat :=
  mkSat [Item.mk 0 "img" [RObj 0%nat] true true (Some Resize) (Some (-1))
           (RObj 0%nat) (Some 4) (Some 0) None None]
        [Label.mk 0 (Some "car") RNull [] 0 true None None None 10 10 2 (-3)]
        (<[0 := 0%nat]> ∅) 0 (Some 0%nat) [] 0 None None None.

(** ** Decoding *)

(** The label object the first pass of [decodeBaseJson] constructs. *)
Definition decoded (j : LabelJson.t) : Label.t :=
  decodeBaseJsonVariables j (Label.new (LabelJson.id j)).

(** The session after the first pass has handled [j]. *)
Definition afterLabel (s : Sat) (j : LabelJson.t) : Sat :=
  set_labels (λ l, l ++ [decoded j])
    (set_labelIdMap (<[Label.id (decoded j) := length (labels s)]>)
       (set_lastLabelId (Z.max (lastLabelId s) (LabelJson.id j)) s)).

(** What [addChild] writes on the label. *)
Definition withChild (l : Label.t) (child : ref) : Label.t :=
  Label.set_children (Label.children l ++ [child])
    (Label.set_numChildren (Label.numChildren l + 1) l).

(** The label after [decodeBaseJsonPointers] has run on it, for the
    [labelIdMap] [m]. *)
Definition withPointers (m : gmap Z addr) (j : LabelJson.t) (l : Label.t) : Label.t :=
  foldl (λ l c, withChild l (lookupId m (Some c)))
        (if -1 <? LabelJson.parent j
         then Label.set_parent (lookupId m (Some (LabelJson.parent j))) l
         else l)
        (default [] (LabelJson.children j)).

(** [s'] is [s] but for its items. *)
Definition same_but_items (s s' : Sat) : Prop :=
  s' = set_items (λ _, items s') s.

(** The document of the two-phase example: label 5 comes first and names
    label 6, which comes later, as its next label and as its parent; label 6
    names 5 as its previous label and as its child. *)
Definition doc_forward_refs : SatJson.t :=
  SatJson.mk None 0 [ItemJson.mk "img" 0 (Some [5; 6])]
    (Some [LabelJson.mk 5 None 6 None (-1) 6 None;
           LabelJson.mk 6 None (-1) (Some [5]) 5 (-1) None])
    None [] "agent" None.


(** C2 in its own words, on the session [s'] a call of [decodeBaseJson]
    on [json] in [s] has left: of every label of the document, each parent,
    child, previous or next id that names a label of the document is
    resolved to the object of that label. *)
Definition pointers_resolved (json : SatJson.t) (s s' : Sat) : Prop :=
  let ls := default [] (SatJson.labels json) in
  let base := length (labels s) in
  ∀ k m e e', ls !! k = Some e → ls !! m = Some e' →
    ∃ l, labels s' !! (base + k)%nat = Some l
      ∧ (-1 < LabelJson.parent e →
         LabelJson.parent e = LabelJson.id e' →
         Label.parent l = RObj (base + m)%nat)
      ∧ (-1 < LabelJson.nextLabelId e →
         LabelJson.nextLabelId e = LabelJson.id e' →
         Label.nextLabelId l = Some (LabelJson.id e')
         ∧ lookupId (labelIdMap s') (Label.nextLabelId l)
           = RObj (base + m)%nat)
      ∧ (-1 < LabelJson.previousLabelId e →
         LabelJson.previousLabelId e = LabelJson.id e' →
         Label.previousLabelId l = Some (LabelJson.id e')
         ∧ lookupId (labelIdMap s') (Label.previousLabelId l)
           = RObj (base + m)%nat)
      ∧ (∀ cs i, LabelJson.children e = Some cs →
           cs !! i = Some (LabelJson.id e') →
           Label.children l !! i = Some (RObj (base + m)%nat)).

(** The labels of the two-phase example in a document without items. *)
Definition doc_without_items : SatJson.t :=
  SatJson.mk None 0 []
    (Some [LabelJson.mk 5 None 6 None (-1) 6 None;
           LabelJson.mk 6 None (-1) (Some [5]) 5 (-1) None])
    None [] "agent" None.

(** A document in which two labels share the id 5: the first names
    label 6, which comes last, as its parent; the second has no parent. *)
Definition doc_shared_id : SatJson.t :=
  SatJson.mk None 0 [ItemJson.mk "img" 0 (Some [5; 6])]
    (Some [LabelJson.mk 5 None 6 None (-1) (-1) None;
           LabelJson.mk 5 None (-1) None (-1) (-1) None;
           LabelJson.mk 6 None (-1) None (-1) (-1) None])
    None [] "agent" None.

(** ** Deleting along a chain *)




(** The id behind an entry of a label list. *)
Definition idOf (ls : list Label.t) (r : ref) : option Z :=
  match r with
  | RObj a => Label.id <$> ls !! a
  | _ => None
  end.

(** What [unselect] writes on the item, for the id [t]. *)
Definition unselectIf (ls : list Label.t) (t : Z) (it : Item.t) : Item.t :=
  if decide (idOf ls (Item.selectedLabel it) = Some t)
  then Item.set_currHandle None (Item.set_selectedLabel RNull it)
  else it.

(** The inner loop of [deleteLabelById] on the item itself: from index [j]
    on, for at most [n] iterations, every entry with id [t] that the index
    meets is spliced out (the entry that slides into its place is skipped). *)
Fixpoint spliceItem (ls : list Label.t) (t : Z) (n j : nat) (it : Item.t) : Item.t :=
  match n with
  | O => it
  | S n' =>
    match Item.labels it !! j with
    | None => it
    | Some r =>
      if decide (idOf ls r = Some t)
      then spliceItem ls t n' (S j)
             (unselectIf ls t (Item.set_labels (base.delete j (Item.labels it)) it))
      else spliceItem ls t n' (S j) it
    end
  end.

(** One step along the chain:
    [if (currentLabel) currentLabel = labelIdMap[currentLabel.previousLabelId]]. *)
Definition stepChain (ls : list Label.t) (m : gmap Z addr) (backward : bool)
    (c : ref) : ref :=
  match c with
  | RObj a =>
    match ls !! a with
    | Some cl => lookupId m (if backward then Label.previousLabelId cl
                             else Label.nextLabelId cl)
    | None => c
    end
  | _ => c
  end.

(** The label the walk holds after [k] steps. *)
Fixpoint chainAt (ls : list Label.t) (m : gmap Z addr) (backward : bool)
    (k : nat) (c : ref) : ref :=
  match k with
  | O => c
  | S k' => chainAt ls m backward k' (stepChain ls m backward c)
  end.

(** What the walk does to an item it visits while holding [c]. *)
Definition visit (ls : list Label.t) (c : ref) (it : Item.t) : Item.t :=
  match idOf ls c with
  | Some t => spliceItem ls t (length (Item.labels it)) 0 it
  | None => it
  end.

(** The number of steps after which a walk from item [q] visits item [x]. *)
Definition dist (backward : bool) (q x : nat) : option nat :=
  if backward
  then (if decide (x ≤ q)%nat then Some (q - x)%nat else None)
  else (if decide (q ≤ x)%nat then Some (x - q)%nat else None).

(** The item at position [x] after a walk from item [q] holding [c]. *)
Definition walked (ls : list Label.t) (m : gmap Z addr) (backward : bool)
    (q : nat) (c : ref) (x : nat) (it : Item.t) : Item.t :=
  match dist backward q x with
  | Some k => visit ls (chainAt ls m backward k c) it
  | None => it
  end.

(** The walk from item [q] holding [c] meets a label of the session at
    every item whose label list is not empty. *)
Definition chain_ok (s : Sat) (backward : bool) (q : nat) (c : ref) : Prop :=
  ∀ x it k, items s !! x = Some it → dist backward q x = Some k →
    Item.labels it ≠ [] →
    is_Some (idOf (labels s) (chainAt (labels s) (labelIdMap s) backward k c)).

(** A session as the program builds it: every item carries its position as
    [index], the entries of the label lists and the selections are label
    objects of the session, and so are the values of [labelIdMap]. *)
Definition wf_session (s : Sat) : Prop :=
  (∀ q it, items s !! q = Some it →
     Item.index it = Z.of_nat q
     ∧ all_objects s (Item.labels it)
     ∧ ∀ a, Item.selectedLabel it = RObj a → (a < length (labels s))%nat)
  ∧ (∀ k a, labelIdMap s !! k = Some a → (a < length (labels s))%nat).

(** The item at position [x] after [deleteLabelById(labelId, true)] on item
    [self], where the label found at index [i] is [l]. *)
Definition afterDelete (s : Sat) (self i : nat) (labelId : Z) (l : Label.t)
    (x : nat) (it : Item.t) : Item.t :=
  if decide (x = self)
  then unselectIf (labels s) labelId
         (Item.set_labels (base.delete i (Item.labels it)) it)
  else if decide (x < self)%nat
  then walked (labels s) (labelIdMap s) true (self - 1)
         (lookupId (labelIdMap s) (Label.previousLabelId l)) x it
  else walked (labels s) (labelIdMap s) false (self + 1)
         (lookupId (labelIdMap s) (Label.nextLabelId l)) x it.


(** Three items tracking one object: labels 0, 1, 2, one per item, linked
    as previous / next. *)
Definition session_chain : Sat :=
  mkSat [sampleItem 0 [RObj 0%nat]; sampleItem 1 [RObj 1%nat];
         sampleItem 2 [RObj 2%nat]]
        [chainLabel 0 None (Some 1); chainLabel 1 (Some 0) (Some 2);
         chainLabel 2 (Some 1) None]
        (<[0 := 0%nat]> (<[1 := 1%nat]> (<[2 := 2%nat]> ∅)))
        2 (Some 1%nat) [] 0 None None None.

(** ** Saving what was loaded *)

(** The item object the second pass of [decodeBaseJson] leaves at position
    [q] for the document item [j], under the id map [m]. *)
Definition decodedItem (m : gmap Z addr) (q : nat) (j : ItemJson.t) : Item.t :=
  Item.set_labels
    ((λ i, lookupId m (Some i)) <$> default [] (ItemJson.labelIds j))
    (Item.set_index (ItemJson.index j)
       (Item.set_url (ItemJson.url j)
          (Item.new (Z.of_nat q) (ItemJson.url j)))).

(** The session a fresh [Sat] is in after it has decoded [json]. *)
Definition loadedSession (now start : Z) (json : SatJson.t) : Sat :=
  let ls := default [] (SatJson.labels json) in
  let s1 := foldl afterLabel (Sat_new start) ls in
  mkSat (alter (activate true) 0%nat
           (imap (decodedItem (labelIdMap s1)) (SatJson.items json)))
        ((λ e, withPointers (labelIdMap s1) e (decoded e)) <$> ls)
        (labelIdMap s1) (lastLabelId s1) (Some 0%nat)
        [mkEvent now "start labeling"
           (default 0 (ItemJson.index <$> head (SatJson.items json))) (-1) None]
        start None (SatJson.categories json) None.

(** An item of a document, as it is written again after loading. *)
Definition savedItem (j : ItemJson.t) : ItemJson.t :=
  ItemJson.mk (ItemJson.url j) (ItemJson.index j)
    (Some (default [] (ItemJson.labelIds j))).

(** A chain link of a document, as it is written again after loading. *)
Definition savedLink (v : Z) : Z := if 0 <? v then v else -1.

(** A label of a document whose label ids are [ids], as it is written
    again after loading. *)
Definition savedLabel (ids : list Z) (e : LabelJson.t) : LabelJson.t :=
  LabelJson.mk (LabelJson.id e) (LabelJson.categoryPath e)
    (if (-1 <? LabelJson.parent e) && bool_decide (LabelJson.parent e ∈ ids)
     then LabelJson.parent e else -1)
    (match LabelJson.children e with
     | Some (c :: cs) => Some (c :: cs)
     | _ => None
     end)
    (savedLink (LabelJson.previousLabelId e))
    (savedLink (LabelJson.nextLabelId e))
    (LabelJson.keyframe e).

(** The label ids of a document. *)
Definition idsOf (json : SatJson.t) : list Z :=
  LabelJson.id <$> default [] (SatJson.labels json).

(** Every id an item lists is the id of a label of the document. *)
Definition items_resolve (json : SatJson.t) : bool :=
  forallb (λ j, forallb (λ i, bool_decide (i ∈ idsOf json))
                  (default [] (ItemJson.labelIds j)))
          (SatJson.items json).

(** Every id a label lists as a child is the id of a label of the document. *)
Definition children_resolve (json : SatJson.t) : bool :=
  forallb (λ e, forallb (λ i, bool_decide (i ∈ idsOf json))
                  (default [] (LabelJson.children e)))
          (default [] (SatJson.labels json)).

(** A label as [encodeBaseJson] writes it: a parent is [-1] or the id of a
    label of the document that is not negative, the children are absent or
    not empty, and a chain link is [-1] or positive. *)
Definition canonicalLabel (ids : list Z) (e : LabelJson.t) : bool :=
  ((LabelJson.parent e =? -1)
   || ((-1 <? LabelJson.parent e) && bool_decide (LabelJson.parent e ∈ ids)))
  && negb (bool_decide (LabelJson.children e = Some []))
  && ((LabelJson.previousLabelId e =? -1) || (0 <? LabelJson.previousLabelId e))
  && ((LabelJson.nextLabelId e =? -1) || (0 <? LabelJson.nextLabelId e)).

(** A document as [encodeBaseJson] writes it. *)
Definition canonical (json : SatJson.t) : bool :=
  bool_decide (is_Some (SatJson.labels json))
  && forallb (λ j, bool_decide (is_Some (ItemJson.labelIds j)))
       (SatJson.items json)
  && forallb (canonicalLabel (idsOf json)) (default [] (SatJson.labels json)).

(** A document of two frames tracking one car: label 1 on the first frame
    and label 2 on the second are linked as next / previous and are the
    children of the track label 3. *)
Definition doc_track : SatJson.t :=
  SatJson.mk None 0
    [ItemJson.mk "frame0" 0 (Some [1]); ItemJson.mk "frame1" 1 (Some [2])]
    (Some [LabelJson.mk 1 (Some "car") 3 None (-1) 2 (Some true);
           LabelJson.mk 2 (Some "car") 3 None 1 (-1) None;
           LabelJson.mk 3 (Some "car") (-1) (Some [1; 2]) (-1) (-1) None])
    (Some "car") [] "agent" None.

(** ** Saving *)

(** A session [toJson] can write: the label lists of the items hold label
    objects, and so do the [children] of every valid label, whose [parent]
    is a label object if it is an object at all. *)
Definition encodable (s : Sat) : Prop :=
  (∀ it, it ∈ items s → all_objects s (Item.labels it))
  ∧ (∀ l, l ∈ labels s → Label.valid l = true →
       (∀ p, Label.parent l = RObj p → (p < length (labels s))%nat)
       ∧ all_objects s (Label.children l)).

(** The id under which [encodeBaseJson] writes a label, if it writes it. *)
Definition savedId (l : Label.t) : option Z :=
  if Label.valid l then Some (Label.id l) else None.

(** ** The registry of label ids *)

(** [s'] has the labels of [s] under the same ids, the same [labelIdMap]
    and the same [lastLabelId]. *)
Definition same_ids (s s' : Sat) : Prop :=
  labelIdMap s' = labelIdMap s ∧ lastLabelId s' = lastLabelId s
  ∧ Label.id <$> labels s' = Label.id <$> labels s.

(** The registry is sound: [labelIdMap] takes an id to a label object that
    carries it, and no registered id is above [lastLabelId]. *)
Definition registry_ok (s : Sat) : Prop :=
  ∀ k a, labelIdMap s !! k = Some a →
    (∃ l, labels s !! a = Some l ∧ Label.id l = k) ∧ k ≤ lastLabelId s.

(** [s'] has a sound registry if [s] has. *)
Definition keeps_registry (s s' : Sat) : Prop :=
  registry_ok s → registry_ok s'.

(** A label type whose constructor passes the id on to [SatLabel]. *)
Definition passes_id (LabelType : Z → Label.t) : Prop :=
  ∀ i, Label.id (LabelType i) = i.

(** The session after [newLabel] has constructed its label and registered
    it, before it is pushed on the current item. *)
Definition registered (LabelType : Z → Label.t) (s : Sat) : Sat :=
  let i := Number.succ (lastLabelId s) in
  set_labels (λ l, l ++ [LabelType i])
    (set_labelIdMap (<[Label.id (LabelType i) := length (labels s)]>)
       (set_lastLabelId i s)).

(** ** Navigation *)

(** Every item carries its position in [Sat.items] as its [index]. *)
Definition indexed (s : Sat) : Prop :=
  ∀ q it, items s !! q = Some it → Item.index it = Z.of_nat q.

(** No item but the current one is active. *)
Definition one_active (s : Sat) : Prop :=
  ∀ q it, items s !! q = Some it → Item.active it = true →
    currentItem s = Some q.

(** ** Visible labels and roots *)

(** An entry of a label list that [getVisibleLabels] keeps: a valid label
    without a child left. *)
Definition visible (s : Sat) (r : ref) : bool :=
  match r with
  | RObj a =>
    match labels s !! a with
    | Some l => Label.valid l && (Label.numChildren l =? 0)
    | None => false
    end
  | _ => false
  end.

(** [p] is the [parent] of the label at [a]. *)
Definition parent_of (ls : list Label.t) (a p : addr) : Prop :=
  ∃ l, ls !! a = Some l ∧ Label.parent l = RObj p.

(** The ancestors of a label: what the [parent] pointers reach. *)
Definition ancestor (ls : list Label.t) : relation addr := rtc (parent_of ls).

(** Every label that [s'] shows, [s] shows as well. *)
Definition reveals_nothing (s s' : Sat) : Prop :=
  ∀ x, visible s' (RObj x) = true → visible s (RObj x) = true.

(** ** Pointer press *)

(** A label type built on [SatLabel]: its constructor passes the id on and
    leaves the label without a parent and without children. *)
Definition plain_label (LabelType : Z → Label.t) : Prop :=
  ∀ i, Label.id (LabelType i) = i ∧ Label.parent (LabelType i) = RNull
       ∧ Label.children (LabelType i) = [].

(** The item after [_mousedown] has started a new label, the object [a]
    with id [i]. *)
Definition pressedNew (INITIAL_HANDLE : Z) (a : addr) (i : Z) (it : Item.t) :
    Item.t :=
  Item.mk (Item.index it) (Item.url it) (Item.labels it ++ [RObj a])
    (Item.ready it) (Item.active it) (Some Resize) (Item.lastLabelID it)
    (RObj a) (Some INITIAL_HANDLE) (Some i) (Item.movePos it)
    (Item.moveClickPos it).


(** A session with one active item and no label. *)
Definition session_active : Sat :=
  mkSat [activate true (sampleItem 0 [])] [] ∅ (-1) (Some 0%nat) [] 0
        None None None.

(** A box label type: a new label is a box of no extent. *)
Definition boxLabel (i : Z) : Label.t := Label.new i.

(** ** Colours *)

#[global] Instance outcome_eq_dec {A : Type} `{EqDecision A} :
  EqDecision (outcome A).
Proof. solve_decision. Defined.

(** A double that is not above zero. *)
Definition nonpositive (f : Number.double) : Prop :=
  match f with
  | SpecFloat.S754_zero _ | SpecFloat.S754_nan => True
  | SpecFloat.S754_infinity s | SpecFloat.S754_finite s _ _ => s = true
  end.

(** A colour whose channels are bytes. *)
Definition isByteColor (o : outcome (option Color)) : bool :=
  match o with
  | Done (Some (Int r, Int g, Int b)) =>
    (0 <=? r) && (r <=? 255) && (0 <=? g) && (g <=? 255)
    && (0 <=? b) && (b <=? 255)
  | _ => false
  end.

(** The colours of the indices [0 .. 59]. *)
Definition sixtyColors : list (outcome (option Color)) :=
  (λ i, pickColorPalette (Z.of_nat i)) <$> seq 0 60.

(** ** The event log *)

(** [s'] has the event log of [s]. *)
Definition log_kept (s s' : Sat) : Prop := events s' = events s.

(** The event log of [s'] starts with that of [s]. *)
Definition log_grows (s s' : Sat) : Prop := events s `prefix_of` events s'.

(** ** Pointer release *)

(** What [_mouseup] writes on the item when it ends an interaction and
    keeps the selection. *)
Definition idle (it : Item.t) : Item.t :=
  Item.set_moveClickPos None
    (Item.set_movePos None
       (Item.set_resizeID None (Item.set_state (Some Free) it))).

(** Two frames; the label on the second frame (id 2) belongs to the track
    label (id 3) and has no previous label.  The second frame is the
    current one, and its label is selected and being moved. *)
Definition session_late_track : Sat :=
  mkSat [activate false (sampleItem 0 []);
         Item.mk 1 "img" [RObj 0%nat] true true (Some Move) (Some (-1))
           (RObj 0%nat) (Some 0) None (Some (5, 5)) (Some (6, 6))]
        [Label.mk 2 None (RObj 1%nat) [] 0 true None None None 5 5 20 20;
         treeLabel 3 RNull [RObj 0%nat]]
        (<[2 := 0%nat]> (<[3 := 1%nat]> ∅)) 3 (Some 1%nat) [] 0 None None None.
(** * Properties *)

(** ** Reasoning about computations *)

Lemma bind_run {A B : Type} (m : M A) (f : A → M B) (s : Sat) :
  (m ≫= f) s =
  match m s with
  | (Done a, s') => f a s'
  | (Throw, s') => (Throw, s')
  | (OutOfFuel, s') => (OutOfFuel, s')
  end.
Proof. reflexivity. Qed.

Lemma bind_Done {A B : Type} (m : M A) (f : A → M B) s b s' :
  (m ≫= f) s = (Done b, s') →
  ∃ a s1, m s = (Done a, s1) ∧ f a s1 = (Done b, s').
Proof.
  rewrite bind_run. destruct (m s) as [[a| |] s1]; intros H; try discriminate.
  by exists a, s1.
Qed.

Lemma bind_Done_intro {A B : Type} (m : M A) (f : A → M B) s a s1 :
  m s = (Done a, s1) → (m ≫= f) s = f a s1.
Proof. intros H. by rewrite bind_run, H. Qed.

Lemma bind_assoc_run {A B C : Type} (m : M A) (f : A → M B) (g : B → M C) s :
  ((m ≫= f) ≫= g) s = (m ≫= λ x, f x ≫= g) s.
Proof. rewrite !bind_run. by destruct (m s) as [[a| |] s1]. Qed.

Lemma gets_run {A : Type} (f : Sat → A) s : gets f s = (Done (f s), s).
Proof. reflexivity. Qed.

Lemma modify_run (f : Sat → Sat) s : modify f s = (Done tt, f s).
Proof. reflexivity. Qed.

Lemma ret_run {A : Type} (a : A) s : (mret a : M A) s = (Done a, s).
Proof. reflexivity. Qed.

Lemma deref_run (a : addr) (l : Label.t) s :
  labels s !! a = Some l → deref (RObj a) s = (Done l, s).
Proof. intros H. unfold deref. rewrite bind_run, gets_run, H. reflexivity. Qed.

Lemma deref_Done (r : ref) (l : Label.t) s s' :
  deref r s = (Done l, s') →
  s' = s ∧ ∃ a, r = RObj a ∧ labels s !! a = Some l.
Proof.
  destruct r as [| |a]; try discriminate. unfold deref.
  rewrite bind_run, gets_run. destruct (labels s !! a) as [l0|] eqn:E;
    intros H; inversion H; subst. eauto.
Qed.

Lemma getItem_run (i : nat) (it : Item.t) s :
  items s !! i = Some it → getItem i s = (Done it, s).
Proof. intros H. unfold getItem. rewrite bind_run, gets_run, H. reflexivity. Qed.

Lemma getItem_Done (i : nat) (it : Item.t) s s' :
  getItem i s = (Done it, s') → s' = s ∧ items s !! i = Some it.
Proof.
  unfold getItem. rewrite bind_run, gets_run.
  destruct (items s !! i) eqn:E; intros H; inversion H; subst. eauto.
Qed.

Lemma canvas_run (it : Item.t) (st : istate) s :
  Item.state it = Some st → canvas it s = (Done tt, s).
Proof. intros H. unfold canvas. by rewrite H. Qed.

Lemma canvas_throws (it : Item.t) s :
  Item.state it = None → canvas it s = (Throw, s).
Proof. intros H. unfold canvas. by rewrite H. Qed.

Lemma labels_set_labels (f : list Label.t → list Label.t) (s : Sat) :
  labels (set_labels f s) = f (labels s).
Proof. reflexivity. Qed.

Lemma items_set_items (f : list Item.t → list Item.t) (s : Sat) :
  items (set_items f s) = f (items s).
Proof. reflexivity. Qed.

Lemma lookupId_Some (m : gmap Z addr) (k : Z) (a : addr) :
  m !! k = Some a → lookupId m (Some k) = RObj a.
Proof. intros H. unfold lookupId. simpl. by rewrite H. Qed.

Lemma lookupId_None (m : gmap Z addr) (k : Z) :
  m !! k = None → lookupId m (Some k) = RUndef.
Proof. intros H. unfold lookupId. simpl. by rewrite H. Qed.

(** Writing an array element, as an insertion. *)
Lemma alter_as_insert {A : Type} (l : list A) (i : nat) (f : A → A) (y : A) :
  l !! i = Some y → alter f i l = <[i := f y]> l.
Proof.
  intros H. apply list_eq. intros k. destruct (decide (k = i)) as [->|Hne].
  - rewrite list_lookup_alter_eq, H, list_lookup_insert_eq;
      [done | by eapply lookup_lt_Some].
  - by rewrite list_lookup_alter_ne, list_lookup_insert_ne.
Qed.

(** One step of a computation whose first action is a primitive. *)
Ltac mstep :=
  rewrite ?bind_assoc_run;
  rewrite bind_run;
  first [ rewrite gets_run | rewrite modify_run | rewrite ret_run
        | erewrite getItem_run by eassumption
        | erewrite deref_run by eassumption ];
  cbv beta iota.

(** One step whose result a lemma gives. *)
Tactic Notation "mstep" "with" uconstr(lem) :=
  rewrite ?bind_assoc_run; rewrite bind_run; rewrite lem; cbv beta iota.

(** ** Computations that only read *)

Lemma readonly_ret {A : Type} (a : A) : readonly (mret a : M A).
Proof. by intros s. Qed.

Lemma readonly_throw {A : Type} : readonly (@throw A).
Proof. by intros s. Qed.

Lemma readonly_gets {A : Type} (f : Sat → A) : readonly (gets f).
Proof. by intros s. Qed.

Lemma readonly_bind {A B : Type} (m : M A) (f : A → M B) :
  readonly m → (∀ a, readonly (f a)) → readonly (m ≫= f).
Proof.
  intros Hm Hf s. rewrite bind_run. specialize (Hm s).
  destruct (m s) as [[a| |] s1]; simpl in *; subst; auto. apply Hf.
Qed.

Lemma readonly_defined {A : Type} (o : option A) : readonly (defined o).
Proof. destruct o; [apply readonly_ret | apply readonly_throw]. Qed.

Lemma readonly_deref (r : ref) : readonly (deref r).
Proof.
  destruct r; try apply readonly_throw.
  apply readonly_bind; [apply readonly_gets | intros; apply readonly_defined].
Qed.

Lemma readonly_getItem (i : nat) : readonly (getItem i).
Proof.
  apply readonly_bind; [apply readonly_gets | intros; apply readonly_defined].
Qed.

Lemma readonly_canvas (it : Item.t) : readonly (canvas it).
Proof.
  unfold canvas. destruct (Item.state it);
    [apply readonly_ret | apply readonly_throw].
Qed.

Create HintDb readonly.
#[export] Hint Resolve readonly_ret readonly_throw readonly_gets
  readonly_defined readonly_deref readonly_getItem readonly_canvas : readonly.

Ltac readonly_step :=
  repeat first
    [ apply readonly_bind; [| intros ?]
    | progress eauto with readonly
    | match goal with |- readonly (if ?b then _ else _) => destruct b end
    | match goal with |- readonly (match ?o with _ => _ end) => destruct o end ].

Lemma readonly_mapM {A B : Type} (f : A → M B) (l : list A) :
  (∀ a, readonly (f a)) → readonly (mapM f l).
Proof. intros Hf. induction l as [|a l IH]; simpl; readonly_step. Qed.

Lemma readonly_validIds (rs : list ref) : readonly (validIds rs).
Proof. induction rs as [|r rs IH]; simpl; readonly_step. Qed.

#[export] Hint Resolve readonly_validIds : readonly.

Lemma readonly_SatItem_toJson (self : nat) : readonly (SatItem_toJson self).
Proof. unfold SatItem_toJson. readonly_step. Qed.

Lemma readonly_SatLabel_toJson (a : addr) : readonly (SatLabel_toJson a).
Proof. unfold SatLabel_toJson, SatLabel_encodeBaseJson. readonly_step. Qed.

#[export] Hint Resolve readonly_SatItem_toJson readonly_SatLabel_toJson : readonly.

Lemma readonly_encodeValid (l : list addr) : readonly (encodeValid l).
Proof. induction l as [|a l IH]; simpl; readonly_step. Qed.

(** ** Doubles *)

(** Up to [2^53] the increment of [newLabelId] is the integer one. *)
Lemma succ_exact (n : Z) : -1 ≤ n < 2 ^ 53 → Number.succ n = n + 1.
Proof.
  intros Hn. unfold Number.succ.
  destruct (Z.leb_spec (Z.abs (n + 1)) (2 ^ 53)); [done|lia].
Qed.

(** It never goes down, and stays where it is once doubles are more than
    two apart. *)
Lemma succ_ge (n : Z) : n ≤ Number.succ n.
Proof. unfold Number.succ. repeat case_match; lia. Qed.

Lemma succ_le (n : Z) : Number.succ n ≤ n + 2.
Proof. unfold Number.succ. repeat case_match; lia. Qed.

(** The rounding written out in [Number.succ] is that of the sum of
    doubles, here on both sides of each power of two at which the
    distance between doubles changes. *)
Lemma succ_is_the_sum_of_doubles :
  Forall (λ n, Number.floor (Number.add (Number.ofZ n) (Number.ofZ 1))
               = Number.RInt (Number.succ n))
    [-1; 0; 1; 2 ^ 53 - 2; 2 ^ 53 - 1; 2 ^ 53; 2 ^ 53 + 2; 2 ^ 53 + 4;
     2 ^ 54 - 4; 2 ^ 54 - 2; 2 ^ 54; 2 ^ 54 + 4; 2 ^ 55; 2 ^ 60 + 256;
     2 ^ 100; - 2 ^ 53 + 1; - 2 ^ 53; - 2 ^ 53 - 2; - 2 ^ 53 - 4;
     - 2 ^ 54 + 2; - 2 ^ 54; - 2 ^ 54 - 4; - 2 ^ 55; - 2 ^ 60 - 256].
Proof. repeat constructor. Qed.

(** The ratios are the doubles nearest to [2/5] and [1/5]. *)
Lemma tint_shade_literals :
  Number.tint = Number.div (Number.ofZ 2) (Number.ofZ 5)
  ∧ Number.shade = Number.div (Number.ofZ 1) (Number.ofZ 5).
Proof. split; vm_compute; reflexivity. Qed.
(** ** The arithmetic of doubles

    What the rounding of a quotient leaves of the integer quotient, read
    off the Standard Library's specification of binary64. *)

Section Doubles.
Import SpecFloat.

Lemma digits2_bounds (p : positive) :
  2 ^ (Z.pos (digits2_pos p) - 1) ≤ Z.pos p < 2 ^ Z.pos (digits2_pos p).
Proof.
  induction p as [p IH|p IH|]; cbn [digits2_pos].
  - rewrite Pos2Z.inj_succ.
    replace (Z.succ (Z.pos (digits2_pos p)) - 1) with (Z.succ (Z.pos (digits2_pos p) - 1)) by lia.
    rewrite !Z.pow_succ_r by lia. lia.
  - rewrite Pos2Z.inj_succ.
    replace (Z.succ (Z.pos (digits2_pos p)) - 1) with (Z.succ (Z.pos (digits2_pos p) - 1)) by lia.
    rewrite !Z.pow_succ_r by lia. lia.
  - cbn. lia.
Qed.

Lemma digits2_eq (p : positive) (d : Z) :
  2 ^ (d - 1) ≤ Z.pos p < 2 ^ d → Z.pos (digits2_pos p) = d.
Proof.
  intros [Hlo Hhi]. pose proof (digits2_bounds p) as [Hlo' Hhi'].
  assert (0 < d).
  { destruct (Z.le_gt_cases d 0) as [H|H]; [|done].
    assert (2 ^ d ≤ 2 ^ 0) by (apply Z.pow_le_mono_r; lia). cbn in *. lia. }
  destruct (Z.lt_trichotomy (Z.pos (digits2_pos p)) d) as [H1|[H1|H1]]; [|done|].
  - assert (2 ^ Z.pos (digits2_pos p) ≤ 2 ^ (d - 1))
      by (apply Z.pow_le_mono_r; lia). lia.
  - assert (2 ^ d ≤ 2 ^ (Z.pos (digits2_pos p) - 1))
      by (apply Z.pow_le_mono_r; lia). lia.
Qed.

(** A mantissa of 53 digits is rounded in place. *)
Lemma round_53 (s : bool) (q : positive) (e : Z) (l : location) (m : positive) :
  Z.pos (digits2_pos q) = 53 → -1074 ≤ e ≤ 971 →
  round_nearest_even (Z.pos q) l = Z.pos m → Z.pos m < 2 ^ 53 →
  binary_round_aux 53 1024 s (Z.pos q) e l = S754_finite s m e.
Proof.
  intros Hd He Hm Hlt. unfold binary_round_aux, shr_fexp.
  cbn [Zdigits2]. rewrite Hd.
  assert (Hf : fexp 53 1024 (53 + e) - e = 0) by (unfold fexp, emin; lia).
  rewrite Hf. cbn [shr].
  assert (Hl : loc_of_shr_record (shr_record_of_loc (Z.pos q) l) = l)
    by (by destruct l as [|[]]).
  assert (Hq : shr_m (shr_record_of_loc (Z.pos q) l) = Z.pos q)
    by (by destruct l as [|[]]).
  rewrite Hl, Hq, Hm. cbn [Zdigits2].
  assert (Hdm : Z.pos (digits2_pos m) = 53).
  { apply digits2_eq. split; [|done].
    pose proof (digits2_bounds q) as [Hq1 _]. rewrite Hd in Hq1.
    assert (Z.pos q ≤ Z.pos m); [|lia].
    rewrite <- Hm. destruct l as [|[]]; cbn [round_nearest_even]; try lia.
    destruct (Z.even (Z.pos q)); lia. }
  rewrite Hdm, Hf. cbn [shr shr_record_of_loc shr_m].
  destruct (Z.leb_spec e (1024 - 53)); [done|lia].
Qed.

(** A mantissa of 54 digits loses its last digit, which decides the
    rounding together with what was lost before. *)
Lemma round_54 (s : bool) (q : positive) (e : Z) (l : location) (m : positive) :
  Z.pos (digits2_pos q) = 54 → -1075 ≤ e ≤ 970 →
  round_nearest_even (Z.pos q / 2)
    (loc_of_shr_record (shr_1 (shr_record_of_loc (Z.pos q) l))) = Z.pos m →
  Z.pos m < 2 ^ 53 →
  binary_round_aux 53 1024 s (Z.pos q) e l = S754_finite s m (e + 1).
Proof.
  intros Hd He Hm Hlt. unfold binary_round_aux, shr_fexp.
  cbn [Zdigits2]. rewrite Hd.
  assert (Hf : fexp 53 1024 (54 + e) - e = 1) by (unfold fexp, emin; lia).
  rewrite Hf. cbn [shr iter_pos].
  assert (Hq : shr_m (shr_1 (shr_record_of_loc (Z.pos q) l)) = Z.pos q / 2).
  { pose proof (digits2_bounds q) as [Hq1 _]. rewrite Hd in Hq1.
    destruct q as [q|q|]; [| |cbn in Hq1; lia];
      destruct l as [|[]]; cbn [shr_record_of_loc shr_1 shr_m].
    all: first [ apply Z.div_unique with (r := 1); [lia|];
                 apply (Pos2Z.inj_xI q)
               | apply Z.div_unique with (r := 0); [lia|];
                 rewrite (Pos2Z.inj_xO q); lia ]. }
  rewrite Hq, Hm. cbn [Zdigits2].
  assert (Hdm : Z.pos (digits2_pos m) = 53).
  { apply digits2_eq. split; [|done].
    pose proof (digits2_bounds q) as [Hq1 _]. rewrite Hd in Hq1.
    assert (Z.pos q / 2 ≤ Z.pos m).
    { rewrite <- Hm.
      destruct (loc_of_shr_record _) as [|[]]; cbn [round_nearest_even]; try lia.
      destruct (Z.even _); lia. }
    assert (2 ^ 52 ≤ Z.pos q / 2); [|lia].
    apply Z.div_le_lower_bound; [lia|]. change (2 * 2 ^ 52) with (2 ^ (54 - 1)).
    lia. }
  assert (Hf' : fexp 53 1024 (53 + (e + 1)) - (e + 1) = 0)
    by (unfold fexp, emin; lia).
  rewrite Hdm, Hf'. cbn [shr shr_record_of_loc shr_m].
  destruct (Z.leb_spec (e + 1) (1024 - 53)); [done|lia].
Qed.

(** The double of a positive integer below [2^53]: the integer itself,
    with its mantissa shifted to 53 digits. *)
Lemma ofZ_normal (p : positive) :
  Z.pos p < 2 ^ 53 →
  ∃ m e, Number.ofZ (Z.pos p) = S754_finite false m e
    ∧ -52 ≤ e ≤ 0 ∧ Z.pos m = Z.pos p * 2 ^ (- e)
    ∧ 2 ^ 52 ≤ Z.pos m < 2 ^ 53.
Proof.
  intros Hp. pose proof (digits2_bounds p) as [Hlo Hhi].
  set (d := Z.pos (digits2_pos p)) in *.
  assert (Hd : 1 ≤ d ≤ 53).
  { split; [unfold d; lia|].
    destruct (Z.le_gt_cases d 53) as [H|H]; [done|].
    assert (2 ^ 53 ≤ 2 ^ (d - 1)) by (apply Z.pow_le_mono_r; lia). lia. }
  unfold Number.ofZ, binary_normalize, binary_round. fold d.
  assert (Hf : fexp Number.prec Number.emax (d + 0) = d - 53)
    by (unfold fexp, emin, Number.prec, Number.emax; lia).
  rewrite Hf. unfold shl_align.
  destruct (d - 53 - 0) as [|k|k] eqn:Ek; [|lia|].
  - exists p, 0. assert (d = 53) by lia.
    split; [|split; [lia|split; [cbn; lia|]]].
    + apply round_53; [lia | lia | done | done].
    + replace (52) with (d - 1) by lia. replace 53 with d by lia. done.
  - set (m := Pos.iter xO p k).
    assert (Hm : Z.pos m = Z.pos p * 2 ^ Z.pos k).
    { unfold m. change (Pos.iter xO p k) with (shift_pos k p).
      rewrite shift_pos_correct, Zpower_pos_nat, Zpower_nat_Z.
      rewrite positive_nat_Z. lia. }
    assert (Hk : Z.pos k = 53 - d) by lia.
    assert (Hb : 2 ^ 52 ≤ Z.pos m < 2 ^ 53).
    { assert (E1 : 2 ^ 52 = 2 ^ (d - 1) * 2 ^ (53 - d))
        by (rewrite <- Z.pow_add_r by lia; f_equal; lia).
      assert (E2 : 2 ^ 53 = 2 ^ d * 2 ^ (53 - d))
        by (rewrite <- Z.pow_add_r by lia; f_equal; lia).
      rewrite Hm, Hk, E1, E2.
      assert (0 < 2 ^ (53 - d)) by (apply Z.pow_pos_nonneg; lia).
      split; [apply Z.mul_le_mono_nonneg_r; lia
             |apply Z.mul_lt_mono_pos_r; lia]. }
    exists m, (d - 53).
    split; [|split; [lia|split; [|done]]].
    + apply round_53; [|lia|done|lia].
      apply digits2_eq. exact Hb.
    + rewrite Hm. f_equal. f_equal. lia.
Qed.

(** The quotient by twenty of a double that is an integer below [2^53],
    floored: the integer quotient.  The double quotient is the exact one
    rounded to 53 digits; it lies within [1/32] of it, and the exact one
    is an integer or at least [1/20] below the next one. *)
Lemma floor_div20_normal (m1 : positive) (e1 n : Z) :
  2 ^ 52 ≤ Z.pos m1 < 2 ^ 53 → -52 ≤ e1 ≤ 0 → Z.pos m1 = n * 2 ^ (- e1) →
  Number.floor (SFdiv 53 1024 (S754_finite false m1 e1)
                  (S754_finite false 5629499534213120 (-48)))
  = Number.RInt (n / 20).
Proof.
  intros Hm1 He1 Hn.
  set (T := 2 ^ (- e1)) in *.
  assert (HT : 1 ≤ T).
  { unfold T. change 1 with (2 ^ 0). apply Z.pow_le_mono_r; lia. }
  unfold SFdiv, SFdiv_core_binary. cbn [Zdigits2 xorb].
  rewrite (digits2_eq m1 53) by exact Hm1.
  change (Z.pos (digits2_pos 5629499534213120)) with 53.
  assert (He' : Z.min (fexp 53 1024 (53 + e1 - (53 + -48))) (e1 - -48) = e1 - 5)
    by (unfold fexp, emin; lia).
  rewrite He'. replace (e1 - -48 - (e1 - 5)) with 53 by lia.
  cbv beta iota. rewrite Z.shiftl_mul_pow2 by lia.
  pose proof (Z_div_mod (Z.pos m1 * 2 ^ 53) 5629499534213120 eq_refl) as Hdm.
  destruct (Z.div_eucl (Z.pos m1 * 2 ^ 53) 5629499534213120) as [q r].
  destruct Hdm as [Hq Hr].
  set (r' := 8 * Z.pos m1 - 5 * q).
  assert (Er : r = 1125899906842624 * r') by (unfold r'; lia).
  assert (Hr' : 0 ≤ r' < 5) by lia.
  assert (E8 : 8 * Z.pos m1 = 5 * q + r') by (unfold r'; lia).
  clearbody r'. subst r. clear Hq Hr.
  (* n = 20 k + rho *)
  pose proof (Z.div_mod n 20 ltac:(lia)) as Hk.
  pose proof (Z.mod_pos_bound n 20 ltac:(lia)) as Hrho.
  set (k := n / 20) in *. set (rho := n `mod` 20) in *.
  assert (HV : 0 ≤ rho * T ≤ 19 * T) by nia.
  assert (EA : Z.pos m1 = 20 * (k * T) + rho * T) by (rewrite Hn, Hk; ring).
  set (U := k * T) in *. set (V := rho * T) in *.
  assert (Hloc : new_location 5629499534213120 (1125899906842624 * r')
                 = if r' =? 0 then loc_Exact
                   else loc_Inexact (2 * r' ?= 5)).
  { unfold new_location. change (Z.even 5629499534213120) with true. cbv iota.
    unfold new_location_even.
    destruct (Z.eqb_spec r' 0) as [->|Hne]; [reflexivity|].
    destruct (Z.eqb_spec (1125899906842624 * r') 0) as [E0|_]; [lia|].
    f_equal.
    destruct (Z.compare_spec (2 * r') 5);
      [apply Z.compare_eq_iff | apply Z.compare_lt_iff | apply Z.compare_gt_iff];
      lia. }
  rewrite Hloc. clear Hloc.
  destruct q as [|q|q]; [lia| |lia].
  assert (Hpow : 2 ^ (- (e1 - 5)) = 32 * T ∧ 2 ^ (- (e1 - 5 + 1)) = 16 * T).
  { unfold T. split.
    - replace (- (e1 - 5)) with (5 + - e1) by lia. by rewrite Z.pow_add_r by lia.
    - replace (- (e1 - 5 + 1)) with (4 + - e1) by lia.
      by rewrite Z.pow_add_r by lia. }
  destruct Hpow as [H32 H16].
  destruct (Z.lt_ge_cases (Z.pos q) (2 ^ 53)) as [Hq53|Hq54].
  - (* 53 digits *)
    set (l := if r' =? 0 then loc_Exact else loc_Inexact (2 * r' ?= 5)).
    assert (Hrn : Z.pos q ≤ round_nearest_even (Z.pos q) l ≤ Z.pos q + 1
                  ∧ (round_nearest_even (Z.pos q) l = Z.pos q + 1 → 3 ≤ r')).
    { unfold l. destruct (Z.eqb_spec r' 0); cbn [round_nearest_even]; [lia|].
      destruct (Z.compare_spec (2 * r') 5); cbn [round_nearest_even];
        try destruct (Z.even _); lia. }
    destruct Hrn as [Hrn1 Hrn2].
    set (m := round_nearest_even (Z.pos q) l) in *.
    rewrite (round_53 false q (e1 - 5) l (Z.to_pos m)).
    + cbn [Number.floor].
      destruct (Z.leb_spec 0 (e1 - 5)); [lia|].
      rewrite Z2Pos.id by lia. rewrite H32. f_equal.
      symmetry. apply Z.div_unique with (r := m - 32 * U); [|unfold U; ring].
      left. lia.
    + apply digits2_eq. lia.
    + lia.
    + rewrite Z2Pos.id by lia. done.
    + rewrite Z2Pos.id by lia. lia.
  - (* 54 digits *)
    set (l := if r' =? 0 then loc_Exact else loc_Inexact (2 * r' ?= 5)).
    set (l' := loc_of_shr_record (shr_1 (shr_record_of_loc (Z.pos q) l))).
    assert (Hh := Z.div_mod (Z.pos q) 2 ltac:(lia)).
    assert (Hhb := Z.mod_pos_bound (Z.pos q) 2 ltac:(lia)).
    set (h := Z.pos q / 2) in *.
    assert (Hrn : h ≤ round_nearest_even h l' ≤ h + 1
                  ∧ (round_nearest_even h l' = h + 1 → Z.pos q = 2 * h + 1)).
    { unfold l'. destruct q as [q|q|]; [| |lia].
      - rewrite (Pos2Z.inj_xI q) in Hh. 
        destruct l as [|[]]; cbn [shr_record_of_loc shr_1 loc_of_shr_record orb
                                    round_nearest_even];
          try destruct (Z.even _); lia.
      - rewrite (Pos2Z.inj_xO q) in Hh.
        destruct l as [|[]]; cbn [shr_record_of_loc shr_1 loc_of_shr_record orb
                                    round_nearest_even]; lia. }
    destruct Hrn as [Hrn1 Hrn2].
    set (m := round_nearest_even h l') in *.
    rewrite (round_54 false q (e1 - 5) l (Z.to_pos m)).
    + cbn [Number.floor].
      destruct (Z.leb_spec 0 (e1 - 5 + 1)); [lia|].
      rewrite Z2Pos.id by lia. rewrite H16. f_equal.
      symmetry. apply Z.div_unique with (r := m - 16 * U); [|unfold U; ring].
      left. lia.
    + apply digits2_eq. lia.
    + lia.
    + rewrite Z2Pos.id by lia. done.
    + rewrite Z2Pos.id by lia. lia.
Qed.

(** [Math.floor(n / 20)] on doubles, for an integer below [2^53]. *)
Lemma floor_div20 (n : Z) :
  0 ≤ n < 2 ^ 53 →
  Number.floor (Number.div (Number.ofZ n) (Number.ofZ 20))
  = Number.RInt (n / 20).
Proof.
  intros Hn. destruct n as [|p|p]; [reflexivity| |lia].
  destruct (ofZ_normal p) as (m & e & Em & He & Hm & Hb); [lia|].
  unfold Number.div. rewrite Em.
  change (Number.ofZ 20) with (S754_finite false 5629499534213120 (-48)).
  by apply floor_div20_normal.
Qed.

Lemma binary_round_aux_sign (s : bool) (m e : Z) (l : location) :
  match binary_round_aux 53 1024 s m e l with
  | S754_zero s' | S754_infinity s' | S754_finite s' _ _ => s' = s
  | S754_nan => True
  end.
Proof.
  unfold binary_round_aux.
  destruct (shr_fexp 53 1024 m e l) as [mrs' e'].
  destruct (shr_fexp 53 1024 _ e' loc_Exact) as [mrs'' e''].
  destruct (shr_m mrs''); [done| |done].
  by destruct (e'' <=? 1024 - 53).
Qed.

Lemma ofZ_nonpositive (z : Z) : z < 0 → nonpositive (Number.ofZ z).
Proof.
  intros Hz. destruct z as [|p|p]; [lia|lia|].
  unfold Number.ofZ, binary_normalize, binary_round.
  destruct (shl_align _ _ _) as [mz ez].
  pose proof (binary_round_aux_sign true (Z.pos mz) ez loc_Exact) as H.
  unfold nonpositive, Number.prec, Number.emax.
  by destruct (binary_round_aux 53 1024 true (Z.pos mz) ez loc_Exact).
Qed.

Lemma div_nonpositive (x : Number.double) (m : positive) (e : Z) :
  nonpositive x → nonpositive (Number.div x (S754_finite false m e)).
Proof.
  intros Hx. unfold Number.div, SFdiv.
  destruct x as [s|s| |s mx ex]; cbn in Hx; try done.
  - by subst s.
  - subst s. destruct (SFdiv_core_binary _ _ _ _ _ _) as [[mz ez] lz].
    pose proof (binary_round_aux_sign (xorb true false) mz ez lz) as H.
    unfold nonpositive, Number.prec, Number.emax.
    by destruct (binary_round_aux 53 1024 (xorb true false) mz ez lz).
Qed.

Lemma floor_nonpositive (x : Number.double) (d v : Z) :
  nonpositive x → 0 < d → Number.rem (Number.floor x) d = Some v → v ≤ 0.
Proof.
  intros Hx Hd. destruct x as [s|s| |s m e]; cbn in *; try done.
  - intros [= <-]. by rewrite Z.rem_0_l by lia.
  - subst s. intros [= <-]. apply Z.rem_nonpos; [lia|].
    destruct (0 <=? e).
    + assert (0 ≤ 2 ^ e) by (apply Z.pow_nonneg; lia). nia.
    + destruct (Z.le_gt_cases (- e) (-1)) as [Hneg|Hpos].
      * rewrite Z.pow_neg_r by lia. by rewrite Z.div_0_r.
      * assert (0 < 2 ^ (- e)) by (apply Z.pow_pos_nonneg; lia).
        apply Z.div_le_upper_bound; [done|]. lia.
Qed.

(** For a negative index the floored quotient is not above zero, and so
    is its remainder: the index is neither tinted nor shaded. *)
Lemma shadeIndex_negative (index v : Z) :
  index < 0 →
  Number.rem (Number.floor (Number.div (Number.ofZ index) (Number.ofZ 20))) 3
  = Some v → v ≤ 0.
Proof.
  intros Hi. apply floor_nonpositive; [|lia].
  change (Number.ofZ 20) with (S754_finite false 5629499534213120 (-48)).
  by apply div_nonpositive, ofZ_nonpositive.
Qed.
End Doubles.
(** ** The sum of doubles *)

Section Sum.
Import SpecFloat.

(** Shifting out digits that are all zero loses nothing. *)
Lemma shr_zeros (k a : positive) :
  iter_pos shr_1 k (Build_shr_record (Z.pos (Pos.iter xO a k)) false false)
  = Build_shr_record (Z.pos a) false false.
Proof.
  revert a. induction k as [k IH|k IH|]; intros a; cbn [iter_pos Pos.iter].
  - cbn [shr_1 orb]. by rewrite !IH.
  - by rewrite !IH.
  - reflexivity.
Qed.

(** A mantissa of 53 digits followed by zeros is kept. *)
Lemma round_zeros (s : bool) (a k : positive) (e : Z) :
  Z.pos (digits2_pos a) = 53 → -1074 ≤ e + Z.pos k ≤ 971 →
  binary_round_aux 53 1024 s (Z.pos (Pos.iter xO a k)) e loc_Exact
  = S754_finite s a (e + Z.pos k).
Proof.
  intros Ha He.
  assert (Hq : Z.pos (Pos.iter xO a k) = Z.pos a * 2 ^ Z.pos k).
  { change (Pos.iter xO a k) with (shift_pos k a).
    rewrite shift_pos_correct, Zpower_pos_nat, Zpower_nat_Z, positive_nat_Z.
    lia. }
  pose proof (digits2_bounds a) as Hb. rewrite Ha in Hb.
  assert (Hd : Z.pos (digits2_pos (Pos.iter xO a k)) = 53 + Z.pos k).
  { apply digits2_eq. rewrite Hq.
    replace (53 + Z.pos k - 1) with (52 + Z.pos k) by lia.
    rewrite !Z.pow_add_r by lia. change (53 - 1) with 52 in Hb.
    assert (0 < 2 ^ Z.pos k) by (apply Z.pow_pos_nonneg; lia). nia. }
  unfold binary_round_aux, shr_fexp. cbn [Zdigits2]. rewrite Hd.
  assert (Hf : fexp 53 1024 (53 + Z.pos k + e) - e = Z.pos k)
    by (unfold fexp, emin; lia).
  rewrite Hf. cbn [shr shr_record_of_loc]. rewrite shr_zeros.
  cbn [shr_m loc_of_shr_record round_nearest_even Zdigits2]. rewrite Ha.
  assert (Hf' : fexp 53 1024 (53 + (e + Z.pos k)) - (e + Z.pos k) = 0)
    by (unfold fexp, emin; lia).
  rewrite Hf'. cbn [shr shr_record_of_loc shr_m].
  destruct (Z.leb_spec (e + Z.pos k) (1024 - 53)); [done|lia].
Qed.

(** Adding one to a double that is an integer from [-1] to below [2^53]
    is exact: the sum that [newLabelId] computes is the integer one, which
    is what [Number.succ] gives there. *)
Lemma add_one_exact (n : Z) :
  -1 ≤ n < 2 ^ 53 →
  Number.floor (Number.add (Number.ofZ n) (Number.ofZ 1))
  = Number.RInt (Number.succ n).
Proof.
  intros Hn. rewrite succ_exact by done.
  destruct n as [|p|p]; [reflexivity| |].
  2:{ assert (p = 1%positive) as -> by lia. reflexivity. }
  destruct (ofZ_normal p) as (m & e & Em & He & Hm & Hb); [lia|].
  rewrite Em. change (Number.ofZ 1) with (S754_finite false 4503599627370496 (-52)).
  unfold Number.add, SFadd.
  replace (Z.min e (-52)) with (-52) by lia.
  assert (Hx : Z.pos (fst (shl_align m e (-52))) = Z.pos p * 2 ^ 52).
  { unfold shl_align. destruct (-52 - e) as [|j|j] eqn:Ej; [|lia|].
    - cbn [fst]. rewrite Hm. f_equal. f_equal. lia.
    - cbn [fst]. change (Pos.iter xO m j) with (shift_pos j m).
      rewrite shift_pos_correct, Zpower_pos_nat, Zpower_nat_Z, positive_nat_Z.
      rewrite Hm. replace (Z.pos j) with (e + 52) by lia.
      rewrite Z.mul_comm, <- Z.mul_assoc, <- Z.pow_add_r by lia.
      f_equal. f_equal. lia. }
  cbn [cond_Zopp]. change (shl_align 4503599627370496 (-52) (-52))
    with (4503599627370496%positive, -52). cbn [fst].
  (* the sum, as a mantissa of 53 digits followed by zeros *)
  pose proof (digits2_bounds (p + 1)) as Hd1.
  set (d := Z.pos (digits2_pos (p + 1))) in *.
  assert (Hd : 2 ≤ d ≤ 54).
  { split.
    - destruct (Z.le_gt_cases 2 d) as [H|H]; [done|].
      assert (d = 1) by lia. subst d. rewrite H0 in Hd1. cbn in Hd1. lia.
    - destruct (Z.le_gt_cases d 54) as [H|H]; [done|].
      assert (2 ^ 54 ≤ 2 ^ (d - 1)) by (apply Z.pow_le_mono_r; lia). lia. }
  rewrite Pos2Z.inj_add in Hd1. change (Z.pos 1) with 1 in Hd1.
  assert (Ha : ∃ a : positive,
            Z.pos a * 2 ^ (d - 1) = (Z.pos p + 1) * 2 ^ 52
            ∧ 2 ^ 52 ≤ Z.pos a < 2 ^ 53).
  { destruct (decide (d = 54)) as [E|E].
    - exists 4503599627370496%positive. rewrite E in *.
      change (54 - 1) with 53 in *. split; [|lia].
      assert (Z.pos p + 1 = 2 ^ 53) as -> by lia. reflexivity.
    - assert (Hp2 : 0 < 2 ^ (53 - d)) by (apply Z.pow_pos_nonneg; lia).
      exists (Z.to_pos ((Z.pos p + 1) * 2 ^ (53 - d))).
      rewrite Z2Pos.id by nia.
      assert (E1 : 2 ^ 52 = 2 ^ (d - 1) * 2 ^ (53 - d))
        by (rewrite <- Z.pow_add_r by lia; f_equal; lia).
      assert (E2 : 2 ^ 53 = 2 ^ d * 2 ^ (53 - d))
        by (rewrite <- Z.pow_add_r by lia; f_equal; lia).
      split; [rewrite E1; ring|]. rewrite E1, E2.
      split; [apply Z.mul_le_mono_nonneg_r; lia
             |apply Z.mul_lt_mono_pos_r; lia]. }
  destruct Ha as (a & Ha & Hab).
  set (k := Z.to_pos (d - 1)).
  assert (Hk : Z.pos k = d - 1) by (unfold k; rewrite Z2Pos.id; lia).
  clearbody k. rewrite <- Hk in Ha.
  assert (Hq : Z.pos (Pos.iter xO a k) = Z.pos a * 2 ^ Z.pos k).
  { change (Pos.iter xO a k) with (shift_pos k a).
    rewrite shift_pos_correct, Zpower_pos_nat, Zpower_nat_Z, positive_nat_Z.
    lia. }
  assert (Hda : Z.pos (digits2_pos a) = 53) by (by apply digits2_eq).
  assert (Hdq : Z.pos (digits2_pos (Pos.iter xO a k)) = 53 + Z.pos k).
  { apply digits2_eq. rewrite Hq.
    replace (53 + Z.pos k - 1) with (52 + Z.pos k) by lia.
    rewrite !Z.pow_add_r by lia.
    assert (0 < 2 ^ Z.pos k) by (apply Z.pow_pos_nonneg; lia). nia. }
  replace (Z.pos (fst (shl_align m e (-52))) + 4503599627370496)
    with (Z.pos (Pos.iter xO a k))
    by (rewrite Hx, Hq, Ha; change 4503599627370496 with (2 ^ 52); ring).
  unfold binary_normalize, binary_round. rewrite Hdq.
  assert (Hf : fexp Number.prec Number.emax (53 + Z.pos k + -52)
               = Z.pos k - 52)
    by (unfold fexp, emin, Number.prec, Number.emax; lia).
  rewrite Hf. unfold shl_align.
  replace (Z.pos k - 52 - -52) with (Z.pos k) by lia.
  unfold Number.prec, Number.emax. rewrite round_zeros by (done || lia).
  unfold Number.floor. f_equal.
  assert (H52 : 0 < 2 ^ 52) by lia.
  destruct (Z.leb_spec 0 (-52 + Z.pos k)) as [Hge|Hlt].
  - replace (Z.pos k) with (-52 + Z.pos k + 52) in Ha by lia.
    rewrite Z.pow_add_r, Z.mul_assoc in Ha by lia.
    apply Z.mul_cancel_r in Ha; lia.
  - replace 52 with (- (-52 + Z.pos k) + Z.pos k) in Ha at 1 by lia.
    rewrite Z.pow_add_r, Z.mul_assoc in Ha by lia.
    assert (0 < 2 ^ Z.pos k) by (apply Z.pow_pos_nonneg; lia).
    apply Z.mul_cancel_r in Ha; [|lia]. rewrite Ha.
    apply Z.div_mul. apply Z.pow_nonzero; lia.
Qed.

End Sum.
(** C10: serialization is read-only.  Whatever the session, and whether the
    encoding returns a document or throws on a broken reference,
    [Sat.toJson] / [Sat.encodeBaseJson] with the [SatItem.toJson] and
    [SatLabel.encodeBaseJson] calls they make leave the whole session as it
    was: items, labels, labelIdMap, lastLabelId, events and every field of
    every label and item. *)
Theorem toJson_leaves_session_unchanged (userAgent : string) (s : Sat) :
  snd (toJson userAgent s) = s
  ∧ (∀ i, snd (SatItem_toJson i s) = s)
  ∧ (∀ a, snd (SatLabel_encodeBaseJson a s) = s).
Proof.
  split; [|split].
  - revert s. change (readonly (toJson userAgent)).
    unfold toJson, encodeBaseJson. readonly_step.
    + apply readonly_mapM, readonly_SatItem_toJson.
    + apply readonly_encodeValid.
  - intros i. apply readonly_SatItem_toJson.
  - intros a. apply (readonly_SatLabel_toJson a).
Qed.
(** ** Hit testing *)


Lemma encodeId_bytes (slot handle : Z) :
  0 ≤ slot < 65536 → -1 ≤ handle ≤ 254 →
  isByte (px_r (encodeId slot handle)) ∧ isByte (px_g (encodeId slot handle))
  ∧ isByte (px_b (encodeId slot handle)) ∧ isByte (px_a (encodeId slot handle)).
Proof.
  intros Hs Hh. unfold isByte. simpl.
  pose proof (Z.mod_pos_bound slot 256).
  assert (0 ≤ slot / 256 < 256).
  { split; [apply Z.div_pos; lia | apply Z.div_lt_upper_bound; lia]. }
  lia.
Qed.



(** Before the item is activated there is no hidden canvas to sample, and
    the hit test throws. *)
Lemma getSelected_before_activation (s : Sat) (self : nat) (it : Item.t)
    (px : Pixel) :
  items s !! self = Some it → Item.state it = None →
  _getSelected self px s = (Throw, s).
Proof.
  intros Hit Hst. unfold _getSelected.
  rewrite bind_run, (getItem_run _ _ _ Hit).
  by rewrite bind_run, (canvas_throws _ _ Hst).
Qed.

(** ** Items to and from JSON *)

Lemma validIds_objects (s : Sat) (rs : list ref) (ls : list Label.t) :
  objects s rs = Some ls →
  validIds rs s = (Done (Label.id <$> List.filter Label.valid ls), s).
Proof.
  revert ls. induction rs as [|r rs IH]; intros ls H.
  - inversion H. reflexivity.
  - unfold objects in H. simpl in H.
    destruct r as [| |a]; try discriminate.
    apply bind_Some in H as (l & Hl & H).
    apply bind_Some in H as (ls' & Hls & H). inversion H; subst ls.
    cbn [validIds]. rewrite bind_run, (deref_run _ _ _ Hl).
    rewrite bind_run, (IH _ Hls). simpl.
    destruct (Label.valid l); reflexivity.
Qed.

Lemma validIds_throws (s : Sat) (rs : list ref) :
  objects s rs = None → validIds rs s = (Throw, s).
Proof.
  induction rs as [|r rs IH]; intros H; [discriminate|].
  unfold objects in H. simpl in H. cbn [validIds]. rewrite bind_run.
  destruct r as [| |a]; try reflexivity.
  unfold deref. rewrite bind_run, gets_run.
  destruct (labels s !! a) as [l|] eqn:El; [|reflexivity].
  simpl in H. cbn [defined]. rewrite ret_run, bind_run.
  fold (objects s rs) in H. destruct (objects s rs) eqn:E; [discriminate|].
  rewrite IH by done. reflexivity.
Qed.

(** C3 fails as stated: the deleted label 10 is in the item's label list and
    its id is not in [labelIds]. *)
Lemma toJson_omits_invalid_label : ¬ lists_every_label session_with_invalid 0.
Proof.
  intros H.
  destruct (H (sampleItem 0 [RObj 0%nat; RObj 1%nat]) 0%nat (sampleLabel 10 false))
    as (j & ids & Hj & Hids & Hin); [reflexivity | | reflexivity |].
  { apply list_elem_of_here. }
  vm_compute in Hj. inversion Hj; subst j. simpl in Hids.
  inversion Hids; subst ids.
  apply list_elem_of_singleton in Hin. discriminate.
Qed.

(** C3, amended: [labelIds] of [SatItem.toJson] lists, in the order of the
    item's label list, the ids of exactly the entries that are valid; the id
    of an entry that is not valid is left out.  The session is not changed. *)
Theorem toJson_lists_valid_labels (s : Sat) (self : nat) (it : Item.t)
    (ls : list Label.t) :
  items s !! self = Some it →
  objects s (Item.labels it) = Some ls →
  SatItem_toJson self s =
    (Done (ItemJson.mk (Item.url it) (Item.index it)
             (Some (Label.id <$> List.filter Label.valid ls))), s)
  ∧ (∀ i, i ∈ Label.id <$> List.filter Label.valid ls ↔
          ∃ l, l ∈ ls ∧ Label.valid l = true ∧ Label.id l = i).
Proof.
  intros Hit Hls. split.
  - unfold SatItem_toJson.
    rewrite bind_run, (getItem_run _ _ _ Hit).
    rewrite bind_run, (validIds_objects _ _ _ Hls). reflexivity.
  - intros i. rewrite list_elem_of_fmap. split.
    + intros (l & -> & Hl). apply list_elem_of_In, filter_In in Hl as [Hl Hv].
      exists l. by rewrite list_elem_of_In.
    + intros (l & Hl & Hv & <-). exists l. split; [done|].
      apply list_elem_of_In, filter_In. by rewrite <- list_elem_of_In.
Qed.

Lemma toJson_lists_valid_labels_witness :
  SatItem_toJson 0 session_with_invalid =
    (Done (ItemJson.mk "img" 0 (Some [11])), session_with_invalid).
Proof.
  apply (proj1 (toJson_lists_valid_labels session_with_invalid 0 _
           [sampleLabel 10 false; sampleLabel 11 true] eq_refl eq_refl)).
Defined.

Lemma set_items_insert_id (s : Sat) (self : nat) (it : Item.t) :
  items s !! self = Some it →
  set_items (λ its, <[self := it]> its) s = s.
Proof.
  intros H. destruct s; unfold set_items; simpl in *.
  by rewrite list_insert_id.
Qed.

(** The loop of [SatItem.fromJson]: one entry is pushed per id. *)
Lemma fromJson_loop (self : nat) (ids : list Z) (s : Sat) (it : Item.t) :
  items s !! self = Some it →
  forM_ ids (λ i,
    m ← gets labelIdMap;
    it ← getItem self;
    setItem self (Item.set_labels (Item.labels it ++ [lookupId m (Some i)]))) s
  = (Done tt,
     set_items (λ its,
       <[self := Item.set_labels
          (Item.labels it ++ ((λ i, lookupId (labelIdMap s) (Some i)) <$> ids)) it]>
         its) s).
Proof.
  revert s it. induction ids as [|i ids IH]; intros s it Hit.
  - cbn [forM_ fmap list_fmap]. rewrite app_nil_r, ret_run. f_equal.
    symmetry. apply set_items_insert_id. by destruct it.
  - cbn [forM_]. rewrite bind_run. do 2 mstep.
    unfold setItem. rewrite modify_run.
    erewrite IH; cycle 1.
    { simpl. rewrite list_lookup_alter_eq, Hit. reflexivity. }
    f_equal. destruct s; unfold set_items; simpl in *. f_equal.
    rewrite (alter_as_insert _ _ _ _ Hit), list_insert_insert_eq.
    f_equal. destruct it; unfold Item.set_labels; simpl.
    by rewrite <- app_assoc.
Qed.

(** [SatItem.fromJson] as one write of the item. *)
Lemma SatItem_fromJson_run (s : Sat) (self : nat) (it : Item.t)
    (j : ItemJson.t) :
  items s !! self = Some it →
  SatItem_fromJson self j s =
    (Done tt,
     set_items (λ its,
       <[self := Item.set_labels
                   (Item.labels it ++
                    ((λ i, lookupId (labelIdMap s) (Some i)) <$>
                       default [] (ItemJson.labelIds j)))
                   (Item.set_index (ItemJson.index j)
                      (Item.set_url (ItemJson.url j) it))]> its) s).
Proof.
  intros Hit.
  unfold SatItem_fromJson, setItem. do 2 mstep.
  set (s1 := set_items _ (set_items _ s)).
  set (it1 := Item.set_index (ItemJson.index j)
                (Item.set_url (ItemJson.url j) it)).
  assert (H1 : items s1 !! self = Some it1).
  { unfold s1. simpl. by rewrite !list_lookup_alter_eq, Hit. }
  destruct (ItemJson.labelIds j) as [ids|]; simpl.
  + rewrite (fromJson_loop _ _ _ _ H1). f_equal.
    unfold s1, it1. destruct s; unfold set_items; simpl in *. f_equal.
    rewrite (alter_as_insert _ _ _ _ Hit).
    erewrite alter_as_insert by (apply list_lookup_insert_eq; by eapply lookup_lt_Some).
    by rewrite !list_insert_insert_eq.
  + rewrite ret_run. f_equal. rewrite app_nil_r.
    unfold s1. destruct s; unfold set_items; simpl in *. f_equal.
    rewrite (alter_as_insert _ _ _ _ Hit).
    erewrite alter_as_insert by (apply list_lookup_insert_eq; by eapply lookup_lt_Some).
    by rewrite !list_insert_insert_eq.
Qed.

(** C4 fails as stated: the id 7 is unknown to [labelIdMap], yet the item's
    label list gets an entry for it. *)
Lemma fromJson_keeps_missing_id :
  ¬ drops_missing_ids session_one_item 0 (ItemJson.mk "img" 0 (Some [7])).
Proof.
  intros H.
  specialize (H (sampleItem 0 []) [7] _ eq_refl eq_refl eq_refl).
  vm_compute in H. discriminate.
Qed.

(** C4, amended: [SatItem.fromJson] never fails on an id that [labelIdMap]
    does not know; the load continues, and the id is not dropped: every
    entry of [labelIds] contributes one entry to the item's label list, in
    order, the label object registered under the id, or [undefined] when
    there is none.  Only that item is written. *)
Theorem fromJson_pushes_one_entry_per_id (s : Sat) (self : nat) (it : Item.t)
    (j : ItemJson.t) :
  items s !! self = Some it →
  let ids := default [] (ItemJson.labelIds j) in
  let pushed := (λ i, lookupId (labelIdMap s) (Some i)) <$> ids in
  SatItem_fromJson self j s =
    (Done tt,
     set_items (λ its,
       <[self := Item.set_labels (Item.labels it ++ pushed)
                   (Item.set_index (ItemJson.index j)
                      (Item.set_url (ItemJson.url j) it))]> its) s)
  ∧ length pushed = length ids
  ∧ (∀ k i, ids !! k = Some i → labelIdMap s !! i = None →
       pushed !! k = Some RUndef)
  ∧ (∀ k i a, ids !! k = Some i → labelIdMap s !! i = Some a →
       pushed !! k = Some (RObj a)).
Proof.
  intros Hit ids pushed. repeat split.
  - by apply SatItem_fromJson_run.
  - apply length_fmap.
  - intros k i Hk Hi. unfold pushed. rewrite list_lookup_fmap, Hk. simpl.
    unfold lookupId. simpl. by rewrite Hi.
  - intros k i a Hk Hi. unfold pushed. rewrite list_lookup_fmap, Hk. simpl.
    unfold lookupId. simpl. by rewrite Hi.
Qed.

Lemma fromJson_pushes_one_entry_per_id_witness :
  SatItem_fromJson 0 (ItemJson.mk "img" 0 (Some [7])) session_one_item =
    (Done tt,
     mkSat [sampleItem 0 [RUndef]] [] ∅ (-1) (Some 0%nat) [] 0 None None None).
Proof.
  apply (proj1 (fromJson_pushes_one_entry_per_id session_one_item 0
                  (sampleItem 0 []) (ItemJson.mk "img" 0 (Some [7])) eq_refl)).
Defined.
(** ** Navigation *)

Lemma forM__run_const {A : Type} (l : list A) (f : A → M unit) (s : Sat) :
  (∀ a, a ∈ l → f a s = (Done tt, s)) → forM_ l f s = (Done tt, s).
Proof.
  induction l as [|a l IH]; intros H; [reflexivity|].
  cbn [forM_]. rewrite bind_run, H by apply list_elem_of_here.
  apply IH. intros b Hb. apply H. by apply list_elem_of_further.
Qed.

Lemma objects_elem (s : Sat) (rs : list ref) (ls : list Label.t) (r : ref) :
  objects s rs = Some ls → r ∈ rs → ∃ a l, r = RObj a ∧ labels s !! a = Some l.
Proof.
  unfold objects. intros H Hr. apply mapM_Some_1 in H.
  apply list_elem_of_lookup in Hr as [k Hk].
  destruct (Forall2_lookup_l _ _ _ _ _ H Hk) as (l & _ & Hl).
  destruct r as [| |a]; try discriminate. eauto.
Qed.

(** [redraw] returns on an item that has been activated when every entry
    of its label list is a label. *)
Lemma redraw_run (s : Sat) (self : nat) (it : Item.t) (st : istate)
    (ls : list Label.t) :
  items s !! self = Some it → Item.state it = Some st →
  objects s (Item.labels it) = Some ls →
  redraw self s = (Done tt, s).
Proof.
  intros Hit Hst Hls. unfold redraw. mstep.
  mstep with (canvas_run _ _ _ Hst).
  apply forM__run_const. intros r Hr.
  destruct (objects_elem _ _ _ _ Hls Hr) as (a & l & -> & Hl).
  by mstep.
Qed.

Lemma setItem_run (self : nat) (f : Item.t → Item.t) (s : Sat) :
  setItem self f s = (Done tt, set_items (alter f self) s).
Proof. reflexivity. Qed.

Lemma set_items_set_items (f g : list Item.t → list Item.t) (s : Sat) :
  set_items f (set_items g s) = set_items (f ∘ g) s.
Proof. by destruct s. Qed.

Lemma setActive_run (s : Sat) (self : nat) (active : bool) (it : Item.t) :
  items s !! self = Some it →
  setActive self active s =
    (Done tt, set_items (alter (activate active) self) s).
Proof.
  intros Hit. unfold setActive. mstep.
  rewrite bind_run, setItem_run. cbv beta iota.
  destruct active.
  - rewrite bind_run, setItem_run. cbv beta iota. rewrite setItem_run.
    f_equal. rewrite !set_items_set_items. destruct s; unfold set_items; simpl.
    f_equal. by rewrite !list_alter_alter_eq.
  - by rewrite ret_run.
Qed.

(** For an index that is not negative [gotoItem] does wrap: the item at
    position [index mod n] becomes the current, active one. *)
Lemma gotoItem_wraps_nonnegative (s : Sat) (index : Z) (c : nat)
    (itc itt : Item.t) (ls : list Label.t) :
  0 ≤ index →
  currentItem s = Some c → items s !! c = Some itc →
  items s !! Z.to_nat (index `mod` Z.of_nat (length (items s))) = Some itt →
  objects s (Item.labels itt) = Some ls →
  ∃ s' itt', gotoItem index s = (Done tt, s')
    ∧ currentItem s' = Some (Z.to_nat (index `mod` Z.of_nat (length (items s))))
    ∧ items s' !! Z.to_nat (index `mod` Z.of_nat (length (items s))) = Some itt'
    ∧ Item.active itt' = true ∧ Item.state itt' = Some Free
    ∧ labels s' = labels s.
Proof.
  intros Hidx Hcur Hc Ht Hls.
  set (n := Z.of_nat (length (items s))) in *.
  assert (Hn : 0 < n).
  { apply lookup_lt_Some in Hc. unfold n. lia. }
  set (t := Z.to_nat (index `mod` n)) in *.
  pose proof (Z.mod_pos_bound index n Hn) as Hb.
  unfold gotoItem. mstep. mstep. rewrite Hcur. cbn [defined]. mstep.
  rewrite bind_run, (setActive_run _ _ _ _ Hc). cbv beta iota.
  mstep. mstep. mstep.
  cbn [currentItem set_currentItem set_items items].
  fold n. rewrite Z.rem_mod_nonneg by lia.
  unfold itemAt. rewrite length_alter. fold n.
  replace ((0 <=? index `mod` n) && (index `mod` n <? n)) with true
    by (symmetry; apply andb_true_iff; split; [apply Z.leb_le | apply Z.ltb_lt]; lia).
  fold t. cbn [defined]. mstep.
  assert (∃ itt0, alter (activate false) c (items s) !! t = Some itt0
                  ∧ Item.labels itt0 = Item.labels itt) as (itt0 & Ht0 & Hl0).
  { destruct (decide (t = c)) as [E|Hne].
    - rewrite E in *. rewrite list_lookup_alter_eq, Hc. simpl.
      eexists; split; [reflexivity|]. rewrite Hc in Ht. by inversion Ht.
    - rewrite list_lookup_alter_ne by done. eauto. }
  rewrite bind_run. erewrite setActive_run by (cbn [items set_items set_currentItem]; exact Ht0).
  cbv beta iota.
  match goal with |- context [redraw t ?s1] => set (sF := s1) end.
  assert (HF : ∃ itt', items sF !! t = Some itt' ∧ Item.active itt' = true
             ∧ Item.state itt' = Some Free ∧ Item.labels itt' = Item.labels itt).
  { unfold sF. cbn [items set_items set_currentItem].
    rewrite !list_lookup_alter_eq, Ht0. simpl. eexists. split; [reflexivity|].
    by repeat split. }
  destruct HF as (itt' & HF1 & HF2 & HF3 & HF4).
  erewrite redraw_run; [| exact HF1 | exact HF3 | rewrite HF4; exact Hls].
  exists sF, itt'. repeat split; auto.
Qed.

(** For a negative index that is no multiple of the item count, [%] keeps
    the sign: there is no item at that position and [gotoItem] throws once
    the current item has been deactivated. *)
Lemma gotoItem_negative_throws (s : Sat) (index : Z) (c : nat) (itc : Item.t) :
  currentItem s = Some c → items s !! c = Some itc →
  index < 0 → Z.rem index (Z.of_nat (length (items s))) ≠ 0 →
  gotoItem index s
  = (Throw, set_currentItem None (set_items (alter (activate false) c) s)).
Proof.
  intros Hcur Hc Hneg Hrem.
  unfold gotoItem. mstep. mstep. rewrite Hcur. cbn [defined]. mstep.
  mstep with (setActive_run _ _ _ _ Hc). mstep. mstep. mstep.
  cbn [currentItem set_currentItem].
  assert (Hlt : Z.rem index (Z.of_nat (length (items s))) < 0).
  { apply lookup_lt_Some in Hc.
    pose proof (Z.rem_nonpos index (Z.of_nat (length (items s)))
                  ltac:(lia) ltac:(lia)). lia. }
  unfold itemAt.
  replace (0 <=? Z.rem index (Z.of_nat (length (items s)))) with false
    by (symmetry; lia).
  reflexivity.
Qed.

(** C6 on the code: in the session decoded from a document with three
    items, [gotoItem(-1)] throws after deactivating the current item
    ([-1 % 3] is [-1] and [items[-1]] is [undefined]) and leaves the session
    without a current item, whereas [gotoItem(2)] makes the third item the
    current, active one. *)
Theorem gotoItem_negative_index_throws :
  fst (decodeBaseJson 0 doc_three_items (Sat_new 0)) = Done tt
  ∧ length (items session_three_items) = 3%nat
  ∧ fst (gotoItem (-1) session_three_items) = Throw
  ∧ currentItem (snd (gotoItem (-1) session_three_items)) = None
  ∧ fst (gotoItem 2 session_three_items) = Done tt
  ∧ currentItem (snd (gotoItem 2 session_three_items)) = Some 2%nat
  ∧ (Item.active <$> items (snd (gotoItem 2 session_three_items)) !! 2%nat)
      = Some true.
Proof. vm_compute. repeat split. Qed.

(** ** Deleting along a chain *)

(** C8 on the code: in the session decoded from the sample document, label 1
    names a previous label (7) and a next label (8) that do not exist, and
    the neighbouring item holds a label.  The walk of [deleteLabelById] does
    not stop at the missing link: it compares [currentItem.labels[j].id]
    with [currentLabel.id] for the [undefined] [currentLabel] and throws,
    and nothing is deleted.  The forward walk does the same for the missing
    next label, with or without the backward walk. *)
Theorem deleteLabelById_orphan_link_throws :
  fst (decodeBaseJson 0 doc_orphan_chain (Sat_new 0)) = Done tt
  ∧ fst (deleteLabelById 2 1 1 true session_orphan_chain) = Throw
  ∧ snd (deleteLabelById 2 1 1 true session_orphan_chain) = session_orphan_chain
  ∧ fst (deleteLabelById 2 0 0 true session_orphan_chain) = Throw
  ∧ fst (deleteLabelById 2 0 0 false session_orphan_chain) = Throw.
Proof. vm_compute. repeat split. Qed.
(** ** Computations that keep a relation *)

Lemma preserves_readonly (R : relation Sat) `{!Reflexive R} {A : Type}
    (m : M A) :
  readonly m → preserves R m.
Proof. intros H s. by rewrite H. Qed.

Lemma preserves_bind (R : relation Sat) `{!Transitive R} {A B : Type}
    (m : M A) (f : A → M B) :
  preserves R m → (∀ a, preserves R (f a)) → preserves R (m ≫= f).
Proof.
  intros Hm Hf s. rewrite bind_run. specialize (Hm s).
  destruct (m s) as [[a| |] s1]; simpl in *; auto.
  etrans; [exact Hm | apply Hf].
Qed.

Lemma preserves_forM_ (R : relation Sat) `{!PreOrder R} {A : Type}
    (l : list A) (f : A → M unit) :
  (∀ a, a ∈ l → preserves R (f a)) → preserves R (forM_ l f).
Proof.
  induction l as [|a l IH]; intros H.
  - intros s. reflexivity.
  - cbn [forM_]. apply preserves_bind; [apply _ | apply H, list_elem_of_here|].
    intros _. apply IH. intros b Hb. by apply H, list_elem_of_further.
Qed.

Ltac pbind :=
  cbv beta;
  match goal with
  | |- preserves ?R (?m ≫= ?f) =>
    apply (preserves_bind R m f);
    try match goal with |- Transitive _ => apply _ end
  end.

Ltac pread :=
  cbv beta; apply preserves_readonly;
  [match goal with |- Reflexive _ => apply _ end | auto with readonly].

(** ** The relations of deletion *)

Lemma deleted_from_refl (l : Label.t) : deleted_from l l.
Proof. unfold deleted_from. destruct l; simpl; auto. Qed.

Lemma deleted_from_trans (l1 l2 l3 : Label.t) :
  deleted_from l1 l2 → deleted_from l2 l3 → deleted_from l1 l3.
Proof.
  intros (E1 & V1 & P1) (E2 & V2 & P2). repeat split.
  - rewrite E2, E1. destruct l1; reflexivity.
  - auto.
  - destruct P2 as [P2|P2]; [rewrite P2; exact P1 | by right].
Qed.

Lemma detached_from_refl (l : Label.t) : detached_from l l.
Proof. split; [apply deleted_from_refl | done]. Qed.

Lemma detached_from_trans (l1 l2 l3 : Label.t) :
  detached_from l1 l2 → detached_from l2 l3 → detached_from l1 l3.
Proof.
  intros [D1 N1] [D2 N2]. split; [by eapply deleted_from_trans | congruence].
Qed.

Lemma Forall2_refl_all {A : Type} (P : relation A) (l : list A) :
  (∀ x, P x x) → Forall2 P l l.
Proof. intros H. induction l; constructor; auto. Qed.

Lemma Forall2_trans_all {A : Type} (P : relation A) (l1 l2 l3 : list A) :
  (∀ x y z, P x y → P y z → P x z) →
  Forall2 P l1 l2 → Forall2 P l2 l3 → Forall2 P l1 l3.
Proof.
  intros HP H12. revert l3. induction H12; intros l3 H23; inversion H23; subst;
    constructor; eauto.
Qed.

#[global] Instance only_deletes_preorder : PreOrder only_deletes.
Proof.
  split.
  - intros s. split; [by destruct s|].
    apply Forall2_refl_all, deleted_from_refl.
  - intros s1 s2 s3 [E1 F1] [E2 F2]. split.
    + rewrite E2, E1. by destruct s1.
    + eapply Forall2_trans_all; eauto using deleted_from_trans.
Qed.

#[global] Instance detaches_within_preorder (D : addr → Prop) :
  PreOrder (detaches_within D).
Proof.
  split.
  - intros s. split; [by destruct s|]. split; [|done].
    apply Forall2_refl_all, detached_from_refl.
  - intros s1 s2 s3 (E1 & F1 & X1) (E2 & F2 & X2). repeat split.
    + rewrite E2, E1. by destruct s1.
    + eapply Forall2_trans_all; eauto using detached_from_trans.
    + intros x Hx. rewrite X2, X1; auto.
Qed.

Lemma detaches_within_mono (D D' : addr → Prop) (s s' : Sat) :
  (∀ x, D x → D' x) → detaches_within D s s' → detaches_within D' s s'.
Proof. intros H (E & F & X). repeat split; auto. Qed.

Lemma detaches_only_deletes (D : addr → Prop) (s s' : Sat) :
  detaches_within D s s' → only_deletes s s'.
Proof.
  intros (E & F & _). split; [done|].
  eapply Forall2_impl; [exact F|]. by intros l l' [H _].
Qed.

(** Writing one label. *)
Lemma Forall2_alter_r {A : Type} (P : relation A) (l : list A) (a : nat)
    (f : A → A) :
  (∀ x, P x x) → (∀ x, l !! a = Some x → P x (f x)) →
  Forall2 P l (alter f a l).
Proof.
  intros Hr Hf. apply Forall2_same_length_lookup. split.
  - by rewrite length_alter.
  - intros i x y Hx Hy. destruct (decide (i = a)) as [->|Hne].
    + rewrite list_lookup_alter_eq, Hx in Hy. inversion Hy; subst. by apply Hf.
    + rewrite list_lookup_alter_ne, Hx in Hy by done. inversion Hy; subst.
      apply Hr.
Qed.

Lemma setLabel_only_deletes (a : addr) (f : Label.t → Label.t) (s : Sat) :
  (∀ l, labels s !! a = Some l → deleted_from l (f l)) →
  only_deletes s (snd (setLabel a f s)).
Proof.
  intros Hf. split; [by destruct s|]. simpl.
  apply Forall2_alter_r; [apply deleted_from_refl | done].
Qed.

Lemma setLabel_detaches (D : addr → Prop) (a : addr) (f : Label.t → Label.t)
    (s : Sat) :
  D a → (∀ l, labels s !! a = Some l → detached_from l (f l)) →
  detaches_within D s (snd (setLabel a f s)).
Proof.
  intros Ha Hf. split; [by destruct s|]. simpl. split.
  - apply Forall2_alter_r; [apply detached_from_refl | done].
  - intros x Hx. apply list_lookup_alter_ne. intros ->. done.
Qed.

Lemma deleted_from_set_valid (l : Label.t) :
  deleted_from l (Label.set_valid false l).
Proof. unfold deleted_from. destruct l; simpl; repeat split; auto; discriminate. Qed.

Lemma deleted_from_set_parent (l : Label.t) :
  deleted_from l (Label.set_parent RNull l).
Proof. unfold deleted_from. destruct l; simpl; auto. Qed.

Lemma deleted_from_set_numChildren (l : Label.t) (n : Z) :
  deleted_from l (Label.set_numChildren n l).
Proof. unfold deleted_from. destruct l; simpl; auto. Qed.

Lemma deleteParent_only_deletes (rec : addr → M unit) (self : Label.t) :
  (∀ p, preserves only_deletes (rec p)) →
  preserves only_deletes (deleteParent rec self).
Proof.
  intros IH. unfold deleteParent.
  destruct (Label.parent self) as [| |p]; [pread..|].
  pbind; [pread | intros pl]. pbind; [|intros _].
  { intros s. apply setLabel_only_deletes. intros l _.
    apply deleted_from_set_numChildren. }
  pbind; [pread | intros pl'].
  destruct (_ =? _); [apply IH | pread].
Qed.

Lemma deleteChild_only_deletes (rec : addr → M unit) (c : ref) :
  (∀ p, preserves only_deletes (rec p)) →
  preserves only_deletes (deleteChild rec c).
Proof.
  intros IH. unfold deleteChild. destruct c as [| |ca]; [pread..|].
  pbind; [|intros _; apply IH].
  intros s. apply setLabel_only_deletes. intros l _.
  apply deleted_from_set_parent.
Qed.

(** Deletion only writes [valid], [parent] and [numChildren] of labels. *)
Lemma delete_only_deletes (fuel : nat) (a : addr) :
  preserves only_deletes (delete fuel a).
Proof.
  revert a. induction fuel as [|n IH]; intros a.
  - intros s. reflexivity.
  - cbn [delete]. pbind; [|intros _].
    { intros s. apply setLabel_only_deletes. intros l _.
      apply deleted_from_set_valid. }
    pbind; [pread | intros self]. pbind; [|intros _].
    { by apply deleteParent_only_deletes. }
    pbind; [pread | intros self'].
    apply preserves_forM_; [apply _|]. intros c _.
    by apply deleteChild_only_deletes.
Qed.

Lemma forM__Done_elem {A : Type} (R : relation Sat) `{!PreOrder R}
    (l : list A) (f : A → M unit) (s s' : Sat) :
  (∀ a, a ∈ l → preserves R (f a)) →
  forM_ l f s = (Done tt, s') →
  ∀ x, x ∈ l → ∃ sb sa, R s sb ∧ f x sb = (Done tt, sa) ∧ R sa s'.
Proof.
  revert s. induction l as [|a l IH]; intros s Hf Hrun x Hx.
  - by apply elem_of_nil in Hx.
  - cbn [forM_] in Hrun. apply bind_Done in Hrun as ([] & s1 & Ha & Hrest).
    apply elem_of_cons in Hx as [->|Hx].
    + exists s, s1. split; [reflexivity|]. split; [done|].
      replace s' with (snd (forM_ l f s1)) by (by rewrite Hrest).
      apply preserves_forM_; [done|]. intros b Hb.
      by apply Hf, list_elem_of_further.
    + destruct (IH s1) with (x := x) as (sb & sa & H1 & H2 & H3); auto.
      { intros b Hb. by apply Hf, list_elem_of_further. }
      exists sb, sa. split; [|done]. etrans; [|exact H1].
      replace s1 with (snd (f a s)) by (by rewrite Ha).
      apply Hf, list_elem_of_here.
Qed.

Lemma deleted_from_children (l l' : Label.t) :
  deleted_from l l' → Label.children l' = Label.children l.
Proof. intros [E _]. rewrite E. by destruct l. Qed.

Lemma only_deletes_lookup (s s' : Sat) (a : addr) (l : Label.t) :
  only_deletes s s' → labels s !! a = Some l →
  ∃ l', labels s' !! a = Some l' ∧ deleted_from l l'.
Proof. intros [_ F] H. by apply (Forall2_lookup_l _ _ _ _ _ F H). Qed.

Lemma only_deletes_lookup_r (s s' : Sat) (a : addr) (l' : Label.t) :
  only_deletes s s' → labels s' !! a = Some l' →
  ∃ l, labels s !! a = Some l ∧ deleted_from l l'.
Proof. intros [_ F] H. by apply (Forall2_lookup_r _ _ _ _ _ F H). Qed.

Lemma only_deletes_child_of (s s' : Sat) (a c : addr) :
  only_deletes s s' → child_of (labels s) a c ↔ child_of (labels s') a c.
Proof.
  intros Hd. split.
  - intros (l & Hl & Hc).
    destruct (only_deletes_lookup _ _ _ _ Hd Hl) as (l' & Hl' & D).
    exists l'. split; [done|]. by rewrite (deleted_from_children _ _ D).
  - intros (l' & Hl' & Hc).
    destruct (only_deletes_lookup_r _ _ _ _ Hd Hl') as (l & Hl & D).
    exists l. split; [done|]. by rewrite <- (deleted_from_children _ _ D).
Qed.

Lemma only_deletes_reach (s s' : Sat) (a d : addr) :
  only_deletes s s' → reach (labels s) a d ↔ reach (labels s') a d.
Proof.
  intros Hd. unfold reach. split; intros H.
  - induction H as [|x y z Hxy _ IH]; [constructor|].
    eapply rtc_l; [|exact IH]. by apply (only_deletes_child_of _ _ _ _ Hd).
  - induction H as [|x y z Hxy _ IH]; [constructor|].
    eapply rtc_l; [|exact IH]. by apply (only_deletes_child_of _ _ _ _ Hd).
Qed.

Lemma only_deletes_frame (s s' : Sat) :
  only_deletes s s' →
  items s' = items s ∧ labelIdMap s' = labelIdMap s
  ∧ lastLabelId s' = lastLabelId s ∧ currentItem s' = currentItem s
  ∧ events s' = events s ∧ length (labels s') = length (labels s).
Proof.
  intros [E F]. rewrite E. simpl. repeat split.
  symmetry. by eapply Forall2_length.
Qed.

Lemma only_deletes_invalid (s s' : Sat) (a : addr) :
  only_deletes s s' → valid_at s a = Some false → valid_at s' a = Some false.
Proof.
  unfold valid_at. intros Hd H.
  destruct (labels s !! a) as [l|] eqn:El; [|discriminate].
  destruct (only_deletes_lookup _ _ _ _ Hd El) as (l' & -> & _ & V & _).
  simpl in *. inversion H as [Hv]. f_equal.
  destruct (Label.valid l'); [|done]. rewrite V in Hv; done.
Qed.

Lemma only_deletes_parent_null (s s' : Sat) (a : addr) :
  only_deletes s s' → parent_at s a = Some RNull → parent_at s' a = Some RNull.
Proof.
  unfold parent_at. intros Hd H.
  destruct (labels s !! a) as [l|] eqn:El; [|discriminate].
  destruct (only_deletes_lookup _ _ _ _ Hd El) as (l' & -> & _ & _ & P).
  simpl in *. inversion H as [Hp]. f_equal.
  destruct P as [P|P]; congruence.
Qed.

(** What a run of [delete] that returns went through. *)
Lemma delete_S_Done (n : nat) (a : addr) (s s' : Sat) :
  delete (S n) a s = (Done tt, s') →
  ∃ l s2 self',
    labels s !! a = Some l
    ∧ deleteParent (delete n) (Label.set_valid false l)
        (set_labels (alter (Label.set_valid false) a) s) = (Done tt, s2)
    ∧ labels s2 !! a = Some self'
    ∧ forM_ (Label.children self') (deleteChild (delete n)) s2 = (Done tt, s').
Proof.
  cbn [delete]. intros H.
  apply bind_Done in H as ([] & s1 & H1 & H).
  unfold setLabel in H1. rewrite modify_run in H1. inversion H1; subst s1; clear H1.
  apply bind_Done in H as (self & s1' & H1 & H).
  apply deref_Done in H1 as (-> & a0 & E & Hself). inversion E; subst a0; clear E.
  apply bind_Done in H as ([] & s2 & H2 & H).
  apply bind_Done in H as (self' & s2' & H3 & H).
  apply deref_Done in H3 as (-> & a0 & E & Hself'). inversion E; subst a0; clear E.
  rewrite labels_set_labels, list_lookup_alter_eq in Hself.
  destruct (labels s !! a) as [l|] eqn:El; simplify_eq/=. eauto 10.
Qed.

(** The steps of a run, related to its ends. *)
Lemma delete_S_Done_steps (n : nat) (a : addr) (l self' : Label.t)
    (s s2 s' : Sat) :
  deleteParent (delete n) (Label.set_valid false l)
    (set_labels (alter (Label.set_valid false) a) s) = (Done tt, s2) →
  forM_ (Label.children self') (deleteChild (delete n)) s2 = (Done tt, s') →
  only_deletes s (set_labels (alter (Label.set_valid false) a) s)
  ∧ only_deletes (set_labels (alter (Label.set_valid false) a) s) s2
  ∧ only_deletes s2 s'.
Proof.
  intros Hp Hc. split; [|split].
  - apply (setLabel_only_deletes a (Label.set_valid false) s).
    intros l0 _. apply deleted_from_set_valid.
  - match type of Hp with ?m ?s1 = _ =>
      replace s2 with (snd (m s1)) by (by rewrite Hp) end.
    apply deleteParent_only_deletes, delete_only_deletes.
  - match type of Hc with ?m ?s1 = _ =>
      replace s' with (snd (m s1)) by (by rewrite Hc) end.
    apply preserves_forM_; [apply _|]. intros c _.
    apply deleteChild_only_deletes, delete_only_deletes.
Qed.

(** After [delete] the label is not valid. *)
Lemma delete_invalid (fuel : nat) (a : addr) (s s' : Sat) :
  delete fuel a s = (Done tt, s') → valid_at s' a = Some false.
Proof.
  destruct fuel as [|n]; [discriminate|]. intros H.
  apply delete_S_Done in H as (l & s2 & self' & Hl & Hp & Hs & Hc).
  destruct (delete_S_Done_steps _ _ _ _ _ _ _ Hp Hc) as (_ & H12 & H23).
  apply (only_deletes_invalid _ _ _ H23), (only_deletes_invalid _ _ _ H12).
  unfold valid_at. by rewrite labels_set_labels, list_lookup_alter_eq, Hl.
Qed.

Lemma deleteChild_Done (rec : addr → M unit) (c : ref) (sb sa : Sat) :
  deleteChild rec c sb = (Done tt, sa) →
  ∃ ca, c = RObj ca
    ∧ rec ca (set_labels (alter (Label.set_parent RNull) ca) sb) = (Done tt, sa).
Proof.
  destruct c as [| |ca]; try discriminate. unfold deleteChild, setLabel.
  rewrite bind_run, modify_run. eauto.
Qed.

Lemma deleteParent_Done (rec : addr → M unit) (self : Label.t) (s1 s2 : Sat) :
  deleteParent rec self s1 = (Done tt, s2) →
  (Label.parent self = RNull ∧ s2 = s1)
  ∨ ∃ p pl, Label.parent self = RObj p ∧ labels s1 !! p = Some pl
      ∧ ((Label.numChildren pl - 1 = 0
          ∧ rec p (set_labels
                     (alter (Label.set_numChildren (Label.numChildren pl - 1)) p)
                     s1) = (Done tt, s2))
         ∨ (Label.numChildren pl - 1 ≠ 0
            ∧ s2 = set_labels
                     (alter (Label.set_numChildren (Label.numChildren pl - 1)) p)
                     s1)).
Proof.
  unfold deleteParent. destruct (Label.parent self) as [| |p]; try discriminate.
  - rewrite ret_run. intros H. inversion H. by left.
  - intros H. right.
    apply bind_Done in H as (pl & s0 & H1 & H).
    apply deref_Done in H1 as (-> & a0 & E & Hpl). inversion E; subst a0; clear E.
    unfold setLabel in H. rewrite bind_run, modify_run in H.
    apply bind_Done in H as (pl' & s0 & H1 & H).
    apply deref_Done in H1 as (-> & a0 & E & Hpl'). inversion E; subst a0; clear E.
    rewrite labels_set_labels, list_lookup_alter_eq, Hpl in Hpl'.
    simplify_eq/=. exists p, pl. split; [done|]. split; [done|].
    destruct (Z.eqb_spec (Label.numChildren pl - 1) 0) as [E|E].
    + left. split; [done|]. exact H.
    + right. split; [done|]. rewrite ret_run in H. by inversion H.
Qed.

(** Top-down cascade: after [delete] every label of the subtree is not
    valid, and every label below the deleted one has no parent. *)
Lemma delete_subtree (fuel : nat) :
  ∀ a s s', delete fuel a s = (Done tt, s') →
    (∀ d, reach (labels s) a d → valid_at s' d = Some false)
    ∧ (∀ c d, child_of (labels s) a c → reach (labels s) c d →
         parent_at s' d = Some RNull).
Proof.
  induction fuel as [|n IH]; intros a s s' Hrun; [discriminate|].
  pose proof Hrun as Hrun0.
  apply delete_S_Done in Hrun as (l & s2 & self' & Hl & Hp & Hs & Hc).
  destruct (delete_S_Done_steps _ _ _ _ _ _ _ Hp Hc) as (H01 & H12 & H23).
  assert (H02 : only_deletes s s2) by (etrans; eauto).
  assert (Hbelow : ∀ c d, child_of (labels s) a c → reach (labels s) c d →
            valid_at s' d = Some false ∧ parent_at s' d = Some RNull).
  { intros c d (l0 & Hl0 & Hin) Hcd. rewrite Hl in Hl0. inversion Hl0; subst l0.
    destruct (only_deletes_lookup _ _ _ _ H02 Hl) as (l2 & Hl2 & D2).
    rewrite Hs in Hl2. inversion Hl2; subst l2.
    rewrite <- (deleted_from_children _ _ D2) in Hin.
    destruct (forM__Done_elem only_deletes _ _ _ _
                (λ c _, deleteChild_only_deletes (delete n) c
                          (delete_only_deletes n)) Hc _ Hin)
      as (sb & sa & H2b & Hbody & Ha').
    apply deleteChild_Done in Hbody as (ca & [= <-] & Hdel).
    set (sb' := set_labels (alter (Label.set_parent RNull) c) sb) in *.
    assert (Hbb' : only_deletes sb sb').
    { apply (setLabel_only_deletes c (Label.set_parent RNull) sb).
      intros l1 _. apply deleted_from_set_parent. }
    assert (H0b' : only_deletes s sb') by (etrans; [|exact Hbb']; etrans; eauto).
    destruct (IH _ _ _ Hdel) as [IHv IHp].
    apply (only_deletes_reach _ _ _ _ H0b') in Hcd.
    split.
    - apply (only_deletes_invalid _ _ _ Ha'). by apply IHv.
    - apply (only_deletes_parent_null _ _ _ Ha').
      apply rtc_inv in Hcd as [<-|(c' & Hcc' & Hc'd)].
      + assert (Hc0 : parent_at sb' c = Some RNull).
        { pose proof (delete_invalid _ _ _ _ Hdel) as Hv.
          destruct (only_deletes_frame _ _ (delete_only_deletes n c sb')) as
            (_ & _ & _ & _ & _ & Hlen). rewrite Hdel in Hlen. simpl in Hlen.
          unfold valid_at in Hv.
          destruct (labels sa !! c) as [lc|] eqn:Elc; [|discriminate].
          apply lookup_lt_Some in Elc. rewrite Hlen in Elc.
          apply lookup_lt_is_Some_2 in Elc as [lc' Elc'].
          unfold parent_at, sb'. rewrite labels_set_labels, Elc'.
          rewrite list_lookup_alter_eq in Elc'.
          destruct (labels sb !! c); simplify_eq/=. reflexivity. }
        replace sa with (snd (delete n c sb')) by (by rewrite Hdel).
        by apply (only_deletes_parent_null _ _ _ (delete_only_deletes n c sb')).
      + by apply (IHp c' d). }
  split.
  - intros d Had. apply rtc_inv in Had as [<-|(c & Hac & Hcd)].
    + by apply (delete_invalid _ _ _ _ Hrun0).
    + by apply (Hbelow c d).
  - intros c d Hac Hcd. by apply (Hbelow c d).
Qed.

(** ** The top-down cascade writes the subtree only *)

Lemma forM__inv {A : Type} (P : Sat → Prop) (l : list A) (f : A → M unit) :
  (∀ x sb, x ∈ l → P sb → P (snd (f x sb))) →
  ∀ s, P s → P (snd (forM_ l f s)).
Proof.
  induction l as [|a l IH]; intros Hf s Hs; [done|].
  cbn [forM_]. rewrite bind_run.
  pose proof (Hf a s (list_elem_of_here _ _) Hs) as Ha.
  destruct (f a s) as [[[]| |] s1]; simpl in Ha; try done.
  apply IH; [|done]. intros x sb Hx. by apply Hf, list_elem_of_further.
Qed.

Lemma detached_from_set_valid (l : Label.t) :
  detached_from l (Label.set_valid false l).
Proof. split; [apply deleted_from_set_valid | by destruct l]. Qed.

Lemma detached_from_set_parent (l : Label.t) :
  detached_from l (Label.set_parent RNull l).
Proof. split; [apply deleted_from_set_parent | by destruct l]. Qed.

(** The loop over the children, given what the recursive calls do. *)
Lemma deleteChildren_detaches (n : nat) :
  (∀ c s, (∀ l, labels s !! c = Some l → Label.parent l = RNull) →
          detaches_within (reach (labels s) c) s (snd (delete n c s))) →
  ∀ a self s, labels s !! a = Some self →
    detaches_within (λ x, ∃ c, child_of (labels s) a c ∧ reach (labels s) c x)
      s (snd (forM_ (Label.children self) (deleteChild (delete n)) s)).
Proof.
  intros IH a self s Hself.
  set (D := λ x, ∃ c, child_of (labels s) a c ∧ reach (labels s) c x).
  apply (forM__inv (detaches_within D s)); [|reflexivity].
  intros r sb Hr Hsb. etrans; [exact Hsb|].
  destruct r as [| |ca]; try reflexivity.
  unfold deleteChild, setLabel. rewrite bind_run, modify_run.
  set (sb' := set_labels (alter (Label.set_parent RNull) ca) sb).
  assert (Hca : child_of (labels s) a ca) by (by exists self).
  assert (Hbb' : detaches_within D sb sb').
  { apply (setLabel_detaches D ca (Label.set_parent RNull) sb).
    - exists ca. split; [done | constructor].
    - intros l _. apply detached_from_set_parent. }
  etrans; [exact Hbb'|].
  eapply detaches_within_mono; [|apply IH].
  - intros x Hx. exists ca. split; [done|].
    apply (only_deletes_reach s sb'); [|done].
    eapply detaches_only_deletes. etrans; [exact Hsb | exact Hbb'].
  - intros l Hl. unfold sb' in Hl.
    rewrite labels_set_labels, list_lookup_alter_eq in Hl.
    destruct (labels sb !! ca); simplify_eq/=. reflexivity.
Qed.

(** Deleting a label that has no parent writes [valid] and [parent] of
    labels of its subtree, and nothing else. *)
Lemma delete_down (fuel : nat) :
  ∀ c s, (∀ l, labels s !! c = Some l → Label.parent l = RNull) →
    detaches_within (reach (labels s) c) s (snd (delete fuel c s)).
Proof.
  induction fuel as [|n IH]; intros c s Hpar; [reflexivity|].
  cbn [delete]. unfold setLabel at 1. rewrite bind_run, modify_run.
  set (s1 := set_labels (alter (Label.set_valid false) c) s).
  assert (H01 : detaches_within (reach (labels s) c) s s1).
  { apply (setLabel_detaches _ c (Label.set_valid false) s); [constructor|].
    intros l _. apply detached_from_set_valid. }
  rewrite bind_run. unfold deref at 1. rewrite bind_run, gets_run.
  destruct (labels s1 !! c) as [self|] eqn:Eself; [|exact H01].
  cbn [defined]. rewrite ret_run.
  assert (Hnull : Label.parent self = RNull).
  { unfold s1 in Eself. rewrite labels_set_labels, list_lookup_alter_eq in Eself.
    destruct (labels s !! c) as [l|] eqn:El; simplify_eq/=.
    destruct l; simpl in *. by apply (Hpar _ eq_refl). }
  rewrite bind_run. unfold deleteParent at 1. rewrite Hnull, ret_run.
  rewrite bind_run, (deref_run _ _ _ Eself).
  etrans; [exact H01|].
  eapply detaches_within_mono;
    [|apply (deleteChildren_detaches n IH c self s1 Eself)].
  intros x (ca & Hca & Hx).
  apply (only_deletes_reach s s1); [by eapply detaches_only_deletes|].
  by eapply rtc_l.
Qed.

(** ** The bottom-up cascade *)

Lemma delete_parent (fuel : nat) (a p : addr) (l lp : Label.t) (s s' : Sat) :
  delete fuel a s = (Done tt, s') →
  labels s !! a = Some l → Label.parent l = RObj p → labels s !! p = Some lp →
  (Label.numChildren lp = 1 → valid_at s' p = Some false)
  ∧ (Label.numChildren lp ≠ 1 → ¬ reach (labels s) a p →
       labels s' !! p =
       Some (Label.set_numChildren (Label.numChildren lp - 1) lp)).
Proof.
  destruct fuel as [|n]; [discriminate|]. intros Hrun Hl Hpar Hlp.
  apply delete_S_Done in Hrun as (l0 & s2 & self' & Hl0 & Hp & Hs & Hc).
  rewrite Hl in Hl0. inversion Hl0; subst l0; clear Hl0.
  destruct (delete_S_Done_steps _ _ _ _ _ _ _ Hp Hc) as (H01 & H12 & H23).
  set (s1 := set_labels (alter (Label.set_valid false) a) s) in *.
  apply deleteParent_Done in Hp as [[Hnull _]|(p0 & pl & Hp0 & Hpl & Hcase)].
  { destruct l; simpl in *; congruence. }
  assert (p0 = p) as -> by (destruct l; simpl in *; congruence).
  assert (Hnc : Label.numChildren pl = Label.numChildren lp).
  { unfold s1 in Hpl. rewrite labels_set_labels in Hpl.
    destruct (decide (p = a)) as [->|Hne].
    - rewrite list_lookup_alter_eq, Hlp in Hpl. by simplify_eq/=.
    - rewrite list_lookup_alter_ne, Hlp in Hpl by done. by simplify_eq. }
  destruct Hcase as [[Hz Hdel]|[Hnz ->]]; split; try lia.
  - intros _. apply (only_deletes_invalid _ _ _ H23).
    by apply (delete_invalid _ _ _ _ Hdel).
  - intros _ Hnr.
    assert (Hne : p ≠ a) by (intros ->; apply Hnr; constructor).
    set (s2 := set_labels _ s1) in *.
    pose proof (deleteChildren_detaches n (delete_down n) a self' s2 Hs)
      as (_ & _ & Hframe).
    rewrite Hc in Hframe. cbn [snd] in Hframe. rewrite Hframe.
    + unfold s2, s1. rewrite !labels_set_labels, list_lookup_alter_eq.
      rewrite list_lookup_alter_ne, Hlp by done. simpl. by rewrite Hnc.
    + intros (c & Hac & Hcp). apply Hnr.
      apply (only_deletes_reach s s2); [by etrans|]. by eapply rtc_l.
Qed.

(** ** Deletion returns on a forest *)

Section Forest.
Context (rank : addr → nat).

Lemma forest_only_deletes (s s' : Sat) :
  only_deletes s s' → forest (labels s) rank → forest (labels s') rank.
Proof.
  intros Hd Hf a l' Hl'.
  destruct (only_deletes_lookup_r _ _ _ _ Hd Hl') as (l & Hl & D).
  destruct (only_deletes_frame _ _ Hd) as (_ & _ & _ & _ & _ & Hlen).
  destruct (Hf a l Hl) as [Hch Hpar]. rewrite Hlen. split.
  - by rewrite (deleted_from_children _ _ D).
  - destruct D as (_ & _ & [-> | ->]); [done | by left].
Qed.

Lemma forM__total {A : Type} (Inv : Sat → Prop) (l : list A) (f : A → M unit) :
  (∀ x sb, x ∈ l → Inv sb → ∃ sa, f x sb = (Done tt, sa) ∧ Inv sa) →
  ∀ s, Inv s → ∃ s', forM_ l f s = (Done tt, s') ∧ Inv s'.
Proof.
  induction l as [|a l IH]; intros Hf s Hs; [by exists s|].
  destruct (Hf a s (list_elem_of_here _ _) Hs) as (s1 & H1 & Hs1).
  destruct (IH (λ x sb Hx, Hf x sb (list_elem_of_further _ _ _ Hx)) s1 Hs1)
    as (s' & H' & Hs').
  exists s'. split; [|done]. cbn [forM_]. by rewrite bind_run, H1.
Qed.

Lemma deleteChildren_total (n : nat) :
  (∀ c s, forest (labels s) rank → (c < length (labels s))%nat →
          (∀ l, labels s !! c = Some l → Label.parent l = RNull) →
          (rank c < n)%nat → ∃ s', delete n c s = (Done tt, s')) →
  ∀ a self s, forest (labels s) rank → labels s !! a = Some self →
    (rank a ≤ n)%nat →
    ∃ s', forM_ (Label.children self) (deleteChild (delete n)) s = (Done tt, s').
Proof.
  intros IH a self s Hf Hself Hrank.
  destruct (forM__total (only_deletes s) (Label.children self)
              (deleteChild (delete n))) with (s := s) as (s' & H & _);
    [|reflexivity|by exists s'].
  intros r sb Hr Hsb.
  destruct (Hf a self Hself) as [Hch _].
  destruct (Hch r Hr) as (c & -> & Hc & Hrc).
  unfold deleteChild, setLabel. rewrite bind_run, modify_run.
  set (sb' := set_labels (alter (Label.set_parent RNull) c) sb).
  assert (Hbb' : only_deletes sb sb').
  { apply (setLabel_only_deletes c (Label.set_parent RNull) sb).
    intros l _. apply deleted_from_set_parent. }
  assert (H0b' : only_deletes s sb') by (by etrans).
  destruct (only_deletes_frame _ _ H0b') as (_ & _ & _ & _ & _ & Hlen).
  destruct (IH c sb') as (sa & Hsa).
  - by apply (forest_only_deletes s).
  - by rewrite Hlen.
  - intros l Hl. unfold sb' in Hl.
    rewrite labels_set_labels, list_lookup_alter_eq in Hl.
    destruct (labels sb !! c); simplify_eq/=. reflexivity.
  - lia.
  - exists sa. split; [done|]. etrans; [exact H0b'|].
    replace sa with (snd (delete n c sb')) by (by rewrite Hsa).
    apply delete_only_deletes.
Qed.

Lemma delete_down_total (fuel : nat) :
  ∀ c s, forest (labels s) rank → (c < length (labels s))%nat →
    (∀ l, labels s !! c = Some l → Label.parent l = RNull) →
    (rank c < fuel)%nat → ∃ s', delete fuel c s = (Done tt, s').
Proof.
  induction fuel as [|n IH]; intros c s Hf Hc Hpar Hrank; [lia|].
  apply lookup_lt_is_Some_2 in Hc as [l Hl].
  cbn [delete]. unfold setLabel at 1. rewrite bind_run, modify_run.
  set (s1 := set_labels (alter (Label.set_valid false) c) s).
  assert (H01 : only_deletes s s1).
  { apply (setLabel_only_deletes c (Label.set_valid false) s).
    intros l0 _. apply deleted_from_set_valid. }
  assert (Hself : labels s1 !! c = Some (Label.set_valid false l)).
  { unfold s1. by rewrite labels_set_labels, list_lookup_alter_eq, Hl. }
  rewrite bind_run, (deref_run _ _ _ Hself).
  rewrite bind_run. unfold deleteParent at 1.
  replace (Label.parent (Label.set_valid false l)) with RNull
    by (destruct l; simpl; symmetry; by apply (Hpar _ Hl)).
  rewrite ret_run, bind_run, (deref_run _ _ _ Hself).
  apply (deleteChildren_total n IH c _ s1); [|done|lia].
  by apply (forest_only_deletes s).
Qed.

Lemma delete_total (R : nat) (fuel : nat) :
  ∀ a s, forest (labels s) rank →
    (∀ x, (x < length (labels s))%nat → (rank x ≤ R)%nat) →
    (a < length (labels s))%nat → (2 * R + 2 ≤ fuel + rank a)%nat →
    ∃ s', delete fuel a s = (Done tt, s').
Proof.
  induction fuel as [|n IH]; intros a s Hf HR Ha Hfuel.
  { specialize (HR a Ha). lia. }
  pose proof (HR a Ha) as HRa.
  apply lookup_lt_is_Some_2 in Ha as [l Hl].
  cbn [delete]. unfold setLabel at 1. rewrite bind_run, modify_run.
  set (s1 := set_labels (alter (Label.set_valid false) a) s).
  assert (H01 : only_deletes s s1).
  { apply (setLabel_only_deletes a (Label.set_valid false) s).
    intros l0 _. apply deleted_from_set_valid. }
  assert (Hself : labels s1 !! a = Some (Label.set_valid false l)).
  { unfold s1. by rewrite labels_set_labels, list_lookup_alter_eq, Hl. }
  rewrite bind_run, (deref_run _ _ _ Hself).
  assert (Hf1 : forest (labels s1) rank) by (by apply (forest_only_deletes s)).
  destruct (only_deletes_frame _ _ H01) as (_ & _ & _ & _ & _ & Hlen1).
  assert (Hpar : ∃ s2, deleteParent (delete n) (Label.set_valid false l) s1
                       = (Done tt, s2) ∧ only_deletes s1 s2).
  { destruct (Hf1 a _ Hself) as [_ [Hnull|(p & Hp & Hplen & Hprank)]].
    - exists s1. unfold deleteParent. rewrite Hnull. by split.
    - unfold deleteParent. rewrite Hp.
      apply lookup_lt_is_Some_2 in Hplen as [pl Hpl].
      rewrite bind_run, (deref_run _ _ _ Hpl).
      unfold setLabel. rewrite bind_run, modify_run.
      set (s1' := set_labels _ s1).
      assert (H11' : only_deletes s1 s1').
      { apply (setLabel_only_deletes p
                 (Label.set_numChildren (Label.numChildren pl - 1)) s1).
        intros l0 _. apply deleted_from_set_numChildren. }
      assert (Hpl' : labels s1' !! p
                = Some (Label.set_numChildren (Label.numChildren pl - 1) pl)).
      { unfold s1'. by rewrite labels_set_labels, list_lookup_alter_eq, Hpl. }
      rewrite bind_run, (deref_run _ _ _ Hpl').
      destruct (_ =? _).
      + destruct (only_deletes_frame _ _ H11') as (_ & _ & _ & _ & _ & Hlen').
        destruct (IH p s1') as (s2 & Hs2).
        * by apply (forest_only_deletes s1).
        * intros x Hx. apply HR. by rewrite <- Hlen1, <- Hlen'.
        * by eapply lookup_lt_Some.
        * lia.
        * exists s2. split; [done|]. etrans; [exact H11'|].
          replace s2 with (snd (delete n p s1')) by (by rewrite Hs2).
          apply delete_only_deletes.
      + exists s1'. by rewrite ret_run. }
  destruct Hpar as (s2 & Hs2 & H12).
  rewrite bind_run, Hs2.
  destruct (only_deletes_lookup _ _ _ _ H12 Hself) as (self' & Hself' & _).
  rewrite bind_run, (deref_run _ _ _ Hself').
  apply (deleteChildren_total n (delete_down_total n) a _ s2);
    [|done|lia].
  by apply (forest_only_deletes s1).
Qed.

(** ** Counts on a forest *)

Lemma only_deletes_numChildren_valid (a : addr) (s : Sat) (x : addr) :
  numChildren_at (set_labels (alter (Label.set_valid false) a) s) x
  = numChildren_at s x.
Proof.
  unfold numChildren_at. rewrite labels_set_labels.
  destruct (decide (x = a)) as [->|Hne].
  - rewrite list_lookup_alter_eq. by destruct (labels s !! a) as [[]|].
  - by rewrite list_lookup_alter_ne.
Qed.

(** On a forest a returning [delete] changes the count of no label that
    ranks at or below the deleted one: counts change on the way up only. *)
Lemma delete_numChildren_below (fuel : nat) :
  ∀ a s s', delete fuel a s = (Done tt, s') → forest (labels s) rank →
    ∀ x, (rank x ≤ rank a)%nat → numChildren_at s' x = numChildren_at s x.
Proof.
  induction fuel as [|n IH]; intros a s s' Hrun Hf x Hx; [discriminate|].
  apply delete_S_Done in Hrun as (l & s2 & self' & Hl & Hp & Hs & Hc).
  destruct (delete_S_Done_steps _ _ _ _ _ _ _ Hp Hc) as (H01 & H12 & H23).
  set (s1 := set_labels (alter (Label.set_valid false) a) s) in *.
  assert (Hf1 : forest (labels s1) rank) by (by apply (forest_only_deletes s)).
  assert (E23 : numChildren_at s' x = numChildren_at s2 x).
  { pose proof (deleteChildren_detaches n (delete_down n) a self' s2 Hs)
      as (_ & F & _).
    rewrite Hc in F. cbn [snd] in F. unfold numChildren_at.
    destruct (labels s2 !! x) as [l2|] eqn:E2.
    - destruct (Forall2_lookup_l _ _ _ _ _ F E2) as (l' & -> & _ & Hnc).
      simpl. by rewrite Hnc.
    - apply lookup_ge_None in E2. rewrite (Forall2_length _ _ _ F) in E2.
      apply lookup_ge_None in E2. by rewrite E2. }
  rewrite E23, <- (only_deletes_numChildren_valid a s x). fold s1.
  apply deleteParent_Done in Hp as [[_ ->]|(p & pl & Hpar & Hpl & Hcase)];
    [done|].
  assert (Hrank : (rank a < rank p)%nat).
  { destruct (Hf a l Hl) as [_ [Hnull|(p' & Hp' & _ & Hr)]];
      destruct l; simpl in *; congruence. }
  set (s1' := set_labels
    (alter (Label.set_numChildren (Label.numChildren pl - 1)) p) s1) in *.
  assert (E11' : numChildren_at s1' x = numChildren_at s1 x).
  { unfold numChildren_at, s1'. rewrite labels_set_labels.
    rewrite list_lookup_alter_ne; [done|]. intros ->. lia. }
  rewrite <- E11'. destruct Hcase as [[_ Hdel]|[_ ->]]; [|done].
  apply (IH p s1' s2 Hdel); [|lia].
  apply (forest_only_deletes s1); [|done].
  apply (setLabel_only_deletes p
           (Label.set_numChildren (Label.numChildren pl - 1)) s1).
  intros l0 _. apply deleted_from_set_numChildren.
Qed.

(** So the parent's count is decremented by exactly one. *)
Lemma delete_parent_count (fuel : nat) (a p : addr)
    (l lp : Label.t) (s s' : Sat) :
  delete fuel a s = (Done tt, s') → forest (labels s) rank →
  labels s !! a = Some l → Label.parent l = RObj p → labels s !! p = Some lp →
  numChildren_at s' p = Some (Label.numChildren lp - 1).
Proof.
  destruct fuel as [|n]; [discriminate|]. intros Hrun Hf Hl Hpar Hlp.
  assert (Hrank : (rank a < rank p)%nat).
  { destruct (Hf a l Hl) as [_ [Hnull|(p' & Hp' & _ & Hr)]]; congruence. }
  apply delete_S_Done in Hrun as (l0 & s2 & self' & Hl0 & Hp & Hs & Hc).
  rewrite Hl in Hl0. inversion Hl0; subst l0; clear Hl0.
  destruct (delete_S_Done_steps _ _ _ _ _ _ _ Hp Hc) as (H01 & H12 & H23).
  set (s1 := set_labels (alter (Label.set_valid false) a) s) in *.
  assert (Hf1 : forest (labels s1) rank) by (by apply (forest_only_deletes s)).
  assert (Hlp1 : labels s1 !! p = Some lp).
  { unfold s1. rewrite labels_set_labels, list_lookup_alter_ne; [done|].
    intros ->. lia. }
  assert (E23 : numChildren_at s' p = numChildren_at s2 p).
  { pose proof (deleteChildren_detaches n (delete_down n) a self' s2 Hs)
      as (_ & F & _).
    rewrite Hc in F. cbn [snd] in F. unfold numChildren_at.
    destruct (only_deletes_lookup _ _ _ _ H12 Hlp1) as (l2 & E2 & _).
    destruct (Forall2_lookup_l _ _ _ _ _ F E2) as (l' & E' & _ & Hnc).
    rewrite E', E2. simpl. by rewrite Hnc. }
  rewrite E23.
  apply deleteParent_Done in Hp as [[Hnull _]|(p0 & pl & Hp0 & Hpl & Hcase)].
  { destruct l; simpl in *; congruence. }
  assert (p0 = p) as -> by (destruct l; simpl in *; congruence).
  rewrite Hlp1 in Hpl. inversion Hpl; subst pl; clear Hpl.
  set (s1' := set_labels
    (alter (Label.set_numChildren (Label.numChildren lp - 1)) p) s1) in *.
  assert (E1' : numChildren_at s1' p = Some (Label.numChildren lp - 1)).
  { unfold numChildren_at, s1'.
    rewrite labels_set_labels, list_lookup_alter_eq, Hlp1. by destruct lp. }
  destruct Hcase as [[_ Hdel]|[_ ->]]; [|done].
  rewrite <- E1'. apply (delete_numChildren_below n p s1' s2 Hdel); [|lia].
  apply (forest_only_deletes s1); [|done].
  apply (setLabel_only_deletes p
           (Label.set_numChildren (Label.numChildren lp - 1)) s1).
  intros l0 _. apply deleted_from_set_numChildren.
Qed.

End Forest.

(** ** More fuel changes nothing *)

Lemma bind_outcome {A B : Type} (m : M A) (f : A → M B) s o s' :
  (m ≫= f) s = (o, s') → o ≠ OutOfFuel →
  (∃ a s1, m s = (Done a, s1) ∧ f a s1 = (o, s'))
  ∨ (m s = (Throw, s') ∧ o = Throw).
Proof.
  rewrite bind_run. destruct (m s) as [[a| |] s1]; intros H Ho.
  - left. eauto.
  - right. by inversion H.
  - inversion H. congruence.
Qed.

Lemma forM__more_fuel {A : Type} (l : list A) (f g : A → M unit) :
  (∀ x s o s', f x s = (o, s') → o ≠ OutOfFuel → g x s = (o, s')) →
  ∀ s o s', forM_ l f s = (o, s') → o ≠ OutOfFuel → forM_ l g s = (o, s').
Proof.
  intros Hfg. induction l as [|x l IH]; intros s o s' H Ho; [done|].
  cbn [forM_] in *.
  apply bind_outcome in H as [([] & s1 & H1 & H2)|[H1 ->]]; [| |done].
  - rewrite bind_run, (Hfg _ _ _ _ H1) by done. by apply IH.
  - by rewrite bind_run, (Hfg _ _ _ _ H1).
Qed.

(** A run of [delete] that returns or throws does the same with any larger
    fuel: the result of a call does not depend on the fuel. *)
Lemma delete_more_fuel (n : nat) :
  ∀ n' a s o s', delete n a s = (o, s') → o ≠ OutOfFuel → (n ≤ n')%nat →
    delete n' a s = (o, s').
Proof.
  induction n as [|n IH]; intros n' a s o s' H Ho Hle.
  { inversion H. congruence. }
  destruct n' as [|n']; [lia|].
  assert (Hrec : ∀ p s o s', delete n p s = (o, s') → o ≠ OutOfFuel →
                             delete n' p s = (o, s')).
  { intros p s0 o0 s0' H0 Ho0. apply (IH n' p s0 o0 s0' H0 Ho0). lia. }
  cbn [delete] in *.
  rewrite bind_run in *. unfold setLabel at 1 in H. unfold setLabel at 1.
  rewrite modify_run in *. cbv beta iota in *.
  apply bind_outcome in H as [(self & s1 & H1 & H)|[H1 ->]]; [| |done].
  2:{ by rewrite bind_run, H1. }
  rewrite bind_run, H1. cbv beta iota.
  apply bind_outcome in H as [([] & s2 & H2 & H)|[H2 ->]]; [| |done].
  - assert (H2' : deleteParent (delete n') self s1 = (Done tt, s2)).
    { revert H2. unfold deleteParent.
      destruct (Label.parent self) as [| |p]; try done.
      intros H2.
      apply bind_outcome in H2 as [(pl & s3 & E1 & H2)|[E1 ?]]; [| |done];
        [|done].
      rewrite bind_run, E1. cbv beta iota.
      apply bind_outcome in H2 as [([] & s4 & E2 & H2)|[E2 ?]]; [| |done];
        [|done].
      rewrite bind_run, E2. cbv beta iota.
      apply bind_outcome in H2 as [(pl' & s5 & E3 & H2)|[E3 ?]]; [| |done];
        [|done].
      rewrite bind_run, E3. cbv beta iota.
      destruct (_ =? _); [by apply Hrec | done]. }
    rewrite bind_run, H2'. cbv beta iota.
    apply bind_outcome in H as [(self' & s3 & H3 & H)|[H3 ->]]; [| |done].
    + rewrite bind_run, H3. cbv beta iota.
      apply (forM__more_fuel _ (deleteChild (delete n))); [|done|done].
      intros c s0 o0 s0' H0 Ho0. unfold deleteChild in *.
      destruct c as [| |ca]; try done.
      apply bind_outcome in H0 as [([] & s4 & E1 & H0)|[E1 ?]]; [| |done];
        [|done].
      rewrite bind_run, E1. by apply Hrec.
    + by rewrite bind_run, H3.
  - assert (H2' : deleteParent (delete n') self s1 = (Throw, s')).
    { revert H2. unfold deleteParent.
      destruct (Label.parent self) as [| |p]; try done.
      intros H2.
      apply bind_outcome in H2 as [(pl & s3 & E1 & H2)|[E1 _]]; [| |done].
      2:{ by rewrite bind_run, E1. }
      rewrite bind_run, E1. cbv beta iota.
      apply bind_outcome in H2 as [([] & s4 & E2 & H2)|[E2 _]]; [| |done].
      2:{ by rewrite bind_run, E2. }
      rewrite bind_run, E2. cbv beta iota.
      apply bind_outcome in H2 as [(pl' & s5 & E3 & H2)|[E3 _]]; [| |done].
      2:{ by rewrite bind_run, E3. }
      rewrite bind_run, E3. cbv beta iota.
      destruct (_ =? _); [by apply Hrec | done]. }
    by rewrite bind_run, H2'.
Qed.
(** ** The cascade, exactly *)

Section Cascade.
Context (rank : addr → nat).

Lemma forest_child_rank (ls : list Label.t) (a c : addr) :
  forest ls rank → child_of ls a c → (rank c < rank a)%nat.
Proof.
  intros Hf (l & Hl & Hc). destruct (Hf a l Hl) as [Hch _].
  destruct (Hch _ Hc) as (c' & [= <-] & _ & Hr). exact Hr.
Qed.

Lemma forest_reach_rank (ls : list Label.t) (a x : addr) :
  forest ls rank → reach ls a x → (rank x ≤ rank a)%nat.
Proof.
  intros Hf H. induction H as [|a c x Hac _ IH]; [done|].
  pose proof (forest_child_rank _ _ _ Hf Hac). lia.
Qed.

Lemma forest_parent_rank (ls : list Label.t) (d p : addr) (ld : Label.t) :
  forest ls rank → ls !! d = Some ld → Label.parent ld = RObj p →
  (rank d < rank p)%nat.
Proof.
  intros Hf Hd Hp. destruct (Hf d ld Hd) as [_ [Hn|(p' & Hp' & _ & Hr)]];
    congruence.
Qed.

Lemma forest_calls_rank (ls : list Label.t) (a d : addr) :
  forest ls rank → cascade_calls ls a d → (rank a ≤ rank d)%nat.
Proof.
  intros Hf H. induction H as [|d ld p lp _ IH Hd Hp _ _]; [done|].
  pose proof (forest_parent_rank _ _ _ _ Hf Hd Hp). lia.
Qed.

(** Where the cascade stops at once. *)
Lemma cascade_calls_stops (ls : list Label.t) (a d : addr) (l : Label.t) :
  ls !! a = Some l →
  (∀ p lp, Label.parent l = RObj p → ls !! p = Some lp →
           Label.numChildren lp ≠ 1) →
  cascade_calls ls a d → d = a.
Proof.
  intros Hl Hstop H. induction H as [|d ld p lp _ IH Hd Hp Hlp Hn]; [done|].
  subst d. rewrite Hl in Hd. inversion Hd; subst ld.
  by destruct (Hstop p lp Hp Hlp).
Qed.

(** Where it goes on: from the parent, in the store in which the label
    has been marked and the parent's count decremented. *)
Lemma cascade_calls_climbs (ls ls' : list Label.t) (a p : addr)
    (l lp : Label.t) :
  forest ls rank → forest ls' rank →
  ls !! a = Some l → Label.parent l = RObj p →
  ls !! p = Some lp → Label.numChildren lp = 1 →
  (∀ x, Label.parent <$> ls' !! x = Label.parent <$> ls !! x) →
  (∀ x, x ≠ p →
     Label.numChildren <$> ls' !! x = Label.numChildren <$> ls !! x) →
  ∀ x, cascade_calls ls a x ↔ x = a ∨ cascade_calls ls' p x.
Proof.
  intros Hf Hf' Hl Hp Hlp Hn Hpar Hnum x. split.
  - intros H. induction H as [|d ld p0 lp0 _ IH Hd Hp0 Hlp0 Hn0]; [by left|].
    right. destruct IH as [->|IH].
    + rewrite Hl in Hd. inversion Hd; subst ld.
      assert (p0 = p) as -> by congruence. constructor.
    + pose proof (forest_calls_rank _ _ _ Hf' IH) as Hr.
      pose proof (forest_parent_rank _ _ _ _ Hf Hd Hp0) as Hr0.
      assert (Hne : p0 ≠ p) by (intros ->; lia).
      pose proof (Hpar d) as Hpd. rewrite Hd in Hpd.
      destruct (ls' !! d) as [ld'|] eqn:Ed'; [|done].
      pose proof (Hnum p0 Hne) as Hnp. rewrite Hlp0 in Hnp.
      destruct (ls' !! p0) as [lp0'|] eqn:Ep'; [|done].
      simpl in *. apply (calls_parent ls' p d ld' p0 lp0'); try done;
        congruence.
  - intros [->|H]; [constructor|].
    induction H as [|d ld' p0 lp0' Hcd IH Hd Hp0 Hlp0 Hn0].
    + by apply (calls_parent ls a a l p lp); [constructor|..].
    + pose proof (forest_calls_rank _ _ _ Hf IH) as Hr.
      pose proof (forest_parent_rank _ _ _ _ Hf Hl Hp) as Hrp.
      pose proof (forest_parent_rank _ _ _ _ Hf' Hd Hp0) as Hr0.
      pose proof (forest_calls_rank _ _ _ Hf' Hcd) as Hrd.
      assert (Hne : p0 ≠ p) by (intros ->; lia).
      pose proof (Hpar d) as Hpd. rewrite Hd in Hpd.
      destruct (ls !! d) as [ld|] eqn:Ed; [|done].
      pose proof (Hnum p0 Hne) as Hnp. rewrite Hlp0 in Hnp.
      destruct (ls !! p0) as [lp0|] eqn:Ep; [|done].
      simpl in *. apply (calls_parent ls a d ld p0 lp0); try done; congruence.
Qed.


(** The fields of a label after [valid] or [numChildren] has been written. *)
Lemma lookup_marked (ls : list Label.t) (a p x : addr) (n : Z) :
  p ≠ a →
  alter (Label.set_numChildren n) p (alter (Label.set_valid false) a ls) !! x
  = (λ lx, if decide (x = p) then Label.set_numChildren n lx
           else if decide (x = a) then Label.set_valid false lx else lx)
    <$> ls !! x.
Proof.
  intros Hne. destruct (decide (x = p)) as [->|Hp].
  - rewrite list_lookup_alter_eq, list_lookup_alter_ne by done.
    by destruct (ls !! p).
  - rewrite list_lookup_alter_ne by done.
    destruct (decide (x = a)) as [->|Ha].
    + by rewrite list_lookup_alter_eq.
    + rewrite list_lookup_alter_ne by done. by destruct (ls !! x).
Qed.

(** What [delete] leaves of every label, on a forest. *)
Lemma delete_exact (fuel : nat) :
  ∀ a s s', delete fuel a s = (Done tt, s') → forest (labels s) rank →
    ∀ x lx, labels s !! x = Some lx →
      ∃ lx', labels s' !! x = Some lx' ∧ cascaded (labels s) a x lx lx'.
Proof.
  induction fuel as [|n IH]; intros a s s' Hrun Hf x lx Hx; [discriminate|].
  pose proof (delete_subtree (S n) a s s' Hrun) as [Hsv Hsp].
  apply delete_S_Done in Hrun as (l & s2 & self' & Hl & Hp & Hs & Hc).
  destruct (delete_S_Done_steps _ _ _ _ _ _ _ Hp Hc) as (H01 & H12 & H23).
  set (s1 := set_labels (alter (Label.set_valid false) a) s) in *.
  assert (H02 : only_deletes s s2) by (by etrans).
  set (Below := ∃ c, child_of (labels s) a c ∧ reach (labels s) c x).
  (* the loop over the children *)
  assert (Hloop : ∀ l2, labels s2 !! x = Some l2 →
            ∃ l', labels s' !! x = Some l'
              ∧ Label.numChildren l' = Label.numChildren l2
              ∧ (Below → Label.valid l' = false ∧ Label.parent l' = RNull)
              ∧ (¬ Below → l' = l2)
              ∧ (Label.valid l2 = false → Label.valid l' = false)
              ∧ (Label.parent l2 = RNull → Label.parent l' = RNull)).
  { intros l2 Hl2.
    pose proof (deleteChildren_detaches n (delete_down n) a self' s2 Hs)
      as (_ & FF & Fout).
    rewrite Hc in FF, Fout. cbn [snd] in FF, Fout.
    destruct (Forall2_lookup_l _ _ _ _ _ FF Hl2)
      as (l' & Hl' & (_ & Hval & Hparent) & Hnum).
    exists l'. split; [done|]. split; [done|].
    split; [|split; [|split]].
    - intros (c & Hac & Hcx).
      pose proof (Hsv x ltac:(by eapply rtc_l)) as Hv.
      pose proof (Hsp c x Hac Hcx) as Hpn.
      unfold valid_at, parent_at in *. rewrite Hl' in Hv, Hpn.
      by simplify_eq/=.
    - intros Hnb. rewrite Fout, Hl2 in Hl'; [by simplify_eq|].
      intros (c & Hac & Hcx). apply Hnb. exists c. split.
      + by apply (only_deletes_child_of _ _ _ _ H02).
      + by apply (only_deletes_reach _ _ _ _ H02).
    - intros Hv. destruct (Label.valid l'); [|done]. by rewrite Hval in Hv.
    - intros Hn. destruct Hparent as [->| ->]; done. }
  assert (Hbelow_rank : Below → (rank x < rank a)%nat).
  { intros (c & Hac & Hcx).
    pose proof (forest_child_rank _ _ _ Hf Hac).
    pose proof (forest_reach_rank _ _ _ Hf Hcx). lia. }
  assert (Hreach : reach (labels s) a x ↔ x = a ∨ Below).
  { split.
    - intros H. apply rtc_inv in H as [->|(c & Hac & Hcx)]; [by left|].
      right. by exists c.
    - intros [->|(c & Hac & Hcx)]; [constructor | by eapply rtc_l]. }
  assert (Hself : Label.parent (Label.set_valid false l) = Label.parent l)
    by (by destruct l).
  apply deleteParent_Done in Hp as [[Hnull ->]|(p & pl & Hpar & Hpl & Hcase)].
  - (* no parent: the cascade goes down only *)
    rewrite Hself in Hnull.
    assert (Hstop : ∀ d, cascade_calls (labels s) a d → d = a).
    { intros d. apply (cascade_calls_stops _ _ d l Hl). congruence. }
    assert (Hx1 : labels s1 !! x
                  = Some (if decide (x = a) then Label.set_valid false lx else lx)).
    { unfold s1. rewrite labels_set_labels.
      destruct (decide (x = a)) as [->|Hne].
      - by rewrite list_lookup_alter_eq, Hx.
      - by rewrite list_lookup_alter_ne. }
    destruct (Hloop _ Hx1) as (l' & Hl' & Hnum & Hin & Hout & Hmv & Hmp).
    exists l'. split; [done|].
    assert (Hdel : cascade_deletes (labels s) a x ↔ x = a ∨ Below).
    { rewrite <- Hreach. split.
      - intros (d & Hd & Hr). by rewrite <- (Hstop d Hd).
      - intros Hr. exists a. split; [constructor|done]. }
    assert (Hdet : cascade_detaches (labels s) a x ↔ Below).
    { split.
      - intros (d & c & Hd & Hdc & Hr). rewrite (Hstop d Hd) in Hdc. by exists c.
      - intros (c & Hac & Hr). exists a, c. split; [constructor|done]. }
    assert (Hdec : ¬ cascade_decrements (labels s) a x).
    { intros (d & ld & Hd & Hld & Hpd). rewrite (Hstop d Hd) in Hld. congruence. }
    unfold cascaded. rewrite Hdel, Hdet.
    split; [|split; [|split; [|split; [|split]]]].
    + intros [->|Hb]; [|by apply Hin]. apply Hmv.
      rewrite decide_True by done. by destruct lx.
    + intros Hn. rewrite Hout by tauto.
      rewrite decide_False by tauto. done.
    + intros Hb. by apply Hin.
    + intros Hb. rewrite (Hout Hb). by destruct (decide (x = a)), lx.
    + done.
    + intros _. rewrite Hnum. by destruct (decide (x = a)), lx.
  - (* a parent *)
    rewrite Hself in Hpar.
    pose proof (forest_parent_rank _ _ _ _ Hf Hl Hpar) as Hrank.
    assert (Hpa : p ≠ a) by (intros ->; lia).
    assert (Hlp : labels s !! p = Some pl).
    { unfold s1 in Hpl. by rewrite labels_set_labels, list_lookup_alter_ne in Hpl. }
    set (s1' := set_labels
      (alter (Label.set_numChildren (Label.numChildren pl - 1)) p) s1) in *.
    assert (Hx1' : labels s1' !! x
              = Some (if decide (x = p)
                      then Label.set_numChildren (Label.numChildren pl - 1) lx
                      else if decide (x = a) then Label.set_valid false lx
                           else lx)).
    { unfold s1', s1. rewrite !labels_set_labels, lookup_marked, Hx by done.
      done. }
    assert (Hnb : x = p → ¬ Below) by (intros -> Hb; apply Hbelow_rank in Hb; lia).
    destruct Hcase as [[Hz Hdel]|[Hnz ->]].
    + (* the count reaches zero: the cascade goes on from the parent *)
      assert (H11' : only_deletes s1 s1').
      { apply (setLabel_only_deletes p
                 (Label.set_numChildren (Label.numChildren pl - 1)) s1).
        intros l0 _. apply deleted_from_set_numChildren. }
      assert (H01' : only_deletes s s1') by (etrans; [exact H01|exact H11']).
      assert (Hf1' : forest (labels s1') rank)
        by (by apply (forest_only_deletes rank s)).
      destruct (IH p s1' s2 Hdel Hf1' x _ Hx1') as (l2 & Hl2 & Hcas).
      destruct (Hloop _ Hl2) as (l' & Hl' & Hnum & Hin & Hout & Hmv & Hmp).
      exists l'. split; [done|].
      assert (Hcalls : ∀ d, cascade_calls (labels s) a d
                            ↔ d = a ∨ cascade_calls (labels s1') p d).
      { apply (cascade_calls_climbs (labels s) (labels s1') a p l pl);
          try done; [lia| |].
        - intros y. unfold s1', s1. rewrite !labels_set_labels, lookup_marked by done.
          destruct (labels s !! y) as [ly|]; [|done]. simpl.
          by destruct (decide (y = p)), (decide (y = a)), ly.
        - intros y Hy. unfold s1', s1.
          rewrite !labels_set_labels, lookup_marked by done.
          destruct (labels s !! y) as [ly|]; [|done]. simpl.
          rewrite decide_False by done. by destruct (decide (y = a)), ly. }
      assert (Hdel' : cascade_deletes (labels s) a x
                      ↔ (x = a ∨ Below) ∨ cascade_deletes (labels s1') p x).
      { rewrite <- Hreach. split.
        - intros (d & Hd & Hr). apply Hcalls in Hd as [->|Hd]; [by left|].
          right. exists d. split; [done|].
          by apply (only_deletes_reach _ _ _ _ H01').
        - intros [Hr|(d & Hd & Hr)].
          + exists a. split; [constructor|done].
          + exists d. split; [apply Hcalls; by right|].
            by apply (only_deletes_reach _ _ _ _ H01'). }
      assert (Hdet' : cascade_detaches (labels s) a x
                      ↔ Below ∨ cascade_detaches (labels s1') p x).
      { split.
        - intros (d & c & Hd & Hdc & Hr). apply Hcalls in Hd as [->|Hd].
          + left. by exists c.
          + right. exists d, c. split; [done|]. split.
            * by apply (only_deletes_child_of _ _ _ _ H01').
            * by apply (only_deletes_reach _ _ _ _ H01').
        - intros [(c & Hac & Hr)|(d & c & Hd & Hdc & Hr)].
          + exists a, c. split; [constructor|done].
          + exists d, c. split; [apply Hcalls; by right|]. split.
            * by apply (only_deletes_child_of _ _ _ _ H01').
            * by apply (only_deletes_reach _ _ _ _ H01'). }
      assert (Hparent : ∀ d ld' y, labels s1' !! d = Some ld' →
                Label.parent ld' = RObj y →
                ∃ ld, labels s !! d = Some ld ∧ Label.parent ld = RObj y).
      { intros d ld' y Hd Hy. unfold s1', s1 in Hd.
        rewrite !labels_set_labels, lookup_marked in Hd by done.
        destruct (labels s !! d) as [ld|]; [|done]. simpl in Hd.
        exists ld. split; [done|]. rewrite <- Hy. inversion Hd.
        by destruct (decide (d = p)), (decide (d = a)), ld. }
      assert (Hparent' : ∀ d ld y, labels s !! d = Some ld →
                Label.parent ld = RObj y →
                ∃ ld', labels s1' !! d = Some ld' ∧ Label.parent ld' = RObj y).
      { intros d ld y Hd Hy. unfold s1', s1.
        rewrite !labels_set_labels, lookup_marked, Hd by done. simpl.
        eexists. split; [reflexivity|]. rewrite <- Hy.
        by destruct (decide (d = p)), (decide (d = a)), ld. }
      assert (Hdec' : cascade_decrements (labels s) a x
                      ↔ x = p ∨ cascade_decrements (labels s1') p x).
      { split.
        - intros (d & ld & Hd & Hld & Hpd). apply Hcalls in Hd as [->|Hd].
          + left. congruence.
          + right. destruct (Hparent' _ _ _ Hld Hpd) as (ld' & Hld' & Hpd').
            by exists d, ld'.
        - intros [->|(d & ld' & Hd & Hld' & Hpd')].
          + exists a, l. split; [constructor|done].
          + destruct (Hparent _ _ _ Hld' Hpd') as (ld & Hld & Hpd).
            exists d, ld. split; [apply Hcalls; by right|done]. }
      assert (Hnodec : ¬ cascade_decrements (labels s1') p p).
      { intros (d & ld' & Hd & Hld' & Hpd').
        pose proof (forest_calls_rank _ _ _ Hf1' Hd).
        pose proof (forest_parent_rank _ _ _ _ Hf1' Hld' Hpd'). lia. }
      destruct Hcas as (C1 & C2 & C3 & C4 & C5 & C6).
      unfold cascaded. rewrite Hdel', Hdet', Hdec'.
      split; [|split; [|split; [|split; [|split]]]].
      * intros [[->|Hb]|Hd]; [|by apply Hin|by apply Hmv, C1].
        apply Hmv.
        destruct (only_deletes_lookup _ _ _ _
                    (delete_only_deletes n p s1') Hx1') as (l2' & Hl2' & D).
        rewrite Hdel in Hl2'. cbn [snd] in Hl2'. rewrite Hl2 in Hl2'.
        inversion Hl2'; subst l2'. destruct D as (_ & Hv & _).
        destruct (Label.valid l2); [|done].
        rewrite decide_False, decide_True in Hv by done.
        specialize (Hv eq_refl). by destruct lx.
      * intros Hn. rewrite Hout by tauto. rewrite C2 by tauto.
        rewrite (decide_False (P := x = a)) by tauto.
        by destruct (decide (x = p)), lx.
      * intros [Hb|Hd]; [by apply Hin | by apply Hmp, C3].
      * intros Hn. rewrite Hout by tauto. rewrite C4 by tauto.
        by destruct (decide (x = p)), (decide (x = a)), lx.
      * intros Hd. rewrite Hnum. destruct (decide (x = p)) as [->|Hne].
        -- rewrite C6 by done. rewrite Hx in Hlp. inversion Hlp; subst pl.
           by destruct lx.
        -- destruct Hd as [?|Hd]; [done|]. rewrite C5 by done.
           by destruct (decide (x = a)), lx.
      * intros Hn. rewrite Hnum, C6 by tauto.
        rewrite decide_False by tauto. by destruct (decide (x = a)), lx.
    + (* the count stays above zero: the cascade stops *)
      assert (Hstop : ∀ d, cascade_calls (labels s) a d → d = a).
      { intros d. apply (cascade_calls_stops _ _ d l Hl). intros p0 lp0 Hp0 Hlp0.
        assert (p0 = p) as -> by congruence.
        rewrite Hlp in Hlp0. inversion Hlp0; subst lp0. lia. }
      fold s1' in Hloop.
      destruct (Hloop _ Hx1') as (l' & Hl' & Hnum & Hin & Hout & Hmv & Hmp).
      exists l'. split; [done|].
      assert (Hdel : cascade_deletes (labels s) a x ↔ x = a ∨ Below).
      { rewrite <- Hreach. split.
        - intros (d & Hd & Hr). by rewrite <- (Hstop d Hd).
        - intros Hr. exists a. split; [constructor|done]. }
      assert (Hdet : cascade_detaches (labels s) a x ↔ Below).
      { split.
        - intros (d & c & Hd & Hdc & Hr). rewrite (Hstop d Hd) in Hdc.
          by exists c.
        - intros (c & Hac & Hr). exists a, c. split; [constructor|done]. }
      assert (Hdec : cascade_decrements (labels s) a x ↔ x = p).
      { split.
        - intros (d & ld & Hd & Hld & Hpd). rewrite (Hstop d Hd) in Hld.
          congruence.
        - intros ->. exists a, l. split; [constructor|done]. }
      unfold cascaded. rewrite Hdel, Hdet, Hdec.
      split; [|split; [|split; [|split; [|split]]]].
      * intros [->|Hb]; [|by apply Hin]. apply Hmv.
        rewrite decide_False, decide_True by done. by destruct lx.
      * intros Hn. rewrite Hout by tauto.
        rewrite (decide_False (P := x = a)) by tauto.
        by destruct (decide (x = p)), lx.
      * intros Hb. by apply Hin.
      * intros Hb. rewrite (Hout Hb).
        by destruct (decide (x = p)), (decide (x = a)), lx.
      * intros ->. rewrite Hnum, decide_True by done.
        rewrite Hx in Hlp. inversion Hlp; subst pl. by destruct lx.
      * intros Hne. rewrite Hnum, decide_False by done.
        by destruct (decide (x = a)), lx.
Qed.

End Cascade.

(** The sample tree is a forest. *)
Lemma session_tree_forest :
  forest (labels session_tree)
    (λ x, match x with 0 => 2 | 1 => 1 | _ => 0 end)%nat.
Proof.
  intros a l Hl. destruct a as [|[|[|[|a]]]]; cbn in Hl; simplify_eq; cbn.
  - split; [|by left]. intros r Hr.
    repeat (apply elem_of_cons in Hr as [->|Hr];
            [eexists; split; [reflexivity|cbn; lia]|]).
    by apply elem_of_nil in Hr.
  - split; [|right; eexists; split; [reflexivity|cbn; lia]]. intros r Hr.
    repeat (apply elem_of_cons in Hr as [->|Hr];
            [eexists; split; [reflexivity|cbn; lia]|]).
    by apply elem_of_nil in Hr.
  - split; [|right; eexists; split; [reflexivity|cbn; lia]]. intros r Hr.
    by apply elem_of_nil in Hr.
  - split; [|right; eexists; split; [reflexivity|cbn; lia]]. intros r Hr.
    by apply elem_of_nil in Hr.
Qed.

(** C5: [delete] on a label.  Whenever the call returns,
    - the label is not valid afterwards, and nothing but the [valid],
      [parent] and [numChildren] fields of labels has been written;
    - bottom-up: if the label has a parent, the parent's [numChildren] is
      decremented, and the parent is deleted exactly when the count reaches
      zero: a parent whose count was 1 is not valid afterwards, and a parent
      whose count was not 1 (and which is not in the label's own subtree) is
      left as it was but for the decremented count; on a forest the count
      ends exactly one below what it was;
    - top-down: every label of the subtree is not valid afterwards and every
      label below the deleted one has [parent] [null]; since a child is
      detached before it is deleted, deleting a label that has no parent
      changes no [numChildren] and writes nothing outside the subtree;
    - the whole cascade, on a forest: [delete] is called on the label and,
      each time the count of a parent reaches zero, on that parent
      ([cascade_calls]); every label of the store ends with [valid] false
      if it is in the subtree of one of the labels called on and with its
      former [valid] otherwise, with [parent] [null] if it is below one of
      them and with its former [parent] otherwise, and with [numChildren]
      one less if it is the parent of one of them and with its former
      [numChildren] otherwise.
    And the call does return when the label graph is a forest, given fuel
    for twice its height. *)
Theorem delete_cascade (a : addr) (s : Sat) (l : Label.t) :
  labels s !! a = Some l →
  (∀ fuel s', delete fuel a s = (Done tt, s') →
     valid_at s' a = Some false
     ∧ only_deletes s s'
     ∧ (∀ p lp, Label.parent l = RObj p → labels s !! p = Some lp →
          (Label.numChildren lp = 1 → valid_at s' p = Some false)
          ∧ (Label.numChildren lp ≠ 1 → ¬ reach (labels s) a p →
               labels s' !! p =
               Some (Label.set_numChildren (Label.numChildren lp - 1) lp))
          ∧ (∀ rank, forest (labels s) rank →
               numChildren_at s' p = Some (Label.numChildren lp - 1)))
     ∧ (∀ c d, child_of (labels s) a c → reach (labels s) c d →
          valid_at s' d = Some false ∧ parent_at s' d = Some RNull)
     ∧ (Label.parent l = RNull →
          detaches_within (reach (labels s) a) s s')
     ∧ (∀ rank, forest (labels s) rank →
          ∀ x lx, labels s !! x = Some lx →
            ∃ lx', labels s' !! x = Some lx'
                   ∧ cascaded (labels s) a x lx lx'))
  ∧ (∀ rank R fuel, forest (labels s) rank →
       (∀ x, (x < length (labels s))%nat → (rank x ≤ R)%nat) →
       (2 * R + 2 ≤ fuel)%nat →
       ∃ s', delete fuel a s = (Done tt, s')).
Proof.
  intros Hl. split.
  - intros fuel s' Hrun. split; [by apply (delete_invalid _ _ _ _ Hrun)|].
    split.
    { replace s' with (snd (delete fuel a s)) by (by rewrite Hrun).
      apply delete_only_deletes. }
    split.
    { intros p lp Hp Hlp.
      destruct (delete_parent fuel a p l lp s s' Hrun Hl Hp Hlp) as [H1 H2].
      split; [done|]. split; [done|]. intros rank Hf.
      by apply (delete_parent_count rank fuel a p l lp s s'). }
    destruct (delete_subtree fuel a s s' Hrun) as [Hv Hp].
    split; [|split].
    + intros c d Hac Hcd. split; [|by apply (Hp c d)].
      apply Hv. by eapply rtc_l.
    + intros Hnull.
      replace s' with (snd (delete fuel a s)) by (by rewrite Hrun).
      apply delete_down. intros l0 Hl0. congruence.
    + intros rank Hf x lx Hx.
      by apply (delete_exact rank fuel a s s').
  - intros rank R fuel Hf HR Hfuel.
    apply (delete_total rank R); auto; [by eapply lookup_lt_Some | lia].
Qed.

Lemma delete_cascade_witness :
  ∃ l0, labels (snd (delete 4 3 session_tree)) !! 0%nat = Some l0
        ∧ Label.valid l0 = true ∧ Label.numChildren l0 = 2 - 1.
Proof.
  assert (H : delete 4 3 session_tree = (Done tt, snd (delete 4 3 session_tree)))
    by (vm_compute; reflexivity).
  destruct (proj1 (delete_cascade 3%nat session_tree _ eq_refl) 4%nat _ H)
    as (_ & _ & _ & _ & _ & Hexact).
  destruct (Hexact _ session_tree_forest 0%nat _ eq_refl)
    as (l0 & Hl0 & _ & Hvalid & _ & _ & Hcount & _).
  exists l0. split; [exact Hl0|]. split.
  - apply Hvalid. intros (d & Hd & Hr).
    pose proof (forest_calls_rank _ _ _ _ session_tree_forest Hd) as Hrank.
    pose proof (forest_reach_rank _ _ _ _ session_tree_forest Hr) as Hrank'.
    inversion Hd as [|d' ld p lp Hd' Hld Hp Hlp Hn]; subst.
    + cbn in Hrank'. lia.
    + destruct d as [|[|[|[|d]]]]; cbn in Hlp; simplify_eq; cbn in *; lia.
  - apply Hcount. exists 1%nat, (treeLabel 1 (RObj 0%nat) [RObj 3%nat]).
    split; [|split; reflexivity].
    eapply (calls_parent _ _ 3%nat); [constructor|reflexivity..].
Defined.

(** On the sample tree: deleting the grandchild 3 empties its parent 1,
    which is deleted with it; the root 0 keeps one child and stays. *)
Example delete_grandchild :
  Label.valid <$> labels (snd (delete 4 3 session_tree))
    = [true; false; true; false]
  ∧ Label.numChildren <$> labels (snd (delete 4 3 session_tree))
    = [1; 0; 0; 0].
Proof. vm_compute. split; reflexivity. Qed.

(** Deleting the root 0 deletes the whole tree and detaches every label
    below it; no count is decremented. *)
Example delete_root :
  Label.valid <$> labels (snd (delete 4 0 session_tree))
    = [false; false; false; false]
  ∧ Label.parent <$> labels (snd (delete 4 0 session_tree))
    = [RNull; RNull; RNull; RNull]
  ∧ Label.numChildren <$> labels (snd (delete 4 0 session_tree))
    = [2; 1; 0; 0].
Proof. vm_compute. repeat split; reflexivity. Qed.
(** ** Pointer release *)

Lemma set_labels_insert_id (s : Sat) (a : addr) (l : Label.t) :
  labels s !! a = Some l → set_labels (λ ls, <[a := l]> ls) s = s.
Proof.
  intros H. destruct s; unfold set_labels; simpl in *.
  by rewrite list_insert_id.
Qed.

Lemma set_labels_set_labels (f g : list Label.t → list Label.t) (s : Sat) :
  set_labels f (set_labels g s) = set_labels (f ∘ g) s.
Proof. by destruct s. Qed.

Lemma setLabel_run (a : addr) (f : Label.t → Label.t) (l : Label.t) (s : Sat) :
  labels s !! a = Some l →
  setLabel a f s = (Done tt, set_labels (λ ls, <[a := f l]> ls) s).
Proof.
  intros H. unfold setLabel. rewrite modify_run. f_equal.
  destruct s; unfold set_labels; simpl in *. f_equal.
  by apply alter_as_insert.
Qed.

Lemma lookup_set_labels_insert (a : addr) (l l' : Label.t) (s : Sat) :
  labels s !! a = Some l →
  labels (set_labels (λ ls, <[a := l']> ls) s) !! a = Some l'.
Proof.
  intros H. rewrite labels_set_labels.
  apply list_lookup_insert_eq. by eapply lookup_lt_Some.
Qed.

Lemma set_labels_insert_insert (a : addr) (l l' : Label.t) (s : Sat) :
  set_labels (λ ls, <[a := l']> ls) (set_labels (λ ls, <[a := l]> ls) s)
  = set_labels (λ ls, <[a := l']> ls) s.
Proof.
  rewrite set_labels_set_labels. destruct s; unfold set_labels; simpl.
  f_equal. apply list_insert_insert_eq.
Qed.

(** The two reorderings, as one write each. *)
Lemma flipW_run (a : addr) (l : Label.t) (s : Sat) :
  labels s !! a = Some l →
  (if Label.w l <? 0 then
     setLabel a (λ l, Label.set_box (Label.x l + Label.w l)
                        (Label.y l) (Label.w l) (Label.h l) l);;
     setLabel a (λ l, Label.set_box (Label.x l) (Label.y l)
                        (-1 * Label.w l) (Label.h l) l)
   else mret tt) s
  = (Done tt, set_labels (λ ls, <[a := flipW l]> ls) s).
Proof.
  intros H. unfold flipW. destruct (Label.w l <? 0).
  - rewrite bind_run, (setLabel_run _ _ _ _ H).
    erewrite setLabel_run by (by eapply lookup_set_labels_insert).
    by rewrite set_labels_insert_insert.
  - by rewrite ret_run, set_labels_insert_id.
Qed.

Lemma flipH_run (a : addr) (l : Label.t) (s : Sat) :
  labels s !! a = Some l →
  (if Label.h l <? 0 then
     setLabel a (λ l, Label.set_box (Label.x l)
                        (Label.y l + Label.h l) (Label.w l) (Label.h l) l);;
     setLabel a (λ l, Label.set_box (Label.x l) (Label.y l)
                        (Label.w l) (-1 * Label.h l) l)
   else mret tt) s
  = (Done tt, set_labels (λ ls, <[a := flipH l]> ls) s).
Proof.
  intros H. unfold flipH. destruct (Label.h l <? 0).
  - rewrite bind_run, (setLabel_run _ _ _ _ H).
    erewrite setLabel_run by (by eapply lookup_set_labels_insert).
    by rewrite set_labels_insert_insert.
  - by rewrite ret_run, set_labels_insert_id.
Qed.

Lemma redraw_all_objects (s : Sat) (self : nat) (it : Item.t) (st : istate) :
  items s !! self = Some it → Item.state it = Some st →
  all_objects s (Item.labels it) →
  redraw self s = (Done tt, s).
Proof.
  intros Hit Hst Hall. unfold redraw. mstep.
  mstep with (canvas_run _ _ _ Hst).
  apply forM__run_const. intros r Hr.
  destruct (Hall r Hr) as (a & -> & Ha).
  apply lookup_lt_is_Some_2 in Ha as [l Hl]. by mstep.
Qed.

(** A label with no parent and no child is deleted in one step. *)
Lemma delete_leaf (n : nat) (a : addr) (l : Label.t) (s : Sat) :
  labels s !! a = Some l → Label.parent l = RNull → Label.children l = [] →
  delete (S n) a s =
    (Done tt, set_labels (λ ls, <[a := Label.set_valid false l]> ls) s).
Proof.
  intros Hl Hp Hc. cbn [delete].
  rewrite bind_run, (setLabel_run _ _ _ _ Hl).
  pose proof (lookup_set_labels_insert a l (Label.set_valid false l) s Hl) as H1.
  rewrite bind_run, (deref_run _ _ _ H1).
  unfold deleteParent.
  replace (Label.parent (Label.set_valid false l)) with RNull
    by (by destruct l).
  rewrite bind_run, ret_run, bind_run, (deref_run _ _ _ H1).
  replace (Label.children (Label.set_valid false l)) with (@nil ref)
    by (by destruct l).
  reflexivity.
Qed.

(** C7 fails as stated: after the release the discarded box is still in the
    session's [labels] and still in the item's label list. *)
Lemma mouseup_keeps_small_label :
  ¬ (∀ s', _mouseup 1 (isSmallBelow 5) 4 0 session_resizing = (Done tt, s') →
           absent_from_labels s' 0).
Proof.
  intros H.
  destruct (H (snd (_mouseup 1 (isSmallBelow 5) 4 0 session_resizing)))
    as [Habs|Habs].
  - vm_compute. reflexivity.
  - vm_compute in Habs. discriminate.
  - assert (Hin : ∃ it,
      it ∈ items (snd (_mouseup 1 (isSmallBelow 5) 4 0 session_resizing))
      ∧ RObj 0%nat ∈ Item.labels it).
    { vm_compute. eexists. split; apply list_elem_of_here. }
    destruct Hin as (it & H1 & H2). exact (Habs it H1 H2).
Qed.

(** C7, amended: a resize that ends with a box that [isSmall] discards the
    label without an error, when deleting it returns: the label is marked
    not valid, it stays in the session's [labels] and in every item's label
    list, the item's selection is cleared and its state is [free] again;
    [lastLabelId], [labelIdMap] and the event log are unchanged.  For a box
    with no parent and no child, as one that has just been drawn, the
    deletion does return and only clears the [valid] flag of the box. *)
Theorem mouseup_invalidates_small_box (fuel : nat) (isSmall : Label.t → bool)
    (INITIAL_HANDLE : Z) (self : nat) (s : Sat) (it : Item.t) (a : addr)
    (l : Label.t) :
  items s !! self = Some it →
  Item.state it = Some Resize →
  Item.selectedLabel it = RObj a →
  labels s !! a = Some l →
  isSmall (normalizeBox l) = true →
  all_objects s (Item.labels it) →
  (∀ s2, delete fuel a (set_labels (λ ls, <[a := normalizeBox l]> ls) s)
         = (Done tt, s2) →
     let s' := set_items (λ its, <[self := released it]> its) s2 in
     _mouseup fuel isSmall INITIAL_HANDLE self s = (Done tt, s')
     ∧ valid_at s' a = Some false
     ∧ length (labels s') = length (labels s)
     ∧ Item.labels <$> items s' = Item.labels <$> items s
     ∧ lastLabelId s' = lastLabelId s
     ∧ labelIdMap s' = labelIdMap s
     ∧ events s' = events s)
  ∧ (Label.parent l = RNull → Label.children l = [] → (0 < fuel)%nat →
     delete fuel a (set_labels (λ ls, <[a := normalizeBox l]> ls) s)
     = (Done tt,
        set_labels (λ ls, <[a := Label.set_valid false (normalizeBox l)]> ls) s)).
Proof.
  intros Hit Hst Hsel Hl Hsmall Hall. split.
  - intros s2 Hdel s'.
    set (s1 := set_labels (λ ls, <[a := normalizeBox l]> ls) s) in *.
    assert (H12 : only_deletes s1 s2).
    { replace s2 with (snd (delete fuel a s1)) by (by rewrite Hdel).
      apply delete_only_deletes. }
    destruct (only_deletes_frame _ _ H12) as (Hi & Hm & Hlast & Hcur & Hev & Hlen).
    assert (Hlen1 : length (labels s1) = length (labels s)).
    { unfold s1. by rewrite labels_set_labels, length_insert. }
    assert (Hit2 : items s2 !! self = Some it) by (by rewrite Hi).
    split.
    + unfold _mouseup. mstep. rewrite Hst.
      destruct (decide (Some Resize = Some Free)) as [?|_]; [discriminate|].
      destruct (decide (Some Resize = Some Resize)) as [_|?]; [|done].
      rewrite Hsel.
      mstep with (deref_run _ _ _ Hl).
      mstep with (flipW_run _ _ _ Hl).
      pose proof (lookup_set_labels_insert a l (flipW l) s Hl) as HW.
      mstep with (deref_run _ _ _ HW).
      mstep with (flipH_run _ _ _ HW).
      rewrite set_labels_insert_insert. fold (normalizeBox l). fold s1.
      pose proof (lookup_set_labels_insert a l (normalizeBox l) s Hl) as HN.
      fold s1 in HN.
      mstep with (deref_run _ _ _ HN). rewrite Hsmall.
      mstep with Hdel.
      do 5 (mstep with setItem_run).
      match goal with |- _ ?st = _ => set (sF := st) end.
      assert (HsF : sF = s').
      { unfold sF, s'. destruct s2; unfold set_items; simpl in *. f_equal.
        rewrite !list_alter_alter_eq.
        by rewrite (alter_as_insert _ _ _ _ Hit2). }
      rewrite HsF.
      assert (Hit' : items s' !! self = Some (released it)).
      { unfold s'. rewrite items_set_items.
        apply list_lookup_insert_eq. by eapply lookup_lt_Some. }
      mstep with (getItem_run _ _ _ Hit'). cbn [truthy released Item.selectedLabel
        Item.set_moveClickPos Item.set_movePos Item.set_resizeID Item.set_state
        Item.set_selectedLabel]. rewrite bind_run, ret_run.
      mstep with (canvas_run _ _ _ Hst).
      apply (redraw_all_objects _ _ _ Free Hit'); [done|].
      intros r Hr. destruct (Hall r) as (b & -> & Hb); [by destruct it|].
      exists b. split; [done|]. unfold s'. simpl. lia.
    + split.
      { unfold s'. change (valid_at s2 a = Some false).
        by apply (delete_invalid _ _ _ _ Hdel). }
      split; [unfold s'; simpl; lia|].
      split.
      { unfold s'. rewrite items_set_items, Hi.
        apply list_eq. intros k. rewrite !list_lookup_fmap.
        destruct (decide (k = self)) as [->|Hne].
        - rewrite list_lookup_insert_eq by (by eapply lookup_lt_Some).
          rewrite Hit. by destruct it.
        - by rewrite list_lookup_insert_ne. }
      unfold s'. simpl. by rewrite Hlast, Hm, Hev.
  - intros Hp Hc Hfuel. destruct fuel as [|n]; [lia|].
    erewrite delete_leaf.
    + by rewrite set_labels_insert_insert.
    + apply (lookup_set_labels_insert a l _ s Hl).
    + unfold normalizeBox, flipH, flipW.
      repeat destruct (_ <? _); by destruct l.
    + unfold normalizeBox, flipH, flipW.
      repeat destruct (_ <? _); by destruct l.
Qed.

Lemma mouseup_invalidates_small_box_witness :
  ∃ s', _mouseup 1 (isSmallBelow 5) 4 0 session_resizing = (Done tt, s')
        ∧ valid_at s' 0 = Some false
        ∧ length (labels s') = length (labels session_resizing).
Proof.
  assert (Hall : all_objects session_resizing [RObj 0%nat]).
  { intros r Hr. apply list_elem_of_singleton in Hr as ->.
    exists 0%nat. split; [done | simpl; lia]. }
  destruct (mouseup_invalidates_small_box 1 (isSmallBelow 5) 4 0%nat
              session_resizing _ 0%nat _
              eq_refl eq_refl eq_refl eq_refl eq_refl Hall) as [HA HB].
  destruct (HA _ (HB eq_refl eq_refl (le_n 1))) as (H1 & H2 & H3 & _).
  eexists. split; [exact H1|]. split; [exact H2 | exact H3].
Defined.
(** ** Two-phase decoding *)

(** *** First pass: construct and register *)

Lemma decodeLabel_run (j : LabelJson.t) (s : Sat) :
  decodeLabel j s = (Done tt, afterLabel s j).
Proof. reflexivity. Qed.

Lemma pass1_run (ls : list LabelJson.t) (s : Sat) :
  forM_ ls decodeLabel s = (Done tt, foldl afterLabel s ls).
Proof.
  revert s. induction ls as [|j ls IH]; intros s; [reflexivity|].
  cbn [forM_ foldl]. by rewrite bind_run, decodeLabel_run, IH.
Qed.

Lemma pass1_labels (ls : list LabelJson.t) (s : Sat) :
  labels (foldl afterLabel s ls) = labels s ++ (decoded <$> ls).
Proof.
  revert s. induction ls as [|j ls IH]; intros s; cbn [foldl].
  - by rewrite app_nil_r.
  - rewrite IH. simpl. by rewrite <- app_assoc.
Qed.

Lemma pass1_items (ls : list LabelJson.t) (s : Sat) :
  items (foldl afterLabel s ls) = items s
  ∧ currentItem (foldl afterLabel s ls) = currentItem s
  ∧ events (foldl afterLabel s ls) = events s.
Proof.
  revert s. induction ls as [|j ls IH]; intros s; cbn [foldl]; [done|].
  destruct (IH (afterLabel s j)) as (-> & -> & ->). done.
Qed.

Lemma pass1_map_other (ls : list LabelJson.t) (s : Sat) (i : Z) :
  i ∉ LabelJson.id <$> ls →
  labelIdMap (foldl afterLabel s ls) !! i = labelIdMap s !! i.
Proof.
  revert s. induction ls as [|j ls IH]; intros s Hi; cbn [foldl]; [done|].
  rewrite fmap_cons, not_elem_of_cons in Hi. destruct Hi as [Hne Hi].
  rewrite IH by done. simpl. by rewrite lookup_insert_ne.
Qed.

(** With unique ids every label of the document is registered at the
    position where it was pushed, wherever it stands in the array. *)
Lemma pass1_map (ls : list LabelJson.t) (s : Sat) (k : nat) (e : LabelJson.t) :
  NoDup (LabelJson.id <$> ls) → ls !! k = Some e →
  labelIdMap (foldl afterLabel s ls) !! LabelJson.id e
  = Some (length (labels s) + k)%nat.
Proof.
  revert s k. induction ls as [|j ls IH]; intros s k Hnd Hk; [done|].
  rewrite fmap_cons in Hnd. apply NoDup_cons in Hnd as [Hj Hnd].
  cbn [foldl]. destruct k as [|k]; simpl in Hk.
  - inversion Hk; subst j. rewrite pass1_map_other by done.
    simpl. rewrite lookup_insert_eq. f_equal. lia.
  - rewrite (IH _ k) by done. simpl. rewrite length_app. simpl. f_equal. lia.
Qed.

(** *** Second pass: the items *)

#[global] Instance same_but_items_preorder : PreOrder same_but_items.
Proof.
  split.
  - intros s. by destruct s.
  - intros s1 s2 s3 E1 E2. unfold same_but_items in *.
    rewrite E2, E1. by destruct s1.
Qed.

Lemma decodeItem_run (j : ItemJson.t) (s : Sat) :
  ∃ s', decodeItem j s = (Done tt, s') ∧ same_but_items s s'
        ∧ length (items s') = S (length (items s)).
Proof.
  unfold decodeItem, newItem. mstep. mstep. mstep.
  set (s1 := set_items _ s).
  assert (H1 : items s1 !! length (items s)
               = Some (Item.new (Z.of_nat (length (items s))) (ItemJson.url j))).
  { unfold s1. rewrite items_set_items. by rewrite lookup_app_r, Nat.sub_diag. }
  rewrite (SatItem_fromJson_run _ _ _ _ H1). eexists. split; [reflexivity|].
  split.
  - unfold s1. by destruct s.
  - rewrite items_set_items, length_insert. unfold s1.
    rewrite items_set_items, length_app. simpl. lia.
Qed.

Lemma pass2_run (js : list ItemJson.t) (s : Sat) :
  ∃ s', forM_ js decodeItem s = (Done tt, s') ∧ same_but_items s s'
        ∧ length (items s') = (length (items s) + length js)%nat.
Proof.
  revert s. induction js as [|j js IH]; intros s.
  - exists s. split; [done|]. split; [reflexivity | simpl; lia].
  - destruct (decodeItem_run j s) as (s1 & H1 & E1 & L1).
    destruct (IH s1) as (s' & H' & E' & L').
    exists s'. cbn [forM_]. rewrite bind_run, H1. split; [done|].
    split; [by etrans | simpl; lia].
Qed.

(** *** Third pass: the pointers *)

Lemma addChild_run (a : addr) (child : ref) (l : Label.t) (s : Sat) :
  labels s !! a = Some l →
  addChild a child s = (Done tt, set_labels (λ ls, <[a := withChild l child]> ls) s).
Proof.
  intros Hl. unfold addChild.
  mstep with (deref_run _ _ _ Hl).
  mstep with (setLabel_run _ _ _ _ Hl).
  pose proof (lookup_set_labels_insert a l
    (Label.set_numChildren (Label.numChildren l + 1) l) s Hl) as H1.
  mstep with (deref_run _ _ _ H1).
  rewrite (setLabel_run _ _ _ _ H1), set_labels_insert_insert.
  reflexivity.
Qed.

Lemma addChildren_run (a : addr) (cs : list Z) (l : Label.t) (s : Sat) :
  labels s !! a = Some l →
  forM_ cs (λ c, m ← gets labelIdMap; addChild a (lookupId m (Some c))) s
  = (Done tt,
     set_labels (λ ls,
       <[a := foldl (λ l c, withChild l (lookupId (labelIdMap s) (Some c))) l cs]>
         ls) s).
Proof.
  revert l s. induction cs as [|c cs IH]; intros l s Hl.
  - cbn [forM_ foldl]. by rewrite ret_run, set_labels_insert_id.
  - cbn [forM_ foldl]. rewrite bind_run. mstep.
    rewrite (addChild_run _ _ _ _ Hl).
    erewrite IH by (by eapply lookup_set_labels_insert).
    by rewrite set_labels_insert_insert.
Qed.

Lemma decodeBaseJsonPointers_run (a : addr) (j : LabelJson.t) (l : Label.t)
    (s : Sat) :
  labels s !! a = Some l →
  decodeBaseJsonPointers a j s
  = (Done tt, set_labels (λ ls, <[a := withPointers (labelIdMap s) j l]> ls) s).
Proof.
  intros Hl. unfold decodeBaseJsonPointers, withPointers.
  set (l1 := if -1 <? LabelJson.parent j then _ else l).
  assert (H1 : ∃ s1, (if -1 <? LabelJson.parent j
              then m ← gets labelIdMap;
                   setLabel a (Label.set_parent
                     (lookupId m (Some (LabelJson.parent j))))
              else mret ()) s = (Done tt, s1)
            ∧ s1 = set_labels (λ ls, <[a := l1]> ls) s).
  { unfold l1. destruct (-1 <? LabelJson.parent j).
    - eexists. split; [|reflexivity]. mstep. by rewrite (setLabel_run _ _ _ _ Hl).
    - eexists. split; [|reflexivity]. by rewrite ret_run, set_labels_insert_id. }
  destruct H1 as (s1 & H1 & ->). rewrite bind_run, H1.
  pose proof (lookup_set_labels_insert a l l1 s Hl) as Hl1.
  destruct (LabelJson.children j) as [cs|]; simpl.
  - rewrite (addChildren_run _ _ _ _ Hl1). by rewrite set_labels_insert_insert.
  - by rewrite ret_run.
Qed.

Lemma pass3_run (ls : list LabelJson.t) (b : nat) (s : Sat) :
  (∀ k e, ls !! k = Some e →
     labelIdMap s !! LabelJson.id e = Some (b + k)%nat
     ∧ labels s !! (b + k)%nat = Some (decoded e)) →
  ∃ s', forM_ ls decodePointers s = (Done tt, s')
    ∧ s' = set_labels (λ _, labels s') s
    ∧ length (labels s') = length (labels s)
    ∧ (∀ k e, ls !! k = Some e →
         labels s' !! (b + k)%nat
         = Some (withPointers (labelIdMap s) e (decoded e)))
    ∧ (∀ x, (x < b)%nat → labels s' !! x = labels s !! x).
Proof.
  revert b s. induction ls as [|j ls IH]; intros b s H.
  - exists s. split; [done|]. split; [by destruct s|]. by repeat split.
  - destruct (H 0%nat j eq_refl) as [Hm Hl]. rewrite Nat.add_0_r in Hm, Hl.
    set (s1 := set_labels
      (λ ls, <[b := withPointers (labelIdMap s) j (decoded j)]> ls) s).
    destruct (IH (S b) s1) as (s' & Hrun & Es & Hlen & Hk & Hx).
    { intros k e Hke. destruct (H (S k) e Hke) as [Hm' Hl'].
      replace (b + S k)%nat with (S b + k)%nat in * by lia. split; [done|].
      unfold s1. rewrite labels_set_labels, list_lookup_insert_ne by lia. done. }
    exists s'. split; [|split; [|split; [|split]]].
    + cbn [forM_]. rewrite bind_run. unfold decodePointers at 1.
      rewrite bind_run, gets_run, Hm. cbv beta iota.
      by rewrite (decodeBaseJsonPointers_run _ _ _ _ Hl).
    + rewrite Es. unfold s1. by destruct s.
    + rewrite Hlen. unfold s1. by rewrite labels_set_labels, length_insert.
    + intros k e Hke. destruct k as [|k]; simpl in Hke.
      * inversion Hke; subst e. rewrite Nat.add_0_r, Hx by lia.
        unfold s1. rewrite labels_set_labels.
        apply list_lookup_insert_eq. by eapply lookup_lt_Some.
      * replace (b + S k)%nat with (S b + k)%nat by lia. by apply Hk.
    + intros x Hxb. rewrite Hx by lia. unfold s1.
      rewrite labels_set_labels. by rewrite list_lookup_insert_ne by lia.
Qed.

(** *** The decoded label *)

Lemma foldl_withChild (m : gmap Z addr) (cs : list Z) (l : Label.t) :
  let l' := foldl (λ l c, withChild l (lookupId m (Some c))) l cs in
  Label.id l' = Label.id l ∧ Label.parent l' = Label.parent l
  ∧ Label.previousLabelId l' = Label.previousLabelId l
  ∧ Label.nextLabelId l' = Label.nextLabelId l
  ∧ Label.valid l' = Label.valid l
  ∧ Label.children l'
    = Label.children l ++ ((λ c, lookupId m (Some c)) <$> cs)
  ∧ Label.numChildren l' = Label.numChildren l + Z.of_nat (length cs).
Proof.
  revert l. induction cs as [|c cs IH]; intros l; cbn [foldl].
  - simpl. rewrite app_nil_r. repeat split; lia.
  - destruct (IH (withChild l (lookupId m (Some c))))
      as (-> & -> & -> & -> & -> & -> & ->).
    destruct l; simpl. rewrite <- app_assoc. repeat split; try done. lia.
Qed.

Lemma withPointers_fields (m : gmap Z addr) (e : LabelJson.t) :
  let l := withPointers m e (decoded e) in
  Label.id l = LabelJson.id e
  ∧ Label.valid l = true
  ∧ Label.previousLabelId l
    = (if -1 <? LabelJson.previousLabelId e
       then Some (LabelJson.previousLabelId e) else None)
  ∧ Label.nextLabelId l
    = (if -1 <? LabelJson.nextLabelId e
       then Some (LabelJson.nextLabelId e) else None)
  ∧ Label.parent l
    = (if -1 <? LabelJson.parent e
       then lookupId m (Some (LabelJson.parent e)) else RNull)
  ∧ Label.children l
    = (λ c, lookupId m (Some c)) <$> default [] (LabelJson.children e)
  ∧ Label.numChildren l
    = Z.of_nat (length (default [] (LabelJson.children e))).
Proof.
  unfold withPointers.
  destruct (foldl_withChild m (default [] (LabelJson.children e))
    (if -1 <? LabelJson.parent e
     then Label.set_parent (lookupId m (Some (LabelJson.parent e))) (decoded e)
     else decoded e)) as (-> & -> & -> & -> & -> & -> & ->).
  destruct (-1 <? LabelJson.parent e); simpl; repeat split; lia.
Qed.

Lemma withPointers_scalars (m : gmap Z addr) (e : LabelJson.t) :
  Label.categoryPath (withPointers m e (decoded e)) = LabelJson.categoryPath e
  ∧ Label.keyframe (withPointers m e (decoded e)) = LabelJson.keyframe e.
Proof.
  unfold withPointers.
  set (l0 := if -1 <? LabelJson.parent e then _ else _).
  assert (H0 : Label.categoryPath l0 = LabelJson.categoryPath e
               ∧ Label.keyframe l0 = LabelJson.keyframe e).
  { unfold l0. by destruct (-1 <? LabelJson.parent e). }
  clearbody l0. revert l0 H0.
  induction (default [] (LabelJson.children e)) as [|c cs IH]; intros l0 H0;
    [done|].
  cbn [foldl]. apply IH. exact H0.
Qed.

(** C2: two-phase decoding.  For every document with distinct label ids
    that brings or finds at least one item, [decodeBaseJson] returns.  Every
    label of the document has then been constructed and registered in
    [labelIdMap] at the position where it was pushed; its [id],
    [categoryPath] and [keyframe] are those of the document, its
    [previousLabelId] and [nextLabelId] are the document's when these are
    above -1, it is valid, and its [parent], [children] and [numChildren]
    are what the completed [labelIdMap] gives for the ids of the document.
    So a [parent], a child, a [previousLabelId] or a [nextLabelId] that
    names another label of the document is resolved to that label's
    object, whether that label comes earlier or later in the array
    ([pointers_resolved]).  The labels the session had before are
    untouched. *)
Theorem decode_resolves_pointers (now : Z) (json : SatJson.t) (s : Sat) :
  let ls := default [] (SatJson.labels json) in
  let base := length (labels s) in
  NoDup (LabelJson.id <$> ls) →
  (0 < length (items s) + length (SatJson.items json))%nat →
  ∃ s', decodeBaseJson now json s = (Done tt, s')
    ∧ length (labels s') = (base + length ls)%nat
    ∧ (∀ x l, labels s !! x = Some l → labels s' !! x = Some l)
    ∧ (∀ k e, ls !! k = Some e →
         labelIdMap s' !! LabelJson.id e = Some (base + k)%nat
         ∧ ∃ l, labels s' !! (base + k)%nat = Some l
             ∧ Label.id l = LabelJson.id e
             ∧ Label.categoryPath l = LabelJson.categoryPath e
             ∧ Label.keyframe l = LabelJson.keyframe e
             ∧ Label.previousLabelId l
               = (if -1 <? LabelJson.previousLabelId e
                  then Some (LabelJson.previousLabelId e) else None)
             ∧ Label.nextLabelId l
               = (if -1 <? LabelJson.nextLabelId e
                  then Some (LabelJson.nextLabelId e) else None)
             ∧ Label.valid l = true
             ∧ Label.parent l
               = (if -1 <? LabelJson.parent e
                  then lookupId (labelIdMap s') (Some (LabelJson.parent e))
                  else RNull)
             ∧ Label.children l
               = (λ c, lookupId (labelIdMap s') (Some c))
                 <$> default [] (LabelJson.children e)
             ∧ Label.numChildren l
               = Z.of_nat (length (default [] (LabelJson.children e))))
    ∧ pointers_resolved json s s'.
Proof.
  intros ls base Hnd Hitems.
  set (s1 := foldl afterLabel s ls).
  destruct (pass1_items ls s) as (Hi1 & Hc1 & He1). fold s1 in Hi1, Hc1, He1.
  destruct (pass2_run (SatJson.items json) s1) as (s2 & Hrun2 & E2 & Hlen2).
  rewrite Hi1 in Hlen2.
  assert (Hl2 : labels s2 = labels s1) by (by rewrite E2).
  assert (Hm2 : labelIdMap s2 = labelIdMap s1) by (by rewrite E2).
  destruct (lookup_lt_is_Some_2 (items s2) 0%nat) as [it0 Hit0]; [lia|].
  set (s2a := set_currentItem (Some 0%nat) s2).
  set (s3 := set_categories (SatJson.categories json)
               (set_items (alter (activate true) 0%nat) s2a)).
  assert (Hl3 : labels s3 = labels s1) by done.
  assert (Hm3 : labelIdMap s3 = labelIdMap s1) by done.
  destruct (pass3_run ls base s3) as (s4 & Hrun4 & E4 & Hlen4 & Hk4 & Hx4).
  { intros k e Hke. rewrite Hm3, Hl3. split.
    - by apply pass1_map.
    - unfold s1. rewrite pass1_labels.
      rewrite lookup_app_r by (unfold base; lia).
      replace (base + k - length (labels s))%nat with k by (unfold base; lia).
      by rewrite list_lookup_fmap, Hke. }
  assert (Hm4 : labelIdMap s4 = labelIdMap s1) by (by rewrite E4).
  set (s5 := set_events
    (λ l, l ++ [mkEvent now "start labeling" (Item.index (activate true it0))
                  (-1) None]) s4).
  assert (Hfacts : ∀ k e, ls !! k = Some e →
            labelIdMap s5 !! LabelJson.id e = Some (base + k)%nat
            ∧ labels s5 !! (base + k)%nat
              = Some (withPointers (labelIdMap s5) e (decoded e))).
  { intros k e Hke. split.
    - change (labelIdMap s4 !! LabelJson.id e = Some (base + k)%nat).
      rewrite Hm4. by apply pass1_map.
    - change (labels s4 !! (base + k)%nat
              = Some (withPointers (labelIdMap s4) e (decoded e))).
      rewrite Hm4, <- Hm3. by apply Hk4. }
  exists s5. split; [|split; [|split; [|split]]].
  - unfold decodeBaseJson. fold ls.
    mstep with (pass1_run ls s). fold s1.
    mstep with Hrun2. mstep. mstep.
    replace (itemAt (items s2) 0) with (Some 0%nat)
      by (unfold itemAt; destruct (items s2); [simpl in *; lia | done]).
    fold s2a. mstep. cbn [defined currentItem set_currentItem s2a]. mstep.
    mstep with (setActive_run s2a 0 true it0 Hit0).
    mstep. fold s3. mstep with Hrun4.
    assert (Hc4 : currentItem s4 = Some 0%nat) by (by rewrite E4).
    mstep. rewrite Hc4. cbn [defined]. mstep.
    assert (Hit4 : items s4 !! 0%nat = Some (activate true it0)).
    { rewrite E4. simpl. by rewrite list_lookup_alter_eq, Hit0. }
    mstep with (getItem_run _ _ _ Hit4). reflexivity.
  - change (length (labels s4) = (base + length ls)%nat).
    rewrite Hlen4, Hl3. unfold s1.
    by rewrite pass1_labels, length_app, length_fmap.
  - intros x l Hx. change (labels s4 !! x = Some l).
    rewrite Hx4 by (by eapply lookup_lt_Some).
    rewrite Hl3. unfold s1. rewrite pass1_labels. by apply lookup_app_l_Some.
  - intros k e Hke. destruct (Hfacts k e Hke) as [Hmk Hlk].
    split; [exact Hmk|]. eexists. split; [exact Hlk|].
    destruct (withPointers_fields (labelIdMap s5) e)
      as (Hid & Hv & Hprev & Hnext & Hpar & Hch & Hnc).
    destruct (withPointers_scalars (labelIdMap s5) e) as (Hcat & Hkey).
    clearbody s5. by repeat split.
  - intros k m e e' Hke Hme'. fold ls base.
    destruct (Hfacts k e Hke) as [_ Hlk]. destruct (Hfacts m e' Hme') as [Hmm _].
    eexists. split; [exact Hlk|].
    destruct (withPointers_fields (labelIdMap s5) e)
      as (Hid & _ & Hprev & Hnext & Hpar & Hch & _).
    split; [|split; [|split]].
    + intros Hgt Heq. rewrite Hpar.
      replace (-1 <? LabelJson.parent e) with true by (symmetry; lia).
      rewrite Heq. by apply lookupId_Some.
    + intros Hgt Heq. rewrite Hnext.
      replace (-1 <? LabelJson.nextLabelId e) with true by (symmetry; lia).
      rewrite Heq. split; [done|]. by apply lookupId_Some.
    + intros Hgt Heq. rewrite Hprev.
      replace (-1 <? LabelJson.previousLabelId e) with true by (symmetry; lia).
      rewrite Heq. split; [done|]. by apply lookupId_Some.
    + intros cs i Hcs Hi. rewrite Hch, Hcs. clearbody s5. simpl.
      rewrite list_lookup_fmap, Hi. simpl.
      f_equal. by apply lookupId_Some.
Qed.

Lemma decode_resolves_pointers_witness :
  ∃ s', decodeBaseJson 0 doc_forward_refs (Sat_new 0) = (Done tt, s')
        ∧ labelIdMap s' !! 6 = Some 1%nat
        ∧ labelIdMap s' !! 5 = Some 0%nat
        ∧ pointers_resolved doc_forward_refs (Sat_new 0) s'.
Proof.
  destruct (decode_resolves_pointers 0 doc_forward_refs (Sat_new 0))
    as (s' & Hrun & _ & _ & Hk & Hres).
  { apply (bool_decide_unpack _). vm_compute. exact I. }
  { simpl. lia. }
  exists s'. split; [exact Hrun|]. split; [|split].
  - apply (Hk 1%nat _ eq_refl).
  - apply (Hk 0%nat _ eq_refl).
  - exact Hres.
Defined.

(** The two-phase example: label 5 stands first and refers forward to
    label 6 as parent and next label; label 6 refers back to 5 as child and
    previous label.  All four references are resolved. *)
Example decode_forward_refs :
  let s' := snd (decodeBaseJson 0 doc_forward_refs (Sat_new 0)) in
  fst (decodeBaseJson 0 doc_forward_refs (Sat_new 0)) = Done tt
  ∧ Label.parent <$> labels s' = [RObj 1%nat; RNull]
  ∧ Label.children <$> labels s' = [[]; [RObj 0%nat]]
  ∧ Label.nextLabelId <$> labels s' = [Some 6; None]
  ∧ Label.previousLabelId <$> labels s' = [None; Some 5]
  ∧ labelIdMap s' !! 6 = Some 1%nat ∧ labelIdMap s' !! 5 = Some 0%nat.
Proof. vm_compute. repeat split; reflexivity. Qed.

(** C2 as stated, for every document, does not hold.  Without any item
    [self.items[0]] is [undefined]: the call throws before the third loop
    and the parent of label 5 stays [null].  And when two labels share an
    id, [labelIdMap] holds the later one: the third loop runs on it twice
    and never on the first, whose parent stays [null] although the label
    it names is in the document; the second gets the parent of the
    first. *)
Lemma decode_leaves_pointers_unresolved :
  (fst (decodeBaseJson 0 doc_without_items (Sat_new 0)) = Throw
   ∧ Label.parent
       <$> labels (snd (decodeBaseJson 0 doc_without_items (Sat_new 0)))
     = [RNull; RNull]
   ∧ ¬ pointers_resolved doc_without_items (Sat_new 0)
         (snd (decodeBaseJson 0 doc_without_items (Sat_new 0))))
  ∧ (fst (decodeBaseJson 0 doc_shared_id (Sat_new 0)) = Done tt
     ∧ Label.parent
         <$> labels (snd (decodeBaseJson 0 doc_shared_id (Sat_new 0)))
       = [RNull; RObj 2%nat; RNull]
     ∧ ¬ pointers_resolved doc_shared_id (Sat_new 0)
           (snd (decodeBaseJson 0 doc_shared_id (Sat_new 0)))).
Proof.
  split; (split; [vm_compute; reflexivity|]);
    (split; [vm_compute; reflexivity|]).
  - intros H. destruct (H 0%nat 1%nat _ _ eq_refl eq_refl) as (l & Hl & Hp & _).
    vm_compute in Hl. inversion Hl; subst l.
    specialize (Hp ltac:(simpl; lia) eq_refl). discriminate Hp.
  - intros H. destruct (H 0%nat 2%nat _ _ eq_refl eq_refl) as (l & Hl & Hp & _).
    vm_compute in Hl. inversion Hl; subst l.
    specialize (Hp ltac:(simpl; lia) eq_refl). discriminate Hp.
Qed.
(** ** Deleting along a chain: what it does *)


(** *** Writing one item *)

Lemma setItem_run_insert (cur : nat) (f : Item.t → Item.t) (it : Item.t)
    (s : Sat) :
  items s !! cur = Some it →
  setItem cur f s = (Done tt, set_items (λ its, <[cur := f it]> its) s).
Proof.
  intros H. rewrite setItem_run. f_equal.
  destruct s; unfold set_items; simpl in *. f_equal. by apply alter_as_insert.
Qed.

Lemma set_items_insert_insert (cur : nat) (it it' : Item.t) (s : Sat) :
  set_items (λ its, <[cur := it']> its) (set_items (λ its, <[cur := it]> its) s)
  = set_items (λ its, <[cur := it']> its) s.
Proof.
  rewrite set_items_set_items. destruct s; unfold set_items; simpl.
  f_equal. apply list_insert_insert_eq.
Qed.

Lemma lookup_set_items_insert (cur : nat) (it it' : Item.t) (s : Sat) :
  items s !! cur = Some it →
  items (set_items (λ its, <[cur := it']> its) s) !! cur = Some it'.
Proof.
  intros H. rewrite items_set_items.
  apply list_lookup_insert_eq. by eapply lookup_lt_Some.
Qed.

Lemma unselect_run (cur : nat) (k : M Z) (t : Z) (s : Sat) (it : Item.t) :
  items s !! cur = Some it →
  (∀ a, Item.selectedLabel it = RObj a → (a < length (labels s))%nat) →
  k s = (Done t, s) →
  unselect cur k s
  = (Done tt, set_items (λ its, <[cur := unselectIf (labels s) t it]> its) s).
Proof.
  intros Hit Hsel Hk. unfold unselect, unselectIf.
  mstep with (getItem_run _ _ _ Hit).
  destruct (Item.selectedLabel it) as [| |a] eqn:Es; cbn [truthy idOf].
  - rewrite ret_run, decide_False by done. by rewrite set_items_insert_id.
  - rewrite ret_run, decide_False by done. by rewrite set_items_insert_id.
  - destruct (lookup_lt_is_Some_2 _ _ (Hsel a eq_refl)) as [sl Hsl].
    mstep with (deref_run _ _ _ Hsl). mstep with Hk.
    rewrite Hsl. cbn [fmap option_fmap option_map].
    destruct (Z.eqb_spec (Label.id sl) t) as [E|E].
    + rewrite decide_True by (by rewrite E).
      mstep with (setItem_run_insert _ _ _ _ Hit).
      erewrite setItem_run_insert by (by eapply lookup_set_items_insert).
      by rewrite set_items_insert_insert.
    + rewrite ret_run, decide_False by congruence.
      by rewrite set_items_insert_id.
Qed.

(** *** The inner loop *)

Lemma unselectIf_fields (ls : list Label.t) (t : Z) (it : Item.t) :
  Item.labels (unselectIf ls t it) = Item.labels it
  ∧ Item.index (unselectIf ls t it) = Item.index it
  ∧ (Item.selectedLabel (unselectIf ls t it) = Item.selectedLabel it
     ∨ Item.selectedLabel (unselectIf ls t it) = RNull).
Proof. unfold unselectIf. destruct (decide _); destruct it; simpl; auto. Qed.

Lemma elem_of_delete {A : Type} (l : list A) (j : nat) (x : A) :
  x ∈ base.delete j l → x ∈ l.
Proof.
  revert j. induction l as [|y l IH]; intros [|j]; simpl; intros H; try done.
  - by apply list_elem_of_further.
  - apply elem_of_cons in H as [->|H]; [apply list_elem_of_here|].
    apply list_elem_of_further. by eapply IH.
Qed.

Lemma all_objects_mono (s s' : Sat) (rs rs' : list ref) :
  length (labels s') = length (labels s) → (∀ r, r ∈ rs' → r ∈ rs) →
  all_objects s rs → all_objects s' rs'.
Proof.
  intros Hlen Hsub Hall r Hr. destruct (Hall r (Hsub r Hr)) as (a & -> & Ha).
  exists a. split; [done | lia].
Qed.

(** The loop does to the item what [spliceItem] says; nothing else is
    written. *)
Lemma spliceLoop_run (cur : nat) (c : addr) (cl : Label.t) (n : nat) :
  ∀ j s it,
    items s !! cur = Some it →
    all_objects s (Item.labels it) →
    (∀ a, Item.selectedLabel it = RObj a → (a < length (labels s))%nat) →
    labels s !! c = Some cl →
    (length (Item.labels it) ≤ n + j)%nat →
    spliceLoop n cur (RObj c) j s
    = (Done tt,
       set_items (λ its,
         <[cur := spliceItem (labels s) (Label.id cl) n j it]> its) s).
Proof.
  induction n as [|n IH]; intros j s it Hit Hall Hsel Hcl Hlen.
  - cbn [spliceLoop spliceItem]. mstep with (getItem_run _ _ _ Hit).
    replace (j <? length (Item.labels it))%nat with false
      by (symmetry; apply Nat.ltb_ge; lia).
    by rewrite ret_run, set_items_insert_id.
  - cbn [spliceLoop spliceItem]. mstep with (getItem_run _ _ _ Hit).
    destruct (Item.labels it !! j) as [r|] eqn:Ej.
    + replace (j <? length (Item.labels it))%nat with true
        by (symmetry; apply Nat.ltb_lt; by eapply lookup_lt_Some).
      destruct (Hall r) as (a & -> & Ha); [by eapply list_elem_of_lookup_2|].
      apply lookup_lt_is_Some_2 in Ha as [lj Hlj].
      change (default RUndef (Some (RObj a))) with (RObj a).
      mstep with (deref_run _ _ _ Hlj).
      mstep with (deref_run _ _ _ Hcl).
      cbn [idOf]. rewrite Hlj. cbn [fmap option_fmap option_map].
      destruct (Z.eqb_spec (Label.id lj) (Label.id cl)) as [E|E].
      * rewrite decide_True by (by rewrite E).
        mstep with (setItem_run_insert _ _ _ _ Hit).
        set (it1 := Item.set_labels (base.delete j (Item.labels it)) it).
        pose proof (lookup_set_items_insert cur it it1 s Hit) as Hit1.
        rewrite bind_run.
        erewrite (unselect_run cur _ (Label.id cl) _ it1 Hit1); cycle 1.
        { intros b Hb. apply Hsel. by destruct it. }
        { rewrite bind_run. erewrite deref_run by exact Hcl. reflexivity. }
        cbv beta iota. rewrite set_items_insert_insert.
        destruct (unselectIf_fields (labels s) (Label.id cl) it1)
          as (Hl2 & Hi2 & Hs2).
        set (it2 := unselectIf _ _ it1) in *.
        erewrite IH; [by rewrite set_items_insert_insert
                     | by eapply lookup_set_items_insert | | | exact Hcl |].
        -- eapply all_objects_mono; [reflexivity| |exact Hall].
           intros r. rewrite Hl2. unfold it1. destruct it; simpl.
           apply elem_of_delete.
        -- intros b Hb. destruct Hs2 as [Hs2|Hs2]; [|congruence].
           apply Hsel. rewrite Hs2 in Hb. by destruct it.
        -- rewrite Hl2. unfold it1. destruct it; simpl in *.
           rewrite length_delete by (by eapply mk_is_Some). lia.
      * rewrite decide_False by congruence. rewrite bind_run, ret_run.
        apply IH; auto. lia.
    + replace (j <? length (Item.labels it))%nat with false
        by (symmetry; apply Nat.ltb_ge; by apply lookup_ge_None).
      by rewrite ret_run, set_items_insert_id.
Qed.

Lemma spliceItem_fields (ls : list Label.t) (t : Z) (n : nat) :
  ∀ j it,
    Item.index (spliceItem ls t n j it) = Item.index it
    ∧ (∀ r, r ∈ Item.labels (spliceItem ls t n j it) → r ∈ Item.labels it)
    ∧ (Item.selectedLabel (spliceItem ls t n j it) = Item.selectedLabel it
       ∨ Item.selectedLabel (spliceItem ls t n j it) = RNull).
Proof.
  induction n as [|n IH]; intros j it; cbn [spliceItem]; [by auto|].
  destruct (Item.labels it !! j) as [r|]; [|by auto].
  destruct (decide _); [|apply IH].
  set (it1 := Item.set_labels (base.delete j (Item.labels it)) it).
  destruct (unselectIf_fields ls t it1) as (Hl & Hi & Hs).
  destruct (IH (S j) (unselectIf ls t it1)) as (-> & Hsub & Hsel).
  rewrite Hi. split; [by destruct it|]. split.
  - intros r0 Hr0. apply Hsub in Hr0. rewrite Hl in Hr0.
    unfold it1 in Hr0. destruct it; simpl in *. by eapply elem_of_delete.
  - destruct Hsel as [-> | ->]; [|by right].
    destruct Hs as [-> | ->]; [left; by destruct it | by right].
Qed.

Lemma visit_fields (ls : list Label.t) (c : ref) (it : Item.t) :
  Item.index (visit ls c it) = Item.index it
  ∧ (∀ r, r ∈ Item.labels (visit ls c it) → r ∈ Item.labels it)
  ∧ (Item.selectedLabel (visit ls c it) = Item.selectedLabel it
     ∨ Item.selectedLabel (visit ls c it) = RNull).
Proof.
  unfold visit. destruct (idOf ls c); [apply spliceItem_fields | by auto].
Qed.

(** One visit of the walk. *)
Lemma visit_run (q : nat) (c : ref) (s : Sat) (it : Item.t) :
  items s !! q = Some it →
  all_objects s (Item.labels it) →
  (∀ a, Item.selectedLabel it = RObj a → (a < length (labels s))%nat) →
  (Item.labels it ≠ [] → is_Some (idOf (labels s) c)) →
  spliceLoop (length (Item.labels it)) q c 0 s
  = (Done tt, set_items (λ its, <[q := visit (labels s) c it]> its) s).
Proof.
  intros Hit Hall Hsel Hc. unfold visit.
  destruct (idOf (labels s) c) as [t|] eqn:Et.
  - destruct c as [| |a]; try discriminate. cbn [idOf] in Et.
    destruct (labels s !! a) as [cl|] eqn:Ecl; simplify_eq/=.
    apply spliceLoop_run; auto. lia.
  - destruct (Item.labels it) as [|r rs] eqn:El.
    + cbn [length spliceLoop]. mstep with (getItem_run _ _ _ Hit).
      rewrite El. change (0 <? length (@nil ref))%nat with false. cbv iota.
      by rewrite ret_run, set_items_insert_id.
    + destruct Hc as [? ?]; done.
Qed.

(** *** Neighbouring items *)

Lemma previousItem_run (q : nat) (s : Sat) (it : Item.t) :
  items s !! q = Some it → Item.index it = Z.of_nat q →
  previousItem q s = (Done (if decide (q = 0)%nat then None else Some (q - 1)%nat), s).
Proof.
  intros Hit Hidx. unfold previousItem. mstep with (getItem_run _ _ _ Hit).
  rewrite Hidx. destruct (decide (q = 0)%nat) as [->|Hq].
  - reflexivity.
  - replace (Z.of_nat q =? 0) with false by (symmetry; lia).
    mstep. rewrite ret_run. unfold itemAt.
    apply lookup_lt_Some in Hit.
    replace ((0 <=? Z.of_nat q - 1) && (Z.of_nat q - 1 <? Z.of_nat (length (items s))))
      with true by (symmetry; apply andb_true_iff; lia).
    do 3 f_equal. lia.
Qed.

Lemma nextItem_run (q : nat) (s : Sat) (it : Item.t) :
  items s !! q = Some it → Item.index it = Z.of_nat q →
  nextItem q s
  = (Done (if decide (q + 1 < length (items s))%nat then Some (q + 1)%nat
           else None), s).
Proof.
  intros Hit Hidx. unfold nextItem. mstep with (getItem_run _ _ _ Hit).
  mstep. rewrite Hidx. destruct (decide (q + 1 < length (items s))%nat) as [Hq|Hq].
  - replace (Z.of_nat (length (items s)) <=? Z.of_nat q + 1) with false
      by (symmetry; lia).
    rewrite ret_run. unfold itemAt.
    replace ((0 <=? Z.of_nat q + 1) && (Z.of_nat q + 1 <? Z.of_nat (length (items s))))
      with true by (symmetry; apply andb_true_iff; lia).
    do 3 f_equal. lia.
  - replace (Z.of_nat (length (items s)) <=? Z.of_nat q + 1) with true
      by (symmetry; lia).
    reflexivity.
Qed.

Lemma stepChain_run (backward : bool) (c : ref) (s : Sat) :
  (∀ a, c = RObj a → (a < length (labels s))%nat) →
  (if truthy c then
     cl ← deref c;
     m ← gets labelIdMap;
     mret (lookupId m (if backward then Label.previousLabelId cl
                       else Label.nextLabelId cl))
   else mret c) s
  = (Done (stepChain (labels s) (labelIdMap s) backward c), s).
Proof.
  intros Hc. destruct c as [| |a]; try reflexivity.
  destruct (lookup_lt_is_Some_2 _ _ (Hc a eq_refl)) as [cl Hcl].
  cbn [truthy stepChain]. rewrite Hcl.
  mstep with (deref_run _ _ _ Hcl). mstep. reflexivity.
Qed.

Lemma lookupId_in_store (s : Sat) (k : option Z) (a : addr) :
  wf_session s → lookupId (labelIdMap s) k = RObj a →
  (a < length (labels s))%nat.
Proof.
  intros [_ Hm] H. unfold lookupId in H.
  destruct (k ≫= _) as [b|] eqn:E; simplify_eq/=.
  destruct k as [k|]; simplify_eq/=. by eapply Hm.
Qed.

Lemma stepChain_in_store (s : Sat) (backward : bool) (c : ref) (a : addr) :
  wf_session s →
  (∀ b, c = RObj b → (b < length (labels s))%nat) →
  stepChain (labels s) (labelIdMap s) backward c = RObj a →
  (a < length (labels s))%nat.
Proof.
  intros Hwf Hc H. unfold stepChain in H.
  destruct c as [| |b]; try discriminate.
  destruct (labels s !! b) as [cl|]; [by eapply lookupId_in_store | auto].
Qed.

Lemma wf_session_insert (s : Sat) (q : nat) (it it' : Item.t) :
  wf_session s → items s !! q = Some it →
  Item.index it' = Item.index it →
  (∀ r, r ∈ Item.labels it' → r ∈ Item.labels it) →
  (Item.selectedLabel it' = Item.selectedLabel it
   ∨ Item.selectedLabel it' = RNull) →
  wf_session (set_items (λ its, <[q := it']> its) s).
Proof.
  intros [Hi Hm] Hit Hidx Hsub Hsel. split; [|exact Hm].
  intros x itx Hx. rewrite items_set_items in Hx.
  destruct (decide (x = q)) as [->|Hne].
  - rewrite list_lookup_insert_eq in Hx by (by eapply lookup_lt_Some).
    inversion Hx; subst itx. destruct (Hi q it Hit) as (H1 & H2 & H3).
    split; [congruence|]. split.
    + eapply all_objects_mono; [reflexivity | exact Hsub | exact H2].
    + intros a Ha. destruct Hsel as [E|E]; rewrite E in Ha; [auto | done].
  - rewrite list_lookup_insert_ne in Hx by done. by apply Hi.
Qed.

(** *** The walk *)

Lemma chainWalk_None (fuel : nat) (backward : bool) (c : ref) :
  chainWalk fuel backward None c = mret tt.
Proof. by destruct fuel. Qed.

Lemma walked_last (ls : list Label.t) (m : gmap Z addr) (backward : bool)
    (q : nat) (c : ref) (it : Item.t) (its : list Item.t) :
  its !! q = Some it →
  (if backward then q = 0%nat else (length its ≤ q + 1)%nat) →
  <[q := visit ls c it]> its = imap (walked ls m backward q c) its.
Proof.
  intros Hit Hlast. apply list_eq. intros x. rewrite list_lookup_imap.
  destruct (decide (x = q)) as [->|Hne].
  - rewrite list_lookup_insert_eq by (by eapply lookup_lt_Some).
    rewrite Hit. unfold walked, dist. simpl.
    destruct backward; rewrite decide_True by lia; by rewrite Nat.sub_diag.
  - rewrite list_lookup_insert_ne by done.
    destruct (its !! x) as [itx|] eqn:Ex; [|done]. simpl. f_equal.
    apply lookup_lt_Some in Ex. unfold walked, dist.
    destruct backward; rewrite decide_False by lia; done.
Qed.

Lemma walked_step (ls : list Label.t) (m : gmap Z addr) (backward : bool)
    (q q' : nat) (c : ref) (it : Item.t) (its : list Item.t) :
  its !! q = Some it →
  (if backward then (q ≠ 0 ∧ q' = q - 1)%nat else q' = (q + 1)%nat) →
  imap (walked ls m backward q' (stepChain ls m backward c))
       (<[q := visit ls c it]> its)
  = imap (walked ls m backward q c) its.
Proof.
  intros Hit Hq'. apply list_eq. intros x. rewrite !list_lookup_imap.
  destruct (decide (x = q)) as [->|Hne].
  - rewrite list_lookup_insert_eq by (by eapply lookup_lt_Some).
    rewrite Hit. simpl. f_equal. unfold walked, dist.
    destruct backward.
    + rewrite decide_False by lia. rewrite decide_True by lia.
      by rewrite Nat.sub_diag.
    + rewrite decide_False by lia. rewrite decide_True by lia.
      by rewrite Nat.sub_diag.
  - rewrite list_lookup_insert_ne by done.
    destruct (its !! x) as [itx|] eqn:Ex; [|done]. simpl. f_equal.
    unfold walked, dist. destruct backward.
    + destruct Hq' as [Hq0 ->].
      destruct (decide (x ≤ q - 1)%nat).
      * rewrite decide_True by lia.
        replace (q - x)%nat with (S (q - 1 - x)) by lia. reflexivity.
      * by rewrite decide_False by lia.
    + subst q'. destruct (decide (q + 1 ≤ x)%nat).
      * rewrite decide_True by lia.
        replace (x - q)%nat with (S (x - (q + 1))) by lia. reflexivity.
      * by rewrite decide_False by lia.
Qed.

Lemma chain_ok_step (s : Sat) (backward : bool) (q q' : nat) (c : ref)
    (it' : Item.t) :
  (if backward then (q ≠ 0 ∧ q' = q - 1)%nat else q' = (q + 1)%nat) →
  chain_ok s backward q c →
  chain_ok (set_items (λ its, <[q := it']> its) s) backward q'
    (stepChain (labels s) (labelIdMap s) backward c).
Proof.
  intros Hq' Hok x itx k Hx Hd Hne.
  assert (Hxq : x ≠ q ∧ dist backward q x = Some (S k)).
  { unfold dist in *. destruct backward.
    - destruct Hq' as [Hq0 ->]. destruct (decide (x ≤ q - 1)%nat); [|done].
      split; [lia|]. rewrite decide_True by lia. inversion Hd. f_equal. lia.
    - subst q'. destruct (decide (q + 1 ≤ x)%nat); [|done].
      split; [lia|]. rewrite decide_True by lia. inversion Hd. f_equal. lia. }
  destruct Hxq as [Hxq Hd'].
  rewrite items_set_items, list_lookup_insert_ne in Hx by done.
  exact (Hok x itx (S k) Hx Hd' Hne).
Qed.

(** A walk that meets a label of the session at every item whose list is
    not empty returns, and does to every item on its way what [walked]
    says; nothing but these items is written. *)
Lemma chainWalk_run (backward : bool) (fuel : nat) :
  ∀ q c s,
    wf_session s → (q < length (items s))%nat →
    (if backward then (q < fuel)%nat else (length (items s) - q ≤ fuel)%nat) →
    (∀ a, c = RObj a → (a < length (labels s))%nat) →
    chain_ok s backward q c →
    chainWalk fuel backward (Some q) c s
    = (Done tt,
       set_items (λ its,
         imap (walked (labels s) (labelIdMap s) backward q c) its) s).
Proof.
  induction fuel as [|n IH]; intros q c s Hwf Hq Hfuel Hc Hok.
  { destruct backward; lia. }
  destruct (lookup_lt_is_Some_2 _ _ Hq) as [it Hit].
  destruct (proj1 Hwf q it Hit) as (Hidx & Hall & Hsel).
  cbn [chainWalk]. mstep with (getItem_run _ _ _ Hit).
  rewrite bind_run, (visit_run q c s it Hit Hall Hsel); cycle 1.
  { intros Hne. apply (Hok q it 0%nat Hit); [|done].
    unfold dist. destruct backward; rewrite decide_True by lia;
      by rewrite Nat.sub_diag. }
  cbv beta iota.
  destruct (visit_fields (labels s) c it) as (Hvi & Hvl & Hvs).
  set (it' := visit (labels s) c it) in *.
  set (s1 := set_items (λ its, <[q := it']> its) s).
  assert (Hwf1 : wf_session s1) by (by eapply wf_session_insert).
  assert (Hit1 : items s1 !! q = Some it')
    by (by eapply lookup_set_items_insert).
  assert (Hlen1 : length (items s1) = length (items s))
    by (unfold s1; by rewrite items_set_items, length_insert).
  rewrite bind_run, (stepChain_run backward c s1 Hc). cbv beta iota.
  change (labels s1) with (labels s). change (labelIdMap s1) with (labelIdMap s).
  set (c' := stepChain (labels s) (labelIdMap s) backward c).
  assert (Hc' : ∀ a, c' = RObj a → (a < length (labels s))%nat).
  { intros a Ha. exact (stepChain_in_store s backward c a Hwf Hc Ha). }
  destruct backward.
  - rewrite bind_run, (previousItem_run q s1 it' Hit1) by congruence.
    cbv beta iota. destruct (decide (q = 0)%nat) as [Hq0|Hq0].
    + rewrite chainWalk_None, ret_run. f_equal. unfold s1.
      destruct s; unfold set_items; simpl in *. f_equal.
      by apply walked_last.
    + rewrite (IH (q - 1)%nat c' s1); auto; [|lia|lia|].
      * f_equal. unfold s1. rewrite set_items_set_items.
        destruct s; unfold set_items; simpl in *. f_equal.
        by apply walked_step.
      * by apply chain_ok_step.
  - rewrite bind_run, (nextItem_run q s1 it' Hit1) by congruence.
    cbv beta iota. rewrite Hlen1.
    destruct (decide (q + 1 < length (items s))%nat) as [Hq1|Hq1].
    + rewrite (IH (q + 1)%nat c' s1); auto; [|lia|lia|].
      * f_equal. unfold s1. rewrite set_items_set_items.
        destruct s; unfold set_items; simpl in *. f_equal.
        by apply walked_step.
      * by apply chain_ok_step.
    + rewrite chainWalk_None, ret_run. f_equal. unfold s1.
      destruct s; unfold set_items; simpl in *. f_equal.
      apply walked_last; [done | lia].
Qed.

Lemma walked_fields (ls : list Label.t) (m : gmap Z addr) (backward : bool)
    (q : nat) (c : ref) (x : nat) (it : Item.t) :
  Item.index (walked ls m backward q c x it) = Item.index it
  ∧ (∀ r, r ∈ Item.labels (walked ls m backward q c x it) → r ∈ Item.labels it)
  ∧ (Item.selectedLabel (walked ls m backward q c x it) = Item.selectedLabel it
     ∨ Item.selectedLabel (walked ls m backward q c x it) = RNull).
Proof.
  unfold walked. destruct (dist backward q x); [apply visit_fields | by auto].
Qed.

Lemma wf_session_imap (f : nat → Item.t → Item.t) (s : Sat) :
  (∀ x it, Item.index (f x it) = Item.index it
     ∧ (∀ r, r ∈ Item.labels (f x it) → r ∈ Item.labels it)
     ∧ (Item.selectedLabel (f x it) = Item.selectedLabel it
        ∨ Item.selectedLabel (f x it) = RNull)) →
  wf_session s → wf_session (set_items (λ its, imap f its) s).
Proof.
  intros Hf [Hi Hm]. split; [|exact Hm].
  intros x itx Hx. rewrite items_set_items, list_lookup_imap in Hx.
  destruct (items s !! x) as [it|] eqn:Ex; simplify_eq/=.
  destruct (Hi x it Ex) as (H1 & H2 & H3).
  destruct (Hf x it) as (F1 & F2 & F3).
  split; [congruence|]. split.
  - eapply all_objects_mono; [reflexivity | exact F2 | exact H2].
  - intros a Ha. destruct F3 as [E|E]; rewrite E in Ha; [auto | done].
Qed.

(** The walk from an item that may not exist. *)
Lemma chainWalk_opt_run (backward : bool) (fuel : nat) (cur : option nat)
    (c : ref) (s : Sat) :
  wf_session s →
  (∀ q, cur = Some q →
     (q < length (items s))%nat
     ∧ (if backward then (q < fuel)%nat
        else (length (items s) - q ≤ fuel)%nat)
     ∧ chain_ok s backward q c) →
  (∀ a, c = RObj a → (a < length (labels s))%nat) →
  chainWalk fuel backward cur c s
  = (Done tt,
     set_items (λ its,
       imap (λ x it, match cur with
                     | Some q => walked (labels s) (labelIdMap s) backward q c x it
                     | None => it
                     end) its) s).
Proof.
  intros Hwf Hcur Hc. destruct cur as [q|].
  - destruct (Hcur q eq_refl) as (Hq & Hfuel & Hok). by apply chainWalk_run.
  - rewrite chainWalk_None, ret_run. f_equal.
    destruct s; unfold set_items; simpl. f_equal.
    apply list_eq. intros x. rewrite list_lookup_imap.
    by destruct (items0 !! x).
Qed.

(** The search finds the first entry with the id. *)
Lemma findLabel_run (labelId : Z) (s : Sat) (rs : list ref) :
  ∀ i j a l,
    rs !! i = Some (RObj a) → labels s !! a = Some l → Label.id l = labelId →
    all_objects s rs →
    (∀ p r, (p < i)%nat → rs !! p = Some r → idOf (labels s) r ≠ Some labelId) →
    findLabel labelId rs j s = (Done (Some (j + i)%nat), s).
Proof.
  induction rs as [|r rs IH]; intros i j a l Hi Hl Hid Hall Hfirst; [done|].
  cbn [findLabel]. destruct i as [|i]; simpl in Hi.
  - inversion Hi; subst r. mstep with (deref_run _ _ _ Hl).
    rewrite Hid, Z.eqb_refl, ret_run. do 3 f_equal. lia.
  - destruct (Hall r) as (b & -> & Hb); [apply list_elem_of_here|].
    apply lookup_lt_is_Some_2 in Hb as [lb Hlb].
    mstep with (deref_run _ _ _ Hlb).
    assert (Hne : Label.id lb ≠ labelId).
    { intros E. apply (Hfirst 0%nat (RObj b)); [lia | done |].
      cbn [idOf]. by rewrite Hlb, <- E. }
    replace (Label.id lb =? labelId) with false by (symmetry; lia).
    rewrite (IH i (S j) a l); auto.
    + do 3 f_equal. lia.
    + intros r Hr. by apply Hall, list_elem_of_further.
    + intros p r Hp Hr. apply (Hfirst (S p) r); [lia | done].
Qed.

(** *** The whole deletion *)

Lemma walked_outside (ls : list Label.t) (m : gmap Z addr) (backward : bool)
    (q : nat) (c : ref) (x : nat) (it : Item.t) :
  (if backward then (q < x)%nat else (x < q)%nat) →
  walked ls m backward q c x it = it.
Proof.
  intros H. unfold walked, dist.
  destruct backward; by rewrite decide_False by lia.
Qed.

(** [deleteLabelById(labelId, true)] on a session as the program builds it,
    when both walks meet a label at every item whose list is not empty. *)
Lemma deleteLabelById_run (fuel self i : nat) (labelId : Z) (s : Sat)
    (it : Item.t) (a : addr) (l : Label.t) :
  wf_session s →
  items s !! self = Some it →
  Item.labels it !! i = Some (RObj a) →
  labels s !! a = Some l → Label.id l = labelId →
  (∀ p r, (p < i)%nat → Item.labels it !! p = Some r →
          idOf (labels s) r ≠ Some labelId) →
  (length (items s) ≤ fuel)%nat →
  (self ≠ 0%nat →
   chain_ok s true (self - 1)
     (lookupId (labelIdMap s) (Label.previousLabelId l))) →
  ((self + 1 < length (items s))%nat →
   chain_ok s false (self + 1)
     (lookupId (labelIdMap s) (Label.nextLabelId l))) →
  deleteLabelById fuel self labelId true s
  = (Done tt,
     set_items (λ its, imap (afterDelete s self i labelId l) its) s).
Proof.
  intros Hwf Hit Hi Hl Hid Hfirst Hfuel Hback Hfwd.
  destruct (proj1 Hwf self it Hit) as (Hidx & Hall & Hsel).
  pose proof (lookup_lt_Some _ _ _ Hit) as Hself.
  set (c1 := lookupId (labelIdMap s) (Label.previousLabelId l)) in *.
  set (c2 := lookupId (labelIdMap s) (Label.nextLabelId l)) in *.
  assert (Hc1 : ∀ b, c1 = RObj b → (b < length (labels s))%nat)
    by (intros b Hb; by eapply lookupId_in_store).
  assert (Hc2 : ∀ b, c2 = RObj b → (b < length (labels s))%nat)
    by (intros b Hb; by eapply lookupId_in_store).
  unfold deleteLabelById.
  mstep with (getItem_run _ _ _ Hit).
  mstep with (findLabel_run labelId s (Item.labels it) i 0%nat a l Hi Hl Hid Hall Hfirst).
  cbn [Nat.add].
  mstep with (previousItem_run self s it Hit Hidx).
  mstep with (getItem_run _ _ _ Hit).
  rewrite Hi. change (default RUndef (Some (RObj a))) with (RObj a).
  mstep with (deref_run _ _ _ Hl). mstep. fold c1.
  (* the backward walk *)
  set (curB := if decide (self = 0)%nat then None else Some (self - 1)%nat).
  rewrite ?bind_assoc_run, bind_run.
  rewrite (chainWalk_opt_run true fuel curB c1 s Hwf); [|
    intros q Hq; unfold curB in Hq; destruct (decide (self = 0)%nat);
      simplify_eq; repeat split; [lia | lia | by apply Hback] | exact Hc1].
  cbv beta iota.
  set (Wb := λ (x : nat) (itx : Item.t),
               match curB with
               | Some q => walked (labels s) (labelIdMap s) true q c1 x itx
               | None => itx
               end).
  set (sb := set_items (λ its, imap Wb its) s).
  assert (HWb : ∀ x itx, (self ≤ x)%nat → Wb x itx = itx).
  { intros x itx Hx. unfold Wb, curB. destruct (decide (self = 0)%nat); [done|].
    apply walked_outside. lia. }
  assert (Hwfb : wf_session sb).
  { apply wf_session_imap; [|done]. intros x itx. unfold Wb.
    destruct curB; [apply walked_fields | by auto]. }
  assert (Hsb : ∀ x itx, (self ≤ x)%nat → items s !! x = Some itx →
                         items sb !! x = Some itx).
  { intros x itx Hx Hitx. unfold sb.
    rewrite items_set_items, list_lookup_imap, Hitx. simpl. by rewrite HWb. }
  assert (Hlenb : length (items sb) = length (items s))
    by (unfold sb; by rewrite items_set_items, length_imap).
  pose proof (Hsb self it (le_n _) Hit) as Hitb.
  (* the forward walk *)
  mstep with (nextItem_run self sb it Hitb Hidx). rewrite Hlenb.
  mstep with (getItem_run _ _ _ Hitb).
  rewrite Hi. change (default RUndef (Some (RObj a))) with (RObj a).
  mstep with (deref_run a l sb Hl). mstep.
  change (labelIdMap sb) with (labelIdMap s). fold c2.
  set (curF := if decide (self + 1 < length (items s))%nat
               then Some (self + 1)%nat else None).
  rewrite ?bind_assoc_run, bind_run.
  rewrite (chainWalk_opt_run false fuel curF c2 sb Hwfb); [| | exact Hc2].
  2:{ intros q Hq. unfold curF in Hq.
      destruct (decide (self + 1 < length (items s))%nat) as [Hlt|]; simplify_eq.
      rewrite Hlenb. repeat split; [lia | lia |].
      intros x itx k Hx Hd Hne.
      assert (Hxs : (self + 1 ≤ x)%nat).
      { unfold dist in Hd. by destruct (decide (self + 1 ≤ x)%nat). }
      unfold sb in Hx. rewrite items_set_items, list_lookup_imap in Hx.
      destruct (items s !! x) as [itx0|] eqn:Ex; simplify_eq/=.
      rewrite HWb in Hne by lia. exact (Hfwd Hlt x itx0 k Ex Hd Hne). }
  cbv beta iota.
  change (labels sb) with (labels s). change (labelIdMap sb) with (labelIdMap s).
  set (Wf := λ (x : nat) (itx : Item.t),
               match curF with
               | Some q => walked (labels s) (labelIdMap s) false q c2 x itx
               | None => itx
               end).
  set (sf := set_items (λ its, imap Wf its) sb).
  assert (HWf : ∀ x itx, (x ≤ self)%nat → Wf x itx = itx).
  { intros x itx Hx. unfold Wf, curF.
    destruct (decide (self + 1 < length (items s))%nat); [|done].
    apply walked_outside. lia. }
  assert (Hitf : items sf !! self = Some it).
  { unfold sf. rewrite items_set_items, list_lookup_imap, Hitb. simpl.
    by rewrite HWf. }
  (* the label itself *)
  mstep with (getItem_run _ _ _ Hitf).
  mstep with (setItem_run_insert _ _ _ _ Hitf).
  set (it1 := Item.set_labels (base.delete i (Item.labels it)) it).
  erewrite (unselect_run self _ labelId _ it1);
    [| by eapply lookup_set_items_insert
     | intros b Hb; apply Hsel; by destruct it
     | reflexivity].
  rewrite set_items_insert_insert. f_equal.
  unfold sf, sb. rewrite !set_items_set_items.
  destruct s; unfold set_items; simpl in *. f_equal.
  apply list_eq. intros x. rewrite list_lookup_imap.
  destruct (decide (x = self)) as [->|Hne].
  - rewrite list_lookup_insert_eq by (by rewrite !length_imap).
    rewrite Hit. simpl. unfold afterDelete. by rewrite decide_True.
  - rewrite list_lookup_insert_ne by done. rewrite !list_lookup_imap.
    destruct (items0 !! x) as [itx|] eqn:Ex; [|done]. simpl. f_equal.
    apply lookup_lt_Some in Ex.
    unfold afterDelete. rewrite decide_False by done.
    destruct (decide (x < self)%nat) as [Hlt|Hge].
    + rewrite HWf by lia. unfold Wb, curB.
      by rewrite decide_False by lia.
    + rewrite HWb by lia. unfold Wf, curF.
      by rewrite decide_True by lia.
Qed.

(** *** What is removed from the lists *)

Section Lists.
Context (ls : list Label.t).

Lemma elem_of_delete_ne {A : Type} (l : list A) (j : nat) (x y : A) :
  l !! j = Some y → x ∈ l → x ≠ y → x ∈ base.delete j l.
Proof.
  revert j. induction l as [|z l IH]; intros [|j] Hj Hx Hne; simpl in *;
    try done.
  - inversion Hj; subst z. apply elem_of_cons in Hx as [->|Hx]; done.
  - apply elem_of_cons in Hx as [->|Hx]; [apply list_elem_of_here|].
    apply list_elem_of_further. by eapply IH.
Qed.





Lemma delete_index_lists (t : Z) (rs : list ref)
    (i : nat) (ri : ref) :
  rs !! i = Some ri → idOf ls ri = Some t →
  (∀ r, r ∈ base.delete i rs → r ∈ rs)
  ∧ (∀ r, r ∈ rs → idOf ls r ≠ Some t → r ∈ base.delete i rs)
  ∧ (NoDup (idOf ls <$> rs) → ∀ r, r ∈ base.delete i rs → idOf ls r ≠ Some t).
Proof.
  intros Hi Ht. split; [intros r; apply elem_of_delete|]. split.
  - intros r Hr Hne. eapply elem_of_delete_ne; [exact Hi | done |].
    intros ->. done.
  - intros Hnd r Hr E. apply list_elem_of_lookup in Hr as [p Hp].
    destruct (decide (p < i)%nat) as [Hlt|Hge].
    + rewrite list_lookup_delete_lt in Hp by done.
      assert (p = i); [|lia].
      eapply (NoDup_lookup _ _ _ _ Hnd);
        rewrite list_lookup_fmap;
        [rewrite Hp; cbn; by rewrite E | rewrite Hi; cbn; by rewrite Ht].
    + rewrite list_lookup_delete_ge in Hp by lia.
      assert (S p = i); [|lia].
      eapply (NoDup_lookup _ _ _ _ Hnd);
        rewrite list_lookup_fmap;
        [rewrite Hp; cbn; by rewrite E | rewrite Hi; cbn; by rewrite Ht].
Qed.

End Lists.


(** The sample chain meets the assumptions. *)
Lemma session_chain_wf : wf_session session_chain.
Proof.
  split.
  - intros q it Hq.
    destruct q as [|[|[|q]]]; simpl in Hq; simplify_eq; (split; [done|]);
      (split; [|done]); intros r Hr;
      apply list_elem_of_singleton in Hr as ->;
      eexists; (split; [reflexivity | simpl; lia]).
  - intros k a Hk.
    destruct (decide (k = 0)) as [->|?]; [vm_compute in Hk; simplify_eq; simpl; lia|].
    destruct (decide (k = 1)) as [->|?]; [vm_compute in Hk; simplify_eq; simpl; lia|].
    destruct (decide (k = 2)) as [->|?]; [vm_compute in Hk; simplify_eq; simpl; lia|].
    simpl in Hk. rewrite !lookup_insert_ne in Hk by done. done.
Qed.

Lemma session_chain_ok_back :
  chain_ok session_chain true 0 (lookupId (labelIdMap session_chain) (Some 0)).
Proof.
  intros x it k Hx Hd _. unfold dist in Hd.
  destruct (decide (x ≤ 0)%nat) as [Hle|]; [|done].
  assert (x = 0%nat) as -> by lia. inversion Hd; subst k. by eexists.
Qed.

Lemma session_chain_ok_fwd :
  chain_ok session_chain false 2 (lookupId (labelIdMap session_chain) (Some 2)).
Proof.
  intros x it k Hx Hd _. unfold dist in Hd.
  destruct (decide (2 ≤ x)%nat) as [Hle|]; [|done].
  apply lookup_lt_Some in Hx. simpl in Hx.
  assert (x = 2%nat) as -> by lia. inversion Hd; subst k. by eexists.
Qed.


(** On the sample chain: deleting label 1 on the middle item empties the
    three lists and leaves the three label objects as they were. *)
Example deleteLabelById_chain :
  Item.labels <$> items (snd (deleteLabelById 3 1 1 true session_chain))
    = [[]; []; []]
  ∧ labels (snd (deleteLabelById 3 1 1 true session_chain))
    = labels session_chain.
Proof. vm_compute. split; reflexivity. Qed.

(** *** The fuel of the inner loop always suffices *)

Lemma deref_outcome (r : ref) (s : Sat) :
  (∃ l, deref r s = (Done l, s)) ∨ deref r s = (Throw, s).
Proof.
  destruct r as [| |b]; [by right..|].
  unfold deref. rewrite bind_run, gets_run.
  destruct (labels s !! b) as [l|]; [left; by exists l | by right].
Qed.

Lemma unselect_outcome (cur : nat) (c : ref) (s : Sat) :
  ∃ o s', unselect cur (cl' ← deref c; mret (Label.id cl')) s = (o, s')
    ∧ o ≠ OutOfFuel
    ∧ ∀ it', items s' !! cur = Some it' →
        ∃ it, items s !! cur = Some it ∧ Item.labels it' = Item.labels it.
Proof.
  assert (Hsame : ∀ o, o ≠ OutOfFuel →
    ∃ (o' : outcome unit) s', (o, s) = (o', s') ∧ o' ≠ OutOfFuel
      ∧ ∀ it', items s' !! cur = Some it' →
          ∃ it, items s !! cur = Some it ∧ Item.labels it' = Item.labels it).
  { intros o Ho. exists o, s. split; [done|]. split; [done|].
    intros it' Hit'. by exists it'. }
  unfold unselect, getItem. rewrite bind_assoc_run, bind_run, gets_run.
  cbv beta iota.
  destruct (items s !! cur) as [it|] eqn:Eit; cbn [defined].
  2:{ rewrite bind_run. by apply Hsame. }
  rewrite bind_run, ret_run. cbv beta iota.
  destruct (truthy (Item.selectedLabel it)).
  2:{ rewrite ret_run. by apply Hsame. }
  rewrite bind_run.
  destruct (deref_outcome (Item.selectedLabel it) s) as [[sl ->]| ->].
  2:{ by apply Hsame. }
  cbv beta iota. rewrite bind_assoc_run, bind_run.
  destruct (deref_outcome c s) as [[cl ->]| ->].
  2:{ by apply Hsame. }
  cbv beta iota. rewrite bind_run, ret_run. cbv beta iota.
  destruct (_ =? _).
  2:{ rewrite ret_run. by apply Hsame. }
  rewrite bind_run, !setItem_run. eexists _, _.
  split; [reflexivity|]. split; [done|].
  intros it' Hit'. rewrite !items_set_items in Hit'.
  rewrite !list_lookup_alter_eq, Eit in Hit'. simplify_eq/=.
  exists it. split; [done | by destruct it].
Qed.

(** The loop is bounded by the length of the array it shortens: started
    with that many iterations it never runs out of them. *)
Lemma spliceLoop_fuel_suffices (cur : nat) (c : ref) (n : nat) :
  ∀ j s, (∀ it, items s !! cur = Some it →
                (length (Item.labels it) ≤ n + j)%nat) →
         fst (spliceLoop n cur c j s) ≠ OutOfFuel.
Proof.
  induction n as [|n IH]; intros j s Hlen.
  - cbn [spliceLoop]. unfold getItem. rewrite bind_assoc_run, bind_run, gets_run.
    cbv beta iota.
    destruct (items s !! cur) as [it|] eqn:Eit; cbn [defined];
      [|by rewrite bind_run].
    rewrite bind_run, ret_run. cbv beta iota. specialize (Hlen it eq_refl).
    replace (j <? length (Item.labels it))%nat with false
      by (symmetry; apply Nat.ltb_ge; lia). done.
  - cbn [spliceLoop]. unfold getItem. rewrite bind_assoc_run, bind_run, gets_run.
    cbv beta iota.
    destruct (items s !! cur) as [it|] eqn:Eit; cbn [defined];
      [|by rewrite bind_run].
    rewrite bind_run, ret_run. cbv beta iota. specialize (Hlen it eq_refl).
    destruct (j <? length (Item.labels it))%nat eqn:Ej; [|done].
    apply Nat.ltb_lt in Ej.
    rewrite bind_run.
    destruct (deref_outcome (default RUndef (Item.labels it !! j)) s)
      as [[lj ->]| ->]; [|done].
    cbv beta iota. rewrite bind_run.
    destruct (deref_outcome c s) as [[cl ->]| ->]; [|done].
    cbv beta iota. rewrite bind_run. destruct (_ =? _).
    + rewrite bind_run, setItem_run. cbv beta iota.
      set (s1 := set_items _ s).
      destruct (unselect_outcome cur c s1) as (o & s2 & -> & Ho & Hs2).
      destruct o as [[]| |]; [|done|done].
      apply IH. intros it2 Hit2.
      destruct (Hs2 it2 Hit2) as (it1 & Hit1 & ->).
      unfold s1 in Hit1. rewrite items_set_items, list_lookup_alter_eq, Eit in Hit1.
      simplify_eq/=. rewrite length_delete by (by apply lookup_lt_is_Some_2).
      lia.
    + rewrite ret_run. apply IH. intros it2 Hit2.
      rewrite Eit in Hit2. inversion Hit2; subst it2. lia.
Qed.

(** *** When the walk throws *)

(** A walk that holds no label throws at the first item whose list starts
    with a label: the missing link does not end the walk. *)
Lemma chainWalk_undefined_throws (fuel : nat) (backward : bool) (q : nat)
    (s : Sat) (it : Item.t) (b : addr) (lb : Label.t) (rs : list ref) :
  items s !! q = Some it → Item.labels it = RObj b :: rs →
  labels s !! b = Some lb →
  chainWalk (S fuel) backward (Some q) RUndef s = (Throw, s).
Proof.
  intros Hit Hrs Hlb. cbn [chainWalk].
  mstep with (getItem_run _ _ _ Hit). rewrite Hrs. cbn [length spliceLoop].
  rewrite bind_run, bind_run, (getItem_run _ _ _ Hit). cbv beta iota.
  rewrite Hrs. cbn [length]. change (0 <? S (length rs))%nat with true.
  cbv iota. cbn [lookup list_lookup default from_option id].
  rewrite bind_run, (deref_run _ _ _ Hlb). reflexivity.
Qed.
(** ** Loading and saving *)

Lemma pass1_frame (ls : list LabelJson.t) (s : Sat) :
  foldl afterLabel s ls
  = mkSat (items s) (labels s ++ (decoded <$> ls))
      (labelIdMap (foldl afterLabel s ls)) (lastLabelId (foldl afterLabel s ls))
      (currentItem s) (events s) (startTime s) (projectName s)
      (categories s) (ipInfo s).
Proof.
  revert s. induction ls as [|j ls IH]; intros s.
  - cbn [foldl fmap list_fmap]. rewrite app_nil_r. by destruct s.
  - cbn [foldl]. rewrite IH at 1. cbn [fmap list_fmap].
    unfold afterLabel at 1 2 5 6 7 8 9. cbn.
    by rewrite <- app_assoc.
Qed.

Lemma decodeItem_exact (j : ItemJson.t) (s : Sat) :
  decodeItem j s
  = (Done tt,
     set_items (λ its, its ++ [decodedItem (labelIdMap s) (length its) j]) s).
Proof.
  unfold decodeItem, newItem. mstep. mstep. mstep.
  set (s1 := set_items _ s).
  assert (H1 : items s1 !! length (items s)
               = Some (Item.new (Z.of_nat (length (items s))) (ItemJson.url j))).
  { unfold s1. rewrite items_set_items. by rewrite lookup_app_r, Nat.sub_diag. }
  rewrite (SatItem_fromJson_run _ _ _ _ H1). f_equal.
  unfold s1. rewrite set_items_set_items. destruct s as [its ? ? ? ? ? ? ? ? ?].
  unfold set_items, decodedItem. cbn. f_equal.
  by rewrite insert_app_r_alt, Nat.sub_diag by lia.
Qed.

Lemma pass2_exact (js : list ItemJson.t) (s : Sat) :
  forM_ js decodeItem s
  = (Done tt,
     set_items (λ its,
       its ++ imap (λ q j, decodedItem (labelIdMap s) (length its + q) j) js) s).
Proof.
  revert s. induction js as [|j js IH]; intros s.
  - cbn [forM_ imap]. rewrite ret_run. f_equal. destruct s; unfold set_items.
    cbn. by rewrite app_nil_r.
  - cbn [forM_]. rewrite bind_run, decodeItem_exact. cbv beta iota.
    rewrite IH, set_items_set_items. destruct s as [its ? ? ? ? ? ? ? ? ?].
    unfold set_items. cbn. f_equal. f_equal.
    rewrite <- app_assoc. cbn [app]. rewrite Nat.add_0_r.
    apply (f_equal (app its)), (f_equal (cons _)).
    apply imap_ext. intros q x _. cbn. f_equal.
Qed.

Lemma pass3_exact (ls : list LabelJson.t) (s : Sat) :
  NoDup (LabelJson.id <$> ls) →
  labels s = decoded <$> ls →
  (∀ k e, ls !! k = Some e → labelIdMap s !! LabelJson.id e = Some k) →
  forM_ ls decodePointers s
  = (Done tt,
     set_labels (λ _, (λ e, withPointers (labelIdMap s) e (decoded e)) <$> ls) s).
Proof.
  intros Hnd Hl Hm.
  destruct (pass3_run ls 0 s) as (s' & Hrun & E & Hlen & Hk & _).
  { intros k e Hke. cbn. split; [by apply Hm|].
    by rewrite Hl, list_lookup_fmap, Hke. }
  rewrite Hrun, E.
  assert (labels s' = (λ e, withPointers (labelIdMap s) e (decoded e)) <$> ls)
    as ->; [|done].
  apply list_eq. intros k. rewrite list_lookup_fmap.
  destruct (ls !! k) as [e|] eqn:Hke; cbn.
  - exact (Hk k e Hke).
  - apply lookup_ge_None. rewrite Hlen, Hl, length_fmap.
    by apply lookup_ge_None.
Qed.

(** A fresh session that decodes a document with distinct label ids and at
    least one item returns, in the session [loadedSession]. *)
Lemma decodeBaseJson_fresh (now start : Z) (json : SatJson.t) :
  NoDup (idsOf json) → SatJson.items json ≠ [] →
  decodeBaseJson now json (Sat_new start)
  = (Done tt, loadedSession now start json).
Proof.
  unfold idsOf, loadedSession. intros Hnd Hjs.
  set (ls := default [] (SatJson.labels json)) in *.
  set (s1 := foldl afterLabel (Sat_new start) ls).
  pose proof (pass1_frame ls (Sat_new start)) as HF. fold s1 in HF.
  assert (Hm : ∀ k e, ls !! k = Some e → labelIdMap s1 !! LabelJson.id e = Some k).
  { intros k e Hke. unfold s1. by rewrite (pass1_map ls _ k e Hnd Hke). }
  unfold decodeBaseJson. fold ls.
  mstep with (pass1_run ls (Sat_new start)). fold s1.
  mstep with (pass2_exact (SatJson.items json) s1).
  set (m1 := labelIdMap s1) in *. set (ll := lastLabelId s1) in *.
  clearbody m1 ll. cbn in HF. clearbody s1. subst s1.
  destruct (SatJson.items json) as [|j0 js] eqn:Ejs; [done|].
  mstep. mstep. mstep.
  cbn [set_items set_currentItem items currentItem app imap length].
  repeat match goal with
  | |- context [itemAt ?l 0] => change (itemAt l 0) with (Some 0%nat)
  end.
  cbn [defined]. mstep.
  erewrite bind_run, setActive_run by reflexivity. cbv beta iota.
  mstep.
  rewrite bind_run, pass3_exact; [|done|reflexivity|exact Hm]. cbv beta iota.
  mstep. cbn [defined set_items set_currentItem set_categories set_labels items currentItem]. mstep.
  erewrite bind_run, getItem_run by reflexivity. cbv beta iota.
  unfold addEvent. rewrite modify_run. reflexivity.
Qed.
(** *** Saving *)

Lemma validIds_resolved (s : Sat) (m : gmap Z addr) (ids : list Z) :
  (∀ i, i ∈ ids → ∃ a l, m !! i = Some a ∧ labels s !! a = Some l
                         ∧ Label.id l = i ∧ Label.valid l = true) →
  validIds ((λ i, lookupId m (Some i)) <$> ids) s = (Done ids, s).
Proof.
  induction ids as [|i ids IH]; intros H; [reflexivity|].
  destruct (H i) as (a & l & Hm & Hl & Hid & Hv); [apply list_elem_of_here|].
  cbn [fmap list_fmap validIds]. rewrite (lookupId_Some _ _ _ Hm).
  mstep. rewrite bind_run, IH; [|intros; apply H; by apply list_elem_of_further].
  cbv beta iota. by rewrite ret_run, Hv, Hid.
Qed.

Lemma mapM_seq_run {A B : Type} (f : nat → M B) (h : A → B) (xs : list A)
    (s : Sat) :
  ∀ b, (∀ k x, xs !! k = Some x → f (b + k)%nat s = (Done (h x), s)) →
       mapM f (seq b (length xs)) s = (Done (h <$> xs), s).
Proof.
  induction xs as [|x xs IH]; intros b H; [reflexivity|].
  cbn [length seq mapM]. rewrite bind_run.
  specialize (H 0%nat x eq_refl) as H0. rewrite Nat.add_0_r in H0.
  rewrite H0. cbv beta iota. rewrite bind_run, IH.
  - reflexivity.
  - intros k y Hk. replace (S b + k)%nat with (b + S k)%nat by lia. by apply H.
Qed.

(** The label loop of [encodeBaseJson] writes the valid labels, in the
    order of the array. *)
Lemma encodeValid_run (s : Sat) (enc : addr → option LabelJson.t)
    (l : list addr) :
  (∀ a, a ∈ l → ∃ lab, labels s !! a = Some lab
     ∧ if Label.valid lab
       then ∃ j, enc a = Some j ∧ SatLabel_toJson a s = (Done j, s)
       else enc a = None) →
  encodeValid l s = (Done (omap enc l), s).
Proof.
  induction l as [|a l IH]; intros H; [reflexivity|].
  destruct (H a) as (lab & Hlab & Hv); [apply list_elem_of_here|].
  assert (IH' := IH (λ b Hb, H b (list_elem_of_further _ _ _ Hb))).
  cbn [encodeValid omap list_omap]. mstep. destruct (Label.valid lab).
  - destruct Hv as (j & -> & Hj). rewrite bind_run, Hj. cbv beta iota.
    by rewrite bind_run, IH'.
  - by rewrite Hv, IH'.
Qed.

Lemma omap_seq_lookup_from {A B : Type} (h : A → B) (xs : list A) :
  ∀ pre, omap (λ k, h <$> (pre ++ xs) !! k) (seq (length pre) (length xs))
         = h <$> xs.
Proof.
  induction xs as [|x xs IH]; intros pre; [reflexivity|].
  cbn [length seq omap list_omap fmap list_fmap].
  rewrite lookup_app_r, Nat.sub_diag by lia. cbn.
  specialize (IH (pre ++ [x])). rewrite <- app_assoc, length_app in IH.
  cbn in IH. rewrite Nat.add_1_r in IH. by rewrite IH.
Qed.

Lemma omap_seq_lookup {A B : Type} (h : A → B) (xs : list A) :
  omap (λ k, h <$> xs !! k) (seq 0 (length xs)) = h <$> xs.
Proof. exact (omap_seq_lookup_from h xs []). Qed.

(** *** The loaded session *)

Lemma loaded_map_Some (now start : Z) (json : SatJson.t) (k : nat)
    (e : LabelJson.t) :
  NoDup (idsOf json) → default [] (SatJson.labels json) !! k = Some e →
  labelIdMap (loadedSession now start json) !! LabelJson.id e = Some k.
Proof.
  intros Hnd Hke. cbn [loadedSession labelIdMap].
  by rewrite (pass1_map _ _ k e Hnd Hke).
Qed.

Lemma loaded_map_None (now start : Z) (json : SatJson.t) (i : Z) :
  i ∉ idsOf json → labelIdMap (loadedSession now start json) !! i = None.
Proof.
  intros Hi. cbn [loadedSession labelIdMap].
  by rewrite pass1_map_other.
Qed.

Lemma loaded_label (now start : Z) (json : SatJson.t) (k : nat)
    (e : LabelJson.t) :
  default [] (SatJson.labels json) !! k = Some e →
  labels (loadedSession now start json) !! k
  = Some (withPointers (labelIdMap (loadedSession now start json)) e (decoded e)).
Proof.
  intros Hke. cbn [loadedSession labels labelIdMap].
  by rewrite list_lookup_fmap, Hke.
Qed.

Lemma loaded_item (now start : Z) (json : SatJson.t) (q : nat)
    (j : ItemJson.t) :
  SatJson.items json !! q = Some j →
  ∃ it, items (loadedSession now start json) !! q = Some it
    ∧ Item.url it = ItemJson.url j ∧ Item.index it = ItemJson.index j
    ∧ Item.labels it
      = (λ i, lookupId (labelIdMap (loadedSession now start json)) (Some i))
        <$> default [] (ItemJson.labelIds j).
Proof.
  intros Hq. cbn [loadedSession items labelIdMap].
  set (m := labelIdMap _).
  assert (H : imap (decodedItem m) (SatJson.items json) !! q
              = Some (decodedItem m q j)).
  { by rewrite list_lookup_imap, Hq. }
  destruct (decide (q = 0%nat)) as [->|Hne].
  - rewrite list_lookup_alter_eq, H. eexists. split; [reflexivity|]. done.
  - rewrite list_lookup_alter_ne, H by done. eexists. split; [reflexivity|].
    done.
Qed.

Lemma loaded_resolves (now start : Z) (json : SatJson.t) (i : Z) :
  NoDup (idsOf json) → i ∈ idsOf json →
  ∃ a l, labelIdMap (loadedSession now start json) !! i = Some a
    ∧ labels (loadedSession now start json) !! a = Some l
    ∧ Label.id l = i ∧ Label.valid l = true.
Proof.
  intros Hnd Hi. unfold idsOf in Hi.
  apply list_elem_of_fmap in Hi as (e & -> & He).
  apply list_elem_of_lookup in He as [k Hk].
  exists k. eexists. split; [by apply loaded_map_Some|].
  split; [by apply loaded_label|].
  destruct (withPointers_fields (labelIdMap (loadedSession now start json)) e)
    as (Hid & Hv & _). done.
Qed.

Lemma SatItem_toJson_loaded (now start : Z) (json : SatJson.t) (q : nat)
    (j : ItemJson.t) :
  NoDup (idsOf json) → SatJson.items json !! q = Some j →
  (∀ i, i ∈ default [] (ItemJson.labelIds j) → i ∈ idsOf json) →
  SatItem_toJson q (loadedSession now start json)
  = (Done (savedItem j), loadedSession now start json).
Proof.
  intros Hnd Hq Hres.
  destruct (loaded_item now start json q j Hq) as (it & Hit & Hu & Hi & Hl).
  unfold SatItem_toJson. mstep. rewrite Hl.
  rewrite bind_run, validIds_resolved.
  - cbv beta iota. by rewrite ret_run, Hu, Hi.
  - intros i Hin. apply loaded_resolves; auto.
Qed.

Lemma idOrMinus1_decoded (v : Z) :
  idOrMinus1 (if -1 <? v then Some v else None) = savedLink v.
Proof.
  unfold idOrMinus1, savedLink.
  destruct (Z.ltb_spec (-1) v), (Z.ltb_spec 0 v); try lia;
    try destruct (Z.eqb_spec v 0); lia.
Qed.

Lemma SatLabel_toJson_loaded (now start : Z) (json : SatJson.t) (k : nat)
    (e : LabelJson.t) :
  NoDup (idsOf json) → default [] (SatJson.labels json) !! k = Some e →
  (∀ i, i ∈ default [] (LabelJson.children e) → i ∈ idsOf json) →
  SatLabel_toJson k (loadedSession now start json)
  = (Done (savedLabel (idsOf json) e), loadedSession now start json).
Proof.
  intros Hnd Hke Hres.
  set (s := loadedSession now start json).
  pose proof (loaded_label now start json k e Hke) as Hl. fold s in Hl.
  destruct (withPointers_fields (labelIdMap s) e)
    as (Hid & Hv & Hprev & Hnext & Hpar & Hch & Hnc).
  destruct (withPointers_scalars (labelIdMap s) e) as (Hcat & Hkey).
  unfold SatLabel_toJson, SatLabel_encodeBaseJson. mstep.
  rewrite Hid, Hprev, Hnext, Hpar, Hch, Hcat, Hkey, !idOrMinus1_decoded.
  set (pv := if (-1 <? LabelJson.parent e)
                && bool_decide (LabelJson.parent e ∈ idsOf json)
             then LabelJson.parent e else -1).
  set (r := if -1 <? LabelJson.parent e then _ else RNull).
  assert (Hp : (if truthy r then pl ← deref r; mret (Label.id pl)
                else mret (-1)) s = (Done pv, s)).
  { unfold r, pv. destruct (-1 <? LabelJson.parent e); [|reflexivity].
    cbn [andb]. destruct (decide (LabelJson.parent e ∈ idsOf json)) as [Hin|Hni].
    - rewrite (bool_decide_eq_true_2 _ Hin).
      destruct (loaded_resolves now start json _ Hnd Hin)
        as (a & l & Hm & Hla & Hida & _). fold s in Hm, Hla.
      rewrite (lookupId_Some _ _ _ Hm). cbn [truthy]. mstep.
      by rewrite ret_run, Hida.
    - rewrite (bool_decide_eq_false_2 _ Hni).
      pose proof (loaded_map_None now start json _ Hni) as Hn. fold s in Hn.
      by rewrite (lookupId_None _ _ Hn). }
  mstep with Hp. clear Hp.
  set (cv := match LabelJson.children e with
             | Some (c :: cs) => Some (c :: cs)
             | _ => None
             end).
  set (cr := (λ c, lookupId (labelIdMap s) (Some c)) <$> _).
  assert (Hc : (if (0 <? length cr)%nat
                then ids ← validIds cr; mret (Some ids)
                else mret None) s = (Done cv, s)).
  { unfold cr, cv. destruct (LabelJson.children e) as [[|c cs]|];
      try reflexivity.
    change (default [] (Some (c :: cs))) with (c :: cs) in *.
    rewrite length_fmap. change (0 <? length (c :: cs))%nat with true.
    cbv iota. rewrite bind_run, validIds_resolved; [reflexivity|].
    intros i Hi. apply loaded_resolves; auto. }
  mstep with Hc. reflexivity.
Qed.

Lemma items_resolve_spec (json : SatJson.t) (j : ItemJson.t) (i : Z) :
  items_resolve json = true → j ∈ SatJson.items json →
  i ∈ default [] (ItemJson.labelIds j) → i ∈ idsOf json.
Proof.
  unfold items_resolve. intros H Hj Hi.
  rewrite forallb_forall in H. apply list_elem_of_In, H in Hj.
  rewrite forallb_forall in Hj. apply list_elem_of_In, Hj in Hi.
  by apply bool_decide_eq_true in Hi.
Qed.

Lemma children_resolve_spec (json : SatJson.t) (e : LabelJson.t) (i : Z) :
  children_resolve json = true → e ∈ default [] (SatJson.labels json) →
  i ∈ default [] (LabelJson.children e) → i ∈ idsOf json.
Proof.
  unfold children_resolve. intros H He Hi.
  rewrite forallb_forall in H. apply list_elem_of_In, H in He.
  rewrite forallb_forall in He. apply list_elem_of_In, He in Hi.
  by apply bool_decide_eq_true in Hi.
Qed.

(** What [toJson] returns on the session loaded from [json]. *)
Lemma toJson_loaded (now start : Z) (userAgent : string) (json : SatJson.t) :
  NoDup (idsOf json) →
  items_resolve json = true → children_resolve json = true →
  toJson userAgent (loadedSession now start json)
  = (Done (SatJson.mk None start (savedItem <$> SatJson.items json)
             (Some (savedLabel (idsOf json)
                      <$> default [] (SatJson.labels json)))
             (SatJson.categories json)
             [mkEvent now "start labeling"
                (default 0 (ItemJson.index <$> head (SatJson.items json)))
                (-1) None]
             userAgent None),
     loadedSession now start json).
Proof.
  intros Hnd Hir Hcr. set (s := loadedSession now start json).
  unfold toJson, encodeBaseJson. mstep.
  replace (length (items s)) with (length (SatJson.items json))
    by (unfold s; cbn; by rewrite length_alter, length_imap).
  rewrite bind_run, (mapM_seq_run SatItem_toJson savedItem _ s 0).
  2:{ intros q j Hq. apply SatItem_toJson_loaded; auto.
      intros i Hi. eapply items_resolve_spec; eauto.
      by eapply list_elem_of_lookup_2. }
  cbv beta iota. mstep.
  replace (length (labels s))
    with (length (default [] (SatJson.labels json)))
    by (unfold s; cbn; by rewrite length_fmap).
  rewrite bind_run,
    (encodeValid_run s
       (λ k, savedLabel (idsOf json) <$> default [] (SatJson.labels json) !! k)).
  2:{ intros a Ha. apply elem_of_seq in Ha as [_ Ha]. cbn in Ha.
      destruct (lookup_lt_is_Some_2 _ _ Ha) as [e He].
      pose proof (loaded_label now start json a e He) as Hl.
      destruct (withPointers_fields
                  (labelIdMap (loadedSession now start json)) e)
        as (_ & Hv & _).
      eexists. split; [exact Hl|]. rewrite Hv.
      eexists. rewrite He. split; [reflexivity|].
      apply SatLabel_toJson_loaded; auto.
      intros i Hi. eapply children_resolve_spec; eauto.
      by eapply list_elem_of_lookup_2. }
  cbv beta iota. rewrite omap_seq_lookup. mstep. reflexivity.
Qed.

Lemma savedItem_canonical (j : ItemJson.t) :
  is_Some (ItemJson.labelIds j) → savedItem j = j.
Proof. destruct j as [u i [ids|]]; intros [x Hx]; by simplify_eq/=. Qed.

Lemma savedLabel_canonical (ids : list Z) (e : LabelJson.t) :
  canonicalLabel ids e = true → savedLabel ids e = e.
Proof.
  unfold canonicalLabel, savedLabel, savedLink.
  rewrite !andb_true_iff, !orb_true_iff, negb_true_iff, andb_true_iff.
  rewrite bool_decide_eq_false, bool_decide_eq_true.
  rewrite !Z.eqb_eq, !Z.ltb_lt.
  destruct e as [i c p ch pv nx kf]. cbn. intros (((Hp & Hch) & Hpv) & Hnx).
  f_equal.
  - destruct Hp as [->|[Hp Hin]]; [reflexivity|].
    destruct (Z.ltb_spec (-1) p); [|lia]. by rewrite bool_decide_eq_true_2.
  - by destruct ch as [[|]|].
  - destruct Hpv as [->|Hpv]; [reflexivity|]. destruct (Z.ltb_spec 0 pv); lia.
  - destruct Hnx as [->|Hnx]; [reflexivity|]. destruct (Z.ltb_spec 0 nx); lia.
Qed.

Lemma fmap_fixed {A : Type} (f : A → A) (l : list A) :
  (∀ x, x ∈ l → f x = x) → f <$> l = l.
Proof.
  induction l as [|x l IH]; intros H; [reflexivity|]. cbn.
  rewrite (H x) by apply list_elem_of_here.
  f_equal. apply IH. intros y Hy. apply H. by apply list_elem_of_further.
Qed.

(** X1: a session that has loaded a document writes it again, up to the
    normal form of [savedItem] and [savedLabel].  For every document with
    distinct label ids and at least one item, whose items and labels name
    only labels of the document, a fresh session decodes it and [toJson]
    then returns: the items with their [url], [index] and label ids (an
    absent [labelIds] comes back as the empty list); the labels in their
    order with [id], [categoryPath] and [keyframe]; a [parent] only if it
    is not negative and names a label; the [children] only if there are
    any; a chain link only if it is positive (a link to label 0 comes back
    as [-1]); the categories; and the one event logged on loading. *)
Theorem load_then_save_normal_form (now start : Z) (userAgent : string)
    (json : SatJson.t) :
  NoDup (idsOf json) → SatJson.items json ≠ [] →
  items_resolve json = true → children_resolve json = true →
  ∃ s', decodeBaseJson now json (Sat_new start) = (Done tt, s')
    ∧ toJson userAgent s'
      = (Done (SatJson.mk None start (savedItem <$> SatJson.items json)
                 (Some (savedLabel (idsOf json)
                          <$> default [] (SatJson.labels json)))
                 (SatJson.categories json)
                 [mkEvent now "start labeling"
                    (default 0 (ItemJson.index <$> head (SatJson.items json)))
                    (-1) None]
                 userAgent None), s').
Proof.
  intros Hnd Hjs Hir Hcr. exists (loadedSession now start json). split.
  - by apply decodeBaseJson_fresh.
  - by apply toJson_loaded.
Qed.

Lemma load_then_save_normal_form_witness :
  ∃ s', decodeBaseJson 0
          (SatJson.mk None 0 [ItemJson.mk "img" 0 None]
             (Some [LabelJson.mk 0 None (-1) (Some []) (-1) (-1) None;
                    LabelJson.mk 1 None (-7) None 0 9 None])
             None [] "agent" None) (Sat_new 0) = (Done tt, s')
    ∧ ∃ ev, toJson "agent" s'
      = (Done (SatJson.mk None 0 [ItemJson.mk "img" 0 (Some [])]
                 (Some [LabelJson.mk 0 None (-1) None (-1) (-1) None;
                        LabelJson.mk 1 None (-1) None (-1) 9 None])
                 None ev "agent" None), s').
Proof.
  destruct (load_then_save_normal_form 0 0 "agent"
    (SatJson.mk None 0 [ItemJson.mk "img" 0 None]
       (Some [LabelJson.mk 0 None (-1) (Some []) (-1) (-1) None;
              LabelJson.mk 1 None (-7) None 0 9 None])
       None [] "agent" None)) as (s' & Hd & Ht).
  - apply (bool_decide_unpack _). vm_compute. exact I.
  - discriminate.
  - reflexivity.
  - reflexivity.
  - exists s'. split; [exact Hd|]. eexists. exact Ht.
Defined.

(** X2: loading and saving is the identity on the documents [encodeBaseJson]
    writes.  If moreover the document is canonical (label ids listed for
    every item, parents [-1] or the id of a label, children absent or not
    empty, chain links [-1] or positive), [toJson] returns the items, the
    labels and the categories of the document unchanged. *)
Theorem load_then_save_round_trip (now start : Z) (userAgent : string)
    (json : SatJson.t) :
  NoDup (idsOf json) → SatJson.items json ≠ [] →
  items_resolve json = true → children_resolve json = true →
  canonical json = true →
  ∃ s' out, decodeBaseJson now json (Sat_new start) = (Done tt, s')
    ∧ toJson userAgent s' = (Done out, s')
    ∧ SatJson.items out = SatJson.items json
    ∧ SatJson.labels out = SatJson.labels json
    ∧ SatJson.categories out = SatJson.categories json.
Proof.
  intros Hnd Hjs Hir Hcr Hcan. unfold canonical in Hcan.
  rewrite !andb_true_iff, !forallb_forall, bool_decide_eq_true in Hcan.
  destruct Hcan as ((Hls & Hitems) & Hlabels).
  exists (loadedSession now start json). eexists.
  split; [by apply decodeBaseJson_fresh|].
  split; [by apply toJson_loaded|]. cbn. split; [|split; [|reflexivity]].
  - apply fmap_fixed. intros j Hj. apply savedItem_canonical.
    apply list_elem_of_In, Hitems in Hj. by apply bool_decide_eq_true in Hj.
  - destruct Hls as [ls Hls]. rewrite Hls in *. cbn. f_equal.
    apply fmap_fixed. intros e He. apply savedLabel_canonical.
    by apply list_elem_of_In, Hlabels in He.
Qed.

Lemma load_then_save_round_trip_witness :
  ∃ s' out, decodeBaseJson 0 doc_track (Sat_new 0) = (Done tt, s')
    ∧ toJson "agent" s' = (Done out, s')
    ∧ SatJson.items out = SatJson.items doc_track
    ∧ SatJson.labels out = SatJson.labels doc_track
    ∧ SatJson.categories out = SatJson.categories doc_track.
Proof.
  apply (load_then_save_round_trip 0 0 "agent" doc_track).
  - apply (bool_decide_unpack _). vm_compute. exact I.
  - discriminate.
  - reflexivity.
  - reflexivity.
  - reflexivity.
Defined.

(** *** Entries that are no label *)

Lemma objects_None (s : Sat) (rs : list ref) (r : ref) :
  r ∈ rs → (∀ a, r = RObj a → labels s !! a = None) → objects s rs = None.
Proof.
  intros Hr Hbad. destruct (objects s rs) as [ls|] eqn:E; [|done].
  destruct (objects_elem _ _ _ _ E Hr) as (a & l & -> & Hl).
  by rewrite (Hbad a eq_refl) in Hl.
Qed.

Lemma SatItem_toJson_outcome (q : nat) (s : Sat) :
  (∃ j, SatItem_toJson q s = (Done j, s)) ∨ SatItem_toJson q s = (Throw, s).
Proof.
  unfold SatItem_toJson, getItem. rewrite bind_assoc_run. mstep.
  destruct (items s !! q) as [it|]; cbn [defined]; [|by right].
  mstep. destruct (objects s (Item.labels it)) as [ls|] eqn:E.
  - left. rewrite bind_run, (validIds_objects _ _ _ E). cbv beta iota.
    rewrite ret_run. eauto.
  - right. by rewrite bind_run, (validIds_throws _ _ E).
Qed.

Lemma mapM_throws {A B : Type} (f : A → M B) (l : list A) (s : Sat) (x : A) :
  x ∈ l → f x s = (Throw, s) →
  (∀ y, y ∈ l → (∃ b, f y s = (Done b, s)) ∨ f y s = (Throw, s)) →
  mapM f l s = (Throw, s).
Proof.
  induction l as [|y l IH]; intros Hx Hfx Hall; [by apply elem_of_nil in Hx|].
  cbn [mapM]. rewrite bind_run.
  destruct (Hall y (list_elem_of_here _ _)) as [[b Hb]|Ht].
  - rewrite Hb. cbv beta iota. rewrite bind_run, IH; [done| |done|].
    + apply elem_of_cons in Hx as [->|Hx]; [congruence | done].
    + intros z Hz. apply Hall. by apply list_elem_of_further.
  - by rewrite Ht.
Qed.

(** [toJson] throws, and writes nothing, as soon as the label list of some
    item holds an entry that is no label object. *)
Lemma toJson_dangling_entry (userAgent : string) (s : Sat) (q : nat)
    (it : Item.t) :
  items s !! q = Some it → objects s (Item.labels it) = None →
  toJson userAgent s = (Throw, s).
Proof.
  intros Hit Hobj. unfold toJson, encodeBaseJson. mstep.
  rewrite bind_run, (mapM_throws SatItem_toJson _ s q); [done| | |].
  - apply elem_of_seq. split; [lia|]. cbn. by eapply lookup_lt_Some.
  - unfold SatItem_toJson. mstep. by rewrite bind_run, (validIds_throws _ _ Hobj).
  - intros y _. apply SatItem_toJson_outcome.
Qed.

(** X3: a document that lists, for some item, a label id it does not define
    is loaded without an error, but the session can then not be saved:
    [fromJson] has pushed [undefined] on the item's label list, and
    [toJson] throws on it, leaving the session as it is. *)
Theorem load_unknown_id_blocks_save (now start : Z) (userAgent : string)
    (json : SatJson.t) (q : nat) (j : ItemJson.t) (i : Z) :
  NoDup (idsOf json) →
  SatJson.items json !! q = Some j →
  i ∈ default [] (ItemJson.labelIds j) → i ∉ idsOf json →
  ∃ s' it, decodeBaseJson now json (Sat_new start) = (Done tt, s')
    ∧ items s' !! q = Some it ∧ RUndef ∈ Item.labels it
    ∧ toJson userAgent s' = (Throw, s').
Proof.
  intros Hnd Hq Hi Hni.
  destruct (loaded_item now start json q j Hq) as (it & Hit & _ & _ & Hl).
  assert (Hu : RUndef ∈ Item.labels it).
  { rewrite Hl. apply list_elem_of_fmap. exists i. split; [|done].
    by rewrite (lookupId_None _ _ (loaded_map_None now start json i Hni)). }
  exists (loadedSession now start json), it.
  split; [|split; [done|split; [done|]]].
  - apply decodeBaseJson_fresh; [done|]. intros E. by rewrite E in Hq.
  - eapply toJson_dangling_entry; [exact Hit|].
    by eapply objects_None.
Qed.

Lemma load_unknown_id_blocks_save_witness :
  ∃ s' it, decodeBaseJson 0
             (SatJson.mk None 0 [ItemJson.mk "img" 0 (Some [4])] (Some [])
                None [] "agent" None) (Sat_new 0) = (Done tt, s')
    ∧ items s' !! 0%nat = Some it ∧ RUndef ∈ Item.labels it
    ∧ toJson "agent" s' = (Throw, s').
Proof.
  apply (load_unknown_id_blocks_save 0 0 "agent"
           (SatJson.mk None 0 [ItemJson.mk "img" 0 (Some [4])] (Some [])
              None [] "agent" None) 0 (ItemJson.mk "img" 0 (Some [4])) 4).
  - apply (bool_decide_unpack _). vm_compute. exact I.
  - reflexivity.
  - apply (bool_decide_unpack _). vm_compute. exact I.
  - apply (bool_decide_unpack _). vm_compute. exact I.
Defined.
(** ** What is saved *)

Lemma validIds_Done (rs : list ref) (s s' : Sat) (ids : list Z) :
  validIds rs s = (Done ids, s') →
  ∃ ls, objects s rs = Some ls ∧ ids = Label.id <$> List.filter Label.valid ls.
Proof.
  destruct (objects s rs) as [ls|] eqn:E.
  - rewrite (validIds_objects _ _ _ E). intros H. inversion H. eauto.
  - by rewrite (validIds_throws _ _ E).
Qed.

Lemma objects_all (s : Sat) (rs : list ref) :
  all_objects s rs → is_Some (objects s rs).
Proof.
  intros H. unfold objects. apply mapM_is_Some, Forall_forall.
  intros r Hr. destruct (H r Hr) as (a & -> & Ha).
  by apply lookup_lt_is_Some_2.
Qed.

Lemma omap_savedId (ls : list Label.t) :
  omap savedId ls = Label.id <$> List.filter Label.valid ls.
Proof.
  induction ls as [|l ls IH]; [reflexivity|].
  cbn [omap list_omap List.filter]. unfold savedId at 1.
  destruct (Label.valid l); cbn; by rewrite IH.
Qed.

Lemma omap_seq_bind_from {A B : Type} (g : A → option B) (xs : list A) :
  ∀ pre, omap (λ k, (pre ++ xs) !! k ≫= g) (seq (length pre) (length xs))
         = omap g xs.
Proof.
  induction xs as [|x xs IH]; intros pre; [reflexivity|].
  cbn [length seq omap list_omap].
  rewrite lookup_app_r, Nat.sub_diag by lia. cbn.
  specialize (IH (pre ++ [x])). rewrite <- app_assoc, length_app in IH.
  cbn in IH. rewrite Nat.add_1_r in IH. by rewrite IH.
Qed.

(** A saved id belongs to a valid label of the session. *)
Lemma filter_valid_id (ls : list Label.t) (i : Z) :
  i ∈ Label.id <$> List.filter Label.valid ls →
  ∃ l, l ∈ ls ∧ Label.valid l = true ∧ Label.id l = i.
Proof.
  intros H. apply list_elem_of_fmap in H as (l & -> & Hl).
  apply list_elem_of_In, filter_In in Hl as [Hl Hv].
  exists l. by rewrite list_elem_of_In.
Qed.

Lemma SatLabel_toJson_Done (a : addr) (s s' : Sat) (j : LabelJson.t) :
  SatLabel_toJson a s = (Done j, s') →
  ∃ l, labels s !! a = Some l ∧ LabelJson.id j = Label.id l
    ∧ ∀ cs, LabelJson.children j = Some cs →
        ∃ ls, objects s (Label.children l) = Some ls
          ∧ cs = Label.id <$> List.filter Label.valid ls.
Proof.
  unfold SatLabel_toJson, SatLabel_encodeBaseJson. intros H.
  apply bind_Done in H as (l & s1 & Hd & H).
  apply deref_Done in Hd as (-> & a' & [= <-] & Hl).
  apply bind_Done in H as (p & s2 & Hp & H).
  assert (s2 = s) as ->.
  { change s2 with (snd (Done p, s2)). rewrite <- Hp.
    assert (R : readonly (if truthy (Label.parent l)
                          then pl ← deref (Label.parent l); mret (Label.id pl)
                          else mret (-1))) by readonly_step.
    apply R. }
  apply bind_Done in H as (ch & s3 & Hch & H).
  rewrite ret_run in H. inversion H; subst. clear H.
  exists l. split; [done|]. split; [done|]. cbn. intros cs ->.
  destruct (0 <? length (Label.children l))%nat; [|by rewrite ret_run in Hch].
  apply bind_Done in Hch as (ids & s4 & Hv & Hr).
  rewrite ret_run in Hr. inversion Hr; subst.
  by apply validIds_Done in Hv.
Qed.

Lemma encodeValid_Done (l : list addr) (s s' : Sat) (outs : list LabelJson.t) :
  encodeValid l s = (Done outs, s') →
  LabelJson.id <$> outs = omap (λ a, labels s !! a ≫= savedId) l
  ∧ Forall (λ j, ∀ cs c, LabelJson.children j = Some cs → c ∈ cs →
               ∃ lab, lab ∈ labels s ∧ Label.valid lab = true
                      ∧ Label.id lab = c) outs.
Proof.
  revert outs. induction l as [|a l IH]; intros outs H.
  - cbn [encodeValid] in H. rewrite ret_run in H. inversion H. by split.
  - cbn [encodeValid] in H. apply bind_Done in H as (lab & s1 & Hd & H).
    apply deref_Done in Hd as (-> & a' & [= <-] & Hl).
    cbn [omap list_omap]. rewrite Hl. cbn. unfold savedId at 1.
    destruct (Label.valid lab) eqn:Hv.
    + apply bind_Done in H as (j & s2 & Hj & H).
      assert (s2 = s) as ->.
      { change s2 with (snd (Done j, s2)). rewrite <- Hj.
        apply readonly_SatLabel_toJson. }
      apply bind_Done in H as (rest & s3 & Hrest & H).
      rewrite ret_run in H. inversion H; subst. clear H.
      destruct (IH _ Hrest) as [IH1 IH2].
      destruct (SatLabel_toJson_Done _ _ _ _ Hj) as (l0 & Hl0 & Hid & Hch).
      rewrite Hl in Hl0. inversion Hl0; subst l0. clear Hl0.
      cbn. split; [by rewrite Hid, IH1|].
      constructor; [|done]. intros cs c Hcs Hc.
      destruct (Hch cs Hcs) as (ls & Hobj & ->).
      apply filter_valid_id in Hc as (lc & Hlc & Hvc & Hidc).
      exists lc. split; [|done].
      apply list_elem_of_lookup in Hlc as [k Hk].
      unfold objects in Hobj. apply mapM_Some_1 in Hobj.
      destruct (Forall2_lookup_r _ _ _ _ _ Hobj Hk) as (r & _ & Hr).
      destruct r as [| |b]; try discriminate.
      by eapply list_elem_of_lookup_2.
    + by apply IH.
Qed.

Lemma mapM_Done {A B : Type} (f : A → M B) (l : list A) (s s' : Sat)
    (ys : list B) :
  (∀ x, readonly (f x)) → mapM f l s = (Done ys, s') →
  s' = s ∧ Forall2 (λ x y, f x s = (Done y, s)) l ys.
Proof.
  intros Hro. revert ys. induction l as [|x l IH]; intros ys H.
  - cbn [mapM] in H. rewrite ret_run in H. inversion H. by split.
  - cbn [mapM] in H. apply bind_Done in H as (y & s1 & Hy & H).
    assert (s1 = s) as ->.
    { change s1 with (snd (Done y, s1)). rewrite <- Hy. apply Hro. }
    apply bind_Done in H as (rest & s2 & Hrest & H).
    rewrite ret_run in H. inversion H; subst. clear H.
    destruct (IH _ Hrest) as [-> IH']. split; [done|]. by constructor.
Qed.

Lemma mapM_total {A B : Type} (f : A → M B) (l : list A) (s : Sat) :
  (∀ x, x ∈ l → ∃ y, f x s = (Done y, s)) →
  ∃ ys, mapM f l s = (Done ys, s).
Proof.
  induction l as [|x l IH]; intros H; [by exists []|].
  destruct (H x (list_elem_of_here _ _)) as [y Hy].
  destruct IH as [ys Hys].
  { intros z Hz. apply H. by apply list_elem_of_further. }
  exists (y :: ys). cbn [mapM]. rewrite bind_run, Hy. cbv beta iota.
  by rewrite bind_run, Hys.
Qed.

Lemma SatItem_toJson_Done (q : nat) (s s' : Sat) (j : ItemJson.t) :
  SatItem_toJson q s = (Done j, s') →
  ∃ it ls, items s !! q = Some it ∧ objects s (Item.labels it) = Some ls
    ∧ j = ItemJson.mk (Item.url it) (Item.index it)
            (Some (Label.id <$> List.filter Label.valid ls)).
Proof.
  unfold SatItem_toJson. intros H.
  apply bind_Done in H as (it & s1 & Hit & H).
  apply getItem_Done in Hit as [-> Hit].
  apply bind_Done in H as (ids & s2 & Hv & H).
  apply validIds_Done in Hv as (ls & Hobj & ->).
  rewrite ret_run in H. inversion H. eauto.
Qed.

Lemma SatItem_toJson_total (q : nat) (s : Sat) (it : Item.t) :
  items s !! q = Some it → all_objects s (Item.labels it) →
  ∃ j, SatItem_toJson q s = (Done j, s).
Proof.
  intros Hit Hall. destruct (objects_all _ _ Hall) as [ls Hls].
  unfold SatItem_toJson. eexists. mstep.
  rewrite bind_run, (validIds_objects _ _ _ Hls). cbv beta iota.
  by rewrite ret_run.
Qed.

Lemma SatLabel_toJson_total (a : addr) (s : Sat) (l : Label.t) :
  labels s !! a = Some l →
  (∀ p, Label.parent l = RObj p → (p < length (labels s))%nat) →
  all_objects s (Label.children l) →
  ∃ j, SatLabel_toJson a s = (Done j, s).
Proof.
  intros Hl Hp Hch. unfold SatLabel_toJson, SatLabel_encodeBaseJson.
  assert (∃ p, (if truthy (Label.parent l)
                then pl ← deref (Label.parent l); mret (Label.id pl)
                else mret (-1)) s = (Done p, s)) as [p Hpv].
  { destruct (Label.parent l) as [| |p] eqn:E; cbn [truthy]; eauto.
    destruct (lookup_lt_is_Some_2 _ _ (Hp p eq_refl)) as [pl Hpl].
    exists (Label.id pl). mstep. by rewrite ret_run. }
  assert (∃ ch, (if (0 <? length (Label.children l))%nat
                 then ids ← validIds (Label.children l); mret (Some ids)
                 else mret None) s = (Done ch, s)) as [ch Hcv].
  { destruct (0 <? length (Label.children l))%nat; eauto.
    destruct (objects_all _ _ Hch) as [ls Hls]. eexists.
    rewrite bind_run, (validIds_objects _ _ _ Hls). cbv beta iota.
    by rewrite ret_run. }
  eexists. mstep. mstep with Hpv. mstep with Hcv. by rewrite ret_run.
Qed.

Lemma encodeValid_total (l : list addr) (s : Sat) :
  (∀ a, a ∈ l → ∃ lab, labels s !! a = Some lab
     ∧ (Label.valid lab = true → ∃ j, SatLabel_toJson a s = (Done j, s))) →
  ∃ outs, encodeValid l s = (Done outs, s).
Proof.
  induction l as [|a l IH]; intros H; [by exists []|].
  destruct (H a (list_elem_of_here _ _)) as (lab & Hlab & Hj).
  destruct IH as [outs Houts].
  { intros z Hz. apply H. by apply list_elem_of_further. }
  cbn [encodeValid]. destruct (Label.valid lab) eqn:Hv.
  - destruct (Hj eq_refl) as [j Hj']. exists (j :: outs).
    mstep. rewrite Hv. rewrite bind_run, Hj'. cbv beta iota.
    by rewrite bind_run, Houts.
  - exists outs. mstep. by rewrite Hv.
Qed.

Lemma toJson_Done (userAgent : string) (s s' : Sat) (out : SatJson.t) :
  toJson userAgent s = (Done out, s') →
  ∃ itemsJ labelsJ,
    mapM SatItem_toJson (seq 0 (length (items s))) s = (Done itemsJ, s)
    ∧ encodeValid (seq 0 (length (labels s))) s = (Done labelsJ, s)
    ∧ out = SatJson.mk (projectName s) (startTime s) itemsJ (Some labelsJ)
              (categories s) (events s) userAgent (ipInfo s).
Proof.
  unfold toJson, encodeBaseJson. intros H.
  apply bind_Done in H as (its & s1 & Hi & H). rewrite gets_run in Hi.
  inversion Hi; subst. clear Hi.
  apply bind_Done in H as (itemsJ & s2 & Hm & H).
  pose proof (mapM_Done _ _ _ _ _ readonly_SatItem_toJson Hm) as [-> _].
  apply bind_Done in H as (ls & s3 & Hl & H). rewrite gets_run in Hl.
  inversion Hl; subst. clear Hl.
  apply bind_Done in H as (labelsJ & s4 & He & H).
  assert (s4 = s3) as ->.
  { change s4 with (snd (Done labelsJ, s4)). rewrite <- He.
    apply readonly_encodeValid. }
  apply bind_Done in H as (s5 & s6 & Hg & H). rewrite gets_run in Hg.
  inversion Hg; subst. clear Hg.
  rewrite ret_run in H. inversion H; subst. eauto.
Qed.

(** What the saved document lists. *)
Lemma toJson_saved (userAgent : string) (s s' : Sat) (out : SatJson.t) :
  toJson userAgent s = (Done out, s') →
  ∃ outs, SatJson.labels out = Some outs
    ∧ LabelJson.id <$> outs = Label.id <$> List.filter Label.valid (labels s)
    ∧ (∀ j cs c, j ∈ outs → LabelJson.children j = Some cs → c ∈ cs →
         ∃ lab, lab ∈ labels s ∧ Label.valid lab = true ∧ Label.id lab = c)
    ∧ (∀ ij ids i, ij ∈ SatJson.items out → ItemJson.labelIds ij = Some ids →
         i ∈ ids →
         ∃ lab, lab ∈ labels s ∧ Label.valid lab = true ∧ Label.id lab = i).
Proof.
  intros H. apply toJson_Done in H as (itemsJ & labelsJ & Hi & Hl & ->).
  apply encodeValid_Done in Hl as [Hids Hch].
  exists labelsJ. split; [done|]. split; [|split].
  - rewrite Hids, <- omap_savedId.
    exact (omap_seq_bind_from savedId (labels s) []).
  - intros j cs c Hj Hcs Hc. rewrite Forall_forall in Hch.
    by eapply Hch.
  - cbn. intros ij ids i Hij Hids' Hin.
    apply mapM_Done in Hi as [_ Hi]; [|apply readonly_SatItem_toJson].
    apply list_elem_of_lookup in Hij as [k Hk].
    destruct (Forall2_lookup_r _ _ _ _ _ Hi Hk) as (q & _ & Hq).
    apply SatItem_toJson_Done in Hq as (it & ls & Hit & Hobj & ->).
    cbn in Hids'. inversion Hids'; subst ids.
    apply filter_valid_id in Hin as (lc & Hlc & Hvc & Hidc).
    exists lc. split; [|done].
    apply list_elem_of_lookup in Hlc as [n Hn].
    unfold objects in Hobj. apply mapM_Some_1 in Hobj.
    destruct (Forall2_lookup_r _ _ _ _ _ Hobj Hn) as (r & _ & Hr).
    destruct r as [| |b]; try discriminate.
    by eapply list_elem_of_lookup_2.
Qed.

Lemma toJson_total (userAgent : string) (s : Sat) :
  encodable s → ∃ out, toJson userAgent s = (Done out, s).
Proof.
  intros [Hitems Hlabels]. unfold toJson, encodeBaseJson.
  destruct (mapM_total SatItem_toJson (seq 0 (length (items s))) s)
    as [itemsJ Hi].
  { intros q Hq. apply elem_of_seq in Hq as [_ Hq]. cbn in Hq.
    destruct (lookup_lt_is_Some_2 _ _ Hq) as [it Hit].
    eapply SatItem_toJson_total; [exact Hit|].
    apply Hitems. by eapply list_elem_of_lookup_2. }
  destruct (encodeValid_total (seq 0 (length (labels s))) s) as [labelsJ Hl].
  { intros a Ha. apply elem_of_seq in Ha as [_ Ha]. cbn in Ha.
    destruct (lookup_lt_is_Some_2 _ _ Ha) as [lab Hlab].
    exists lab. split; [done|]. intros Hv.
    destruct (Hlabels lab (list_elem_of_lookup_2 _ _ _ Hlab) Hv) as [Hp Hc].
    by eapply SatLabel_toJson_total. }
  eexists. mstep. mstep with Hi. mstep. mstep with Hl. mstep.
  by rewrite ret_run.
Qed.

(** X4: saving writes the valid labels and nothing else.  On a session
    whose lists hold label objects, [toJson] returns; and whenever it
    returns, the labels of the document are the valid labels of the session
    in the order of [Sat.labels], every id in a [children] list of the
    document is the id of a valid label, and so is every id in the
    [labelIds] of an item. *)
Theorem toJson_saves_valid_labels (userAgent : string) (s : Sat) :
  (encodable s → ∃ out, toJson userAgent s = (Done out, s))
  ∧ (∀ out s', toJson userAgent s = (Done out, s') →
       ∃ outs, SatJson.labels out = Some outs
         ∧ LabelJson.id <$> outs
           = Label.id <$> List.filter Label.valid (labels s)
         ∧ (∀ j cs c, j ∈ outs → LabelJson.children j = Some cs → c ∈ cs →
              ∃ lab, lab ∈ labels s ∧ Label.valid lab = true
                     ∧ Label.id lab = c)
         ∧ (∀ ij ids i, ij ∈ SatJson.items out →
              ItemJson.labelIds ij = Some ids → i ∈ ids →
              ∃ lab, lab ∈ labels s ∧ Label.valid lab = true
                     ∧ Label.id lab = i)).
Proof.
  split; [apply toJson_total|]. intros out s'. apply toJson_saved.
Qed.

Lemma toJson_saves_valid_labels_witness :
  ∃ out outs, toJson "agent" session_with_invalid
              = (Done out, session_with_invalid)
    ∧ SatJson.labels out = Some outs ∧ LabelJson.id <$> outs = [11].
Proof.
  eassert (E : toJson "agent" session_with_invalid = (Done _, _))
    by (vm_compute; reflexivity).
  destruct (proj2 (toJson_saves_valid_labels "agent" session_with_invalid)
              _ _ E) as (outs & H1 & H2 & _).
  eexists. exists outs. split; [exact E|]. split; [exact H1|exact H2].
Defined.

Lemma deleted_from_id (l l' : Label.t) :
  deleted_from l l' → Label.id l' = Label.id l.
Proof. intros (-> & _). reflexivity. Qed.

(** After [delete] no valid label carries the id of a label of the deleted
    subtree, when the ids of the session are distinct. *)
Lemma delete_no_valid_id (fuel : nat) (a d : addr) (s s1 : Sat)
    (l lab : Label.t) :
  NoDup (Label.id <$> labels s) →
  delete fuel a s = (Done tt, s1) →
  reach (labels s) a d → labels s !! d = Some l →
  lab ∈ labels s1 → Label.valid lab = true → Label.id lab ≠ Label.id l.
Proof.
  intros Hnd Hdel Hreach Hl Hlab Hv Hid.
  pose proof (delete_only_deletes fuel a s) as Hod. rewrite Hdel in Hod.
  cbn [snd] in Hod.
  apply list_elem_of_lookup in Hlab as [k Hk].
  destruct (only_deletes_lookup_r _ _ _ _ Hod Hk) as (l0 & Hl0 & Hdf).
  apply deleted_from_id in Hdf. rewrite Hid in Hdf.
  assert (k = d) as ->.
  { eapply (NoDup_lookup _ _ _ _ Hnd); rewrite list_lookup_fmap.
    - rewrite Hl0. cbn. by rewrite <- Hdf.
    - by rewrite Hl. }
  destruct (delete_subtree fuel a s s1 Hdel) as [Hinv _].
  specialize (Hinv d Hreach). unfold valid_at in Hinv. rewrite Hk in Hinv.
  cbn in Hinv. congruence.
Qed.

Lemma encodable_only_deletes (s s' : Sat) :
  only_deletes s s' → encodable s → encodable s'.
Proof.
  intros Hod [Hitems Hlabels].
  destruct (only_deletes_frame _ _ Hod) as (Hi & _ & _ & _ & _ & Hlen).
  split.
  - rewrite Hi. intros it Hit r Hr.
    destruct (Hitems it Hit r Hr) as (b & -> & Hb). exists b.
    split; [done|]. by rewrite Hlen.
  - intros l' Hl' Hv. apply list_elem_of_lookup in Hl' as [k Hk].
    destruct (only_deletes_lookup_r _ _ _ _ Hod Hk) as (l & Hl & Hdf).
    pose proof (deleted_from_children _ _ Hdf) as Hch.
    destruct Hdf as (_ & Hvalid & Hpar).
    destruct (Hlabels l (list_elem_of_lookup_2 _ _ _ Hl) (Hvalid Hv))
      as [Hp Hc].
    rewrite Hlen, Hch. split.
    + intros p Hp'. destruct Hpar as [E|E]; rewrite E in Hp'; [|done].
      by apply Hp.
    + intros r Hr. destruct (Hc r Hr) as (b & -> & Hb). exists b.
      split; [done|]. by rewrite Hlen.
Qed.

(** X5: a deleted label is not saved.  When the label ids of the session
    are distinct and [delete] has returned, [toJson] returns if it did
    before, and the document it then writes names no label of the deleted
    subtree: not among its labels, not in a [children] list, and not in
    the [labelIds] of an item. *)
Theorem deleted_subtree_is_not_saved (fuel : nat) (userAgent : string)
    (a d : addr) (s s1 : Sat) (l : Label.t) :
  NoDup (Label.id <$> labels s) →
  delete fuel a s = (Done tt, s1) →
  reach (labels s) a d → labels s !! d = Some l →
  (encodable s → ∃ out, toJson userAgent s1 = (Done out, s1))
  ∧ ∀ out s2, toJson userAgent s1 = (Done out, s2) →
      (Label.id l ∉ LabelJson.id <$> default [] (SatJson.labels out))
      ∧ (∀ j cs, j ∈ default [] (SatJson.labels out) →
           LabelJson.children j = Some cs → Label.id l ∉ cs)
      ∧ (∀ ij ids, ij ∈ SatJson.items out →
           ItemJson.labelIds ij = Some ids → Label.id l ∉ ids).
Proof.
  intros Hnd Hdel Hreach Hl. split.
  { intros Henc. apply toJson_total.
    apply (encodable_only_deletes s); [|done].
    pose proof (delete_only_deletes fuel a s) as Hod.
    by rewrite Hdel in Hod. }
  intros out s2 Hsave.
  destruct (toJson_saved _ _ _ _ Hsave) as (outs & Hout & Hids & Hch & Hit).
  rewrite Hout. change (default [] (Some outs)) with outs.
  pose proof (delete_no_valid_id fuel a d s s1 l) as Hno.
  split; [|split].
  - rewrite Hids. intros Hin.
    apply filter_valid_id in Hin as (lab & Hlab & Hv & Hid).
    by eapply Hno.
  - intros j cs Hj Hcs Hin.
    destruct (Hch j cs _ Hj Hcs Hin) as (lab & Hlab & Hv & Hid).
    by eapply Hno.
  - intros ij ids Hij Hidsj Hin.
    destruct (Hit ij ids _ Hij Hidsj Hin) as (lab & Hlab & Hv & Hid).
    by eapply Hno.
Qed.

Lemma deleted_subtree_is_not_saved_witness :
  ∃ out, toJson "agent" (snd (delete 3 1 session_tree))
         = (Done out, snd (delete 3 1 session_tree))
    ∧ 3 ∉ (LabelJson.id <$> default [] (SatJson.labels out)).
Proof.
  eassert (E : toJson "agent" (snd (delete 3 1 session_tree)) = (Done _, _))
    by (vm_compute; reflexivity).
  eexists. split; [exact E|].
  refine (proj1 (proj2 (deleted_subtree_is_not_saved 3 "agent" 1 3 session_tree
                          _ (treeLabel 3 (RObj 1%nat) []) _ _ _ _) _ _ E)).
  - apply (bool_decide_unpack _). vm_compute. exact I.
  - vm_compute. reflexivity.
  - eapply rtc_l; [|apply rtc_refl]. eexists. split; [reflexivity|].
    apply list_elem_of_here.
  - reflexivity.
Defined.
(** ** The registry of label ids *)

#[global] Instance same_ids_preorder : PreOrder same_ids.
Proof.
  split.
  - intros s. by repeat split.
  - intros s1 s2 s3 (M1 & L1 & I1) (M2 & L2 & I2). repeat split; congruence.
Qed.

#[global] Instance keeps_registry_preorder : PreOrder keeps_registry.
Proof.
  split; [intros s H; exact H | intros s1 s2 s3 H1 H2 H; apply H2, H1, H].
Qed.

Lemma same_ids_keeps_registry (s s' : Sat) :
  same_ids s s' → keeps_registry s s'.
Proof.
  intros (Hm & Hl & Hi) Hok k a Hk. rewrite Hm in Hk.
  destruct (Hok k a Hk) as [(l & Hla & Hid) Hle]. split; [|by rewrite Hl].
  assert (H : (Label.id <$> labels s') !! a = Some k).
  { by rewrite Hi, list_lookup_fmap, Hla, <- Hid. }
  rewrite list_lookup_fmap in H.
  destruct (labels s' !! a) as [l'|]; simplify_eq/=. eauto.
Qed.

Lemma preserves_mono (R R' : relation Sat) {A : Type} (m : M A) :
  (∀ s s', R s s' → R' s s') → preserves R m → preserves R' m.
Proof. intros H Hm s. apply H, Hm. Qed.

Lemma same_ids_setItem (i : nat) (f : Item.t → Item.t) :
  preserves same_ids (setItem i f).
Proof. by intros s. Qed.

Lemma same_ids_setLabel (a : addr) (f : Label.t → Label.t) :
  (∀ l, Label.id (f l) = Label.id l) → preserves same_ids (setLabel a f).
Proof.
  intros Hf s. split; [done|]. split; [done|]. cbn.
  apply list_eq. intros k. rewrite !list_lookup_fmap.
  destruct (decide (k = a)) as [->|Hne].
  - rewrite list_lookup_alter_eq. destruct (labels s !! a); cbn; [|done].
    by rewrite Hf.
  - by rewrite list_lookup_alter_ne.
Qed.

Lemma same_ids_modify (f : Sat → Sat) :
  (∀ s, same_ids s (f s)) → preserves same_ids (modify f).
Proof. intros H s. apply H. Qed.

Lemma only_deletes_same_ids (s s' : Sat) : only_deletes s s' → same_ids s s'.
Proof.
  intros Hod. destruct (only_deletes_frame _ _ Hod) as (_ & Hm & Hl & _).
  split; [done|]. split; [done|]. destruct Hod as [_ HF].
  induction HF as [|l l' ls ls' Hd _ IH]; [done|]. cbn.
  by rewrite IH, (deleted_from_id _ _ Hd).
Qed.

(** The steps of a computation, taken apart for [same_ids]. *)
Ltac ids_step :=
  repeat first
    [ pbind; [| intros ?]
    | apply same_ids_setItem
    | apply same_ids_setLabel; intros ?; reflexivity
    | apply same_ids_modify; intros ?; by repeat split
    | solve [pread]
    | apply preserves_forM_; [apply _ | intros ? _]
    | match goal with
      | |- preserves _ (if ?b then _ else _) => destruct b
      | |- preserves _ (match ?o with _ => _ end) => destruct o
      end ].

Lemma same_ids_delete (fuel : nat) (a : addr) :
  preserves same_ids (delete fuel a).
Proof.
  eapply preserves_mono; [apply only_deletes_same_ids|].
  apply delete_only_deletes.
Qed.

Lemma same_ids_unselect (cur : nat) (k : M Z) :
  readonly k → preserves same_ids (unselect cur k).
Proof. intros Hk. unfold unselect. ids_step. Qed.

Lemma readonly_previousItem (q : nat) : readonly (previousItem q).
Proof. unfold previousItem. readonly_step. Qed.

Lemma readonly_nextItem (q : nat) : readonly (nextItem q).
Proof. unfold nextItem. readonly_step. Qed.

Lemma readonly_findLabel (labelId : Z) (rs : list ref) :
  ∀ i, readonly (findLabel labelId rs i).
Proof. induction rs as [|r rs IH]; intros i; cbn [findLabel]; readonly_step. Qed.

Lemma readonly_forM_ {A : Type} (l : list A) (f : A → M unit) :
  (∀ a, readonly (f a)) → readonly (forM_ l f).
Proof. intros Hf. induction l as [|a l IH]; cbn [forM_]; readonly_step. Qed.

Lemma readonly_redraw (self : nat) : readonly (redraw self).
Proof.
  unfold redraw. readonly_step. apply readonly_forM_. intros r. readonly_step.
Qed.

#[export] Hint Resolve readonly_previousItem readonly_nextItem
  readonly_findLabel readonly_redraw : readonly.

Lemma same_ids_spliceLoop (n : nat) (cur : nat) (c : ref) :
  ∀ j, preserves same_ids (spliceLoop n cur c j).
Proof.
  induction n as [|n IH]; intros j; cbn [spliceLoop]; ids_step;
    first [apply IH | apply same_ids_unselect; readonly_step].
Qed.

Lemma same_ids_chainWalk (fuel : nat) (backward : bool) :
  ∀ cur c, preserves same_ids (chainWalk fuel backward cur c).
Proof.
  induction fuel as [|n IH]; intros cur c; cbn [chainWalk]; ids_step;
    try apply same_ids_spliceLoop; try apply IH.
Qed.

Lemma same_ids_deleteLabelById (fuel self : nat) (labelId : Z) (back : bool) :
  preserves same_ids (deleteLabelById fuel self labelId back).
Proof.
  unfold deleteLabelById. ids_step; try apply same_ids_chainWalk;
    try (apply same_ids_unselect; readonly_step).
Qed.

Lemma same_ids_setActive (self : nat) (active : bool) :
  preserves same_ids (setActive self active).
Proof. unfold setActive. ids_step. Qed.

Lemma same_ids_gotoItem (index : Z) : preserves same_ids (gotoItem index).
Proof. unfold gotoItem. ids_step; apply same_ids_setActive. Qed.

Lemma same_ids_selectWalk (fuel : nat) (INITIAL_HANDLE : Z) (backward : bool) :
  ∀ cur c, preserves same_ids (selectWalk fuel INITIAL_HANDLE backward cur c).
Proof.
  induction fuel as [|n IH]; intros cur c; cbn [selectWalk]; ids_step;
    apply IH.
Qed.

Lemma same_ids_mouseup (fuel : nat) (isSmall : Label.t → bool)
    (INITIAL_HANDLE : Z) (self : nat) :
  preserves same_ids (_mouseup fuel isSmall INITIAL_HANDLE self).
Proof.
  unfold _mouseup. ids_step;
    try apply same_ids_delete; try apply same_ids_selectWalk.
Qed.

Lemma same_ids_loaded (now : Z) (self : nat) :
  preserves same_ids (loaded now self).
Proof. unfold loaded, addEvent. ids_step. Qed.

Lemma same_ids_addChild (a : addr) (child : ref) :
  preserves same_ids (addChild a child).
Proof. unfold addChild. ids_step. Qed.

Lemma same_ids_decodeItem (j : ItemJson.t) :
  preserves same_ids (decodeItem j).
Proof. unfold decodeItem, newItem, SatItem_fromJson. ids_step. Qed.

Lemma same_ids_decodePointers (j : LabelJson.t) :
  preserves same_ids (decodePointers j).
Proof.
  unfold decodePointers, decodeBaseJsonPointers. ids_step;
    apply same_ids_addChild.
Qed.

(** *** New labels *)

Lemma newLabel_split (LabelType : Z → Label.t) (s : Sat) :
  newLabel LabelType s
  = (cur ← gets currentItem;
     c ← defined cur;
     it ← getItem c;
     setItem c (Item.set_labels (Item.labels it ++ [RObj (length (labels s))]));;
     mret (length (labels s))) (registered LabelType s).
Proof.
  unfold newLabel, newLabelId. mstep. mstep. mstep. mstep. mstep. mstep.
  reflexivity.
Qed.

Lemma registered_ok (LabelType : Z → Label.t) (s : Sat) :
  passes_id LabelType → registry_ok s → registry_ok (registered LabelType s).
Proof.
  intros Hid Hok k a Hk. unfold registered in *. cbn in *.
  pose proof (succ_ge (lastLabelId s)) as Hge.
  rewrite Hid in Hk.
  destruct (decide (k = Number.succ (lastLabelId s))) as [->|Hne].
  - rewrite lookup_insert_eq in Hk. inversion Hk; subst a.
    split; [|lia]. exists (LabelType (Number.succ (lastLabelId s))).
    split; [|apply Hid]. by rewrite lookup_app_r, Nat.sub_diag.
  - rewrite lookup_insert_ne in Hk by done.
    destruct (Hok k a Hk) as [(l & Hl & Hlk) Hle]. split; [|lia].
    exists l. split; [|done]. by apply lookup_app_l_Some.
Qed.

Lemma registered_fresh (s : Sat) :
  registry_ok s → labelIdMap s !! (lastLabelId s + 1) = None.
Proof.
  intros Hok. destruct (labelIdMap s !! (lastLabelId s + 1)) as [a|] eqn:E;
    [|done].
  destruct (Hok _ _ E) as [_ Hle]. lia.
Qed.

Lemma keeps_registry_newLabel (LabelType : Z → Label.t) :
  passes_id LabelType → preserves keeps_registry (newLabel LabelType).
Proof.
  intros Hid s Hok. rewrite newLabel_split.
  assert (H : preserves same_ids
            (cur ← gets currentItem;
             c ← defined cur;
             it ← getItem c;
             setItem c (Item.set_labels
                          (Item.labels it ++ [RObj (length (labels s))]));;
             mret (length (labels s)))) by ids_step.
  apply (same_ids_keeps_registry _ _ (H _)). by apply registered_ok.
Qed.

Lemma afterLabel_ok (s : Sat) (j : LabelJson.t) :
  registry_ok s → registry_ok (afterLabel s j).
Proof.
  intros Hok k a Hk. unfold afterLabel in *. cbn in *.
  destruct (decide (k = LabelJson.id j)) as [->|Hne].
  - rewrite lookup_insert_eq in Hk. inversion Hk; subst a.
    split; [|lia]. exists (decoded j).
    split; [|done]. by rewrite lookup_app_r, Nat.sub_diag.
  - rewrite lookup_insert_ne in Hk by done.
    destruct (Hok k a Hk) as [(l & Hl & Hlk) Hle]. split; [|lia].
    exists l. split; [|done]. by apply lookup_app_l_Some.
Qed.

Lemma keeps_registry_decodeBaseJson (now : Z) (json : SatJson.t) :
  preserves keeps_registry (decodeBaseJson now json).
Proof.
  unfold decodeBaseJson. pbind; [|intros _].
  { intros s. rewrite pass1_run. cbn [snd].
    generalize (default [] (SatJson.labels json)). intros ls. revert s.
    induction ls as [|j ls IH]; intros s Hok; [done|].
    cbn [foldl]. by apply IH, afterLabel_ok. }
  eapply preserves_mono; [apply same_ids_keeps_registry|].
  unfold addEvent.
  ids_step; first [apply same_ids_decodeItem | apply same_ids_setActive
                  | apply same_ids_decodePointers].
Qed.

Lemma registered_exact (LabelType : Z → Label.t) (s : Sat) :
  -1 ≤ lastLabelId s < 2 ^ 53 →
  registered LabelType s
  = set_labels (λ l, l ++ [LabelType (lastLabelId s + 1)])
      (set_labelIdMap
         (<[Label.id (LabelType (lastLabelId s + 1)) := length (labels s)]>)
         (set_lastLabelId (lastLabelId s + 1) s)).
Proof. intros Hb. unfold registered. by rewrite (succ_exact _ Hb). Qed.

(** X6: [newLabel] hands out a fresh id.  On a session with a sound
    registry and a current item whose [lastLabelId] is below [2^53] (and
    not below the [-1] of a new session), for a label type that passes
    the id on, [newLabel] returns the new label object: it carries the id
    [lastLabelId + 1], which no label was registered under; it is the last
    entry of [Sat.labels] and of the current item's label list;
    [labelIdMap] resolves its id to it; the labels that were there are
    untouched; and the registry is sound again. *)
Theorem newLabel_registers_fresh_id (LabelType : Z → Label.t) (s : Sat)
    (c : nat) (it : Item.t) :
  passes_id LabelType → registry_ok s →
  -1 ≤ lastLabelId s < 2 ^ 53 →
  currentItem s = Some c → items s !! c = Some it →
  let n := length (labels s) in
  let i := lastLabelId s + 1 in
  ∃ s', newLabel LabelType s = (Done n, s')
    ∧ labelIdMap s !! i = None
    ∧ labelIdMap s' !! i = Some n
    ∧ labels s' = labels s ++ [LabelType i]
    ∧ lastLabelId s' = i
    ∧ items s' = <[c := Item.set_labels (Item.labels it ++ [RObj n]) it]> (items s)
    ∧ registry_ok s'.
Proof.
  intros Hid Hok Hb Hcur Hit n i.
  pose proof (keeps_registry_newLabel LabelType Hid s Hok) as Hok'.
  rewrite newLabel_split, (registered_exact _ _ Hb) in *.
  set (sr := set_labels _ (set_labelIdMap _ (set_lastLabelId _ s))) in *.
  assert (Hc : currentItem sr = Some c) by done.
  assert (Hi : items sr !! c = Some it) by done.
  revert Hok'. mstep. rewrite Hc. cbn [defined]. mstep. mstep.
  mstep with (setItem_run_insert _ _ _ _ Hi). rewrite ret_run. cbn [snd].
  intros Hok'. eexists. split; [reflexivity|].
  split; [by apply registered_fresh|].
  split; [cbn; by rewrite Hid, lookup_insert_eq|]. done.
Qed.

Lemma newLabel_registers_fresh_id_witness :
  ∃ s', newLabel (λ i, sampleLabel i true) session_one_item = (Done 0%nat, s')
    ∧ labelIdMap s' !! 0 = Some 0%nat
    ∧ lastLabelId s' = 0.
Proof.
  destruct (newLabel_registers_fresh_id (λ i, sampleLabel i true)
              session_one_item 0 (sampleItem 0 []))
    as (s' & Hrun & _ & Hm & _ & Hl & _).
  - intros i. reflexivity.
  - intros k a Hk. cbn in Hk. by rewrite lookup_empty in Hk.
  - cbn. lia.
  - reflexivity.
  - reflexivity.
  - exists s'. split; [exact Hrun|]. split; [exact Hm | exact Hl].
Defined.

(** At [2^53] the increment is lost to rounding: [newLabelId] returns
    [2^53] again, and the new label takes over the id, and the place in
    [labelIdMap], of the label that carries it. *)
Lemma newLabel_reuses_id_at_2_53 :
  let s := mkSat [sampleItem 0 [RObj 0%nat]] [sampleLabel (2 ^ 53) true]
             (<[2 ^ 53 := 0%nat]> ∅) (2 ^ 53) (Some 0%nat) [] 0
             None None None in
  registry_ok s
  ∧ ∃ s', newLabel (λ i, sampleLabel i true) s = (Done 1%nat, s')
      ∧ lastLabelId s' = 2 ^ 53
      ∧ Label.id <$> labels s' = [2 ^ 53; 2 ^ 53]
      ∧ labelIdMap s' !! (2 ^ 53) = Some 1%nat.
Proof.
  split.
  - intros k a Hk. cbn in Hk.
    apply lookup_insert_Some in Hk as [[<- <-]|[_ Hk]];
      [|by rewrite lookup_empty in Hk].
    split; [|cbn; lia]. eexists. split; reflexivity.
  - eexists. split; [vm_compute; reflexivity|]. split; [reflexivity|].
    split; reflexivity.
Qed.

(** X7: [newLabel] on a session without a current item (as right after the
    constructor) throws, but only when it pushes the label on the current
    item: by then the label has been constructed, [lastLabelId] has
    advanced (it is below [2^53], so the increment is not lost), and the
    label stays in [Sat.labels] and in [labelIdMap], on no item. *)
Theorem newLabel_without_current_item (LabelType : Z → Label.t) (s : Sat) :
  currentItem s = None → -1 ≤ lastLabelId s < 2 ^ 53 →
  ∃ s', newLabel LabelType s = (Throw, s')
    ∧ labels s' = labels s ++ [LabelType (lastLabelId s + 1)]
    ∧ labelIdMap s' !! Label.id (LabelType (lastLabelId s + 1))
      = Some (length (labels s))
    ∧ lastLabelId s' = lastLabelId s + 1
    ∧ items s' = items s.
Proof.
  intros Hcur Hb. rewrite newLabel_split, (registered_exact _ _ Hb).
  set (sr := set_labels _ (set_labelIdMap _ (set_lastLabelId _ s))).
  assert (Hc : currentItem sr = None) by done.
  mstep. rewrite Hc. cbn [defined]. eexists. split; [reflexivity|].
  split; [done|]. split; [cbn; by rewrite lookup_insert_eq|]. done.
Qed.

Lemma newLabel_without_current_item_witness :
  ∃ s', newLabel (λ i, sampleLabel i true) (Sat_new 0) = (Throw, s')
    ∧ labels s' = [sampleLabel 0 true] ∧ lastLabelId s' = 0.
Proof.
  destruct (newLabel_without_current_item (λ i, sampleLabel i true)
              (Sat_new 0) eq_refl) as (s' & Hrun & Hl & _ & Hn & _).
  { cbn. lia. }
  exists s'. split; [exact Hrun|]. split; [exact Hl | exact Hn].
Defined.

(** X8: the registry stays sound.  If [labelIdMap] takes every registered
    id to a label object that carries it and no registered id is above
    [lastLabelId], then this still holds after [decodeBaseJson],
    [newLabel], [delete], [deleteLabelById], [gotoItem] and [_mouseup],
    however they end. *)
Theorem registry_stays_sound (s : Sat) :
  registry_ok s →
  (∀ now json, registry_ok (snd (decodeBaseJson now json s)))
  ∧ (∀ LabelType, passes_id LabelType →
       registry_ok (snd (newLabel LabelType s)))
  ∧ (∀ fuel a, registry_ok (snd (delete fuel a s)))
  ∧ (∀ fuel self labelId back,
       registry_ok (snd (deleteLabelById fuel self labelId back s)))
  ∧ (∀ index, registry_ok (snd (gotoItem index s)))
  ∧ (∀ fuel isSmall INITIAL_HANDLE self,
       registry_ok (snd (_mouseup fuel isSmall INITIAL_HANDLE self s))).
Proof.
  intros Hok. repeat apply conj.
  - intros now json. by apply keeps_registry_decodeBaseJson.
  - intros LabelType Hid. by apply keeps_registry_newLabel.
  - intros fuel a. by apply (same_ids_keeps_registry _ _ (same_ids_delete _ _ s)).
  - intros fuel self labelId back.
    by apply (same_ids_keeps_registry _ _
                (same_ids_deleteLabelById _ _ _ _ s)).
  - intros index. by apply (same_ids_keeps_registry _ _ (same_ids_gotoItem _ s)).
  - intros fuel isSmall H self.
    by apply (same_ids_keeps_registry _ _ (same_ids_mouseup _ _ _ _ s)).
Qed.

Lemma registry_stays_sound_witness :
  registry_ok (snd (decodeBaseJson 0 doc_track (Sat_new 0))).
Proof.
  refine (proj1 (registry_stays_sound (Sat_new 0) _) 0 doc_track).
  intros k a Hk. cbn in Hk. by rewrite lookup_empty in Hk.
Defined.

(** X9: ids are never taken back.  [delete], [deleteLabelById], [gotoItem],
    [_mouseup] and [loaded] leave [labelIdMap] and [lastLabelId] as they
    are and change the id of no label object: the id of a deleted label
    stays registered and is not handed out again. *)
Theorem ids_are_never_released (s : Sat) :
  (∀ fuel a, same_ids s (snd (delete fuel a s)))
  ∧ (∀ fuel self labelId back,
       same_ids s (snd (deleteLabelById fuel self labelId back s)))
  ∧ (∀ index, same_ids s (snd (gotoItem index s)))
  ∧ (∀ fuel isSmall INITIAL_HANDLE self,
       same_ids s (snd (_mouseup fuel isSmall INITIAL_HANDLE self s)))
  ∧ (∀ now self, same_ids s (snd (loaded now self s))).
Proof.
  repeat apply conj; intros.
  - apply same_ids_delete.
  - apply same_ids_deleteLabelById.
  - apply same_ids_gotoItem.
  - apply same_ids_mouseup.
  - apply same_ids_loaded.
Qed.
(** ** Moving between items *)

Lemma newItem_run (u : string) (s : Sat) :
  newItem u s
  = (Done (length (items s)),
     set_items (λ l, l ++ [Item.new (Z.of_nat (length (items s))) u]) s).
Proof. unfold newItem. mstep. mstep. by rewrite ret_run. Qed.

(** X10: [previousItem] and [nextItem] are inverse to each other.  On a
    session whose items carry their position as [index] (which [newItem]
    keeps), [previousItem] of the item at position [q] is the item at
    [q - 1], or [null] for the first item, [nextItem] is the item at
    [q + 1], or [null] for the last one, and going back and forth returns
    to the item. *)
Theorem previousItem_nextItem_inverse (s : Sat) (q : nat) (it : Item.t) :
  indexed s → items s !! q = Some it →
  previousItem q s
  = (Done (if decide (q = 0)%nat then None else Some (q - 1)%nat), s)
  ∧ nextItem q s
    = (Done (if decide (q + 1 < length (items s))%nat then Some (q + 1)%nat
             else None), s)
  ∧ (∀ p, previousItem q s = (Done (Some p), s) →
          nextItem p s = (Done (Some q), s))
  ∧ (∀ n, nextItem q s = (Done (Some n), s) →
          previousItem n s = (Done (Some q), s))
  ∧ (∀ u, indexed (snd (newItem u s))).
Proof.
  intros Hidx Hit. pose proof (lookup_lt_Some _ _ _ Hit) as Hlt.
  rewrite (previousItem_run q s it Hit (Hidx _ _ Hit)).
  rewrite (nextItem_run q s it Hit (Hidx _ _ Hit)).
  split; [done|]. split; [done|]. split; [|split].
  - intros p Hp. destruct (decide (q = 0)%nat) as [|Hq]; [discriminate|].
    inversion Hp; subst p.
    destruct (lookup_lt_is_Some_2 (items s) (q - 1)%nat) as [itp Hitp]; [lia|].
    rewrite (nextItem_run _ s itp Hitp (Hidx _ _ Hitp)).
    rewrite decide_True by lia. do 3 f_equal. lia.
  - intros n Hn. destruct (decide (q + 1 < length (items s))%nat) as [Hq|];
      [|discriminate]. inversion Hn; subst n.
    destruct (lookup_lt_is_Some_2 (items s) (q + 1)%nat) as [itn Hitn]; [lia|].
    rewrite (previousItem_run _ s itn Hitn (Hidx _ _ Hitn)).
    rewrite decide_False by lia. do 3 f_equal. lia.
  - intros u. rewrite newItem_run. cbn [snd]. intros k itk Hk.
    rewrite items_set_items in Hk.
    apply lookup_app_Some in Hk as [Hk|[Hge Hk]]; [by apply Hidx|].
    apply list_lookup_singleton_Some in Hk as [Hk <-]. cbn. lia.
Qed.

Lemma previousItem_nextItem_inverse_witness :
  previousItem 1 session_chain = (Done (Some 0%nat), session_chain)
  ∧ nextItem 0 session_chain = (Done (Some 1%nat), session_chain).
Proof.
  destruct (previousItem_nextItem_inverse session_chain 1
              (sampleItem 1 [RObj 1%nat])) as (Hp & _ & Hpn & _).
  - intros q it Hq. destruct q as [|[|[|q]]]; cbn in Hq; by simplify_eq.
  - reflexivity.
  - split; [exact Hp|]. apply Hpn. exact Hp.
Defined.

Lemma activate_fields (b : bool) (it : Item.t) :
  Item.labels (activate b it) = Item.labels it
  ∧ Item.index (activate b it) = Item.index it
  ∧ Item.url (activate b it) = Item.url it
  ∧ Item.selectedLabel (activate b it) = Item.selectedLabel it
  ∧ Item.active (activate b it) = b.
Proof. by destruct b. Qed.

(** [gotoItem] when the remainder is the position of an item. *)
Lemma gotoItem_run (s : Sat) (index : Z) (c t : nat) (itc itt : Item.t) :
  currentItem s = Some c → items s !! c = Some itc →
  itemAt (items s) (Z.rem index (Z.of_nat (length (items s)))) = Some t →
  items s !! t = Some itt → all_objects s (Item.labels itt) →
  gotoItem index s
  = (Done tt,
     set_items (alter (activate true) t)
       (set_currentItem (Some t)
          (set_items (alter (activate false) c) s))).
Proof.
  intros Hcur Hc Hat Ht Hobj.
  unfold gotoItem. mstep. mstep. rewrite Hcur. cbn [defined]. mstep.
  mstep with (setActive_run _ _ _ _ Hc). mstep. mstep.
  rewrite items_set_items.
  assert (Hat' : itemAt (alter (activate false) c (items s))
                   (Z.rem index (Z.of_nat (length (items s)))) = Some t).
  { unfold itemAt in *. by rewrite length_alter. }
  rewrite Hat'. mstep. cbn [currentItem set_currentItem defined]. mstep.
  set (s1 := set_currentItem _ _).
  assert (∃ itt0, items s1 !! t = Some itt0
                  ∧ Item.labels itt0 = Item.labels itt) as (itt0 & Ht0 & Hl0).
  { unfold s1. cbn [items set_items set_currentItem].
    destruct (decide (t = c)) as [->|Hne].
    - rewrite list_lookup_alter_eq, Hc. eexists. split; [reflexivity|].
      rewrite Hc in Ht. inversion Ht; subst.
      apply (activate_fields false itt).
    - rewrite list_lookup_alter_ne by done. eauto. }
  mstep with (setActive_run _ _ true _ Ht0).
  erewrite (redraw_all_objects _ _ _ Free); [reflexivity| | |].
  - cbn [items set_items]. by rewrite list_lookup_alter_eq, Ht0.
  - reflexivity.
  - cbn. rewrite Hl0. exact Hobj.
Qed.

Lemma itemAt_mod (its : list Item.t) (index : Z) :
  0 ≤ index → its ≠ [] →
  itemAt its (Z.rem index (Z.of_nat (length its)))
  = Some (Z.to_nat (index `mod` Z.of_nat (length its))).
Proof.
  intros Hi Hne. assert (0 < Z.of_nat (length its)).
  { destruct its; [done|]. cbn [length]. lia. }
  rewrite Z.rem_mod_nonneg by lia. unfold itemAt.
  pose proof (Z.mod_pos_bound index (Z.of_nat (length its))).
  destruct (Z.leb_spec 0 (index `mod` Z.of_nat (length its))); [|lia].
  destruct (Z.ltb_spec (index `mod` Z.of_nat (length its))
              (Z.of_nat (length its))); [done|lia].
Qed.

(** X11: for an index that is not negative [gotoItem] wraps around.  On a
    session with a current item whose label lists hold label objects,
    [gotoItem(index)] returns; the current item is then the item at
    position [index mod n], active and in state [free]; the item that was
    current is no longer active, and no other item is touched; if only the
    current item was active before, this is so again; and
    [gotoItem(index + n)] does the same as [gotoItem(index)]. *)
Theorem gotoItem_wraps_around (s : Sat) (index : Z) (c : nat) (itc : Item.t) :
  0 ≤ index → currentItem s = Some c → items s !! c = Some itc →
  (∀ it, it ∈ items s → all_objects s (Item.labels it)) →
  let n := Z.of_nat (length (items s)) in
  let t := Z.to_nat (index `mod` n) in
  ∃ s' itt, gotoItem index s = (Done tt, s')
    ∧ currentItem s' = Some t
    ∧ items s' = alter (activate true) t (alter (activate false) c (items s))
    ∧ items s' !! t = Some itt
    ∧ Item.active itt = true ∧ Item.state itt = Some Free
    ∧ (t ≠ c → Item.active <$> items s' !! c = Some false)
    ∧ labels s' = labels s ∧ labelIdMap s' = labelIdMap s
    ∧ events s' = events s
    ∧ (one_active s → one_active s')
    ∧ gotoItem (index + n) s = gotoItem index s.
Proof.
  intros Hidx Hcur Hc Hobj n t.
  assert (Hne : items s ≠ []) by (intros E; by rewrite E in Hc).
  assert (Hn : 0 < n) by (apply lookup_lt_Some in Hc; unfold n; lia).
  pose proof (Z.mod_pos_bound index n Hn) as Hb.
  destruct (lookup_lt_is_Some_2 (items s) t) as [itt Ht]; [unfold t, n in *; lia|].
  pose proof (gotoItem_run s index c t itc itt Hcur Hc
                (itemAt_mod _ _ Hidx Hne) Ht
                (Hobj _ (list_elem_of_lookup_2 _ _ _ Ht))) as Hrun.
  eexists. exists (activate true (if decide (t = c) then activate false itt
                                   else itt)).
  split; [exact Hrun|]. cbn [currentItem items set_items set_currentItem].
  split; [done|]. split; [done|]. split; [|split; [|split; [|split]]].
  - rewrite list_lookup_alter_eq. destruct (decide (t = c)) as [->|Hne'].
    + by rewrite list_lookup_alter_eq, Ht.
    + by rewrite list_lookup_alter_ne, Ht.
  - done.
  - done.
  - intros Htc. by rewrite list_lookup_alter_ne, list_lookup_alter_eq, Hc.
  - split; [done|]. split; [done|]. split; [done|]. split.
    + intros Hone q it Hq Hact.
      cbn [currentItem items set_items set_currentItem] in Hq |- *. f_equal.
      destruct (decide (q = t)) as [|Hqt]; [congruence|]. exfalso.
      rewrite list_lookup_alter_ne in Hq by done.
      destruct (decide (q = c)) as [->|Hqc].
      * rewrite list_lookup_alter_eq, Hc in Hq. by simplify_eq/=.
      * rewrite list_lookup_alter_ne in Hq by done.
        specialize (Hone q it Hq Hact). congruence.
    + assert (E : Z.rem (index + n) n = Z.rem index n).
      { replace (index + n) with (index + 1 * n) by lia.
        apply Z.rem_add; nia. }
      unfold gotoItem. rewrite !(bind_run (gets items)), !gets_run.
      cbv beta iota zeta. fold n. by rewrite E.
Qed.

Lemma gotoItem_wraps_around_witness :
  ∃ s', gotoItem 4 session_three_items = (Done tt, s')
        ∧ currentItem s' = Some 1%nat
        ∧ Item.active <$> items s' = [false; true; false].
Proof.
  destruct (gotoItem_wraps_around session_three_items 4 0
              (activate true (Item.new 0 "img0")))
    as (s' & itt & Hrun & Hcur & Hits & _).
  - lia.
  - reflexivity.
  - reflexivity.
  - intros it Hit r Hr. exfalso.
    assert (E : Forall (λ it, Item.labels it = [])
                  (items session_three_items))
      by (vm_compute; repeat constructor).
    rewrite Forall_forall in E. rewrite (E it Hit) in Hr.
    by apply elem_of_nil in Hr.
  - exists s'. split; [exact Hrun|]. split; [exact Hcur|].
    rewrite Hits. reflexivity.
Defined.

(** [gotoItem] before any item has become current throws whatever the
    index, and writes nothing. *)
Lemma gotoItem_without_current_item (s : Sat) (index : Z) :
  currentItem s = None → gotoItem index s = (Throw, s).
Proof.
  intros Hcur. unfold gotoItem. mstep. mstep. by rewrite Hcur.
Qed.
(** ** Visible labels *)

Lemma visibleOf_run (s : Sat) (rs : list ref) :
  all_objects s rs →
  visibleOf rs s = (Done (List.filter (visible s) rs), s).
Proof.
  induction rs as [|r rs IH]; intros H; [reflexivity|].
  destruct (H r (list_elem_of_here _ _)) as (a & -> & Ha).
  destruct (lookup_lt_is_Some_2 _ _ Ha) as [l Hl].
  cbn [visibleOf List.filter]. mstep.
  rewrite bind_run, IH by (intros r Hr; by apply H, list_elem_of_further).
  cbv beta iota. rewrite ret_run. cbn [visible]. rewrite Hl.
  by destruct (Label.valid l && (Label.numChildren l =? 0)).
Qed.

Lemma visibleOf_throws (s : Sat) (rs : list ref) :
  objects s rs = None → visibleOf rs s = (Throw, s).
Proof.
  induction rs as [|r rs IH]; intros H; [discriminate|].
  cbn [visibleOf]. unfold objects in H. cbn in H.
  destruct r as [| |a]; try reflexivity.
  destruct (labels s !! a) as [l|] eqn:Hl.
  - mstep. cbn in H.
    destruct (mapM _ rs) as [ls|] eqn:E; [discriminate|].
    by rewrite bind_run, IH.
  - unfold deref. rewrite bind_assoc_run. mstep. by rewrite Hl.
Qed.

(** X12: [getVisibleLabels] returns, in their order, the entries of the
    item's label list that are valid and have [numChildren] 0; it writes
    nothing; and it throws when an entry of the list is no label object. *)
Theorem getVisibleLabels_lists_valid_leaves (s : Sat) (self : nat)
    (it : Item.t) :
  items s !! self = Some it →
  (all_objects s (Item.labels it) →
   getVisibleLabels self s
   = (Done (List.filter (visible s) (Item.labels it)), s))
  ∧ (objects s (Item.labels it) = None →
     getVisibleLabels self s = (Throw, s))
  ∧ (∀ r, r ∈ List.filter (visible s) (Item.labels it) ↔
          r ∈ Item.labels it
          ∧ ∃ a l, r = RObj a ∧ labels s !! a = Some l
                   ∧ Label.valid l = true ∧ Label.numChildren l = 0).
Proof.
  intros Hit. unfold getVisibleLabels. split; [|split].
  - intros H. mstep. by apply visibleOf_run.
  - intros H. mstep. by apply visibleOf_throws.
  - intros r. rewrite !list_elem_of_In, filter_In.
    apply and_iff_compat_l. unfold visible. split.
    + destruct r as [| |a]; try discriminate.
      destruct (labels s !! a) as [l|] eqn:Hl; [|discriminate].
      rewrite andb_true_iff, Z.eqb_eq. intros [Hv Hn]. by exists a, l.
    + intros (a & l & -> & Hl & Hv & Hn). rewrite Hl, Hv, Hn. reflexivity.
Qed.

Lemma getVisibleLabels_lists_valid_leaves_witness :
  getVisibleLabels 0 session_tree
  = (Done [RObj 2%nat; RObj 3%nat], session_tree).
Proof.
  refine (proj1 (getVisibleLabels_lists_valid_leaves session_tree 0 _ eq_refl)
            _).
  intros r Hr. cbn in Hr.
  repeat (apply elem_of_cons in Hr as [->|Hr]; [eexists; split; [reflexivity|cbn; lia]|]).
  by apply elem_of_nil in Hr.
Defined.

#[global] Instance reveals_nothing_preorder : PreOrder reveals_nothing.
Proof.
  split; [intros s x H; exact H | intros s1 s2 s3 H1 H2 x H; apply H1, H2, H].
Qed.

Lemma forM__Done_rel {A : Type} (R : relation Sat) `{!PreOrder R}
    (l : list A) (f : A → M unit) :
  (∀ x sb sa, x ∈ l → f x sb = (Done tt, sa) → R sb sa) →
  ∀ s s', forM_ l f s = (Done tt, s') → R s s'.
Proof.
  induction l as [|a l IH]; intros Hf s s' H.
  - cbn [forM_] in H. rewrite ret_run in H. by inversion H.
  - cbn [forM_] in H. apply bind_Done in H as ([] & s1 & H1 & H2).
    etrans; [eapply Hf; [apply list_elem_of_here | exact H1]|].
    eapply IH; [|exact H2]. intros x sb sa Hx. apply Hf.
    by apply list_elem_of_further.
Qed.

Lemma visible_alter_ne (s : Sat) (f : Label.t → Label.t) (a x : addr) :
  x ≠ a →
  visible (set_labels (alter f a) s) (RObj x) = visible s (RObj x).
Proof.
  intros Hne. unfold visible. rewrite labels_set_labels.
  by rewrite list_lookup_alter_ne.
Qed.

Lemma visible_alter_same (s : Sat) (f : Label.t → Label.t) (a x : addr) :
  (∀ l, Label.valid (f l) = Label.valid l
        ∧ Label.numChildren (f l) = Label.numChildren l) →
  visible (set_labels (alter f a) s) (RObj x) = visible s (RObj x).
Proof.
  intros Hf. destruct (decide (x = a)) as [->|Hne];
    [|by apply visible_alter_ne].
  unfold visible. rewrite labels_set_labels, list_lookup_alter_eq.
  destruct (labels s !! a) as [l|]; cbn; [|done].
  by destruct (Hf l) as [-> ->].
Qed.

Lemma visible_invalid (s : Sat) (x : addr) :
  valid_at s x = Some false → visible s (RObj x) = false.
Proof.
  unfold valid_at, visible. destruct (labels s !! x) as [l|]; [|done].
  cbn. by intros [= ->].
Qed.

(** [delete] makes no label visible. *)
Lemma delete_reveals_nothing (fuel : nat) :
  ∀ a s s', delete fuel a s = (Done tt, s') → reveals_nothing s s'.
Proof.
  induction fuel as [|n IH]; intros a s s' H; [discriminate|].
  apply delete_S_Done in H as (l & s2 & self' & Hl & Hpar & Hself & Hch).
  set (sv := set_labels (alter (Label.set_valid false) a) s) in *.
  assert (H1 : reveals_nothing s sv).
  { intros x Hx. destruct (decide (x = a)) as [->|Hne].
    - rewrite visible_invalid in Hx; [done|].
      unfold valid_at, sv. by rewrite labels_set_labels, list_lookup_alter_eq, Hl.
    - unfold sv in Hx. by rewrite visible_alter_ne in Hx. }
  assert (H2 : reveals_nothing sv s2).
  { apply deleteParent_Done in Hpar
      as [[_ ->]|(p & pl & Hp & Hpl & [[Hz Hrec]|[Hnz ->]])]; [done| |].
    - intros x Hx. destruct (decide (x = p)) as [->|Hne].
      + rewrite visible_invalid in Hx; [done|]. by eapply delete_invalid.
      + apply (IH _ _ _ Hrec) in Hx. by rewrite visible_alter_ne in Hx.
    - intros x Hx. destruct (decide (x = p)) as [->|Hne].
      + exfalso. unfold visible in Hx.
        rewrite labels_set_labels, list_lookup_alter_eq, Hpl in Hx. cbn in Hx.
        apply andb_true_iff in Hx as [_ Hx]. apply Z.eqb_eq in Hx. lia.
      + by rewrite visible_alter_ne in Hx. }
  assert (H3 : reveals_nothing s2 s').
  { eapply (forM__Done_rel reveals_nothing); [|exact Hch].
    intros c sb sa _ Hc.
    apply deleteChild_Done in Hc as (ca & -> & Hrec).
    etrans; [|eapply IH, Hrec].
    intros x Hx. by rewrite visible_alter_same in Hx. }
  etrans; [exact H1|]. etrans; [exact H2 | exact H3].
Qed.

(** X13: deleting only hides labels.  When [delete] has returned, the
    visible labels of an item are among those that were visible before,
    and no label of the deleted subtree is among them: a parent whose
    count of children drops to 0 is deleted, not shown. *)
Theorem delete_only_hides (fuel : nat) (a : addr) (self : nat) (s s' : Sat)
    (it : Item.t) :
  delete fuel a s = (Done tt, s') →
  items s !! self = Some it → all_objects s (Item.labels it) →
  ∃ vs vs', getVisibleLabels self s = (Done vs, s)
    ∧ getVisibleLabels self s' = (Done vs', s')
    ∧ (∀ r, r ∈ vs' → r ∈ vs)
    ∧ (∀ d, reach (labels s) a d → RObj d ∉ vs').
Proof.
  intros Hdel Hit Hobj.
  pose proof (delete_only_deletes fuel a s) as Hod. rewrite Hdel in Hod.
  cbn [snd] in Hod.
  destruct (only_deletes_frame _ _ Hod) as (Hitems & _ & _ & _ & _ & Hlen).
  assert (Hit' : items s' !! self = Some it) by (by rewrite Hitems).
  assert (Hobj' : all_objects s' (Item.labels it)).
  { intros r Hr. destruct (Hobj r Hr) as (x & -> & Hx). exists x.
    split; [done|]. by rewrite Hlen. }
  exists (List.filter (visible s) (Item.labels it)),
         (List.filter (visible s') (Item.labels it)).
  unfold getVisibleLabels. split; [|split; [|split]].
  - mstep. by apply visibleOf_run.
  - mstep. by apply visibleOf_run.
  - intros r. rewrite !list_elem_of_In, !filter_In. intros [Hr Hv].
    split; [done|]. destruct (Hobj r) as (x & -> & _); [by apply list_elem_of_In|].
    by apply (delete_reveals_nothing _ _ _ _ Hdel).
  - intros d Hd. rewrite list_elem_of_In, filter_In. intros [_ Hv].
    destruct (delete_subtree fuel a s s' Hdel) as [Hinv _].
    by rewrite (visible_invalid _ _ (Hinv d Hd)) in Hv.
Qed.

Lemma delete_only_hides_witness :
  ∃ vs', getVisibleLabels 0 (snd (delete 3 3 session_tree))
         = (Done vs', snd (delete 3 3 session_tree))
    ∧ ∀ r, r ∈ vs' → r ∈ [RObj 2%nat; RObj 3%nat].
Proof.
  destruct (delete_only_hides 3 3 0 session_tree (snd (delete 3 3 session_tree))
              (sampleItem 0 [RObj 0%nat; RObj 1%nat; RObj 2%nat; RObj 3%nat]))
    as (vs & vs' & Hvs & Hvs' & Hsub & _).
  - vm_compute. reflexivity.
  - reflexivity.
  - intros r Hr. cbn in Hr.
    repeat (apply elem_of_cons in Hr as [->|Hr];
            [eexists; split; [reflexivity|cbn; lia]|]).
    by apply elem_of_nil in Hr.
  - exists vs'. split; [exact Hvs'|]. intros r Hr. apply Hsub in Hr.
    assert (E : getVisibleLabels 0 session_tree
                = (Done [RObj 2%nat; RObj 3%nat], session_tree))
      by (vm_compute; reflexivity).
    rewrite E in Hvs. by inversion Hvs; subst.
Defined.

(** ** Roots *)

Lemma getRoot_root (n : nat) (a : addr) (l : Label.t) (s : Sat) :
  labels s !! a = Some l → Label.parent l = RNull →
  getRoot (S n) a s = (Done a, s).
Proof. intros Hl Hp. cbn [getRoot]. mstep. by rewrite Hp. Qed.

Lemma getRoot_total (rank : addr → nat) (R : nat) (fuel : nat) :
  ∀ a s, forest (labels s) rank →
    (∀ x, (x < length (labels s))%nat → (rank x ≤ R)%nat) →
    (a < length (labels s))%nat → (R < fuel + rank a)%nat →
    ∃ r lr, getRoot fuel a s = (Done r, s)
      ∧ labels s !! r = Some lr ∧ Label.parent lr = RNull
      ∧ ancestor (labels s) a r.
Proof.
  induction fuel as [|n IH]; intros a s Hf HR Ha Hfuel.
  - specialize (HR a Ha). lia.
  - destruct (lookup_lt_is_Some_2 _ _ Ha) as [l Hl].
    destruct (Hf a l Hl) as [_ [Hp|(p & Hp & Hplt & Hrank)]].
    + exists a, l. split; [by eapply getRoot_root|]. split; [done|].
      split; [done|]. apply rtc_refl.
    + destruct (IH p s Hf HR Hplt) as (r & lr & Hrun & Hr & Hnull & Hanc);
        [lia|].
      exists r, lr. split; [|split; [done|split; [done|]]].
      * cbn [getRoot]. mstep. by rewrite Hp.
      * eapply rtc_l; [|exact Hanc]. by exists l.
Qed.

(** X14: on a forest [getRoot] finds the root.  When the label graph is a
    forest whose ranks are at most [R], [getRoot] on a label returns
    within [R + 1] calls, writing nothing; the label it returns has a
    [null] parent and is reached from the label by following [parent]; it
    is the label itself if that has a [null] parent; and [getRoot] of the
    root is the root. *)
Theorem getRoot_finds_root (rank : addr → nat) (R fuel : nat) (a : addr)
    (l : Label.t) (s : Sat) :
  forest (labels s) rank →
  (∀ x, (x < length (labels s))%nat → (rank x ≤ R)%nat) →
  labels s !! a = Some l → (R < fuel)%nat →
  ∃ r lr, getRoot fuel a s = (Done r, s)
    ∧ labels s !! r = Some lr ∧ Label.parent lr = RNull
    ∧ ancestor (labels s) a r
    ∧ (Label.parent l = RNull → r = a)
    ∧ getRoot fuel r s = (Done r, s).
Proof.
  intros Hf HR Hl Hfuel.
  destruct (getRoot_total rank R fuel a s Hf HR) as (r & lr & Hrun & Hr & Hn & Ha);
    [by eapply lookup_lt_Some | lia |].
  exists r, lr. split; [done|]. split; [done|]. split; [done|]. split; [done|].
  destruct fuel as [|n]; [lia|]. split.
  - intros Hp. rewrite (getRoot_root n a l s Hl Hp) in Hrun. by inversion Hrun.
  - by eapply getRoot_root.
Qed.

Lemma getRoot_finds_root_witness :
  getRoot 3 3 session_tree = (Done 0%nat, session_tree).
Proof.
  destruct (getRoot_finds_root _ 2 3 3 (treeLabel 3 (RObj 1%nat) [])
              session_tree session_tree_forest)
    as (r & lr & Hrun & _).
  - intros x Hx. destruct x as [|[|x]]; cbn; lia.
  - reflexivity.
  - lia.
  - rewrite Hrun. f_equal. f_equal.
    assert (E : getRoot 3 3 session_tree = (Done 0%nat, session_tree))
      by (vm_compute; reflexivity).
    rewrite E in Hrun. by inversion Hrun.
Defined.

(** X15: deleting a label dissolves what is below it.  When [delete] on a
    label has returned, every label below it (its children, their children
    and so on) has a [null] parent, so [getRoot] on it returns the label
    itself. *)
Theorem delete_makes_subtree_roots (fuel n : nat) (a c d : addr) (s s' : Sat) :
  delete fuel a s = (Done tt, s') →
  child_of (labels s) a c → reach (labels s) c d →
  parent_at s' d = Some RNull ∧ getRoot (S n) d s' = (Done d, s').
Proof.
  intros Hdel Hc Hd.
  destruct (delete_subtree fuel a s s' Hdel) as [_ Hpar].
  specialize (Hpar c d Hc Hd). split; [done|].
  unfold parent_at in Hpar.
  destruct (labels s' !! d) as [l|] eqn:Hl; simplify_eq/=.
  by eapply getRoot_root.
Qed.

Lemma delete_makes_subtree_roots_witness :
  getRoot 1 3 (snd (delete 3 0 session_tree))
  = (Done 3%nat, snd (delete 3 0 session_tree)).
Proof.
  refine (proj2 (delete_makes_subtree_roots 3 0 0 1 3 session_tree _ _ _ _)).
  - vm_compute. reflexivity.
  - eexists. split; [reflexivity|]. apply list_elem_of_here.
  - eapply rtc_l; [|apply rtc_refl]. eexists. split; [reflexivity|].
    apply list_elem_of_here.
Defined.

(** X16: a parent the document does not define.  When a document names, as
    the parent of a label, an id that is not negative and that none of its
    labels carries, the label is loaded with an [undefined] parent:
    [getRoot] on it throws, at any depth of the call, and writes nothing. *)
Theorem getRoot_unknown_parent_throws (now start : Z) (json : SatJson.t)
    (k n : nat) (e : LabelJson.t) :
  NoDup (idsOf json) → SatJson.items json ≠ [] →
  default [] (SatJson.labels json) !! k = Some e →
  -1 < LabelJson.parent e → LabelJson.parent e ∉ idsOf json →
  ∃ s', decodeBaseJson now json (Sat_new start) = (Done tt, s')
    ∧ parent_at s' k = Some RUndef
    ∧ getRoot (S n) k s' = (Throw, s').
Proof.
  intros Hnd Hjs Hk Hp Hni. exists (loadedSession now start json).
  split; [by apply decodeBaseJson_fresh|].
  pose proof (loaded_label now start json k e Hk) as Hl.
  destruct (withPointers_fields (labelIdMap (loadedSession now start json)) e)
    as (_ & _ & _ & _ & Hpar & _).
  assert (Hpar' : Label.parent
            (withPointers (labelIdMap (loadedSession now start json)) e
               (decoded e)) = RUndef).
  { rewrite Hpar. destruct (Z.ltb_spec (-1) (LabelJson.parent e)); [|lia].
    by rewrite (lookupId_None _ _ (loaded_map_None now start json _ Hni)). }
  split.
  - unfold parent_at. by rewrite Hl, <- Hpar'.
  - cbn [getRoot]. mstep. by rewrite Hpar'.
Qed.

Lemma getRoot_unknown_parent_throws_witness :
  ∃ s', decodeBaseJson 0
          (SatJson.mk None 0 [ItemJson.mk "img" 0 (Some [1])]
             (Some [LabelJson.mk 1 None 9 None (-1) (-1) None])
             None [] "agent" None) (Sat_new 0) = (Done tt, s')
    ∧ parent_at s' 0 = Some RUndef
    ∧ getRoot 1 0 s' = (Throw, s').
Proof.
  apply (getRoot_unknown_parent_throws 0 0
           (SatJson.mk None 0 [ItemJson.mk "img" 0 (Some [1])]
              (Some [LabelJson.mk 1 None 9 None (-1) (-1) None])
              None [] "agent" None) 0 0
           (LabelJson.mk 1 None 9 None (-1) (-1) None)).
  - apply (bool_decide_unpack _). vm_compute. exact I.
  - discriminate.
  - reflexivity.
  - cbn. lia.
  - apply (bool_decide_unpack _). vm_compute. exact I.
Defined.
(** ** Looking a label up by id *)

Lemma firstWithId_spec (k : Z) (s : Sat) (rs : list ref) :
  all_objects s rs →
  ∃ r, firstWithId k rs s = (Done r, s)
    ∧ ((r = RUndef ∧ ∀ r', r' ∈ rs → idOf (labels s) r' ≠ Some k)
       ∨ ∃ i a l, r = RObj a ∧ rs !! i = Some (RObj a)
           ∧ labels s !! a = Some l ∧ Label.id l = k
           ∧ ∀ p r', (p < i)%nat → rs !! p = Some r' →
                     idOf (labels s) r' ≠ Some k).
Proof.
  induction rs as [|r rs IH]; intros Hall.
  - exists RUndef. split; [done|]. left. split; [done|].
    intros r' Hr'. by apply elem_of_nil in Hr'.
  - destruct (Hall r (list_elem_of_here _ _)) as (b & -> & Hb).
    destruct (lookup_lt_is_Some_2 _ _ Hb) as [lb Hlb].
    cbn [firstWithId]. destruct (Z.eqb_spec (Label.id lb) k) as [E|Hne].
    + exists (RObj b). split.
      * mstep. apply Z.eqb_eq in E. by rewrite E.
      * right. exists 0%nat, b, lb. repeat split; auto. intros p r' Hp. lia.
    + destruct IH as (r & Hrun & Hr).
      { intros r' Hr'. by apply Hall, list_elem_of_further. }
      exists r. split.
      * mstep. apply Z.eqb_neq in Hne. by rewrite Hne.
      * assert (Hb' : idOf (labels s) (RObj b) ≠ Some k).
        { cbn [idOf]. rewrite Hlb. cbn. congruence. }
        destruct Hr as [[-> Hnone]|(i & a & l & -> & Hi & Hl & Hid & Hfirst)].
        -- left. split; [done|]. intros r' Hr'.
           apply elem_of_cons in Hr' as [->|Hr']; auto.
        -- right. exists (S i), a, l. repeat split; auto.
           intros p r' Hp Hr'. destruct p as [|p]; cbn in Hr'.
           ++ by inversion Hr'; subst.
           ++ apply (Hfirst p r'); [lia | done].
Qed.

(** X17: [_getLabelByID] returns the first entry of the item's label list
    that carries the id, and [undefined] if there is none.  On an item
    whose list holds label objects it returns, writing nothing; what it
    returns is [undefined] exactly when no entry carries the id, and is
    otherwise the entry at the least index that does. *)
Theorem getLabelByID_first_match (s : Sat) (self : nat) (it : Item.t)
    (labelID : Z) :
  items s !! self = Some it → all_objects s (Item.labels it) →
  ∃ r, _getLabelByID self labelID s = (Done r, s)
    ∧ ((r = RUndef
        ∧ ∀ r', r' ∈ Item.labels it → idOf (labels s) r' ≠ Some labelID)
       ∨ ∃ i a l, r = RObj a ∧ Item.labels it !! i = Some (RObj a)
           ∧ labels s !! a = Some l ∧ Label.id l = labelID
           ∧ ∀ p r', (p < i)%nat → Item.labels it !! p = Some r' →
                     idOf (labels s) r' ≠ Some labelID).
Proof.
  intros Hit Hall.
  destruct (firstWithId_spec labelID s (Item.labels it) Hall) as (r & Hrun & Hr).
  exists r. split; [|exact Hr]. unfold _getLabelByID. by mstep.
Qed.

Lemma getLabelByID_first_match_witness :
  _getLabelByID 0 11 session_with_invalid
  = (Done (RObj 1%nat), session_with_invalid).
Proof.
  destruct (getLabelByID_first_match session_with_invalid 0
              (sampleItem 0 [RObj 0%nat; RObj 1%nat]) 11 eq_refl)
    as (r & Hrun & _).
  - intros r Hr.
    repeat (apply elem_of_cons in Hr as [->|Hr];
            [eexists; split; [reflexivity|cbn; lia]|]).
    by apply elem_of_nil in Hr.
  - rewrite Hrun. f_equal. f_equal.
    assert (E : _getLabelByID 0 11 session_with_invalid
                = (Done (RObj 1%nat), session_with_invalid))
      by (vm_compute; reflexivity).
    rewrite E in Hrun. by inversion Hrun.
Defined.

Lemma findLabel_none (k : Z) (s : Sat) (rs : list ref) :
  all_objects s rs → (∀ r, r ∈ rs → idOf (labels s) r ≠ Some k) →
  ∀ j, findLabel k rs j s = (Done None, s).
Proof.
  induction rs as [|r rs IH]; intros Hall Hnone j; [reflexivity|].
  destruct (Hall r (list_elem_of_here _ _)) as (b & -> & Hb).
  destruct (lookup_lt_is_Some_2 _ _ Hb) as [lb Hlb].
  cbn [findLabel]. mstep.
  assert (Hne : Label.id lb ≠ k).
  { intros E. apply (Hnone (RObj b) (list_elem_of_here _ _)).
    cbn [idOf]. by rewrite Hlb, <- E. }
  apply Z.eqb_neq in Hne. rewrite Hne. apply IH.
  - intros r Hr. by apply Hall, list_elem_of_further.
  - intros r Hr. by apply Hnone, list_elem_of_further.
Qed.

(** X18: deleting an id the item does not hold does nothing.  When no
    entry of the item's label list carries [labelId], [deleteLabelById]
    returns at once, for either direction flag: no walk is made and the
    session is as it was. *)
Theorem deleteLabelById_absent_id (fuel self : nat) (labelId : Z)
    (back : bool) (s : Sat) (it : Item.t) :
  items s !! self = Some it → all_objects s (Item.labels it) →
  (∀ r, r ∈ Item.labels it → idOf (labels s) r ≠ Some labelId) →
  deleteLabelById fuel self labelId back s = (Done tt, s).
Proof.
  intros Hit Hall Hnone. unfold deleteLabelById. mstep.
  by mstep with (findLabel_none labelId s (Item.labels it) Hall Hnone 0%nat).
Qed.

Lemma deleteLabelById_absent_id_witness :
  deleteLabelById 0 0 7 true session_with_invalid
  = (Done tt, session_with_invalid).
Proof.
  apply (deleteLabelById_absent_id 0 0 7 true session_with_invalid
           (sampleItem 0 [RObj 0%nat; RObj 1%nat]) eq_refl).
  - intros r Hr.
    repeat (apply elem_of_cons in Hr as [->|Hr];
            [eexists; split; [reflexivity|cbn; lia]|]).
    by apply elem_of_nil in Hr.
  - intros r Hr.
    repeat (apply elem_of_cons in Hr as [->|Hr]; [cbn; congruence|]).
    by apply elem_of_nil in Hr.
Defined.

Lemma firstWithId_none (k : Z) (s : Sat) (rs : list ref) :
  all_objects s rs → (∀ r, r ∈ rs → idOf (labels s) r ≠ Some k) →
  firstWithId k rs s = (Done RUndef, s).
Proof.
  intros Hall Hnone.
  destruct (firstWithId_spec k s rs Hall)
    as (r & Hrun & [[-> _]|(i & a & l & -> & Hi & Hl & Hid & _)]); [done|].
  exfalso. apply (Hnone (RObj a)); [by eapply list_elem_of_lookup_2|].
  cbn [idOf]. by rewrite Hl, <- Hid.
Qed.

Lemma firstWithId_found (k : Z) (s : Sat) (rs : list ref) (i : nat) (a : addr)
    (l : Label.t) :
  all_objects s rs →
  rs !! i = Some (RObj a) → labels s !! a = Some l → Label.id l = k →
  (∀ p r, (p < i)%nat → rs !! p = Some r → idOf (labels s) r ≠ Some k) →
  firstWithId k rs s = (Done (RObj a), s).
Proof.
  intros Hall Hi Hl Hid Hfirst.
  assert (Ha : idOf (labels s) (RObj a) = Some k)
    by (cbn [idOf]; by rewrite Hl, <- Hid).
  destruct (firstWithId_spec k s rs Hall)
    as (r & Hrun & [[-> Hnone]|(i' & a' & l' & -> & Hi' & Hl' & Hid' & Hf')]).
  - exfalso. apply (Hnone (RObj a)); [by eapply list_elem_of_lookup_2 | done].
  - destruct (Nat.lt_trichotomy i i') as [Hlt|[->|Hgt]].
    + exfalso. by apply (Hf' i (RObj a) Hlt Hi).
    + rewrite Hi in Hi'. by inversion Hi'; subst.
    + exfalso. apply (Hfirst i' (RObj a') Hgt Hi').
      cbn [idOf]. by rewrite Hl', <- Hid'.
Qed.

(** X19: a label that [deleteLabelById] has removed is no longer found.
    Under the assumptions of the chain deletion, and when the ids in the
    item's label list are distinct, [_getLabelByID] finds the label by its
    id before the deletion and returns [undefined] for this id on the item
    afterwards. *)
Theorem deleteLabelById_then_getLabelByID (fuel self i : nat) (labelId : Z)
    (s : Sat) (it : Item.t) (a : addr) (l : Label.t) :
  wf_session s →
  items s !! self = Some it →
  Item.labels it !! i = Some (RObj a) →
  labels s !! a = Some l → Label.id l = labelId →
  (∀ p r, (p < i)%nat → Item.labels it !! p = Some r →
          idOf (labels s) r ≠ Some labelId) →
  (length (items s) ≤ fuel)%nat →
  (self ≠ 0%nat →
   chain_ok s true (self - 1)
     (lookupId (labelIdMap s) (Label.previousLabelId l))) →
  ((self + 1 < length (items s))%nat →
   chain_ok s false (self + 1)
     (lookupId (labelIdMap s) (Label.nextLabelId l))) →
  NoDup (idOf (labels s) <$> Item.labels it) →
  ∃ s', deleteLabelById fuel self labelId true s = (Done tt, s')
    ∧ _getLabelByID self labelId s = (Done (RObj a), s)
    ∧ _getLabelByID self labelId s' = (Done RUndef, s').
Proof.
  intros Hwf Hit Hi Hl Hid Hfirst Hfuel Hback Hfwd Hnd.
  destruct (proj1 Hwf self it Hit) as (_ & Hall & _).
  eexists. split;
    [by apply (deleteLabelById_run fuel self i labelId s it a l)|].
  split.
  { unfold _getLabelByID. mstep. by eapply firstWithId_found. }
  set (s' := set_items _ s).
  set (it1 := Item.set_labels (base.delete i (Item.labels it)) it).
  assert (Hit' : items s' !! self
                 = Some (unselectIf (labels s) labelId it1)).
  { unfold s'. rewrite items_set_items, list_lookup_imap, Hit. cbn.
    unfold afterDelete. by rewrite decide_True. }
  destruct (unselectIf_fields (labels s) labelId it1) as (Hlab & _ & _).
  assert (Ha : idOf (labels s) (RObj a) = Some labelId)
    by (cbn [idOf]; by rewrite Hl, <- Hid).
  destruct (delete_index_lists (labels s) labelId (Item.labels it) i
              (RObj a) Hi Ha) as (H1 & _ & H3).
  unfold _getLabelByID. mstep with (getItem_run _ _ _ Hit').
  rewrite Hlab. change (Item.labels it1) with (base.delete i (Item.labels it)).
  apply firstWithId_none.
  - intros r Hr. apply H1 in Hr. exact (Hall r Hr).
  - intros r Hr. by apply H3.
Qed.

Lemma deleteLabelById_then_getLabelByID_witness :
  ∃ s', deleteLabelById 3 1 1 true session_chain = (Done tt, s')
    ∧ _getLabelByID 1 1 session_chain = (Done (RObj 1%nat), session_chain)
    ∧ _getLabelByID 1 1 s' = (Done RUndef, s').
Proof.
  apply (deleteLabelById_then_getLabelByID 3 1 0 1 session_chain
           (sampleItem 1 [RObj 1%nat]) 1 (chainLabel 1 (Some 0) (Some 2))).
  - exact session_chain_wf.
  - reflexivity.
  - reflexivity.
  - reflexivity.
  - reflexivity.
  - intros p r Hp. lia.
  - cbn. lia.
  - intros _. exact session_chain_ok_back.
  - intros _. exact session_chain_ok_fwd.
  - apply (bool_decide_unpack _). vm_compute. exact I.
Defined.
(** ** Pointer press *)

Lemma isWithinFrame_run (withinFrame : bool) (self : nat) (s : Sat)
    (it : Item.t) (st : istate) :
  items s !! self = Some it → Item.state it = Some st →
  _isWithinFrame withinFrame self s = (Done withinFrame, s).
Proof. intros Hit Hst. unfold _isWithinFrame. mstep. by rewrite Hst. Qed.

Lemma getSelected_run (self : nat) (px : Pixel) (s : Sat) (it : Item.t)
    (st : istate) :
  items s !! self = Some it → Item.state it = Some st →
  _getSelected self px s
  = (Done (default RUndef
             ((if px_a px =? 0 then None else Some (px_r px * 256 + px_g px))
                ≫= lookupZ (Item.labels it)),
           if px_a px =? 0 then None else Some (px_b px - 1)), s).
Proof.
  intros Hit Hst. unfold _getSelected. mstep.
  mstep with (canvas_run _ _ _ Hst). by rewrite ret_run.
Qed.

Lemma newLabel_run (LabelType : Z → Label.t) (s : Sat) (c : nat)
    (it : Item.t) :
  currentItem s = Some c → items s !! c = Some it →
  newLabel LabelType s
  = (Done (length (labels s)),
     set_items (λ its,
       <[c := Item.set_labels (Item.labels it ++ [RObj (length (labels s))])
                it]> its)
       (registered LabelType s)).
Proof.
  intros Hcur Hit. rewrite newLabel_split.
  assert (Hc : currentItem (registered LabelType s) = Some c) by done.
  assert (Hi : items (registered LabelType s) !! c = Some it) by done.
  mstep. rewrite Hc. cbn [defined]. mstep. mstep.
  mstep with (setItem_run_insert _ _ _ _ Hi). by rewrite ret_run.
Qed.

Lemma setItem_insert_run (q : nat) (f : Item.t → Item.t) (x : Item.t)
    (s : Sat) :
  (q < length (items s))%nat →
  setItem q f (set_items (λ its, <[q := x]> its) s)
  = (Done tt, set_items (λ its, <[q := f x]> its) s).
Proof.
  intros Hq.
  rewrite (setItem_run_insert q f x); [by rewrite set_items_insert_insert|].
  rewrite items_set_items. by apply list_lookup_insert_eq.
Qed.

Lemma getItem_insert_run (q : nat) (x : Item.t) (s : Sat) :
  (q < length (items s))%nat →
  getItem q (set_items (λ its, <[q := x]> its) s)
  = (Done x, set_items (λ its, <[q := x]> its) s).
Proof.
  intros Hq. apply getItem_run. rewrite items_set_items.
  by apply list_lookup_insert_eq.
Qed.

Lemma deref_set_items (a : addr) (l : Label.t) (f : list Item.t → list Item.t)
    (s : Sat) :
  labels s !! a = Some l →
  deref (RObj a) (set_items f s) = (Done l, set_items f s).
Proof. intros Hl. by apply deref_run. Qed.

Lemma mousedown_new_run (mousePos : Z * Z) (px : Pixel)
    (LabelType : Z → Label.t) (INITIAL_HANDLE : Z)
    (getCurrentPosition : Label.t → option (Z * Z)) (self : nat) (s : Sat)
    (it : Item.t) :
  currentItem s = Some self → items s !! self = Some it →
  Item.state it = Some Free → px_a px = 0 →
  all_objects s (Item.labels it) →
  _mousedown true mousePos px LabelType INITIAL_HANDLE getCurrentPosition
    self s
  = (Done tt,
     set_items (λ its,
       <[self := pressedNew INITIAL_HANDLE (length (labels s))
                   (Label.id (LabelType (Number.succ (lastLabelId s)))) it]>
         its)
       (registered LabelType s)).
Proof.
  intros Hcur Hit Hst Hpx Hall. unfold _mousedown.
  pose proof (lookup_lt_Some _ _ _ Hit) as Hlt.
  mstep with (isWithinFrame_run true self s it Free Hit Hst). mstep.
  rewrite Hst, bool_decide_eq_true_2 by done. cbn [andb].
  mstep with (getSelected_run self px s it Free Hit Hst).
  rewrite Hpx. change (0 =? 0) with true. cbv iota.
  cbn [mbind option_bind default fst snd].
  mstep with (setItem_run_insert _ _ _ _ Hit).
  mstep with (setItem_insert_run self _ _ s Hlt).
  mstep with (getItem_insert_run self _ s Hlt).
  cbn [truthy Item.selectedLabel Item.currHandle Item.set_currHandle
       Item.set_selectedLabel isPositive isZero andb negb].
  rewrite ?bind_assoc_run, bind_run.
  erewrite newLabel_run;
    [|exact Hcur
     |rewrite items_set_items; by apply list_lookup_insert_eq].
  cbv beta iota.
  set (it2 := Item.set_labels _ _).
  replace (set_items (λ its, <[self := it2]> its) (registered LabelType _))
    with (set_items (λ its, <[self := it2]> its) (registered LabelType s)).
  2:{ destruct s. unfold registered, set_items, set_labels, set_labelIdMap,
        set_lastLabelId. cbn. f_equal. by rewrite list_insert_insert_eq. }
  assert (Hlt' : (self < length (items (registered LabelType s)))%nat) by done.
  mstep with (setItem_insert_run self _ _ _ Hlt').
  mstep with (setItem_insert_run self _ _ _ Hlt').
  mstep with (setItem_insert_run self _ _ _ Hlt').
  assert (Hnew : labels (registered LabelType s) !! length (labels s)
                 = Some (LabelType (Number.succ (lastLabelId s)))).
  { cbn. by rewrite lookup_app_r, Nat.sub_diag. }
  replace (length (labels (set_items _ s))) with (length (labels s)) by done.
  mstep with (deref_set_items _ _ _ _ Hnew).
  mstep with (setItem_insert_run self _ _ _ Hlt').
  match goal with
  | |- redraw self (set_items (λ its, <[self := ?x]> its) _) = _ =>
    replace x with (pressedNew INITIAL_HANDLE (length (labels s))
                      (Label.id (LabelType (Number.succ (lastLabelId s)))) it)
      by (by destruct it)
  end.
  eapply (redraw_all_objects _ _ _ Resize).
  - rewrite items_set_items. by apply list_lookup_insert_eq.
  - reflexivity.
  - cbn [pressedNew Item.labels]. intros r Hr.
    apply elem_of_app in Hr as [Hr|Hr].
    + destruct (Hall r Hr) as (b & -> & Hb). exists b. split; [done|].
      cbn. rewrite length_app. lia.
    + apply list_elem_of_singleton in Hr as ->. eexists. split; [done|].
      cbn. rewrite length_app. cbn. lia.
Qed.

Lemma normalizeBox_links (l : Label.t) :
  Label.parent (normalizeBox l) = Label.parent l
  ∧ Label.children (normalizeBox l) = Label.children l
  ∧ Label.id (normalizeBox l) = Label.id l
  ∧ Label.valid (normalizeBox l) = Label.valid l.
Proof.
  unfold normalizeBox, flipH, flipW.
  destruct (Label.w l <? 0); cbn; destruct (_ <? 0); by cbn.
Qed.

(** [_mouseup] at the end of a resize that leaves a label too small, for a
    label without parent and children. *)
Lemma mouseup_small_leaf_run (fuel : nat) (isSmall : Label.t → bool)
    (INITIAL_HANDLE : Z) (self : nat) (s : Sat) (it : Item.t) (a : addr)
    (l : Label.t) :
  items s !! self = Some it → Item.state it = Some Resize →
  Item.selectedLabel it = RObj a → labels s !! a = Some l →
  isSmall (normalizeBox l) = true →
  Label.parent l = RNull → Label.children l = [] →
  all_objects s (Item.labels it) → (0 < fuel)%nat →
  _mouseup fuel isSmall INITIAL_HANDLE self s
  = (Done tt,
     set_items (λ its, <[self := released it]> its)
       (set_labels (λ ls, <[a := Label.set_valid false (normalizeBox l)]> ls)
          s)).
Proof.
  intros Hit Hst Hsel Hl Hsmall Hp Hc Hall Hfuel.
  destruct fuel as [|n]; [lia|].
  destruct (normalizeBox_links l) as (Hnp & Hnc & _).
  pose proof (lookup_lt_Some _ _ _ Hit) as Hlt.
  unfold _mouseup. mstep. rewrite Hst.
  destruct (decide (Some Resize = Some Free)) as [?|_]; [discriminate|].
  destruct (decide (Some Resize = Some Resize)) as [_|?]; [|done].
  rewrite Hsel.
  mstep with (deref_run _ _ _ Hl).
  mstep with (flipW_run _ _ _ Hl).
  pose proof (lookup_set_labels_insert a l (flipW l) s Hl) as HW.
  mstep with (deref_run _ _ _ HW).
  mstep with (flipH_run _ _ _ HW).
  rewrite set_labels_insert_insert. fold (normalizeBox l).
  pose proof (lookup_set_labels_insert a l (normalizeBox l) s Hl) as HN.
  mstep with (deref_run _ _ _ HN). rewrite Hsmall.
  rewrite ?bind_assoc_run, bind_run.
  rewrite (delete_leaf n a (normalizeBox l)); [|exact HN|congruence|congruence].
  cbv beta iota. rewrite set_labels_insert_insert.
  set (s2 := set_labels _ s).
  assert (Hit2 : items s2 !! self = Some it) by done.
  assert (Hlt2 : (self < length (items s2))%nat) by done.
  mstep with (setItem_run_insert _ _ _ _ Hit2).
  do 4 (mstep with (setItem_insert_run self _ _ _ Hlt2)).
  fold (released it).
  mstep with (getItem_insert_run self _ _ Hlt2).
  cbn [truthy released Item.selectedLabel Item.set_moveClickPos
       Item.set_movePos Item.set_resizeID Item.set_state
       Item.set_selectedLabel].
  rewrite bind_run, ret_run.
  mstep with (canvas_run _ _ _ Hst).
  eapply (redraw_all_objects _ _ _ Free).
  - rewrite items_set_items. by apply list_lookup_insert_eq.
  - reflexivity.
  - intros r Hr. destruct (Hall r) as (b & -> & Hb); [by destruct it|].
    exists b. split; [done|]. unfold s2. cbn. rewrite length_insert. lia.
Qed.

(** X20: a click leaves a dead label behind.  On the current item, active
    and idle, with no label under the pointer, [_mousedown] inside the
    frame creates a label, selects it and starts resizing it; when the
    box is still too small at [_mouseup] the label is deleted and
    unselected and the item is idle again.  But the label stays, not
    valid, as the last entry of [Sat.labels] and of the item's label list,
    its id stays registered, and [lastLabelId] has advanced (it was
    below [2^53], so the increment is not lost). *)
Theorem click_leaves_dead_label (fuel : nat) (mousePos : Z * Z) (px : Pixel)
    (LabelType : Z → Label.t) (isSmall : Label.t → bool)
    (INITIAL_HANDLE : Z) (getCurrentPosition : Label.t → option (Z * Z))
    (self : nat) (s : Sat) (it : Item.t) :
  plain_label LabelType →
  currentItem s = Some self → items s !! self = Some it →
  Item.state it = Some Free → px_a px = 0 →
  all_objects s (Item.labels it) →
  -1 ≤ lastLabelId s < 2 ^ 53 →
  isSmall (normalizeBox (LabelType (lastLabelId s + 1))) = true →
  (0 < fuel)%nat →
  let n := length (labels s) in
  let i := lastLabelId s + 1 in
  ∃ s1 s2 it2,
    _mousedown true mousePos px LabelType INITIAL_HANDLE getCurrentPosition
      self s = (Done tt, s1)
    ∧ _mouseup fuel isSmall INITIAL_HANDLE self s1 = (Done tt, s2)
    ∧ labels s2
      = labels s ++ [Label.set_valid false (normalizeBox (LabelType i))]
    ∧ lastLabelId s2 = i
    ∧ labelIdMap s2 !! i = Some n
    ∧ items s2 !! self = Some it2
    ∧ Item.labels it2 = Item.labels it ++ [RObj n]
    ∧ Item.state it2 = Some Free
    ∧ Item.selectedLabel it2 = RNull
    ∧ visible s2 (RObj n) = false.
Proof.
  intros Hplain Hcur Hit Hst Hpx Hall Hbound Hsmall Hfuel n i.
  destruct (Hplain i) as (Hid & Hpar & Hch).
  pose proof (lookup_lt_Some _ _ _ Hit) as Hlt.
  pose proof (mousedown_new_run mousePos px LabelType INITIAL_HANDLE
                getCurrentPosition self s it Hcur Hit Hst Hpx Hall) as Hdown.
  rewrite (succ_exact _ Hbound), (registered_exact _ _ Hbound) in Hdown. fold i n in Hdown.
  set (s1 := set_items (λ its,
         <[self := pressedNew INITIAL_HANDLE n (Label.id (LabelType i)) it]>
           its) _) in Hdown.
  assert (Hit1 : items s1 !! self
                 = Some (pressedNew INITIAL_HANDLE n (Label.id (LabelType i))
                           it)).
  { unfold s1. rewrite items_set_items. by apply list_lookup_insert_eq. }
  assert (Hl1 : labels s1 !! n = Some (LabelType i)).
  { unfold s1, n. cbn. by rewrite lookup_app_r, Nat.sub_diag. }
  eexists s1, _, _. split; [exact Hdown|].
  split.
  { apply (mouseup_small_leaf_run fuel isSmall INITIAL_HANDLE self s1 _ n
             (LabelType i) Hit1); auto.
    cbn [pressedNew Item.labels]. intros r Hr.
    apply elem_of_app in Hr as [Hr|Hr].
    - destruct (Hall r Hr) as (b & -> & Hb). exists b. split; [done|].
      unfold s1. cbn. rewrite length_app. lia.
    - apply list_elem_of_singleton in Hr as ->. eexists. split; [done|].
      unfold s1, n. cbn. rewrite length_app. cbn. lia. }
  cbn [labels items lastLabelId labelIdMap set_items set_labels].
  split.
  { unfold s1, n. cbn.
    rewrite insert_app_r_alt, Nat.sub_diag by lia. done. }
  split; [done|]. split.
  { unfold s1. cbn. fold i. by rewrite Hid, lookup_insert_eq. }
  split.
  { apply list_lookup_insert_eq. unfold s1. cbn. by rewrite length_insert. }
  split; [done|]. split; [done|]. split; [done|].
  unfold visible. cbn [labels set_labels set_items].
  rewrite list_lookup_insert_eq by (by eapply lookup_lt_Some).
  reflexivity.
Qed.

Lemma click_leaves_dead_label_witness :
  ∃ s1 s2,
    _mousedown true (3, 4) (mkPixel 0 0 0 0) boxLabel 4 (λ _, None) 0
      session_active = (Done tt, s1)
    ∧ _mouseup 1 (isSmallBelow 5) 4 0 s1 = (Done tt, s2)
    ∧ labels s2 = [Label.set_valid false (boxLabel 0)]
    ∧ lastLabelId s2 = 0.
Proof.
  destruct (click_leaves_dead_label 1 (3, 4) (mkPixel 0 0 0 0) boxLabel
              (isSmallBelow 5) 4 (λ _, None) 0 session_active
              (activate true (sampleItem 0 [])))
    as (s1 & s2 & it2 & H1 & H2 & H3 & H4 & _).
  - intros i. by repeat split.
  - reflexivity.
  - reflexivity.
  - reflexivity.
  - reflexivity.
  - intros r Hr. by apply elem_of_nil in Hr.
  - cbn. lia.
  - reflexivity.
  - lia.
  - exists s1, s2. split; [exact H1|]. split; [exact H2|].
    split; [exact H3 | exact H4].
Defined.




(** ** Colours *)

(** The index of the shade, for an index that is a safe integer. *)
Lemma shadeIndex_safe (index : Z) :
  0 ≤ index < 2 ^ 53 →
  Number.rem (Number.floor (Number.div (Number.ofZ index) (Number.ofZ 20))) 3
  = Some (Z.rem (index / 20) 3).
Proof. intros Hi. by rewrite floor_div20. Qed.

Lemma pickColorPalette_mod (index : Z) :
  0 ≤ index < 2 ^ 53 →
  pickColorPalette index = pickColorPalette (index `mod` 60).
Proof.
  intros Hi. unfold pickColorPalette.
  change (Z.of_nat (length COLOR_PALETTE)) with 20. cbv zeta.
  pose proof (Z.mod_pos_bound index 60 ltac:(lia)) as Hb.
  rewrite !shadeIndex_safe by lia.
  assert (E1 : Z.rem index 20 = Z.rem (index `mod` 60) 20).
  { rewrite !Z.rem_mod_nonneg by lia. Z.div_mod_to_equations. lia. }
  assert (E2 : Z.rem (index / 20) 3 = Z.rem (index `mod` 60 / 20) 3).
  { rewrite !Z.rem_mod_nonneg by (try apply Z.div_pos; lia).
    Z.div_mod_to_equations. lia. }
  by rewrite E1, E2.
Qed.

Lemma sixtyColors_lookup (i : Z) :
  0 ≤ i < 60 → sixtyColors !! Z.to_nat i = Some (pickColorPalette i).
Proof.
  intros Hi. unfold sixtyColors. rewrite list_lookup_fmap.
  rewrite lookup_seq_lt by lia. cbn. by rewrite Z2Nat.id by lia.
Qed.

Lemma sixtyColors_bytes : forallb isByteColor sixtyColors = true.
Proof. vm_compute. reflexivity. Qed.

Lemma sixtyColors_distinct : NoDup sixtyColors.
Proof. apply (bool_decide_unpack _). vm_compute. exact I. Qed.

(** X23: the palette has sixty colours.  For an index that is a safe
    integer, from 0 to below [2^53], [pickColorPalette] returns a colour
    whose channels are integers from 0 to 255; the colour depends on the
    index modulo 60 only; and two such indices get the same colour only if
    they agree modulo 60: the tints and shades of the twenty palette
    entries are all different. *)
Theorem pickColorPalette_sixty_colours (index : Z) :
  0 ≤ index < 2 ^ 53 →
  (∃ r g b, pickColorPalette index = Done (Some (Int r, Int g, Int b))
     ∧ isByte r ∧ isByte g ∧ isByte b)
  ∧ pickColorPalette index = pickColorPalette (index `mod` 60)
  ∧ (index + 60 < 2 ^ 53 →
     pickColorPalette (index + 60) = pickColorPalette index)
  ∧ (index < 20 →
     Some (pickColorPalette index)
     = (λ c, Done (Some (paletteColor c)))
       <$> COLOR_PALETTE !! Z.to_nat index)
  ∧ (∀ index', 0 ≤ index' < 2 ^ 53 →
       pickColorPalette index' = pickColorPalette index →
       index' `mod` 60 = index `mod` 60).
Proof.
  intros Hi. pose proof (Z.mod_pos_bound index 60 ltac:(lia)) as Hb.
  split; [|split; [|split; [|split]]].
  - rewrite (pickColorPalette_mod index Hi).
    pose proof sixtyColors_bytes as H. rewrite forallb_forall in H.
    assert (Hin : In (pickColorPalette (index `mod` 60)) sixtyColors).
    { apply list_elem_of_In. eapply list_elem_of_lookup_2.
      by apply sixtyColors_lookup. }
    apply H in Hin.
    destruct (pickColorPalette (index `mod` 60))
      as [[[[[r|] [g|]] [b|]]|]| |]; try discriminate Hin.
    exists r, g, b. split; [done|]. cbn in Hin. unfold isByte.
    repeat (apply andb_true_iff in Hin as [Hin ?]). lia.
  - by apply pickColorPalette_mod.
  - intros Hlt. rewrite (pickColorPalette_mod (index + 60)) by lia.
    rewrite (pickColorPalette_mod index) by lia.
    f_equal. rewrite <- (Z.mul_1_l 60) at 1. by rewrite Z.mod_add.
  - intros Hlt.
    assert (H : ∀ i, (i < 20)%nat →
              Some (pickColorPalette (Z.of_nat i))
              = (λ c, Done (Some (paletteColor c))) <$> COLOR_PALETTE !! i).
    { intros i Hi20. do 20 (destruct i as [|i]; [vm_compute; reflexivity|]).
      lia. }
    rewrite <- (Z2Nat.id index) at 1 by lia. apply H. lia.
  - intros index' Hi' Heq.
    rewrite (pickColorPalette_mod index' Hi') in Heq.
    rewrite (pickColorPalette_mod index Hi) in Heq.
    pose proof (Z.mod_pos_bound index' 60 ltac:(lia)) as Hb'.
    assert (Z.to_nat (index' `mod` 60) = Z.to_nat (index `mod` 60)); [|lia].
    eapply (NoDup_lookup _ _ _ _ sixtyColors_distinct).
    + by apply sixtyColors_lookup.
    + rewrite Heq. by apply sixtyColors_lookup.
Qed.

Lemma pickColorPalette_sixty_colours_witness :
  pickColorPalette 80 = pickColorPalette 20
  ∧ pickColorPalette 20 = Done (Some (Int 121, Int 173, Int 210)).
Proof.
  split.
  - apply (proj1 (proj2 (proj2 (pickColorPalette_sixty_colours 20
                                 ltac:(lia))))). lia.
  - vm_compute. reflexivity.
Defined.

(** Beyond [2^53] the quotient by twenty is rounded before it is floored,
    and the shade no longer follows the index modulo 60: [2^56] is 16
    modulo 60, a plain colour, and is tinted. *)
Lemma pickColorPalette_beyond_safe :
  2 ^ 56 `mod` 60 = 16
  ∧ pickColorPalette 16 = Done (Some (Int 188, Int 189, Int 34))
  ∧ pickColorPalette (2 ^ 56) = Done (Some (Int 215, Int 215, Int 122)).
Proof. vm_compute. repeat split. Qed.

(** X24: the palette below zero.  For a negative index [pickColorPalette]
    does not wrap around: the remainder keeps the sign, so the colour is
    [undefined], except for the multiples of twenty, which get the first
    palette entry, never tinted or shaded.  It does not throw. *)
Theorem pickColorPalette_negative_index (index : Z) :
  index < 0 →
  pickColorPalette index
  = Done (if Z.rem index 20 =? 0 then Some (Int 31, Int 119, Int 180)
          else None).
Proof.
  intros Hi. unfold pickColorPalette.
  change (Z.of_nat (length COLOR_PALETTE)) with 20. cbv zeta.
  pose proof (shadeIndex_negative index) as Hs.
  destruct (Number.rem _ 3) as [v|].
  - specialize (Hs v Hi eq_refl).
    rewrite !bool_decide_eq_false_2 by (intros [= ->]; lia).
    assert (H2 : Z.rem index 20 ≤ 0) by (apply Z.rem_nonpos; lia).
    destruct (Z.eqb_spec (Z.rem index 20) 0) as [->|Hne]; [reflexivity|].
    unfold lookupZ. destruct (Z.ltb_spec (Z.rem index 20) 0); [done|lia].
  - rewrite !bool_decide_eq_false_2 by done.
    assert (H2 : Z.rem index 20 ≤ 0) by (apply Z.rem_nonpos; lia).
    destruct (Z.eqb_spec (Z.rem index 20) 0) as [->|Hne]; [reflexivity|].
    unfold lookupZ. destruct (Z.ltb_spec (Z.rem index 20) 0); [done|lia].
Qed.

Lemma pickColorPalette_negative_index_witness :
  pickColorPalette (-1) = Done None.
Proof. apply (pickColorPalette_negative_index (-1)). lia. Defined.

Lemma getRoot_more_fuel (n : nat) :
  ∀ n' a s r s', getRoot n a s = (Done r, s') → (n ≤ n')%nat →
                 getRoot n' a s = (Done r, s').
Proof.
  induction n as [|n IH]; intros n' a s r s' H Hle; [discriminate|].
  destruct n' as [|n']; [lia|]. cbn [getRoot] in *.
  apply bind_Done in H as (l & s1 & Hd & H).
  apply deref_Done in Hd as (-> & a' & [= <-] & Hl). mstep.
  destruct (Label.parent l) as [| |p]; try done.
  apply (IH n'); [done | lia].
Qed.

Lemma getRoot_ancestor (s : Sat) (b a : addr) :
  ancestor (labels s) b a →
  ∀ n r, getRoot n a s = (Done r, s) →
         ∃ m, getRoot m b s = (Done r, s).
Proof.
  induction 1 as [a|b p a (l & Hl & Hp) _ IH]; intros n r Hr; [eauto|].
  destruct (IH n r Hr) as [m Hm]. exists (S m).
  cbn [getRoot]. mstep. by rewrite Hp.
Qed.

(** X25: a label has the colour of its root.  On a forest whose ranks are
    at most [R], [color] on a label returns within [R + 1] calls of
    [getRoot]: the palette colour of the id of the root of its tree.  So a
    label and each of its ancestors have the same colour. *)
Theorem color_is_the_roots (rank : addr → nat) (R fuel : nat) (a b : addr)
    (s : Sat) :
  forest (labels s) rank →
  (∀ x, (x < length (labels s))%nat → (rank x ≤ R)%nat) →
  (b < length (labels s))%nat → (R < fuel)%nat →
  ancestor (labels s) b a →
  ∃ r lr, labels s !! r = Some lr ∧ Label.parent lr = RNull
    ∧ ancestor (labels s) a r
    ∧ color fuel b s = (pickColorPalette (Label.id lr), s)
    ∧ color fuel a s = (pickColorPalette (Label.id lr), s).
Proof.
  intros Hf HR Hb Hfuel Hanc.
  assert (Ha : (a < length (labels s))%nat).
  { clear -Hanc Hb Hf. induction Hanc as [a|b p a (l & Hl & Hp) _ IH]; [done|].
    apply IH. destruct (Hf b l Hl) as [_ [Hn|(p' & Hp' & Hlt & _)]];
      congruence. }
  destruct (getRoot_total rank R fuel a s Hf HR Ha) as (r & lr & Hra & Hr & Hn & Har);
    [lia|].
  destruct (getRoot_total rank R fuel b s Hf HR Hb) as (r' & lr' & Hrb & _);
    [lia|].
  destruct (getRoot_ancestor s b a Hanc fuel r Hra) as [m Hm].
  assert (r' = r) as ->.
  { destruct (Nat.le_ge_cases m fuel) as [Hle|Hge].
    - rewrite (getRoot_more_fuel m fuel b s r s Hm Hle) in Hrb.
      by inversion Hrb.
    - rewrite (getRoot_more_fuel fuel m b s r' s Hrb Hge) in Hm.
      by inversion Hm. }
  exists r, lr. split; [done|]. split; [done|]. split; [done|].
  unfold color. split.
  - mstep with Hrb. by mstep.
  - mstep with Hra. by mstep.
Qed.

Lemma color_is_the_roots_witness :
  color 3 3 session_tree = (Done (Some (Int 31, Int 119, Int 180)), session_tree)
  ∧ color 3 1 session_tree = color 3 3 session_tree.
Proof.
  destruct (color_is_the_roots _ 2 3 1 3 session_tree session_tree_forest)
    as (r & lr & _ & _ & _ & H3 & H1).
  - intros x Hx. destruct x as [|[|x]]; cbn; lia.
  - cbn. lia.
  - lia.
  - eapply rtc_l; [|apply rtc_refl]. eexists. split; reflexivity.
  - split.
    + vm_compute. reflexivity.
    + by rewrite H1, H3.
Defined.
(** ** Loading: the edges *)

(** X26: a document without items cannot be loaded.  On a fresh session
    [decodeBaseJson] then throws when it activates the first item: the
    labels of the document have been constructed and registered by then,
    but no pointer has been resolved, there is no current item, and no
    event has been logged. *)
Theorem load_without_items_throws (now start : Z) (json : SatJson.t) :
  SatJson.items json = [] →
  ∃ s', decodeBaseJson now json (Sat_new start) = (Throw, s')
    ∧ labels s' = decoded <$> default [] (SatJson.labels json)
    ∧ items s' = [] ∧ currentItem s' = None ∧ events s' = []
    ∧ (∀ k e, default [] (SatJson.labels json) !! k = Some e →
         parent_at s' k = Some RNull).
Proof.
  intros Hjs. unfold decodeBaseJson. rewrite Hjs.
  set (ls := default [] (SatJson.labels json)).
  pose proof (pass1_frame ls (Sat_new start)) as HF.
  set (s1 := foldl afterLabel (Sat_new start) ls) in *. cbn in HF.
  exists s1. split.
  - mstep with (pass1_run ls (Sat_new start)). fold s1.
    cbn [forM_]. mstep. mstep. mstep. mstep.
    rewrite HF. reflexivity.
  - rewrite HF. cbn. repeat split. intros k e Hk.
    unfold parent_at. cbn. by rewrite list_lookup_fmap, Hk.
Qed.

Lemma load_without_items_throws_witness :
  ∃ s', decodeBaseJson 0
          (SatJson.mk None 0 [] (Some [LabelJson.mk 1 None (-1) None 0 0 None])
             None [] "agent" None) (Sat_new 0) = (Throw, s')
    ∧ labels s' = [decoded (LabelJson.mk 1 None (-1) None 0 0 None)].
Proof.
  destruct (load_without_items_throws 0 0
              (SatJson.mk None 0 [] (Some [LabelJson.mk 1 None (-1) None 0 0 None])
                 None [] "agent" None) eq_refl) as (s' & H1 & H2 & _).
  exists s'. split; [exact H1 | exact H2].
Defined.

Lemma loaded_lastLabelId (ls : list LabelJson.t) (s : Sat) :
  lastLabelId s ≤ lastLabelId (foldl afterLabel s ls)
  ∧ ∀ e, e ∈ ls → LabelJson.id e ≤ lastLabelId (foldl afterLabel s ls).
Proof.
  revert s. induction ls as [|j ls IH]; intros s.
  - split; [done|]. intros e He. by apply elem_of_nil in He.
  - cbn [foldl]. destruct (IH (afterLabel s j)) as [H1 H2].
    assert (Hj : Z.max (lastLabelId s) (LabelJson.id j)
                 ≤ lastLabelId (foldl afterLabel (afterLabel s j) ls)) by done.
    split; [lia|]. intros e He.
    apply elem_of_cons in He as [->|He]; [lia | by apply H2].
Qed.

Lemma loaded_lastLabelId_below (B : Z) (ls : list LabelJson.t) (s : Sat) :
  lastLabelId s < B → (∀ e, e ∈ ls → LabelJson.id e < B) →
  lastLabelId (foldl afterLabel s ls) < B.
Proof.
  revert s. induction ls as [|j ls IH]; intros s Hs Hls; [done|].
  cbn [foldl]. apply IH.
  - cbn. specialize (Hls j (list_elem_of_here _ _)). lia.
  - intros e He. by apply Hls, list_elem_of_further.
Qed.

(** X27: a label created after loading gets an unused id.  After a fresh
    session has decoded a document whose label ids are below [2^53],
    [newLabel] returns a label whose id is above every label id of the
    document (and not negative), so it is none of them; the label is
    pushed on the first item, which is the current one. *)
Theorem load_then_newLabel (now start : Z) (json : SatJson.t)
    (LabelType : Z → Label.t) :
  passes_id LabelType →
  NoDup (idsOf json) → SatJson.items json ≠ [] →
  (∀ i, i ∈ idsOf json → i < 2 ^ 53) →
  ∃ s' s'' n l it,
    decodeBaseJson now json (Sat_new start) = (Done tt, s')
    ∧ newLabel LabelType s' = (Done n, s'')
    ∧ labels s'' !! n = Some l
    ∧ 0 ≤ Label.id l ∧ (Label.id l ∉ idsOf json)
    ∧ (∀ i, i ∈ idsOf json → i < Label.id l)
    ∧ labelIdMap s'' !! Label.id l = Some n
    ∧ items s'' !! 0%nat = Some it
    ∧ last (Item.labels it) = Some (RObj n).
Proof.
  intros Hid Hnd Hjs Hsafe.
  set (s' := loadedSession now start json).
  destruct (SatJson.items json) as [|j0 js] eqn:Ejs; [done|].
  assert (Hcur : currentItem s' = Some 0%nat) by done.
  destruct (loaded_item now start json 0 j0) as (it0 & Hit0 & _);
    [by rewrite Ejs|]. fold s' in Hit0.
  destruct (loaded_lastLabelId (default [] (SatJson.labels json))
              (Sat_new start)) as [Hlo Hhi].
  assert (Hlast : lastLabelId s'
                  = lastLabelId (foldl afterLabel (Sat_new start)
                                   (default [] (SatJson.labels json)))) by done.
  assert (Hbound : -1 ≤ lastLabelId s' < 2 ^ 53).
  { rewrite Hlast. split; [exact Hlo|].
    apply loaded_lastLabelId_below; [cbn; lia|].
    intros e He. apply Hsafe. unfold idsOf.
    apply list_elem_of_fmap. by exists e. }
  assert (Hbelow : ∀ i, i ∈ idsOf json → i < lastLabelId s' + 1).
  { intros i Hi. unfold idsOf in Hi.
    apply list_elem_of_fmap in Hi as (e & -> & He).
    rewrite Hlast. specialize (Hhi e He). lia. }
  pose proof (newLabel_run LabelType s' 0 it0 Hcur Hit0) as Hnew.
  rewrite (registered_exact _ _ Hbound) in Hnew.
  eexists s', _, _, (LabelType (lastLabelId s' + 1)), _.
  split; [apply decodeBaseJson_fresh; [done | by rewrite Ejs]|].
  split; [exact Hnew|].
  rewrite !(Hid (lastLabelId s' + 1)). cbn [labels items labelIdMap set_items].
  split; [cbn; by rewrite lookup_app_r, Nat.sub_diag|].
  split; [lia|].
  split; [intros Hin; apply Hbelow in Hin; lia|].
  split; [exact Hbelow|].
  split; [cbn; by rewrite lookup_insert_eq|].
  split.
  - apply list_lookup_insert_eq. by eapply lookup_lt_Some.
  - cbn. apply last_snoc.
Qed.

Lemma load_then_newLabel_witness :
  ∃ s' s'' n l,
    decodeBaseJson 0 doc_track (Sat_new 0) = (Done tt, s')
    ∧ newLabel boxLabel s' = (Done n, s'')
    ∧ labels s'' !! n = Some l ∧ Label.id l ∉ idsOf doc_track.
Proof.
  destruct (load_then_newLabel 0 0 doc_track boxLabel)
    as (s' & s'' & n & l & it & H1 & H2 & H3 & _ & H4 & _).
  - intros i. reflexivity.
  - apply (bool_decide_unpack _). vm_compute. exact I.
  - discriminate.
  - intros i Hi. cbn in Hi.
    repeat (apply elem_of_cons in Hi as [->|Hi]; [lia|]).
    by apply elem_of_nil in Hi.
  - exists s', s'', n, l. split; [exact H1|]. split; [exact H2|].
    split; [exact H3 | exact H4].
Defined.
(** ** The event log *)

#[global] Instance log_kept_preorder : PreOrder log_kept.
Proof.
  split; [intros s; reflexivity
         | intros s1 s2 s3 H1 H2; unfold log_kept in *; congruence].
Qed.

#[global] Instance log_grows_preorder : PreOrder log_grows.
Proof.
  split; [intros s; unfold log_grows; reflexivity
         | intros s1 s2 s3 H1 H2; unfold log_grows in *; by etrans].
Qed.

Lemma log_kept_setItem (i : nat) (f : Item.t → Item.t) :
  preserves log_kept (setItem i f).
Proof. by intros s. Qed.

Lemma log_kept_setLabel (a : addr) (f : Label.t → Label.t) :
  preserves log_kept (setLabel a f).
Proof. by intros s. Qed.

Lemma log_kept_modify (f : Sat → Sat) :
  (∀ s, events (f s) = events s) → preserves log_kept (modify f).
Proof. intros H s. apply H. Qed.

(** The steps of a computation, taken apart for [log_kept]. *)
Ltac log_step :=
  repeat first
    [ pbind; [| intros ?]
    | apply log_kept_setItem
    | apply log_kept_setLabel
    | apply log_kept_modify; intros ?; reflexivity
    | solve [pread]
    | apply preserves_forM_; [apply _ | intros ? _]
    | match goal with
      | |- preserves _ (if ?b then _ else _) => destruct b
      | |- preserves _ (match ?o with _ => _ end) => destruct o
      end ].

Lemma log_kept_delete (fuel : nat) : ∀ a, preserves log_kept (delete fuel a).
Proof.
  induction fuel as [|n IH]; intros a; [by intros s|].
  cbn [delete]. unfold deleteParent, deleteChild. log_step; apply IH.
Qed.

Lemma log_kept_unselect (cur : nat) (k : M Z) :
  readonly k → preserves log_kept (unselect cur k).
Proof. intros Hk. unfold unselect. log_step. Qed.

Lemma log_kept_spliceLoop (n : nat) (cur : nat) (c : ref) :
  ∀ j, preserves log_kept (spliceLoop n cur c j).
Proof.
  induction n as [|n IH]; intros j; cbn [spliceLoop]; log_step;
    first [apply IH | apply log_kept_unselect; readonly_step].
Qed.

Lemma log_kept_chainWalk (fuel : nat) (backward : bool) :
  ∀ cur c, preserves log_kept (chainWalk fuel backward cur c).
Proof.
  induction fuel as [|n IH]; intros cur c; cbn [chainWalk]; log_step;
    try apply log_kept_spliceLoop; try apply IH.
Qed.

Lemma log_kept_deleteLabelById (fuel self : nat) (labelId : Z) (back : bool) :
  preserves log_kept (deleteLabelById fuel self labelId back).
Proof.
  unfold deleteLabelById. log_step; try apply log_kept_chainWalk;
    try (apply log_kept_unselect; readonly_step).
Qed.

Lemma log_kept_setActive (self : nat) (active : bool) :
  preserves log_kept (setActive self active).
Proof. unfold setActive. log_step. Qed.

Lemma log_kept_gotoItem (index : Z) : preserves log_kept (gotoItem index).
Proof. unfold gotoItem. log_step; apply log_kept_setActive. Qed.

Lemma log_kept_selectWalk (fuel : nat) (INITIAL_HANDLE : Z) (backward : bool) :
  ∀ cur c, preserves log_kept (selectWalk fuel INITIAL_HANDLE backward cur c).
Proof.
  induction fuel as [|n IH]; intros cur c; cbn [selectWalk]; log_step;
    apply IH.
Qed.

Lemma log_kept_mouseup (fuel : nat) (isSmall : Label.t → bool)
    (INITIAL_HANDLE : Z) (self : nat) :
  preserves log_kept (_mouseup fuel isSmall INITIAL_HANDLE self).
Proof.
  unfold _mouseup. log_step;
    try apply log_kept_delete; try apply log_kept_selectWalk.
Qed.

Lemma log_kept_newLabel (LabelType : Z → Label.t) :
  preserves log_kept (newLabel LabelType).
Proof. unfold newLabel, newLabelId. log_step. Qed.

Lemma readonly_isWithinFrame (w : bool) (self : nat) :
  readonly (_isWithinFrame w self).
Proof. unfold _isWithinFrame. readonly_step. Qed.

Lemma readonly_getSelected (self : nat) (px : Pixel) :
  readonly (_getSelected self px).
Proof. unfold _getSelected. readonly_step. Qed.

#[export] Hint Resolve readonly_isWithinFrame readonly_getSelected : readonly.

Lemma log_kept_mousedown (withinFrame : bool) (mousePos : Z * Z)
    (px : Pixel) (LabelType : Z → Label.t) (INITIAL_HANDLE : Z)
    (getCurrentPosition : Label.t → option (Z * Z)) (self : nat) :
  preserves log_kept
    (_mousedown withinFrame mousePos px LabelType INITIAL_HANDLE
       getCurrentPosition self).
Proof. unfold _mousedown. log_step; apply log_kept_newLabel. Qed.

Lemma log_grows_decodeBaseJson (now : Z) (json : SatJson.t) :
  preserves log_grows (decodeBaseJson now json).
Proof.
  assert (Hk : ∀ A (m : M A), preserves log_kept m → preserves log_grows m).
  { intros A m Hm s. unfold log_grows. by rewrite (Hm s). }
  unfold decodeBaseJson.
  repeat (pbind; [apply Hk | intros ?]).
  - apply preserves_forM_; [apply _|]. intros j _. unfold decodeLabel.
    log_step.
  - apply preserves_forM_; [apply _|]. intros j _.
    unfold decodeItem, newItem, SatItem_fromJson. log_step.
  - log_step.
  - log_step.
  - log_step.
  - log_step.
  - apply log_kept_setActive.
  - log_step.
  - apply preserves_forM_; [apply _|]. intros j _.
    unfold decodePointers, decodeBaseJsonPointers, addChild. log_step.
  - log_step.
  - log_step.
  - log_step.
  - intros s. unfold addEvent, log_grows. cbn. by apply prefix_app_r.
Qed.

(** X28: what is logged.  [delete], [deleteLabelById], [gotoItem],
    [newLabel], [_mousedown] and [_mouseup] leave the event log as it is,
    however they end: deletions, navigation and edits are not logged.
    [decodeBaseJson] only appends to the log, and [loaded] marks the item
    ready and appends one event, ['loaded'] with the item's index. *)
Theorem event_log_only_grows (s : Sat) :
  (∀ fuel a, events (snd (delete fuel a s)) = events s)
  ∧ (∀ fuel self labelId back,
       events (snd (deleteLabelById fuel self labelId back s)) = events s)
  ∧ (∀ index, events (snd (gotoItem index s)) = events s)
  ∧ (∀ LabelType, events (snd (newLabel LabelType s)) = events s)
  ∧ (∀ withinFrame mousePos px LabelType INITIAL_HANDLE getCurrentPosition
       self,
       events (snd (_mousedown withinFrame mousePos px LabelType
                      INITIAL_HANDLE getCurrentPosition self s)) = events s)
  ∧ (∀ fuel isSmall INITIAL_HANDLE self,
       events (snd (_mouseup fuel isSmall INITIAL_HANDLE self s)) = events s)
  ∧ (∀ now json,
       events s `prefix_of` events (snd (decodeBaseJson now json s)))
  ∧ (∀ now self it, items s !! self = Some it →
       ∃ s', loaded now self s = (Done tt, s')
         ∧ events s' = events s ++ [mkEvent now "loaded" (Item.index it)
                                      (-1) None]
         ∧ items s' = <[self := Item.set_ready true it]> (items s)).
Proof.
  repeat apply conj; intros.
  - apply log_kept_delete.
  - apply log_kept_deleteLabelById.
  - apply log_kept_gotoItem.
  - apply log_kept_newLabel.
  - apply log_kept_mousedown.
  - apply log_kept_mouseup.
  - apply log_grows_decodeBaseJson.
  - unfold loaded. eexists. split.
    + mstep with (setItem_run_insert _ _ _ _ H).
      erewrite bind_run, getItem_insert_run by (by eapply lookup_lt_Some).
      cbv beta iota. unfold addEvent. rewrite modify_run. reflexivity.
    + split; reflexivity.
Qed.

(** ** Releasing the pointer on a tracked label *)

(** X29: releasing the pointer on a tracked label whose chain has a gap
    throws.  Let the item be idle or in a move, not the first one, its
    selected label have a parent, and the previous label of the selected
    label be [undefined].  Then [_mouseup] ends the interaction, assigns
    [undefined] as the selection of the item before, and throws when it
    reads the handle of that selection. *)
Theorem mouseup_chain_gap_throws (fuel : nat) (isSmall : Label.t → bool)
    (INITIAL_HANDLE : Z) (self : nat) (s : Sat) (it itp : Item.t) (a : addr)
    (l : Label.t) (st : istate) :
  items s !! self = Some it → Item.index it = Z.of_nat self →
  Item.state it = Some st → st ≠ Resize →
  Item.selectedLabel it = RObj a → labels s !! a = Some l →
  truthy (Label.parent l) = true →
  self ≠ 0%nat → items s !! (self - 1)%nat = Some itp →
  lookupId (labelIdMap s) (Label.previousLabelId l) = RUndef →
  (0 < fuel)%nat →
  _mouseup fuel isSmall INITIAL_HANDLE self s
  = (Throw,
     set_items (λ its,
       <[(self - 1)%nat := Item.set_selectedLabel RUndef itp]>
         (<[self := if decide (st = Free) then it else idle it]> its)) s).
Proof.
  intros Hit Hidx Hst Hnr Hsel Hl Hpar Hself Hitp Hprev Hfuel.
  pose proof (lookup_lt_Some _ _ _ Hit) as Hlt.
  destruct fuel as [|n]; [lia|].
  unfold _mouseup. mstep. rewrite Hst.
  set (it1 := if decide (st = Free) then it else idle it).
  assert (Hfirst :
    (if decide (Some st = Some Free) then mret tt
     else
       (if decide (Some st = Some Resize) then
          sl ← deref (Item.selectedLabel it);
          match Item.selectedLabel it with
          | RObj a =>
            (if Label.w sl <? 0 then
               setLabel a (λ l, Label.set_box (Label.x l + Label.w l)
                                  (Label.y l) (Label.w l) (Label.h l) l);;
               setLabel a (λ l, Label.set_box (Label.x l) (Label.y l)
                                  (-1 * Label.w l) (Label.h l) l)
             else mret tt);;
            sl1 ← deref (RObj a);
            (if Label.h sl1 <? 0 then
               setLabel a (λ l, Label.set_box (Label.x l)
                                  (Label.y l + Label.h l) (Label.w l)
                                  (Label.h l) l);;
               setLabel a (λ l, Label.set_box (Label.x l) (Label.y l)
                                  (Label.w l) (-1 * Label.h l) l)
             else mret tt);;
            sl2 ← deref (RObj a);
            if isSmall sl2 then
              delete (S n) a;;
              setItem self (Item.set_selectedLabel RNull)
            else mret tt
          | _ => throw
          end
        else mret tt);;
       setItem self (Item.set_state (Some Free));;
       setItem self (Item.set_resizeID None);;
       setItem self (Item.set_movePos None);;
       setItem self (Item.set_moveClickPos None)) s
    = (Done tt, set_items (λ its, <[self := it1]> its) s)).
  { unfold it1. destruct (decide (st = Free)) as [->|Hnf].
    - rewrite decide_True by done. rewrite ret_run.
      by rewrite set_items_insert_id.
    - rewrite decide_False by congruence.
      rewrite (decide_False (P := Some st = Some Resize)) by congruence.
      mstep. mstep with (setItem_run_insert _ _ _ _ Hit).
      do 2 (mstep with (setItem_insert_run self _ _ s Hlt)).
      by rewrite (setItem_insert_run self _ _ s Hlt). }
  mstep with Hfirst. clear Hfirst.
  assert (Hsel1 : Item.selectedLabel it1 = RObj a).
  { unfold it1. by destruct (decide (st = Free)). }
  assert (Hidx1 : Item.index it1 = Z.of_nat self).
  { unfold it1. by destruct (decide (st = Free)). }
  mstep with (getItem_insert_run self it1 s Hlt).
  rewrite Hsel1. cbn [truthy].
  mstep with (deref_set_items _ _ _ _ Hl). rewrite Hpar.
  mstep. cbn [labelIdMap set_items].
  set (s1 := set_items _ s).
  assert (Hit1 : items s1 !! self = Some it1).
  { unfold s1. rewrite items_set_items. by apply list_lookup_insert_eq. }
  mstep with (previousItem_run self s1 it1 Hit1 Hidx1).
  rewrite decide_False by done. rewrite Hprev.
  cbn [selectWalk].
  assert (Hitp1 : items s1 !! (self - 1)%nat = Some itp).
  { unfold s1. rewrite items_set_items, list_lookup_insert_ne by lia. done. }
  rewrite ?bind_assoc_run. mstep with (getItem_run _ _ _ Hitp1).
  mstep with (setItem_run_insert _ _ _ _ Hitp1).
  unfold s1. rewrite set_items_set_items. reflexivity.
Qed.

Lemma mouseup_chain_gap_throws_witness :
  fst (_mouseup 1 (isSmallBelow 5) 4 1 session_late_track) = Throw
  ∧ (Item.selectedLabel
       <$> items (snd (_mouseup 1 (isSmallBelow 5) 4 1 session_late_track))
           !! 0%nat) = Some RUndef.
Proof.
  rewrite (mouseup_chain_gap_throws 1 (isSmallBelow 5) 4 1 session_late_track
             (Item.mk 1 "img" [RObj 0%nat] true true (Some Move) (Some (-1))
                (RObj 0%nat) (Some 0) None (Some (5, 5)) (Some (6, 6)))
             (activate false (sampleItem 0 [])) 0
             (Label.mk 2 None (RObj 1%nat) [] 0 true None None None 5 5 20 20)
             Move);
    try reflexivity; try discriminate; try lia.
  split; reflexivity.
Defined.
(** ** Deleting from the lists, then saving *)

Lemma afterDelete_fields (s : Sat) (self i : nat) (labelId : Z) (l : Label.t)
    (x : nat) (it : Item.t) :
  Item.index (afterDelete s self i labelId l x it) = Item.index it
  ∧ (∀ r, r ∈ Item.labels (afterDelete s self i labelId l x it) →
          r ∈ Item.labels it)
  ∧ (Item.selectedLabel (afterDelete s self i labelId l x it)
     = Item.selectedLabel it
     ∨ Item.selectedLabel (afterDelete s self i labelId l x it) = RNull).
Proof.
  unfold afterDelete. destruct (decide (x = self)) as [->|Hne].
  - set (it1 := Item.set_labels _ it).
    destruct (unselectIf_fields (labels s) labelId it1) as (-> & -> & Hs).
    split; [done|]. split; [|exact Hs].
    intros r Hr. unfold it1 in Hr. cbn in Hr. by eapply elem_of_delete.
  - destruct (decide (x < self)%nat); apply walked_fields.
Qed.

(** X30: [deleteLabelById] takes a label off the lists, not out of the
    document.  Under the assumptions of the chain deletion, on a session
    that [toJson] can write, with distinct ids in the item's label list
    and the label valid: after [deleteLabelById(labelId)] the document
    [toJson] writes leaves [labelId] out of the [labelIds] of the item,
    but still has the label among its labels, which carry the same ids as
    before the deletion. *)
Theorem deleteLabelById_label_is_still_saved (fuel self i : nat)
    (labelId : Z) (userAgent : string) (s : Sat) (it : Item.t) (a : addr)
    (l : Label.t) :
  wf_session s → encodable s →
  items s !! self = Some it →
  Item.labels it !! i = Some (RObj a) →
  labels s !! a = Some l → Label.id l = labelId → Label.valid l = true →
  (∀ p r, (p < i)%nat → Item.labels it !! p = Some r →
          idOf (labels s) r ≠ Some labelId) →
  (length (items s) ≤ fuel)%nat →
  (self ≠ 0%nat →
   chain_ok s true (self - 1)
     (lookupId (labelIdMap s) (Label.previousLabelId l))) →
  ((self + 1 < length (items s))%nat →
   chain_ok s false (self + 1)
     (lookupId (labelIdMap s) (Label.nextLabelId l))) →
  NoDup (idOf (labels s) <$> Item.labels it) →
  ∃ s' out out' ij ids,
    deleteLabelById fuel self labelId true s = (Done tt, s')
    ∧ toJson userAgent s = (Done out, s)
    ∧ toJson userAgent s' = (Done out', s')
    ∧ LabelJson.id <$> default [] (SatJson.labels out')
      = LabelJson.id <$> default [] (SatJson.labels out)
    ∧ labelId ∈ LabelJson.id <$> default [] (SatJson.labels out')
    ∧ SatJson.items out' !! self = Some ij
    ∧ ItemJson.labelIds ij = Some ids ∧ labelId ∉ ids.
Proof.
  intros Hwf Henc Hit Hi Hl Hid Hv Hfirst Hfuel Hback Hfwd Hnd.
  set (s' := set_items (λ its, imap (afterDelete s self i labelId l) its) s).
  assert (Hrun : deleteLabelById fuel self labelId true s = (Done tt, s'))
    by (by apply (deleteLabelById_run fuel self i labelId s it a l)).
  assert (Hwf' : wf_session s').
  { apply wf_session_imap; [|done]. intros x itx. apply afterDelete_fields. }
  assert (Henc' : encodable s').
  { split; [|exact (proj2 Henc)]. intros it' Hit'.
    apply list_elem_of_lookup in Hit' as [q Hq].
    by destruct (proj1 Hwf' q it' Hq) as (_ & Hall & _). }
  destruct (toJson_total userAgent s Henc) as [out Hout].
  destruct (toJson_total userAgent s' Henc') as [out' Hout'].
  destruct (toJson_saved _ _ _ _ Hout) as (outs & Ho & Hids & _).
  destruct (toJson_saved _ _ _ _ Hout') as (outs' & Ho' & Hids' & _).
  set (it1 := Item.set_labels (base.delete i (Item.labels it)) it).
  assert (Hit' : items s' !! self
                 = Some (unselectIf (labels s) labelId it1)).
  { unfold s'. rewrite items_set_items, list_lookup_imap, Hit. cbn.
    unfold afterDelete. by rewrite decide_True. }
  destruct (unselectIf_fields (labels s) labelId it1) as (Hlab & _ & _).
  assert (Ha : idOf (labels s) (RObj a) = Some labelId)
    by (cbn [idOf]; by rewrite Hl, <- Hid).
  destruct (delete_index_lists (labels s) labelId (Item.labels it) i
              (RObj a) Hi Ha) as (_ & _ & H3).
  destruct (toJson_Done _ _ _ _ Hout') as (itemsJ & labelsJ & HiJ & _ & Eout).
  apply mapM_Done in HiJ as [_ HiJ]; [|apply readonly_SatItem_toJson].
  assert (Hq : seq 0 (length (items s')) !! self = Some self).
  { apply lookup_seq_lt. by eapply lookup_lt_Some. }
  destruct (Forall2_lookup_l _ _ _ _ _ HiJ Hq) as (ij & Hij & Hrunj).
  apply SatItem_toJson_Done in Hrunj as (it2 & ls2 & Hit2 & Hobj2 & ->).
  rewrite Hit' in Hit2. inversion Hit2; subst it2. clear Hit2.
  eexists s', out, out', _, _.
  split; [done|]. split; [done|]. split; [done|].
  rewrite Ho, Ho'. change (default [] (Some outs')) with outs'.
  change (default [] (Some outs)) with outs.
  split; [by rewrite Hids, Hids'|]. split.
  - rewrite Hids'. apply list_elem_of_fmap. exists l. split; [done|].
    apply list_elem_of_In, filter_In. split; [|done].
    apply list_elem_of_In. by eapply list_elem_of_lookup_2.
  - split; [by rewrite Eout|]. split; [reflexivity|].
    intros Hin. apply filter_valid_id in Hin as (lc & Hlc & _ & Hidc).
    apply list_elem_of_lookup in Hlc as [n Hn].
    unfold objects in Hobj2. apply mapM_Some_1 in Hobj2.
    destruct (Forall2_lookup_r _ _ _ _ _ Hobj2 Hn) as (r & Hr & Hrl).
    rewrite Hlab in Hr. change (Item.labels it1)
      with (base.delete i (Item.labels it)) in Hr.
    apply (H3 Hnd r (list_elem_of_lookup_2 _ _ _ Hr)).
    destruct r as [| |b]; try discriminate. cbn [idOf].
    change (labels s') with (labels s) in Hrl. by rewrite Hrl, <- Hidc.
Qed.

Lemma session_chain_encodable : encodable session_chain.
Proof.
  split.
  - intros it Hit. apply list_elem_of_lookup in Hit as [q Hq].
    by destruct (proj1 session_chain_wf q it Hq) as (_ & Hall & _).
  - intros l Hl _.
    assert (E : Forall (λ l, Label.parent l = RNull ∧ Label.children l = [])
                  (labels session_chain)) by (repeat constructor).
    rewrite Forall_forall in E. destruct (E l Hl) as [Hp Hc]. split.
    + intros p Hp'. congruence.
    + rewrite Hc. intros r Hr. by apply elem_of_nil in Hr.
Qed.

Lemma deleteLabelById_label_is_still_saved_witness :
  ∃ s' out',
    deleteLabelById 3 1 1 true session_chain = (Done tt, s')
    ∧ toJson "agent" s' = (Done out', s')
    ∧ 1 ∈ LabelJson.id <$> default [] (SatJson.labels out').
Proof.
  destruct (deleteLabelById_label_is_still_saved 3 1 0 1 "agent" session_chain
              (sampleItem 1 [RObj 1%nat]) 1 (chainLabel 1 (Some 0) (Some 2)))
    as (s' & out & out' & ij & ids & H1 & _ & H3 & _ & H5 & _).
  - exact session_chain_wf.
  - exact session_chain_encodable.
  - reflexivity.
  - reflexivity.
  - reflexivity.
  - reflexivity.
  - reflexivity.
  - intros p r Hp. lia.
  - cbn. lia.
  - intros _. exact session_chain_ok_back.
  - intros _. exact session_chain_ok_fwd.
  - apply (bool_decide_unpack _). vm_compute. exact I.
  - exists s', out'. split; [exact H1|]. split; [exact H3 | exact H5].
Defined.
